(** * OSMAGIC Task Manager: the data pipeline of [src/app.js]

    A shallow embedding of the parts of [class TaskManager] that turn GPS
    traces into sequences and export them: CSV parsing ([parseCSVSync],
    [parseCSVAsync], [parseCSVLine]), sequence aggregation ([processGeoJSON],
    [processGeoJSONAsync], [calculateStats], [updateStatus]), the OSM-XML
    export ([generateJOSM], [extractCoordinates], [escapeXml]) and the
    Douglas-Peucker simplifier ([douglasPeucker], [perpendicularDistance],
    [haversineDistance]).

    The file has four parts: a model of the ECMAScript values and built-ins
    the program calls (module [JS]), the program itself, the theorems with
    the vocabulary they are stated in, and the functions around the
    pipeline (navigation, storage, upload, the GPX reader and the export
    checks) with what holds of them.

    Conventions.  A Number is a binary64 value ([spec_float]); a string is a
    sequence of code units below 256; a [Map] or an object is a list of
    entries in insertion order.  What ECMAScript leaves to the
    implementation ([Math.sin], [localeCompare], [Array.prototype.sort],
    [JSON.parse], the clock, [Math.random]) is a field of the class [Host],
    and the theorems hold for every host.  A function that may throw returns
    an [Outcome]; an asynchronous function returns, with its result, the
    progress it reported and the times it yielded. *)

From Stdlib Require Import ZArith List String Ascii Bool Lia Arith Permutation.
From Stdlib Require Import DecimalString.
From Stdlib Require Import Floats.SpecFloat.
From Equations Require Import Equations.
Import ListNotations.

Set Warnings "-register-all".

Local Open Scope string_scope.
Local Open Scope list_scope.
Local Open Scope nat_scope.

(** String concatenation, the [+] of JavaScript on strings. *)
Infix "+++" := String.append (right associativity, at level 60).

(* ===================================================================== *)
(** * Part I.  ECMAScript values and built-ins                            *)
(* ===================================================================== *)

Module JS.

(** ** Numbers

    A JavaScript Number is an IEEE 754 binary64 value.  [spec_float] with
    precision 53 and maximal exponent 1024 is exactly that set (one NaN, two
    zeros, two infinities), and the operations of [SpecFloat] round to
    nearest, ties to even, as ECMAScript prescribes. *)

Definition number : Type := spec_float.

Definition prec : Z := 53.
Definition emax : Z := 1024.

Definition nan : number := S754_nan.
Definition add : number -> number -> number := SFadd prec emax.
Definition sub : number -> number -> number := SFsub prec emax.
Definition mul : number -> number -> number := SFmul prec emax.
Definition div : number -> number -> number := SFdiv prec emax.
Definition Math_sqrt : number -> number := SFsqrt prec emax.

(** [x < y] and [x > y]; both are false as soon as one side is NaN. *)
Definition ltb (x y : number) : bool := SFltb x y.
Definition gtb (x y : number) : bool := SFltb y x.
(** [x === y] on numbers. *)
Definition strictEq (x y : number) : bool := SFeqb x y.

Definition isNaN (x : number) : bool :=
  match x with S754_nan => true | _ => false end.

(** The Number nearest to an integer (exact below 2^53). *)
Definition ofZ (z : Z) : number := binary_normalize prec emax z 0 false.
Definition ofNat (n : nat) : number := ofZ (Z.of_nat n).

(** The Number nearest to [m * 10^k], sign given apart so that "-0" keeps
    its sign.  For a negative [k] the quotient of the two integers is rounded
    once, by the division itself. *)
Definition ofDecimal (neg : bool) (m : Z) (k : Z) : number :=
  match m with
  | Zpos p =>
      if (0 <=? k)%Z
      then binary_normalize prec emax
             (cond_Zopp neg (Zpos p * 10 ^ k)%Z) 0 false
      else div (S754_finite neg p 0)
               (S754_finite false (Z.to_pos (10 ^ (- k))) 0)
  | _ => S754_zero neg
  end.

(** [Math.PI]: 0x400921FB54442D18. *)
Definition Math_PI : number := S754_finite false 7074237752028440 (-51).

(** [Math.min] and [Math.max] of two arguments: NaN is contagious and -0 is
    below +0. *)
Definition isNegZero (x : number) : bool :=
  match x with S754_zero true => true | _ => false end.

Definition Math_min (x y : number) : number :=
  if isNaN x || isNaN y then nan
  else if ltb x y then x
  else if ltb y x then y
  else if isNegZero x then x else y.

Definition Math_max (x y : number) : number :=
  if isNaN x || isNaN y then nan
  else if ltb x y then y
  else if ltb y x then x
  else if isNegZero x then y else x.

(** [Math.round]: the nearest integer, ties towards +infinity; a result of
    zero keeps the sign of the argument. *)
Definition Math_round (x : number) : number :=
  match x with
  | S754_finite s m e =>
      if (0 <=? e)%Z then x
      else
        let q := Z.shiftr (2 * cond_Zopp s (Zpos m) + 2 ^ (- e))%Z (1 - e) in
        if (q =? 0)%Z then S754_zero s else ofZ q
  | _ => x
  end.

(** ** Strings

    A string is a sequence of code units; [string] covers the code units
    0..255, and the functions below are the ECMAScript ones restricted to
    that range. *)

Definition codeOf (c : ascii) : nat := nat_of_ascii c.

(** WhiteSpace and LineTerminator code units below 256: TAB, LF, VT, FF, CR,
    SP and NBSP. *)
Definition isWhiteSpace (c : ascii) : bool :=
  let n := codeOf c in
  ((9 <=? n) && (n <=? 13)) || (n =? 32) || (n =? 160).

Fixpoint trimStart (s : string) : string :=
  match s with
  | String c r => if isWhiteSpace c then trimStart r else s
  | EmptyString => EmptyString
  end.

Definition reverse (s : string) : string :=
  string_of_list_ascii (rev (list_ascii_of_string s)).

Definition trimEnd (s : string) : string := reverse (trimStart (reverse s)).

Definition trim (s : string) : string := trimEnd (trimStart s).

(** [toLowerCase] on one code unit: A-Z, and the Latin-1 capitals
    U+00C0..U+00DE without the multiplication sign U+00D7. *)
Definition lowerChar (c : ascii) : ascii :=
  let n := codeOf c in
  if ((65 <=? n) && (n <=? 90))
     || ((192 <=? n) && (n <=? 222) && negb (n =? 215))
  then ascii_of_nat (n + 32) else c.

Fixpoint toLowerCase (s : string) : string :=
  match s with
  | String c r => String (lowerChar c) (toLowerCase r)
  | EmptyString => EmptyString
  end.

(** [s.includes(t)] *)
Fixpoint includes (s t : string) : bool :=
  prefix t s ||
  match s with
  | String _ r => includes r t
  | EmptyString => false
  end.

(** [s.split(sep)] for a one-character separator. *)
Fixpoint splitAux (sep : ascii) (s : string) (cur : list ascii)
  : list string :=
  match s with
  | String c r =>
      if Ascii.eqb c sep
      then string_of_list_ascii (rev cur) :: splitAux sep r []
      else splitAux sep r (c :: cur)
  | EmptyString => [string_of_list_ascii (rev cur)]
  end.

Definition split (sep : ascii) (s : string) : list string :=
  splitAux sep s [].

Definition newline : ascii := ascii_of_nat 10.
Definition quote : ascii := ascii_of_nat 34.
Definition dq : string := String quote EmptyString.
Definition nl : string := String newline EmptyString.

(** A string is truthy when it is not empty. *)
Definition nonEmpty (s : string) : bool :=
  match s with EmptyString => false | _ => true end.

(** Decimal digits of an integer, as a template literal prints it. *)
Definition intToString (z : Z) : string := NilZero.string_of_int (Z.to_int z).
Definition natToString (n : nat) : string := intToString (Z.of_nat n).

Fixpoint dropChars (n : nat) (s : string) : string :=
  match n, s with
  | S k, String _ r => dropChars k r
  | _, _ => s
  end.

Fixpoint zeros (n : nat) : string :=
  match n with O => EmptyString | S k => String "0" (zeros k) end.

(** ** [parseInt] and [parseFloat] *)

Definition digitOf (radix : nat) (c : ascii) : option Z :=
  let n := codeOf c in
  let v := if (48 <=? n) && (n <=? 57) then Some (n - 48)
           else if (97 <=? n) && (n <=? 122) then Some (n - 87)
           else if (65 <=? n) && (n <=? 90) then Some (n - 55)
           else None in
  match v with
  | Some d => if d <? radix then Some (Z.of_nat d) else None
  | None => None
  end.

(** The longest run of digits at the head of [s]: its value, its length and
    what follows it. *)
Fixpoint takeDigits (radix : nat) (s : string) (acc : Z) (n : nat)
  : Z * nat * string :=
  match s with
  | String c r =>
      match digitOf radix c with
      | Some d => takeDigits radix r (Z.of_nat radix * acc + d)%Z (S n)
      | None => (acc, n, s)
      end
  | EmptyString => (acc, n, s)
  end.

Definition takeSign (s : string) : bool * string :=
  match s with
  | String "-" r => (true, r)
  | String "+" r => (false, r)
  | _ => (false, s)
  end.

(** [parseInt(s)] with no radix argument. *)
Definition parseInt (s : string) : number :=
  let '(neg, s1) := takeSign (trimStart s) in
  let '(radix, s2) :=
    if prefix "0x" s1 || prefix "0X" s1 then (16, dropChars 2 s1)
    else (10, s1) in
  let '(v, n, _) := takeDigits radix s2 0 0 in
  match n with
  | O => nan
  | S _ => if (v =? 0)%Z then S754_zero neg
           else binary_normalize prec emax (cond_Zopp neg v) 0 false
  end.

(** The exponent part of a decimal literal: [e] or [E], an optional sign and
    at least one digit; without a digit the literal ends before the [e]. *)
Definition takeExponent (s : string) : Z :=
  match s with
  | String c r =>
      if Ascii.eqb c "e" || Ascii.eqb c "E" then
        let '(eneg, r1) := takeSign r in
        let '(ev, en, _) := takeDigits 10 r1 0 0 in
        match en with O => 0%Z | S _ => cond_Zopp eneg ev end
      else 0%Z
  | EmptyString => 0%Z
  end.

(** [parseFloat(s)]: the longest prefix of the left-trimmed string that is a
    StrDecimalLiteral, correctly rounded; NaN when there is none. *)
Definition parseFloat (s : string) : number :=
  let '(neg, s1) := takeSign (trimStart s) in
  if prefix "Infinity" s1 then S754_infinity neg
  else
    let '(ip, ni, r1) := takeDigits 10 s1 0 0 in
    (* the digits after the point extend the mantissa read so far *)
    let '(fp, nf, r2) :=
      match r1 with
      | String "." r => takeDigits 10 r ip 0
      | _ => (ip, 0, r1)
      end in
    match ni, nf with
    | O, O => nan
    | _, _ => ofDecimal neg fp (takeExponent r2 - Z.of_nat nf)
    end.

(** ** [Number.prototype.toFixed] and [String(number)]

    The decimal form of a finite non-zero Number in general (the shortest
    digits that read back) is left to the host as [finiteToString]; the
    forms ECMAScript fixes are written out. *)

Section NumberToString.
Variable finiteToString : number -> string.

Definition numberToString (x : number) : string :=
  match x with
  | S754_nan => "NaN"
  | S754_infinity false => "Infinity"
  | S754_infinity true => "-Infinity"
  | S754_zero _ => "0"
  | S754_finite _ _ _ => finiteToString x
  end.

(** [m * 2^e >= 10^21] *)
Definition atLeast1e21 (m : positive) (e : Z) : bool :=
  if (0 <=? e)%Z then (10 ^ 21 <=? Zpos m * 2 ^ e)%Z
  else (10 ^ 21 * 2 ^ (- e) <=? Zpos m)%Z.

(** The integer [n] for which [n / 10^f - m * 2^e] is closest to zero, the
    larger one on a tie. *)
Definition fixedDigits (f : nat) (m : positive) (e : Z) : Z :=
  if (0 <=? e)%Z then (Zpos m * 2 ^ e * 10 ^ Z.of_nat f)%Z
  else Z.shiftr (2 * Zpos m * 10 ^ Z.of_nat f + 2 ^ (- e))%Z (1 - e).

Definition insertPoint (f : nat) (ds : string) : string :=
  match f with
  | O => ds
  | S _ =>
      let k := String.length ds in
      let padded := if k <=? f then zeros (f + 1 - k) +++ ds else ds in
      let ip := String.length padded - f in
      substring 0 ip padded +++ "." +++ substring ip f padded
  end.

Definition toFixed (f : nat) (x : number) : string :=
  match x with
  | S754_finite s m e =>
      let sign := if s then "-" else "" in
      if atLeast1e21 m e then sign +++ finiteToString (S754_finite false m e)
      else sign +++ insertPoint f (intToString (fixedDigits f m e))
  | S754_zero _ => insertPoint f "0"
  | _ => numberToString x
  end.
End NumberToString.

(** ** Values

    What [JSON.parse] returns and what a GeoJSON [properties] object holds. *)

Inductive value : Type :=
| Undefined
| Null
| Bool (b : bool)
| Num (n : number)
| Str (s : string)
| Arr (items : list value)
| Obj (fields : list (string * value)).

(** ToBoolean *)
Definition truthy (v : value) : bool :=
  match v with
  | Undefined | Null => false
  | Bool b => b
  | Num (S754_zero _) | Num S754_nan => false
  | Num _ => true
  | Str s => nonEmpty s
  | Arr _ | Obj _ => true
  end.

(** [a || b] *)
Definition or (a b : value) : value := if truthy a then a else b.

Definition isArray (v : value) : bool :=
  match v with Arr _ => true | _ => false end.

(** SameValueZero, the equality of [Set]: primitives by value (NaN equals
    NaN, +0 equals -0), arrays and objects by identity; two arrays or objects
    that [JSON.parse] built are never the same one. *)
Definition sameValueZero (a b : value) : bool :=
  match a, b with
  | Undefined, Undefined | Null, Null => true
  | Bool x, Bool y => Bool.eqb x y
  | Num x, Num y => strictEq x y || (isNaN x && isNaN y)
  | Str x, Str y => String.eqb x y
  | _, _ => false
  end.

(** [[...new Set(items)]]: first occurrences, in order. *)
Fixpoint uniqueAux (items seen : list value) : list value :=
  match items with
  | [] => []
  | v :: r =>
      if existsb (sameValueZero v) seen then uniqueAux r seen
      else v :: uniqueAux r (v :: seen)
  end.

Definition unique (items : list value) : list value := uniqueAux items [].

(** ** Objects with string keys

    Own properties in insertion order, which is the order JavaScript keeps
    for keys that are not array indices.  An assignment to ["__proto__"] of
    a string goes to the setter of [Object.prototype], which ignores it. *)

Section Objects.
Context {V : Type}.

Fixpoint getProp (o : list (string * V)) (k : string) : option V :=
  match o with
  | [] => None
  | (k', v) :: r => if String.eqb k' k then Some v else getProp r k
  end.

Fixpoint putProp (o : list (string * V)) (k : string) (v : V)
  : list (string * V) :=
  match o with
  | [] => [(k, v)]
  | (k', v') :: r =>
      if String.eqb k' k then (k, v) :: r else (k', v') :: putProp r k v
  end.

Definition setProp (o : list (string * V)) (k : string) (v : V)
  : list (string * V) :=
  if String.eqb k "__proto__" then o else putProp o k v.
End Objects.

(** A [Map] with string keys: entries in insertion order; [set] on a key
    that is there keeps its place. *)
Module Map.
Section Ops.
Context {V : Type}.
Definition t : Type := list (string * V).
Definition has (m : t) (k : string) : bool :=
  match getProp m k with Some _ => true | None => false end.
Definition get (m : t) (k : string) : option V := getProp m k.
Definition set (m : t) (k : string) (v : V) : t := putProp m k v.
Definition values (m : t) : list V := map snd m.
End Ops.
Arguments t : clear implicits.
End Map.

(** ** ToString of a value: [String(v)] and [`${v}`] *)

Section ValueToString.
Variable finiteToString : number -> string.

Fixpoint toString (v : value) : string :=
  match v with
  | Undefined => "undefined"
  | Null => "null"
  | Bool true => "true"
  | Bool false => "false"
  | Num n => numberToString finiteToString n
  | Str s => s
  | Arr items =>
      (* Array.prototype.join: null and undefined print as nothing *)
      let element (x : value) : string :=
        match x with
        | Undefined | Null => ""
        | _ => toString x
        end in
      (fix join (l : list value) : string :=
         match l with
         | [] => ""
         | [x] => element x
         | x :: r => element x +++ "," +++ join r
         end) items
  | Obj _ => "[object Object]"
  end.
End ValueToString.

(** ** Loops *)

(** [for (let i = start; i < stop; i++) body(i)] on a state [St]. *)
Definition forRange {St : Type} (start stop : nat) (body : nat -> St -> St)
  (s : St) : St :=
  fold_left (fun acc i => body i acc) (seq start (stop - start)) s.

(** [items.forEach(body)] *)
Definition forEach {A St : Type} (items : list A) (body : A -> St -> St)
  (s : St) : St :=
  fold_left (fun acc x => body x acc) items s.

(** [items.forEach((x, index) => body(x, index))] *)
Definition forEachIndexed {A St : Type} (items : list A)
  (body : A -> nat -> St -> St) (s : St) : St :=
  fold_left (fun acc xi => body (fst xi) (snd xi) acc)
            (combine items (seq 0 (List.length items))) s.

(** The chunked loop of the asynchronous functions:
[[
  for (let start = first; start < total; start += chunkSize) {
      const end = Math.min(start + chunkSize, total);
      for (let i = start; i < end; i++) body(i);
      afterChunk(end);
  }
]]
    with [chunkSize = S c], a positive constant in every use. *)
Equations? chunkedLoop {St : Type} (c total : nat) (body : nat -> St -> St)
  (afterChunk : nat -> St -> St) (start : nat) (s : St) : St
  by wf (total - start) lt :=
  chunkedLoop c total body afterChunk start s with le_lt_dec total start => {
    | left _ := s
    | right _ :=
        let stop := Nat.min (start + S c) total in
        chunkedLoop c total body afterChunk (start + S c)
          (afterChunk stop (forRange start stop body s)) }.
Proof. lia. Qed.

End JS.

(* ===================================================================== *)
(** * Part II.  The program                                               *)
(* ===================================================================== *)

(** ** What the host provides

    Built-ins whose result ECMAScript leaves to the implementation or to the
    environment.  Every theorem of Part III holds for all hosts. *)

Class Host : Type := {
  (** [Math.sin], [Math.cos], [Math.atan2]: implementation-approximated *)
  Math_sin : JS.number -> JS.number;
  Math_cos : JS.number -> JS.number;
  Math_atan2 : JS.number -> JS.number -> JS.number;
  (** [String(x)] for a finite non-zero Number *)
  finiteToString : JS.number -> string;
  (** [a.localeCompare(b)]: negative, zero or positive, by the locale *)
  localeCompare : string -> string -> JS.number;
  (** [JSON.parse]; [None] when it throws a SyntaxError *)
  JSON_parse : string -> option JS.value;
  JSON_stringify : JS.value -> string;
  (** [Array.prototype.sort] with a comparator *)
  Array_sort : forall A : Type, (A -> A -> JS.number) -> list A -> list A;
  (** [Math.random().toString(36).substr(2, 9)], at the n-th draw *)
  Math_random_id : nat -> string;
  (** [new Date().toLocaleDateString()] and [new Date().toISOString()] at a
      logical time; the time moves on each time the program yields *)
  Date_toLocaleDateString : nat -> string;
  Date_toISOString : nat -> string
}.

(** The environment a call runs in: how many random identifiers were drawn
    so far, and the logical time. *)
Record World : Type := {
  draws : nat;
  now : nat
}.

Definition tick (w : World) : World :=
  {| draws := draws w; now := S (now w) |}.

(** A function either returns or throws an [Error] with a message. *)
Inductive Outcome (A : Type) : Type :=
| Returned (a : A)
| Thrown (message : string).
Arguments Returned {A} a.
Arguments Thrown {A} message.

(** What an asynchronous function does besides computing: it reports
    progress through the callback, and yields to the browser with
    [await new Promise(resolve => setTimeout(resolve, 0))]. *)
Inductive Event : Type :=
| Progress (percent : JS.number)
| YieldToBrowser.

(** ** Canonical features (GeoJSON)

    A position is [[lon, lat]]; the program reads nothing beyond the first
    two entries of a coordinate. *)

Definition Position : Type := JS.number * JS.number.

Inductive Geometry : Type :=
| Point (coordinates : Position)
| LineString (coordinates : list Position)
| Polygon (coordinates : list (list Position))
| MultiLineString (coordinates : list (list Position))
| MultiPolygon (coordinates : list (list (list Position)))
| OtherGeometry (type : string).

(** [geometry] and [properties] may be [null] or missing. *)
Record Feature : Type := {
  geometry : option Geometry;
  properties : option (list (string * JS.value))
}.

Record GeoJSON : Type := {
  (** [None]: no [features] member, or not an array *)
  features : option (list Feature)
}.

(** ** Sequences and the task manager *)

Record Stats : Type := {
  stats_features : nat;
  stats_nodes : nat;
  stats_ways : nat
}.

(** An entry of [sequenceMap], before the statistics are attached. *)
Record Group : Type := {
  group_id : string;
  group_features : list Feature;
  group_status : string;
  group_date : string
}.

(** An element of [this.sequences].  [status] is [None] when the member is
    [undefined]. *)
Record Sequence : Type := {
  seq_id : string;
  seq_features : list Feature;
  status : option string;
  date : string;
  featureCount : nat;
  nodeCount : nat;
  wayCount : nat
}.

Record TaskManager : Type := {
  geojsonData : option GeoJSON;
  sequences : list Sequence;
  currentIndex : Z;
  currentView : string
}.

(** ** [calculateStats]

    The counters are Numbers in the source; they only count, so [nat]. *)

Definition calculateStats_feature (feature : Feature) (acc : nat * nat)
  : nat * nat :=
  let '(nodes, ways) := acc in
  match geometry feature with
  | None => (nodes, ways)
  | Some (Point _) => (nodes + 1, ways)
  | Some (LineString coordinates) =>
      (* Array.isArray(coordinates[0]) *)
      match coordinates with
      | _ :: _ => (nodes + List.length coordinates, ways + 1)
      | [] => (nodes + 1, ways + 1)
      end
  | Some (MultiLineString coordinates) =>
      match coordinates with
      | _ :: _ => (nodes + List.length coordinates, ways + 1)
      | [] => (nodes + 1, ways + 1)
      end
  | Some (Polygon coordinates) =>
      (* coordinates && coordinates[0] *)
      match coordinates with
      | ring :: _ => (nodes + List.length ring, ways + 1)
      | [] => (nodes, ways + 1)
      end
  | Some (MultiPolygon coordinates) =>
      match coordinates with
      | polygon :: _ => (nodes + List.length polygon, ways + 1)
      | [] => (nodes, ways + 1)
      end
  | Some (OtherGeometry _) => (nodes, ways)
  end.

Definition calculateStats (feats : list Feature) : Stats :=
  let '(nodes, ways) := JS.forEach feats calculateStats_feature (0, 0) in
  {| stats_features := List.length feats;
     stats_nodes := nodes;
     stats_ways := ways |}.

(** ** Status workflow: the views and [updateStatus] *)

(** [!seq.status || seq.status === ''] *)
Definition isActive (s : Sequence) : bool :=
  match status s with
  | None => true
  | Some st => negb (JS.nonEmpty st) || String.eqb st ""
  end.

Definition hasStatus (st : string) (s : Sequence) : bool :=
  match status s with
  | Some st' => String.eqb st' st
  | None => false
  end.

Definition getAllSequences (this : TaskManager) : list Sequence :=
  sequences this.
Definition getActiveSequences (this : TaskManager) : list Sequence :=
  filter isActive (sequences this).
Definition getDoneSequences (this : TaskManager) : list Sequence :=
  filter (hasStatus "done") (sequences this).
Definition getSkippedSequences (this : TaskManager) : list Sequence :=
  filter (hasStatus "skipped") (sequences this).

Definition getCurrentViewSequences (this : TaskManager) : list Sequence :=
  if String.eqb (currentView this) "all" then getAllSequences this
  else if String.eqb (currentView this) "done" then getDoneSequences this
  else if String.eqb (currentView this) "skipped" then getSkippedSequences this
  else getActiveSequences this.

(** [array.findIndex(pred)], -1 when nothing matches. *)
Fixpoint findIndexFrom {A : Type} (pred : A -> bool) (l : list A) (i : Z)
  : Z :=
  match l with
  | [] => (-1)%Z
  | x :: r => if pred x then i else findIndexFrom pred r (i + 1)%Z
  end.
Definition findIndex {A : Type} (pred : A -> bool) (l : list A) : Z :=
  findIndexFrom pred l 0%Z.

(** "Reset to first item in current view" *)
Definition resetToFirstInView (this : TaskManager) : TaskManager :=
  match getCurrentViewSequences this with
  | firstSequence :: _ =>
      {| geojsonData := geojsonData this;
         sequences := sequences this;
         currentIndex :=
           findIndex (fun s => String.eqb (seq_id s) (seq_id firstSequence))
                     (sequences this);
         currentView := currentView this |}
  | [] =>
      {| geojsonData := geojsonData this;
         sequences := sequences this;
         currentIndex := 0%Z;
         currentView := currentView this |}
  end.

Definition withStatus (s : Sequence) (newStatus : string) : Sequence :=
  {| seq_id := seq_id s; seq_features := seq_features s;
     status := Some newStatus; date := date s;
     featureCount := featureCount s; nodeCount := nodeCount s;
     wayCount := wayCount s |}.

(** [sequence.status = newStatus] on the first sequence with that id. *)
Fixpoint setStatusOfFirst (l : list Sequence) (sequenceId newStatus : string)
  : list Sequence :=
  match l with
  | [] => []
  | s :: r =>
      if String.eqb (seq_id s) sequenceId then withStatus s newStatus :: r
      else s :: setStatusOfFirst r sequenceId newStatus
  end.

Definition updateStatus (this : TaskManager) (sequenceId newStatus : string)
  : TaskManager :=
  if existsb (fun s => String.eqb (seq_id s) sequenceId) (sequences this)
  then
    let this1 :=
      {| geojsonData := geojsonData this;
         sequences := setStatusOfFirst (sequences this) sequenceId newStatus;
         currentIndex := currentIndex this;
         currentView := currentView this |} in
    if String.eqb (currentView this1) "all" then this1
    else
      let viewSequences := getCurrentViewSequences this1 in
      let stillInView :=
        existsb (fun s => String.eqb (seq_id s) sequenceId) viewSequences in
      if negb stillInView && negb (Nat.eqb (List.length viewSequences) 0)
      then resetToFirstInView this1
      else this1
  else this.

Section Aggregator.
Context {host : Host}.

(** [String(v)] *)
Definition String_ (v : JS.value) : string := JS.toString finiteToString v.

(** [feature.properties?.name] *)
Definition prop (feature : Feature) (name : string) : JS.value :=
  match properties feature with
  | Some o =>
      match JS.getProp o name with
      | Some v => v
      | None => JS.Undefined
      end
  | None => JS.Undefined
  end.

(** The key of a feature:
[[
String(feature.properties?.sequence_id || feature.properties?.sequenceId ||
       feature.properties?.sequence || feature.properties?.id ||
       feature.properties?.seq ||
       `sequence_${feature.properties?.id ||
                   Math.random().toString(36).substr(2, 9)}`)
]]
    [||] evaluates its right operand only when the left one is falsy, so a
    random identifier is drawn only at the end of the chain.  The result
    comes with the number of draws made so far. *)
Definition sequenceIdOf (feature : Feature) (drawn : nat) : string * nat :=
  let probed :=
    JS.or (JS.or (JS.or (JS.or (prop feature "sequence_id")
                               (prop feature "sequenceId"))
                        (prop feature "sequence"))
                 (prop feature "id"))
          (prop feature "seq") in
  if JS.truthy probed then (String_ probed, drawn)
  else if JS.truthy (prop feature "id")
  then ("sequence_" +++ String_ (prop feature "id"), drawn)
  else ("sequence_" +++ Math_random_id drawn, S drawn).

(** "Preserve existing status values" *)
Definition existingStatuses (seqs : list Sequence) : JS.Map.t string :=
  JS.forEach seqs
    (fun s m =>
       match status s with
       | Some st => JS.Map.set m (seq_id s) st
       | None => m
       end)
    [].

(** [sequenceMap.get(sequenceId).features.push(feature)] *)
Definition pushFeature (g : Group) (feature : Feature) : Group :=
  {| group_id := group_id g;
     group_features := group_features g ++ [feature];
     group_status := group_status g;
     group_date := group_date g |}.

(** The body of the grouping loop, the same text in [processGeoJSON] and in
    [processGeoJSONAsync]. *)
Definition groupFeature (existingStatusMap : JS.Map.t string)
  (feature : Feature) (acc : JS.Map.t Group * World)
  : JS.Map.t Group * World :=
  let '(sequenceMap, w) := acc in
  let '(sequenceId, drawn) := sequenceIdOf feature (draws w) in
  let w' := {| draws := drawn; now := now w |} in
  let sequenceMap1 :=
    if negb (JS.Map.has sequenceMap sequenceId) then
      let existingStatus := JS.Map.get existingStatusMap sequenceId in
      JS.Map.set sequenceMap sequenceId
        {| group_id := sequenceId;
           group_features := [];
           group_status :=
             match existingStatus with Some st => st | None => "" end;
           group_date := Date_toLocaleDateString (now w) |}
    else sequenceMap in
  match JS.Map.get sequenceMap1 sequenceId with
  | Some g => (JS.Map.set sequenceMap1 sequenceId (pushFeature g feature), w')
  | None => (sequenceMap1, w')
  end.

(** [{...seq, featureCount: stats.features, nodeCount: stats.nodes,
     wayCount: stats.ways}] *)
Definition withStats (g : Group) : Sequence :=
  let stats := calculateStats (group_features g) in
  {| seq_id := group_id g;
     seq_features := group_features g;
     status := Some (group_status g);
     date := group_date g;
     featureCount := stats_features stats;
     nodeCount := stats_nodes stats;
     wayCount := stats_ways stats |}.

(** The comparator handed to [sort]:
[[
const aNum = parseInt(a.id);  const bNum = parseInt(b.id);
if (!isNaN(aNum) && !isNaN(bNum)) return aNum - bNum;
return a.id.localeCompare(b.id);
]] *)
Definition compareIds (a b : string) : JS.number :=
  let aNum := JS.parseInt a in
  let bNum := JS.parseInt b in
  if negb (JS.isNaN aNum) && negb (JS.isNaN bNum) then JS.sub aNum bNum
  else localeCompare a b.

Definition compareSequences (a b : Sequence) : JS.number :=
  compareIds (seq_id a) (seq_id b).

Definition sortSequences (seqs : list Sequence) : list Sequence :=
  Array_sort Sequence compareSequences seqs.

Definition withSequences (this : TaskManager) (seqs : list Sequence)
  : TaskManager :=
  {| geojsonData := geojsonData this;
     sequences := seqs;
     currentIndex := currentIndex this;
     currentView := currentView this |}.

Definition withGeojsonData (this : TaskManager) (geojson : GeoJSON)
  : TaskManager :=
  {| geojsonData := Some geojson;
     sequences := sequences this;
     currentIndex := currentIndex this;
     currentView := currentView this |}.

(** ** [processGeoJSON]

    [saveToStorage], [renderCurrentTask] and [updateSummary] write to
    IndexedDB and to the page and do not touch the fields modelled here. *)
Definition processGeoJSON (this : TaskManager) (w : World)
  (geojson : GeoJSON) : Outcome (TaskManager * World) :=
  match features geojson with
  | None => Thrown "Invalid GeoJSON: missing features array"
  | Some feats =>
      let existingStatusMap := existingStatuses (sequences this) in
      let '(sequenceMap, w1) :=
        JS.forEach feats (groupFeature existingStatusMap) ([], w) in
      let this1 :=
        withSequences this (map withStats (JS.Map.values sequenceMap)) in
      let this2 := withSequences this1 (sortSequences (sequences this1)) in
      let this3 := resetToFirstInView this2 in
      Returned (withGeojsonData this3 geojson, w1)
  end.

(** ** [processGeoJSONAsync]

    The state of the two chunked loops: the data, the world, and the
    events so far (latest first). *)
Record Running (D : Type) : Type := {
  data : D;
  world : World;
  events : list Event
}.
Arguments data {D} r.
Arguments world {D} r.
Arguments events {D} r.

(** After a chunk: report progress when there is a callback, then yield. *)
Definition afterChunk {D : Type} (progressCallback : bool)
  (percent : nat -> JS.number) (stop : nat) (r : Running D) : Running D :=
  {| data := data r;
     world := tick (world r);
     events :=
       YieldToBrowser ::
       (if progressCallback then Progress (percent stop) :: events r
        else events r) |}.

(** [Math.round((end / total) * scale)] *)
Definition percentOf (scale total stop : nat) : JS.number :=
  JS.Math_round
    (JS.mul (JS.div (JS.ofNat stop) (JS.ofNat total)) (JS.ofNat scale)).

Definition groupingStep (existingStatusMap : JS.Map.t string)
  (feats : list Feature) (i : nat) (r : Running (JS.Map.t Group))
  : Running (JS.Map.t Group) :=
  match nth_error feats i with
  | Some feature =>
      let '(m, w) := groupFeature existingStatusMap feature
                       (data r, world r) in
      {| data := m; world := w; events := events r |}
  | None => r
  end.

Definition statsStep (groups : list Group) (i : nat)
  (r : Running (list Sequence)) : Running (list Sequence) :=
  match nth_error groups i with
  | Some seq =>
      {| data := data r ++ [withStats seq];
         world := world r; events := events r |}
  | None => r
  end.

Definition processGeoJSONAsync (this : TaskManager) (w : World)
  (geojson : GeoJSON) (progressCallback : bool)
  : list Event * (TaskManager * World) :=
  match features geojson with
  | None => ([], (this, w))    (* console.error(...); return; *)
  | Some feats =>
      let existingStatusMap := existingStatuses (sequences this) in
      let totalFeatures := List.length feats in
      let grouped :=
        JS.chunkedLoop 99 totalFeatures
          (groupingStep existingStatusMap feats)
          (afterChunk progressCallback (percentOf 50 totalFeatures))
          0 {| data := []; world := w; events := [] |} in
      let seqs := JS.Map.values (data grouped) in
      let processed :=
        JS.chunkedLoop 49 (List.length seqs)
          (statsStep seqs)
          (afterChunk progressCallback
             (fun stop =>
                JS.add (JS.ofNat 50) (percentOf 50 (List.length seqs) stop)))
          0 {| data := []; world := world grouped;
               events := events grouped |} in
      let processedSequences :=
        Array_sort Sequence compareSequences (data processed) in
      let this1 := withSequences this processedSequences in
      let this2 := withGeojsonData this1 geojson in
      let this3 := resetToFirstInView this2 in
      (rev (events processed), (this3, world processed))
  end.
End Aggregator.

Arguments data {D} r.
Arguments world {D} r.
Arguments events {D} r.

(** ** CSV parsing *)

(** [parseCSVLine]: the loop over the characters, with [result], [current]
    and [inQuotes]. *)
Record LineScan : Type := {
  result : list string;
  current : string;
  inQuotes : bool
}.

Definition parseCSVLine_char (char : ascii) (st : LineScan) : LineScan :=
  if Ascii.eqb char JS.quote then
    {| result := result st; current := current st;
       inQuotes := negb (inQuotes st) |}
  else if Ascii.eqb char "," && negb (inQuotes st) then
    {| result := result st ++ [JS.trim (current st)]; current := "";
       inQuotes := inQuotes st |}
  else
    {| result := result st;
       current := current st +++ String char EmptyString;
       inQuotes := inQuotes st |}.

Definition parseCSVLine (line : string) : list string :=
  let st := JS.forEach (list_ascii_of_string line) parseCSVLine_char
              {| result := []; current := ""; inQuotes := false |} in
  result st ++ [JS.trim (current st)].

(** The column indices; [None] stands for -1. *)
Record Columns : Type := {
  latLongArrayIndex : option nat;
  latIndex : option nat;
  lonIndex : option nat;
  sequenceIdIndex : option nat
}.

Definition latLongArrayNames : list string :=
  ["lat_long_array"; "latlongarray"; "coordinates"; "coords"; "points"].
Definition latNames : list string := ["lat"; "latitude"; "y"; "ycoord"].
Definition lonNames : list string :=
  ["lon"; "lng"; "longitude"; "long"; "x"; "xcoord"].
Definition seqIdNames : list string :=
  ["offroad_sequence_id"; "sequence_id"; "sequenceid"; "sequence"; "seq";
   "id"].

(** [index === -1 && found ? here : index] *)
Definition firstMatch (index : option nat) (found : bool) (here : nat)
  : option nat :=
  match index with
  | None => if found then Some here else None
  | Some _ => index
  end.

Definition findColumns_col (col : string) (index : nat) (c : Columns)
  : Columns :=
  let colLower := JS.trim (JS.toLowerCase col) in
  {| latLongArrayIndex :=
       firstMatch (latLongArrayIndex c)
         (existsb (fun name => String.eqb colLower name) latLongArrayNames)
         index;
     latIndex :=
       firstMatch (latIndex c)
         (existsb (fun name => JS.includes colLower name) latNames) index;
     lonIndex :=
       firstMatch (lonIndex c)
         (existsb (fun name => JS.includes colLower name) lonNames) index;
     sequenceIdIndex :=
       firstMatch (sequenceIdIndex c)
         (existsb (fun name => String.eqb colLower name) seqIdNames) index |}.

Definition findColumns (header : list string) : Columns :=
  JS.forEachIndexed header findColumns_col
    {| latLongArrayIndex := None; latIndex := None; lonIndex := None;
       sequenceIdIndex := None |}.

(** An entry of the [sequenceMap] of the CSV parser. *)
Record CsvSequence : Type := {
  csv_id : string;
  csv_coordinates : list Position;
  csv_properties : list (string * string);
  rowCount : nat
}.

(** [row[idx] && row[idx].trim()]: the trimmed cell when the cell is there
    and neither it nor its trimmed form is empty. *)
Definition filledCell (row : list string) (idx : nat) : option string :=
  match nth_error row idx with
  | Some cell =>
      if JS.nonEmpty cell && JS.nonEmpty (JS.trim cell)
      then Some (JS.trim cell) else None
  | None => None
  end.

Definition filledCellAt (row : list string) (idx : option nat)
  : option string :=
  match idx with
  | Some i => filledCell row i
  | None => None
  end.

Section CSV.
Context {host : Host}.

(** [parseFloat(x)] of a cell that may be [undefined] *)
Definition parseFloatCell (cell : option string) : JS.number :=
  match cell with
  | Some s => JS.parseFloat s
  | None => JS.parseFloat "undefined"
  end.

(** The key of a row. *)
Definition rowSequenceId (header row : list string) (cols : Columns)
  (i : nat) : string :=
  match filledCellAt row (sequenceIdIndex cols) with
  | Some sequenceId => sequenceId
  | None =>
      let groupIndex :=
        findIndex
          (fun col => String.eqb (JS.trim (JS.toLowerCase col)) "group")
          header in
      match (if (0 <=? groupIndex)%Z
             then filledCell row (Z.to_nat groupIndex) else None) with
      | Some sequenceId => sequenceId
      | None => "csv_sequence_" +++ JS.natToString i
      end
  end.

(** First row of a sequence: every filled cell becomes a property. *)
Definition seedProperty (row : list string) (colName : string) (idx : nat)
  (props : list (string * string)) : list (string * string) :=
  match filledCell row idx with
  | Some cell => JS.setProp props (JS.trim colName) cell
  | None => props
  end.

(** Later rows: [bookingcodes] and [wheels] hold JSON arrays and are
    merged; a [JSON.parse] that throws leaves the property as it is. *)
Definition mergeProperty (row : list string) (colName : string) (idx : nat)
  (props : list (string * string)) : list (string * string) :=
  let colLower := JS.trim (JS.toLowerCase colName) in
  match filledCell row idx with
  | Some cell =>
      if String.eqb colLower "bookingcodes" || String.eqb colLower "wheels"
      then
        let stored :=
          match JS.getProp props colName with
          | Some s => if JS.nonEmpty s then s else "[]"
          | None => "[]"
          end in
        match JSON_parse stored with
        | Some existing =>
            match JSON_parse cell with
            | Some newArray =>
                match existing, newArray with
                | JS.Arr xs, JS.Arr ys =>
                    JS.setProp props colName
                      (JSON_stringify (JS.Arr (JS.unique (xs ++ ys))))
                | _, _ => props
                end
            | None => props
            end
        | None => props
        end
      else props
  | None => props
  end.

(** [coord => Array.isArray(coord) && coord.length >= 2
              ? [parseFloat(coord[1]), parseFloat(coord[0])] : null]
    followed by the filter that drops [null] and NaN. *)
Definition latLongPair (coord : JS.value) : option Position :=
  match coord with
  | JS.Arr (c0 :: c1 :: _) =>
      let p := (JS.parseFloat (String_ c1), JS.parseFloat (String_ c0)) in
      if negb (JS.isNaN (fst p)) && negb (JS.isNaN (snd p))
      then Some p else None
  | _ => None
  end.

Fixpoint keepSome {A : Type} (l : list (option A)) : list A :=
  match l with
  | [] => []
  | Some x :: r => x :: keepSome r
  | None :: r => keepSome r
  end.

Definition rowCoordinates (row : list string) (cols : Columns)
  : list Position :=
  let arrayCell :=
    match latLongArrayIndex cols with
    | Some i =>
        match nth_error row i with
        | Some cell => if JS.nonEmpty cell then Some cell else None
        | None => None
        end
    | None => None
    end in
  match arrayCell with
  | Some cell =>
      match JSON_parse (JS.trim cell) with
      | Some (JS.Arr coordArray) => keepSome (map latLongPair coordArray)
      | _ => []
      end
  | None =>
      match latIndex cols, lonIndex cols with
      | Some la, Some lo =>
          let lat := parseFloatCell (nth_error row la) in
          let lon := parseFloatCell (nth_error row lo) in
          if negb (JS.isNaN lat) && negb (JS.isNaN lon)
          then [(lon, lat)] else []
      | _, _ => []
      end
  end.

(** The body of the row loop, the same text in [parseCSVSync] and in
    [parseCSVAsync]. *)
Definition csvRow (header : list string) (cols : Columns)
  (lines : list string) (i : nat) (sequenceMap : JS.Map.t CsvSequence)
  : JS.Map.t CsvSequence :=
  let row := parseCSVLine (nth i lines "") in
  match row with
  | [] => sequenceMap                      (* continue *)
  | _ :: _ =>
      let sequenceId := rowSequenceId header row cols i in
      let sequenceMap1 :=
        if negb (JS.Map.has sequenceMap sequenceId) then
          JS.Map.set sequenceMap sequenceId
            {| csv_id := sequenceId; csv_coordinates := [];
               csv_properties := []; rowCount := 0 |}
        else sequenceMap in
      match JS.Map.get sequenceMap1 sequenceId with
      | Some sequence =>
          let count := rowCount sequence + 1 in
          let props :=
            if Nat.eqb count 1
            then JS.forEachIndexed header (seedProperty row)
                   (csv_properties sequence)
            else JS.forEachIndexed header (mergeProperty row)
                   (csv_properties sequence) in
          JS.Map.set sequenceMap1 sequenceId
            {| csv_id := csv_id sequence;
               csv_coordinates :=
                 csv_coordinates sequence ++ rowCoordinates row cols;
               csv_properties := props;
               rowCount := count |}
      | None => sequenceMap1
      end
  end.

(** "Convert sequences to features" *)
Definition csvFeature (sequence : CsvSequence) (feats : list Feature)
  : list Feature :=
  match csv_coordinates sequence with
  | [] => feats
  | c :: rest =>
      let props :=
        JS.setProp (csv_properties sequence) "sequence_id"
          (csv_id sequence) in
      let props' := Some (map (fun kv => (fst kv, JS.Str (snd kv))) props) in
      match rest with
      | [] => feats ++ [ {| geometry := Some (Point c);
                            properties := props' |} ]
      | _ :: _ =>
          feats ++ [ {| geometry :=
                          Some (LineString (csv_coordinates sequence));
                        properties := props' |} ]
      end
  end.

Definition csvFeatureCollection (sequenceMap : JS.Map.t CsvSequence)
  : GeoJSON :=
  {| features := Some (JS.forEach (JS.Map.values sequenceMap) csvFeature []) |}.

Definition csvLines (csvText : string) : list string :=
  filter (fun line => JS.nonEmpty (JS.trim line)) (JS.split JS.newline csvText).

Definition noRowsMessage : string :=
  "CSV file must have at least a header row and one data row".
Definition noColumnsMessage : string :=
  "CSV must contain either:" +++ JS.nl +++
  "1. A lat_long_array column with coordinate arrays, OR" +++ JS.nl +++
  "2. Separate latitude and longitude columns".

(** [latLongArrayIndex === -1 && (latIndex === -1 || lonIndex === -1)] *)
Definition noCoordinateColumns (cols : Columns) : bool :=
  match latLongArrayIndex cols, latIndex cols, lonIndex cols with
  | None, None, _ | None, _, None => true
  | _, _, _ => false
  end.

Definition parseCSVSync (csvText : string) : Outcome GeoJSON :=
  let lines := csvLines csvText in
  if List.length lines <? 2 then Thrown noRowsMessage
  else
    let header := parseCSVLine (nth 0 lines "") in
    let cols := findColumns header in
    if noCoordinateColumns cols then Thrown noColumnsMessage
    else
      Returned
        (csvFeatureCollection
           (JS.forRange 1 (List.length lines) (csvRow header cols lines) [])).

(** [parseCSV] is [parseCSVSync]. *)
Definition parseCSV (csvText : string) : Outcome GeoJSON :=
  parseCSVSync csvText.

(** [Math.round(((end - 1) / totalRows) * 100)] *)
Definition csvPercent (totalRows stop : nat) : JS.number :=
  JS.Math_round
    (JS.mul (JS.div (JS.ofNat (stop - 1)) (JS.ofNat totalRows))
            (JS.ofNat 100)).

Definition csvRowStep (header : list string) (cols : Columns)
  (lines : list string) (i : nat) (r : Running (JS.Map.t CsvSequence))
  : Running (JS.Map.t CsvSequence) :=
  {| data := csvRow header cols lines i (data r);
     world := world r; events := events r |}.

(** [parseCSVAsync]: the events of the run, and what the promise settles
    to. *)
Definition parseCSVAsync (w : World) (csvText : string)
  (progressCallback : bool) : list Event * World * Outcome GeoJSON :=
  let lines := csvLines csvText in
  if List.length lines <? 2 then ([], w, Thrown noRowsMessage)
  else
    let header := parseCSVLine (nth 0 lines "") in
    let cols := findColumns header in
    if noCoordinateColumns cols then ([], w, Thrown noColumnsMessage)
    else
      let totalRows := List.length lines - 1 in
      let done :=
        JS.chunkedLoop 49 (List.length lines)
          (csvRowStep header cols lines)
          (afterChunk progressCallback (csvPercent totalRows))
          1 {| data := []; world := w; events := [] |} in
      (rev (events done), world done,
       Returned (csvFeatureCollection (data done))).
End CSV.

(** ** OSM-XML export *)

(** [extractCoordinates] *)
Definition extractCoordinates (g : Geometry) : list Position :=
  match g with
  | Point coordinates => [coordinates]
  | LineString coordinates => coordinates
  | Polygon coordinates =>
      match coordinates with
      | ring :: _ => ring
      | [] => []
      end
  | MultiLineString coordinates =>
      JS.forEach coordinates (fun line coords => coords ++ line) []
  | MultiPolygon coordinates =>
      JS.forEach coordinates
        (fun polygon coords =>
           match polygon with
           | ring :: _ => coords ++ ring
           | [] => coords
           end) []
  | OtherGeometry _ => []
  end.

(** [text.replace(/c/g, by)] for a single character [c]. *)
Fixpoint replaceAll (c : ascii) (by_ : string) (text : string) : string :=
  match text with
  | String x r =>
      if Ascii.eqb x c then by_ +++ replaceAll c by_ r
      else String x (replaceAll c by_ r)
  | EmptyString => EmptyString
  end.

Definition escapeXml (text : string) : string :=
  replaceAll "'" "&apos;"
    (replaceAll JS.quote "&quot;"
       (replaceAll ">" "&gt;"
          (replaceAll "<" "&lt;"
             (replaceAll "&" "&amp;" text)))).

(** The concatenation of a list of strings. *)
Definition concatAll (l : list string) : string :=
  fold_right String.append "" l.

(** A value of [nodeMap]. *)
Record OsmNode : Type := {
  node_id : Z;
  node_lat : JS.number;
  node_lon : JS.number
}.

Section OsmExport.
Context {host : Host}.

Definition toFixed7 (x : JS.number) : string :=
  JS.toFixed finiteToString 7 x.

(** [`${lat.toFixed(7)},${lon.toFixed(7)}`] with [[lon, lat] = coord] *)
Definition coordKey (coord : Position) : string :=
  let '(lon, lat) := coord in
  toFixed7 lat +++ "," +++ toFixed7 lon.

(** First pass: the node table and the [nodeId] counter. *)
Definition addNode (coord : Position) (st : JS.Map.t OsmNode * Z)
  : JS.Map.t OsmNode * Z :=
  let '(nodeMap, nodeId) := st in
  let '(lon, lat) := coord in
  let key := coordKey coord in
  if negb (JS.Map.has nodeMap key)
  then (JS.Map.set nodeMap key
          {| node_id := nodeId; node_lat := lat; node_lon := lon |},
        (nodeId - 1)%Z)
  else (nodeMap, nodeId).

Definition collectNodes (feature : Feature) (st : JS.Map.t OsmNode * Z)
  : JS.Map.t OsmNode * Z :=
  match geometry feature with
  | None => st
  | Some g => JS.forEach (extractCoordinates g) addNode st
  end.

Definition buildNodeMap (feats : list Feature) : JS.Map.t OsmNode :=
  fst (JS.forEach feats collectNodes ([], (-1000)%Z)).

Definition writeNode (node : OsmNode) (xml : string) : string :=
  xml +++ "  <node id=" +++ JS.dq +++ JS.intToString (node_id node) +++ JS.dq
      +++ " lat=" +++ JS.dq +++ toFixed7 (node_lat node) +++ JS.dq
      +++ " lon=" +++ JS.dq +++ toFixed7 (node_lon node) +++ JS.dq
      +++ " version=" +++ JS.dq +++ "1" +++ JS.dq +++ " />" +++ JS.nl.

Definition writeNd (nodeMap : JS.Map.t OsmNode) (coord : Position)
  (xml : string) : string :=
  match JS.Map.get nodeMap (coordKey coord) with
  | Some node =>
      xml +++ "    <nd ref=" +++ JS.dq +++ JS.intToString (node_id node)
          +++ JS.dq +++ " />" +++ JS.nl
  | None => xml
  end.

(** Second pass: the text and the [wayId] counter. *)
Definition writeWay (nodeMap : JS.Map.t OsmNode) (feature : Feature)
  (st : string * Z) : string * Z :=
  let '(xml, wayId) := st in
  match geometry feature with
  | None => st
  | Some g =>
      let coords := extractCoordinates g in
      if List.length coords <? 2 then st
      else
        let xml1 :=
          xml +++ "  <way id=" +++ JS.dq +++ JS.intToString wayId +++ JS.dq
              +++ " version=" +++ JS.dq +++ "1" +++ JS.dq +++ ">" +++ JS.nl in
        let xml2 := JS.forEach coords (writeNd nodeMap) xml1 in
        let highwayValue :=
          JS.or (prop feature "highway") (JS.Str "unclassified") in
        (xml2 +++ "    <tag k=" +++ JS.dq +++ "highway" +++ JS.dq
              +++ " v=" +++ JS.dq +++ escapeXml (String_ highwayValue)
              +++ JS.dq +++ " />" +++ JS.nl
              +++ "  </way>" +++ JS.nl,
         (wayId - 1)%Z)
  end.

Definition xmlProlog (sequence : Sequence) (time : nat) : string :=
  "<?xml version=" +++ JS.dq +++ "1.0" +++ JS.dq +++ " encoding=" +++ JS.dq
    +++ "UTF-8" +++ JS.dq +++ "?>" +++ JS.nl
    +++ "<osm version=" +++ JS.dq +++ "0.6" +++ JS.dq +++ " generator="
    +++ JS.dq +++ "OSMAGIC Task Manager" +++ JS.dq +++ ">" +++ JS.nl
    +++ "  <!-- Sequence ID: " +++ seq_id sequence +++ " -->" +++ JS.nl
    +++ "  <!-- Features: " +++ JS.natToString (featureCount sequence)
    +++ " -->" +++ JS.nl
    +++ "  <!-- Generated: " +++ Date_toISOString time +++ " -->" +++ JS.nl
    +++ JS.nl.

Definition generateJOSM (sequence : Sequence) (time : nat) : string :=
  let xml0 := xmlProlog sequence time in
  let nodeMap := buildNodeMap (seq_features sequence) in
  let xml1 := JS.forEach (JS.Map.values nodeMap) writeNode xml0 in
  let xml2 := xml1 +++ JS.nl in
  let '(xml3, _) :=
    JS.forEach (seq_features sequence) (writeWay nodeMap)
      (xml2, (-1000)%Z) in
  xml3 +++ "</osm>".

(** *** The document as elements

    The [<node>] and [<way>] elements that [generateJOSM] writes; theorem
    [generateJOSM_elements] of Part III shows that the text is their
    rendering. *)

Record OsmWay : Type := {
  way_id : Z;
  way_refs : list Z;
  way_highway : string
}.

Definition osmNodes (sequence : Sequence) : list OsmNode :=
  JS.Map.values (buildNodeMap (seq_features sequence)).

(** The references of a way: one per coordinate that has a node. *)
Definition ndRefs (nodeMap : JS.Map.t OsmNode) (coords : list Position)
  : list Z :=
  flat_map
    (fun coord =>
       match JS.Map.get nodeMap (coordKey coord) with
       | Some node => [node_id node]
       | None => []
       end) coords.

(** The coordinates of a feature that gets a way. *)
Definition wayCoordinates (feature : Feature) : option (list Position) :=
  match geometry feature with
  | None => None
  | Some g =>
      let coords := extractCoordinates g in
      if List.length coords <? 2 then None else Some coords
  end.

Fixpoint waysFrom (nodeMap : JS.Map.t OsmNode) (feats : list Feature)
  (wayId : Z) : list OsmWay :=
  match feats with
  | [] => []
  | feature :: rest =>
      match wayCoordinates feature with
      | Some coords =>
          {| way_id := wayId;
             way_refs := ndRefs nodeMap coords;
             way_highway :=
               String_ (JS.or (prop feature "highway")
                              (JS.Str "unclassified")) |}
          :: waysFrom nodeMap rest (wayId - 1)%Z
      | None => waysFrom nodeMap rest wayId
      end
  end.

Definition osmWays (sequence : Sequence) : list OsmWay :=
  waysFrom (buildNodeMap (seq_features sequence)) (seq_features sequence)
           (-1000)%Z.

Definition renderNd (ref : Z) : string :=
  "    <nd ref=" +++ JS.dq +++ JS.intToString ref +++ JS.dq +++ " />"
    +++ JS.nl.

Definition renderNode (node : OsmNode) : string :=
  writeNode node "".

Definition renderWay (way : OsmWay) : string :=
  "  <way id=" +++ JS.dq +++ JS.intToString (way_id way) +++ JS.dq
    +++ " version=" +++ JS.dq +++ "1" +++ JS.dq +++ ">" +++ JS.nl
    +++ concatAll (map renderNd (way_refs way))
    +++ "    <tag k=" +++ JS.dq +++ "highway" +++ JS.dq
    +++ " v=" +++ JS.dq +++ escapeXml (way_highway way)
    +++ JS.dq +++ " />" +++ JS.nl
    +++ "  </way>" +++ JS.nl.
End OsmExport.

(** ** Douglas-Peucker simplification *)

Section Simplifier.
Context {host : Host}.

(** [haversineDistance] *)
Definition haversineDistance (point1 point2 : Position) : JS.number :=
  let R := JS.ofZ 6371000 in
  let '(lon1, lat1) := point1 in
  let '(lon2, lat2) := point2 in
  let n180 := JS.ofZ 180 in
  let two := JS.ofZ 2 in
  let dLat := JS.div (JS.mul (JS.sub lat2 lat1) JS.Math_PI) n180 in
  let dLon := JS.div (JS.mul (JS.sub lon2 lon1) JS.Math_PI) n180 in
  let a :=
    JS.add
      (JS.mul (Math_sin (JS.div dLat two)) (Math_sin (JS.div dLat two)))
      (JS.mul
         (JS.mul
            (JS.mul (Math_cos (JS.div (JS.mul lat1 JS.Math_PI) n180))
                    (Math_cos (JS.div (JS.mul lat2 JS.Math_PI) n180)))
            (Math_sin (JS.div dLon two)))
         (Math_sin (JS.div dLon two))) in
  let c :=
    JS.mul two
      (Math_atan2 (JS.Math_sqrt a) (JS.Math_sqrt (JS.sub (JS.ofZ 1) a))) in
  JS.mul R c.

(** [perpendicularDistance] *)
Definition perpendicularDistance (point lineStart lineEnd : Position)
  : JS.number :=
  let '(lon0, lat0) := point in
  let '(lon1, lat1) := lineStart in
  let '(lon2, lat2) := lineEnd in
  let dx := JS.sub lon2 lon1 in
  let dy := JS.sub lat2 lat1 in
  let d := JS.Math_sqrt (JS.add (JS.mul dx dx) (JS.mul dy dy)) in
  if JS.strictEq d (JS.ofZ 0)
  then haversineDistance (lon0, lat0) (lon1, lat1)
  else
    let t :=
      JS.Math_max (JS.ofZ 0)
        (JS.Math_min (JS.ofZ 1)
           (JS.div (JS.add (JS.mul (JS.sub lon0 lon1) dx)
                           (JS.mul (JS.sub lat0 lat1) dy))
                   (JS.mul d d))) in
    let projLon := JS.add lon1 (JS.mul t dx) in
    let projLat := JS.add lat1 (JS.mul t dy) in
    haversineDistance (lon0, lat0) (projLon, projLat).

(** [points[i]]; every index used below is within the list. *)
Definition pointAt (points : list Position) (i : nat) : Position :=
  nth i points (JS.nan, JS.nan).

(** The scan for the farthest interior point: [maxDistance], [maxIndex]. *)
Definition farthest_step (points : list Position) (first last : Position)
  (i : nat) (acc : JS.number * nat) : JS.number * nat :=
  let '(maxDistance, maxIndex) := acc in
  let distance := perpendicularDistance (pointAt points i) first last in
  if JS.gtb distance maxDistance then (distance, i)
  else (maxDistance, maxIndex).

Definition farthest (points : list Position) : JS.number * nat :=
  let first := pointAt points 0 in
  let last := pointAt points (List.length points - 1) in
  JS.forRange 1 (List.length points - 1) (farthest_step points first last)
    (JS.ofZ 0, 0).

(** [douglasPeucker], with the depth of the recursion bounded by [fuel];
    [None] when the bound is reached. *)
Fixpoint douglasPeucker_fuel (fuel : nat) (points : list Position)
  (tolerance : JS.number) : option (list Position) :=
  match fuel with
  | O => None
  | S fuel' =>
      if List.length points <=? 2 then Some points
      else
        let first := pointAt points 0 in
        let last := pointAt points (List.length points - 1) in
        let '(maxDistance, maxIndex) := farthest points in
        if JS.gtb maxDistance tolerance then
          match douglasPeucker_fuel fuel' (firstn (maxIndex + 1) points)
                                    tolerance,
                douglasPeucker_fuel fuel' (skipn maxIndex points)
                                    tolerance with
          | Some leftPart, Some rightPart =>
              Some (removelast leftPart ++ rightPart)
          | _, _ => None
          end
        else Some [first; last]
  end.

(** A recursion on lists that get shorter is no deeper than the list is
    long: the fuel of the top call. *)
Definition douglasPeucker (points : list Position) (tolerance : JS.number)
  : option (list Position) :=
  douglasPeucker_fuel (S (List.length points)) points tolerance.
End Simplifier.

(** ** A sample host

    One concrete host, to run the program on concrete inputs: small-angle
    trigonometry, code-unit string order, a stable insertion sort, a
    [JSON.parse] that reads only the empty array, a counter for random
    identifiers and a clock that stands still. *)

Module SampleHost.

Fixpoint insertSorted {A : Type} (cmp : A -> A -> JS.number) (x : A)
  (sorted : list A) : list A :=
  match sorted with
  | [] => [x]
  | y :: r =>
      if JS.ltb (cmp x y) (JS.ofZ 0) then x :: y :: r
      else y :: insertSorted cmp x r
  end.

Definition insertionSort (A : Type) (cmp : A -> A -> JS.number)
  (l : list A) : list A :=
  fold_right (insertSorted cmp) [] l.

Definition compareCodeUnits (a b : string) : JS.number :=
  match String.compare a b with
  | Lt => JS.ofZ (-1)
  | Eq => JS.ofZ 0
  | Gt => JS.ofZ 1
  end.

Definition sixDecimals (x : JS.number) : string :=
  match x with
  | S754_finite s m e =>
      (if s then "-" else "")
        +++ JS.insertPoint 6 (JS.intToString (JS.fixedDigits 6 m e))
  | _ => ""
  end.

#[export] Instance host : Host := {|
  Math_sin := fun x => x;
  Math_cos := fun _ => JS.ofZ 1;
  Math_atan2 := fun y x => JS.div y x;
  finiteToString := sixDecimals;
  localeCompare := compareCodeUnits;
  JSON_parse := fun s => if String.eqb s "[]" then Some (JS.Arr []) else None;
  JSON_stringify := fun _ => "[]";
  Array_sort := insertionSort;
  Math_random_id := fun n => "r" +++ JS.natToString n;
  Date_toLocaleDateString := fun _ => "1/1/2026";
  Date_toISOString := fun _ => "2026-01-01T00:00:00.000Z"
|}.

End SampleHost.

(* ===================================================================== *)
(** * Part III.  Theorems                                                 *)
(* ===================================================================== *)

(** ** Statistics *)

(** The statistics as the specification words them: one vertex per Point,
    every vertex of a line, the first ring of a polygon. *)
Definition specVertices (g : Geometry) : nat :=
  match g with
  | Point _ => 1
  | LineString coordinates => List.length coordinates
  | MultiLineString coordinates => List.length (List.concat coordinates)
  | Polygon coordinates =>
      match coordinates with ring :: _ => List.length ring | [] => 0 end
  | MultiPolygon coordinates =>
      List.length
        (List.concat (map (fun polygon =>
                        match polygon with ring :: _ => ring | [] => [] end)
                     coordinates))
  | OtherGeometry _ => 0
  end.

Definition isWay (g : Geometry) : bool :=
  match g with
  | LineString _ | MultiLineString _ | Polygon _ | MultiPolygon _ => true
  | Point _ | OtherGeometry _ => false
  end.

Definition specNodeCount (feats : list Feature) : nat :=
  list_sum (map (fun f => match geometry f with
                          | Some g => specVertices g
                          | None => 0
                          end) feats).

Definition specWayCount (feats : list Feature) : nat :=
  List.length (filter (fun f => match geometry f with
                                | Some g => isWay g
                                | None => false
                                end) feats).

(** Geometries on which the count of [calculateStats] is the count of
    vertices: a Point, a LineString with at least one position, a Polygon. *)
Definition plainGeometry (f : Feature) : bool :=
  match geometry f with
  | Some (Point _) | Some (Polygon _) | Some (OtherGeometry _) | None => true
  | Some (LineString (_ :: _)) => true
  | _ => false
  end.

Lemma calculateStats_feature_add (f : Feature) (nodes ways : nat) :
  calculateStats_feature f (nodes, ways) =
  (nodes + fst (calculateStats_feature f (0, 0)),
   ways + snd (calculateStats_feature f (0, 0))).
Proof.
  unfold calculateStats_feature.
  destruct (geometry f) as [[c|cs|rs|ls|ps|ty]|];
    try destruct cs; try destruct rs; try destruct ls; try destruct ps;
    simpl; f_equal; lia.
Qed.

Lemma calculateStats_fold (feats : list Feature) (nodes ways : nat) :
  JS.forEach feats calculateStats_feature (nodes, ways) =
  (nodes + fst (JS.forEach feats calculateStats_feature (0, 0)),
   ways + snd (JS.forEach feats calculateStats_feature (0, 0))).
Proof.
  unfold JS.forEach. revert nodes ways.
  induction feats as [|f feats IH]; intros nodes ways; cbn [fold_left].
  - simpl. f_equal; lia.
  - rewrite (calculateStats_feature_add f nodes ways).
    destruct (calculateStats_feature f (0, 0)) as [n0 w0].
    rewrite IH. rewrite (IH n0 w0).
    simpl. f_equal; lia.
Qed.

Lemma calculateStats_cons (f : Feature) (feats : list Feature) :
  calculateStats (f :: feats) =
  {| stats_features := S (stats_features (calculateStats feats));
     stats_nodes := fst (calculateStats_feature f (0, 0))
                    + stats_nodes (calculateStats feats);
     stats_ways := snd (calculateStats_feature f (0, 0))
                   + stats_ways (calculateStats feats) |}.
Proof.
  unfold calculateStats.
  change (JS.forEach (f :: feats) calculateStats_feature (0, 0))
    with (JS.forEach feats calculateStats_feature
            (calculateStats_feature f (0, 0))).
  destruct (calculateStats_feature f (0, 0)) as [n0 w0].
  rewrite calculateStats_fold.
  destruct (JS.forEach feats calculateStats_feature (0, 0)) as [n w].
  reflexivity.
Qed.

Lemma calculateStats_ways (feats : list Feature) :
  stats_features (calculateStats feats) = List.length feats /\
  stats_ways (calculateStats feats) = specWayCount feats.
Proof.
  induction feats as [|f feats [IHf IHw]]; [split; reflexivity|].
  rewrite calculateStats_cons. simpl. rewrite IHf, IHw. split; [reflexivity|].
  unfold specWayCount, calculateStats_feature. simpl.
  destruct (geometry f) as [[c|cs|rs|ls|ps|ty]|];
    try destruct cs; try destruct rs; try destruct ls; try destruct ps;
    reflexivity.
Qed.

Lemma calculateStats_nodes_plain (feats : list Feature) :
  forallb plainGeometry feats = true ->
  stats_nodes (calculateStats feats) = specNodeCount feats.
Proof.
  induction feats as [|f feats IH]; intros Hplain; [reflexivity|].
  simpl in Hplain. apply andb_true_iff in Hplain as [Hf Hrest].
  rewrite calculateStats_cons. simpl. rewrite (IH Hrest).
  unfold specNodeCount, calculateStats_feature, plainGeometry in *. simpl.
  destruct (geometry f) as [[c|cs|rs|ls|ps|ty]|];
    try destruct cs; try destruct rs; try discriminate; reflexivity.
Qed.

(** The example of the specification: a Point and a LineString of four
    positions give 2 features, 1 way and 5 nodes. *)
Lemma calculateStats_point_and_line (p a b c d : Position)
  (props1 props2 : option (list (string * JS.value))) :
  calculateStats
    [ {| geometry := Some (Point p); properties := props1 |};
      {| geometry := Some (LineString [a; b; c; d]); properties := props2 |} ]
  = {| stats_features := 2; stats_nodes := 5; stats_ways := 1 |}.
Proof. reflexivity. Qed.

(** C3 (defect in the code).  For a MultiLineString [calculateStats] adds the
    number of member lines to [nodeCount], not the number of their vertices:
    two lines of three positions each count as 2 nodes, where the vertices,
    which [extractCoordinates] lists and the export writes as nodes, are
    6. *)
Theorem calculateStats_MultiLineString_counts_lines :
  let p (n : Z) : Position := (JS.ofZ n, JS.ofZ n) in
  let g := MultiLineString [[p 0; p 1; p 2]; [p 3; p 4; p 5]]%Z in
  let f := {| geometry := Some g; properties := None |} in
  stats_nodes (calculateStats [f]) = 2 /\
  specNodeCount [f] = 6 /\
  List.length (extractCoordinates g) = 6.
Proof. repeat split. Qed.

(** The same slip for a MultiPolygon: the rings of the first polygon are
    counted, not the vertices of a ring. *)
Lemma calculateStats_MultiPolygon_counts_rings :
  let p (n : Z) : Position := (JS.ofZ n, JS.ofZ n) in
  let g := MultiPolygon [[[p 0; p 1; p 2; p 0]]]%Z in
  let f := {| geometry := Some g; properties := None |} in
  stats_nodes (calculateStats [f]) = 1 /\ specNodeCount [f] = 4.
Proof. repeat split. Qed.

(** ** The key of a feature *)

Definition probeOrder : list string :=
  ["sequence_id"; "sequenceId"; "sequence"; "id"; "seq"].

(** [feature.properties] has an own property of that name. *)
Definition present (feature : Feature) (name : string) : option JS.value :=
  match properties feature with
  | Some o => JS.getProp o name
  | None => None
  end.

Fixpoint firstSome {A B : Type} (f : A -> option B) (l : list A) : option B :=
  match l with
  | [] => None
  | x :: r => match f x with Some y => Some y | None => firstSome f r end
  end.

Section KeyDerivation.
Context {host : Host}.

(** The key as the specification words it: the first property that is
    present, whatever its value; a synthetic key only when none is. *)
Definition specSequenceIdOf (feature : Feature) (drawn : nat)
  : string * nat :=
  match firstSome (present feature) probeOrder with
  | Some v => (String_ v, drawn)
  | None => ("sequence_" +++ Math_random_id drawn, S drawn)
  end.

(** The key the code derives: the first property whose value is truthy. *)
Definition firstTruthy (feature : Feature) : option JS.value :=
  find JS.truthy (map (prop feature) probeOrder).

Lemma or_truthy (a b : JS.value) : JS.truthy a = true -> JS.or a b = a.
Proof. unfold JS.or. intros ->. reflexivity. Qed.

Lemma or_falsy (a b : JS.value) : JS.truthy a = false -> JS.or a b = b.
Proof. unfold JS.or. intros ->. reflexivity. Qed.

Lemma sequenceIdOf_firstTruthy (feature : Feature) (drawn : nat) :
  sequenceIdOf feature drawn =
  match firstTruthy feature with
  | Some v => (String_ v, drawn)
  | None => ("sequence_" +++ Math_random_id drawn, S drawn)
  end.
Proof.
  unfold sequenceIdOf, firstTruthy, probeOrder.
  cbn [map find].
  set (a := prop feature "sequence_id"). set (b := prop feature "sequenceId").
  set (c := prop feature "sequence"). set (d := prop feature "id").
  set (e := prop feature "seq").
  destruct (JS.truthy a) eqn:Ea.
  { rewrite !(or_truthy a), Ea by exact Ea. reflexivity. }
  rewrite (or_falsy a) by exact Ea.
  destruct (JS.truthy b) eqn:Eb.
  { rewrite !(or_truthy b), Eb by exact Eb. reflexivity. }
  rewrite (or_falsy b) by exact Eb.
  destruct (JS.truthy c) eqn:Ec.
  { rewrite !(or_truthy c), Ec by exact Ec. reflexivity. }
  rewrite (or_falsy c) by exact Ec.
  destruct (JS.truthy d) eqn:Ed.
  { rewrite !(or_truthy d), Ed by exact Ed. reflexivity. }
  rewrite (or_falsy d) by exact Ed.
  destruct (JS.truthy e) eqn:Ee; reflexivity.
Qed.
End KeyDerivation.

(** C4 (as amended).  The key of a feature is [String(v)] for the first of
    [sequence_id], [sequenceId], [sequence], [id], [seq] whose value [v] is
    truthy; then no random identifier is drawn and the key depends on the
    feature alone.  When none is truthy the key is [sequence_] followed by a
    fresh random identifier. *)
Theorem sequenceIdOf_first_truthy_property :
  forall (host : Host) (feature : Feature) (drawn : nat),
    sequenceIdOf feature drawn =
    match find JS.truthy (map (prop feature) probeOrder) with
    | Some v => (String_ v, drawn)
    | None => ("sequence_" +++ Math_random_id drawn, S drawn)
    end.
Proof. intros. apply sequenceIdOf_firstTruthy. Qed.

(** C4 (as stated) fails: with [sequence_id] present but empty and [id]
    equal to ["7"], the code takes ["7"], not the first property present. *)
Lemma sequenceIdOf_skips_present_falsy_property :
  ~ (forall (host : Host) (feature : Feature) (drawn : nat),
        sequenceIdOf feature drawn = specSequenceIdOf feature drawn).
Proof.
  intros H.
  specialize (H SampleHost.host
                {| geometry := None;
                   properties := Some [("sequence_id", JS.Str "");
                                       ("id", JS.Str "7")] |} 0).
  vm_compute in H. discriminate H.
Qed.

(** ** Loops and maps: general facts *)

Lemma forRange_empty {St : Type} (start stop : nat) (body : nat -> St -> St)
  (s : St) :
  stop <= start -> JS.forRange start stop body s = s.
Proof.
  intros H. unfold JS.forRange.
  replace (stop - start) with 0 by lia. reflexivity.
Qed.

Lemma forRange_split {St : Type} (start mid stop : nat)
  (body : nat -> St -> St) (s : St) :
  start <= mid -> mid <= stop ->
  JS.forRange start stop body s =
  JS.forRange mid stop body (JS.forRange start mid body s).
Proof.
  intros H1 H2. unfold JS.forRange.
  replace (stop - start) with ((mid - start) + (stop - mid)) by lia.
  rewrite seq_app, fold_left_app.
  replace (start + (mid - start)) with mid by lia. reflexivity.
Qed.

(** A relation between two states that each step of two loops keeps is kept
    by the loops. *)
Lemma forRange_sim {S1 S2 : Type} (R : S1 -> S2 -> Prop)
  (body1 : nat -> S1 -> S1) (body2 : nat -> S2 -> S2) (start stop : nat) :
  (forall i s1 s2, start <= i < stop -> R s1 s2 ->
                   R (body1 i s1) (body2 i s2)) ->
  forall s1 s2, R s1 s2 ->
    R (JS.forRange start stop body1 s1) (JS.forRange start stop body2 s2).
Proof.
  unfold JS.forRange. intros Hstep.
  remember (stop - start) as n eqn:En.
  assert (Hn : start + n <= stop \/ n = 0) by lia. clear En.
  revert start Hstep Hn.
  induction n as [|n IH]; intros start Hstep Hn s1 s2 HR; simpl; [exact HR|].
  apply IH.
  - intros i t1 t2 Hi. apply Hstep. lia.
  - lia.
  - apply Hstep; [lia|exact HR].
Qed.

(** The chunked loop against the plain loop: whatever relation the steps
    keep and the work between two chunks does not disturb holds at the
    end. *)
Lemma chunkedLoop_sim {S1 S2 : Type} (R : S1 -> S2 -> Prop) (c total : nat)
  (body1 : nat -> S1 -> S1) (afterChunk : nat -> S1 -> S1)
  (body2 : nat -> S2 -> S2) :
  (forall i s1 s2, i < total -> R s1 s2 -> R (body1 i s1) (body2 i s2)) ->
  (forall stop s1 s2, R s1 s2 -> R (afterChunk stop s1) s2) ->
  forall start s1 s2, R s1 s2 ->
    R (JS.chunkedLoop c total body1 afterChunk start s1)
      (JS.forRange start total body2 s2).
Proof.
  intros Hbody Hafter start s1.
  funelim (JS.chunkedLoop c total body1 afterChunk start s1);
    intros s2 HR.
  - rewrite forRange_empty by assumption. exact HR.
  - set (stop := Nat.min (start + S c) total) in *.
    rewrite (forRange_split start stop total) by (unfold stop; lia).
    destruct (le_lt_dec (start + S c) total) as [Hle|Hgt].
    + replace stop with (start + S c) in * by (unfold stop; lia).
      apply H; try assumption.
      apply Hafter. apply forRange_sim; [|exact HR].
      intros i t1 t2 Hi. apply Hbody. lia.
    + replace stop with total in * by (unfold stop; lia).
      rewrite (forRange_empty total total) by lia.
      rewrite <- (forRange_empty (start + S c) total body2
                    (JS.forRange start total body2 s2)) by lia.
      apply H; try assumption.
      apply Hafter. apply forRange_sim; [|exact HR].
      intros i t1 t2 Hi. apply Hbody. lia.
Qed.

Lemma chunkedLoop_inv {St : Type} (P : St -> Prop) (c total : nat)
  (body : nat -> St -> St) (afterChunk : nat -> St -> St) :
  (forall i s, i < total -> P s -> P (body i s)) ->
  (forall stop s, P s -> P (afterChunk stop s)) ->
  forall start s, P s -> P (JS.chunkedLoop c total body afterChunk start s).
Proof.
  intros Hbody Hafter start s Hs.
  apply (chunkedLoop_sim (fun s1 (_ : unit) => P s1) c total body afterChunk
           (fun _ u => u)) with (s2 := tt); auto.
Qed.

(** A loop over the indices of an array is a loop over its elements. *)
Lemma forRange_nth_error {A St : Type} (items : list A)
  (step : A -> St -> St) (s : St) :
  JS.forRange 0 (List.length items)
    (fun i acc => match nth_error items i with
                  | Some x => step x acc
                  | None => acc
                  end) s
  = JS.forEach items step s.
Proof.
  unfold JS.forRange, JS.forEach. rewrite Nat.sub_0_r.
  enough (H : forall pre, fold_left
                (fun acc i => match nth_error (pre ++ items) i with
                              | Some x => step x acc
                              | None => acc
                              end)
                (seq (List.length pre) (List.length items)) s
              = fold_left (fun acc x => step x acc) items s)
    by exact (H []).
  revert s. induction items as [|x items IH]; intros s pre; [reflexivity|].
  simpl. rewrite nth_error_app2, Nat.sub_diag by lia. simpl.
  specialize (IH (step x s) (pre ++ [x])).
  rewrite <- app_assoc, length_app in IH. simpl in IH.
  rewrite Nat.add_1_r in IH. exact IH.
Qed.

(** ** Maps *)

Section MapFacts.
Context {V : Type}.
Implicit Types (m : list (string * V)) (k : string) (v : V).

Lemma getProp_putProp_same m k v : JS.getProp (JS.putProp m k v) k = Some v.
Proof.
  induction m as [|[k' v'] m IH]; simpl.
  - rewrite String.eqb_refl. reflexivity.
  - destruct (String.eqb k' k) eqn:E; simpl.
    + rewrite String.eqb_refl. reflexivity.
    + rewrite E. exact IH.
Qed.

Lemma getProp_putProp_other m k k' v :
  k' <> k -> JS.getProp (JS.putProp m k v) k' = JS.getProp m k'.
Proof.
  intros Hne. induction m as [|[k0 v0] m IH]; simpl.
  - destruct (String.eqb k k') eqn:E; [|reflexivity].
    apply String.eqb_eq in E. congruence.
  - destruct (String.eqb k0 k) eqn:E; simpl.
    + apply String.eqb_eq in E. subst k0.
      destruct (String.eqb k k') eqn:E'; [|reflexivity].
      apply String.eqb_eq in E'. congruence.
    + rewrite IH. reflexivity.
Qed.

Lemma In_putProp m k v k' v' :
  In (k', v') (JS.putProp m k v) -> (k', v') = (k, v) \/ In (k', v') m.
Proof.
  induction m as [|[k0 v0] m IH]; simpl.
  - intros [H|[]]. left. symmetry. exact H.
  - destruct (String.eqb k0 k) eqn:E; simpl.
    + intros [H|H]; [left; symmetry; exact H|right; right; exact H].
    + intros [H|H]; [right; left; exact H|].
      destruct (IH H) as [H'|H']; [left; exact H'|right; right; exact H'].
Qed.

Lemma getProp_In m k v : JS.getProp m k = Some v -> In (k, v) m.
Proof.
  induction m as [|[k0 v0] m IH]; simpl; [discriminate|].
  destruct (String.eqb k0 k) eqn:E.
  - apply String.eqb_eq in E. intros [= ->]. left. congruence.
  - intros H. right. exact (IH H).
Qed.

Lemma getProp_None_notin m k :
  JS.getProp m k = None -> ~ In k (map fst m).
Proof.
  induction m as [|[k0 v0] m IH]; simpl; [tauto|].
  destruct (String.eqb k0 k) eqn:E; [discriminate|].
  apply String.eqb_neq in E. intros H [H'|H']; [congruence|exact (IH H H')].
Qed.

(** The keys after [set]: unchanged when the key is there, one more at the
    end when it is new. *)
Lemma keys_putProp m k v :
  map fst (JS.putProp m k v) =
  if JS.Map.has m k then map fst m else map fst m ++ [k].
Proof.
  unfold JS.Map.has. induction m as [|[k0 v0] m IH]; simpl; [reflexivity|].
  destruct (String.eqb k0 k) eqn:E; simpl.
  - apply String.eqb_eq in E. subst. reflexivity.
  - rewrite IH. destruct (JS.getProp m k); reflexivity.
Qed.

Lemma has_true_In m k : JS.Map.has m k = true -> In k (map fst m).
Proof.
  unfold JS.Map.has. destruct (JS.getProp m k) as [v|] eqn:E; [|discriminate].
  intros _. apply getProp_In in E. apply (in_map fst) in E. exact E.
Qed.

Lemma NoDup_keys_putProp m k v :
  NoDup (map fst m) -> NoDup (map fst (JS.putProp m k v)).
Proof.
  intros Hnd. rewrite keys_putProp.
  destruct (JS.Map.has m k) eqn:E; [exact Hnd|].
  apply NoDup_app; [exact Hnd|repeat constructor; simpl; tauto|].
  intros x Hx [Hk|[]]. subst x.
  unfold JS.Map.has in E. destruct (JS.getProp m k) eqn:E'; [discriminate|].
  exact (getProp_None_notin _ _ E' Hx).
Qed.

(** With distinct keys, an entry is what [get] finds. *)
Lemma In_getProp m k v :
  NoDup (map fst m) -> In (k, v) m -> JS.getProp m k = Some v.
Proof.
  induction m as [|[k0 v0] m IH]; simpl; [tauto|].
  intros Hnd [H|H].
  - injection H as -> ->. rewrite String.eqb_refl. reflexivity.
  - inversion Hnd as [|? ? Hnotin Hnd']; subst.
    destruct (String.eqb k0 k) eqn:E.
    + apply String.eqb_eq in E. subst. exfalso. apply Hnotin.
      apply (in_map fst) in H. exact H.
    + exact (IH Hnd' H).
Qed.
End MapFacts.

(** Mapping the values of a map commutes with its operations. *)
Definition mapValues {V W : Type} (f : V -> W) (m : list (string * V))
  : list (string * W) :=
  map (fun kv => (fst kv, f (snd kv))) m.

Lemma getProp_mapValues {V W : Type} (f : V -> W) (m : list (string * V))
  (k : string) :
  JS.getProp (mapValues f m) k = option_map f (JS.getProp m k).
Proof.
  induction m as [|[k0 v0] m IH]; simpl; [reflexivity|].
  destruct (String.eqb k0 k); [reflexivity|exact IH].
Qed.

Lemma putProp_mapValues {V W : Type} (f : V -> W) (m : list (string * V))
  (k : string) (v : V) :
  JS.putProp (mapValues f m) k (f v) = mapValues f (JS.putProp m k v).
Proof.
  induction m as [|[k0 v0] m IH]; simpl; [reflexivity|].
  destruct (String.eqb k0 k); simpl; [reflexivity|]. rewrite IH. reflexivity.
Qed.

Lemma has_mapValues {V W : Type} (f : V -> W) (m : list (string * V))
  (k : string) :
  JS.Map.has (mapValues f m) k = JS.Map.has m k.
Proof.
  unfold JS.Map.has. rewrite getProp_mapValues.
  destruct (JS.getProp m k); reflexivity.
Qed.

Lemma values_mapValues {V W : Type} (f : V -> W) (m : list (string * V)) :
  JS.Map.values (mapValues f m) = map f (JS.Map.values m).
Proof.
  unfold JS.Map.values, mapValues. rewrite !map_map. reflexivity.
Qed.

(** ** Aggregation: statuses *)

Section AggregatorFacts.
Context {host : Host}.

(** The status a group is created with. *)
Definition statusFor (existingStatusMap : JS.Map.t string) (k : string)
  : string :=
  match JS.Map.get existingStatusMap k with Some st => st | None => "" end.

(** What the grouping loop keeps true of [sequenceMap]: distinct keys, each
    group filed under its own id, with the status it was created with. *)
Definition groupsOk (esm : JS.Map.t string) (m : JS.Map.t Group) : Prop :=
  NoDup (map fst m) /\
  forall k g, In (k, g) m ->
              group_id g = k /\ group_status g = statusFor esm k.

Lemma groupsOk_put (esm : JS.Map.t string) (m : JS.Map.t Group) (k : string)
  (g : Group) :
  groupsOk esm m -> group_id g = k -> group_status g = statusFor esm k ->
  groupsOk esm (JS.putProp m k g).
Proof.
  intros [Hnd Hall] Hid Hst. split.
  - apply NoDup_keys_putProp. exact Hnd.
  - intros k' g' Hin. apply In_putProp in Hin as [Heq|Hin].
    + injection Heq as -> ->. split; assumption.
    + exact (Hall _ _ Hin).
Qed.

Lemma groupFeature_ok (esm : JS.Map.t string) (feature : Feature)
  (m : JS.Map.t Group) (w : World) :
  groupsOk esm m -> groupsOk esm (fst (groupFeature esm feature (m, w))).
Proof.
  intros Hok. unfold groupFeature.
  destruct (sequenceIdOf feature (draws w)) as [k drawn].
  set (m1 := if negb (JS.Map.has m k) then _ else m).
  assert (Hok1 : groupsOk esm m1).
  { unfold m1. destruct (JS.Map.has m k); simpl; [exact Hok|].
    apply groupsOk_put; [exact Hok|reflexivity|reflexivity]. }
  destruct (JS.Map.get m1 k) as [g|] eqn:Eg; simpl; [|exact Hok1].
  apply getProp_In in Eg. destruct Hok1 as [Hnd Hall].
  destruct (Hall _ _ Eg) as [Hid Hst].
  apply groupsOk_put; [split; assumption|exact Hid|exact Hst].
Qed.

Lemma forEach_groupFeature_ok (esm : JS.Map.t string) (feats : list Feature)
  (m : JS.Map.t Group) (w : World) :
  groupsOk esm m ->
  groupsOk esm (fst (JS.forEach feats (groupFeature esm) (m, w))).
Proof.
  unfold JS.forEach. revert m w.
  induction feats as [|f feats IH]; intros m w Hok; cbn [fold_left];
    [exact Hok|].
  destruct (groupFeature esm f (m, w)) as [m' w'] eqn:E.
  apply IH. change m' with (fst (m', w')). rewrite <- E.
  apply groupFeature_ok. exact Hok.
Qed.

Lemma groupsOk_empty (esm : JS.Map.t string) : groupsOk esm [].
Proof. split; [constructor|intros k g []]. Qed.

Lemma groupingStep_ok (esm : JS.Map.t string) (feats : list Feature)
  (i : nat) (r : Running (JS.Map.t Group)) :
  groupsOk esm (data r) -> groupsOk esm (data (groupingStep esm feats i r)).
Proof.
  intros Hok. unfold groupingStep.
  destruct (nth_error feats i) as [f|]; [|exact Hok].
  pose proof (groupFeature_ok esm f (data r) (world r) Hok) as H.
  destruct (groupFeature esm f (data r, world r)) as [m w]. exact H.
Qed.

(** A sequence made from a group that is in order. *)
Lemma withStats_status (esm : JS.Map.t string) (m : JS.Map.t Group)
  (s : Sequence) :
  groupsOk esm m -> In s (map withStats (JS.Map.values m)) ->
  status s = Some (statusFor esm (seq_id s)).
Proof.
  intros [_ Hall] Hin. apply in_map_iff in Hin as [g [<- Hg]].
  unfold JS.Map.values in Hg. apply in_map_iff in Hg as [[k g'] [Hk Hin]].
  simpl in Hk. subst g'. destruct (Hall _ _ Hin) as [Hid Hst].
  simpl. rewrite Hst, Hid. reflexivity.
Qed.

Lemma withStats_ids_NoDup (esm : JS.Map.t string) (m : JS.Map.t Group) :
  groupsOk esm m -> NoDup (map seq_id (map withStats (JS.Map.values m))).
Proof.
  intros [Hnd Hall]. unfold JS.Map.values. rewrite !map_map.
  erewrite map_ext_in; [exact Hnd|].
  intros [k g] Hin. simpl. exact (proj1 (Hall _ _ Hin)).
Qed.

(** The second loop of [processGeoJSONAsync] computes [map withStats]. *)
Lemma statsLoop_data (seqs : list Group) (after : nat -> Running (list Sequence)
                                                    -> Running (list Sequence))
  (r0 : Running (list Sequence)) :
  (forall stop r, data (after stop r) = data r) ->
  data (JS.chunkedLoop 49 (List.length seqs) (statsStep seqs) after 0 r0)
  = data r0 ++ map withStats seqs.
Proof.
  intros Hafter.
  set (step := fun (g : Group) (l : list Sequence) => l ++ [withStats g]).
  assert (H : data (JS.chunkedLoop 49 (List.length seqs) (statsStep seqs)
                      after 0 r0)
              = JS.forRange 0 (List.length seqs)
                  (fun i l => match nth_error seqs i with
                              | Some g => step g l
                              | None => l
                              end) (data r0)).
  { apply (chunkedLoop_sim
             (fun (r : Running (list Sequence)) (l : list Sequence) =>
                data r = l)).
    - intros i s1 s2 _ <-. unfold statsStep, step.
      destruct (nth_error seqs i); reflexivity.
    - intros stop s1 s2 <-. apply Hafter.
    - reflexivity. }
  rewrite H, forRange_nth_error. unfold JS.forEach, step.
  generalize (data r0). clear. induction seqs as [|g seqs IH]; intros l; simpl.
  - rewrite app_nil_r. reflexivity.
  - rewrite IH, <- app_assoc. reflexivity.
Qed.

(** *** The lookup of earlier statuses *)

Definition recordStatus (s : Sequence) (m : JS.Map.t string)
  : JS.Map.t string :=
  match status s with
  | Some st => JS.Map.set m (seq_id s) st
  | None => m
  end.

Lemma existingStatuses_other (seqs : list Sequence) (m0 : JS.Map.t string)
  (k : string) :
  (forall s, In s seqs -> seq_id s <> k) ->
  JS.Map.get (JS.forEach seqs recordStatus m0) k = JS.Map.get m0 k.
Proof.
  unfold JS.forEach. revert m0.
  induction seqs as [|s seqs IH]; intros m0 Hne; simpl; [reflexivity|].
  rewrite IH by (intros s' Hs'; apply Hne; right; exact Hs').
  unfold recordStatus. destruct (status s); [|reflexivity].
  apply getProp_putProp_other. intros ->. apply (Hne s); [left|]; reflexivity.
Qed.

Lemma existingStatuses_found (seqs : list Sequence) (m0 : JS.Map.t string)
  (s : Sequence) (st : string) :
  NoDup (map seq_id seqs) -> In s seqs -> status s = Some st ->
  JS.Map.get (JS.forEach seqs recordStatus m0) (seq_id s) = Some st.
Proof.
  unfold JS.forEach. revert m0.
  induction seqs as [|s0 seqs IH]; intros m0 Hnd Hin Hst; simpl; [destruct Hin|].
  inversion Hnd as [|? ? Hnotin Hnd']; subst.
  destruct Hin as [->|Hin].
  - fold (JS.forEach seqs recordStatus (recordStatus s m0)).
    rewrite existingStatuses_other.
    + unfold recordStatus. rewrite Hst. apply getProp_putProp_same.
    + intros s' Hs' Heq. apply Hnotin. rewrite <- Heq.
      apply in_map. exact Hs'.
  - apply IH; assumption.
Qed.

Lemma statusFor_known (seqs : list Sequence) (old : Sequence) (st : string) :
  NoDup (map seq_id seqs) -> In old seqs -> status old = Some st ->
  statusFor (existingStatuses seqs) (seq_id old) = st.
Proof.
  intros Hnd Hin Hst. unfold statusFor, existingStatuses.
  change (fun s m => match status s with
                     | Some st => JS.Map.set m (seq_id s) st
                     | None => m
                     end) with recordStatus.
  rewrite (existingStatuses_found seqs [] old st Hnd Hin Hst). reflexivity.
Qed.

Lemma statusFor_new (seqs : list Sequence) (k : string) :
  (forall old, In old seqs -> seq_id old <> k) ->
  statusFor (existingStatuses seqs) k = "".
Proof.
  intros Hne. unfold statusFor, existingStatuses.
  change (fun s m => match status s with
                     | Some st => JS.Map.set m (seq_id s) st
                     | None => m
                     end) with recordStatus.
  rewrite (existingStatuses_other seqs [] k Hne). reflexivity.
Qed.

Lemma sequences_resetToFirstInView (this : TaskManager) :
  sequences (resetToFirstInView this) = sequences this.
Proof.
  unfold resetToFirstInView.
  destruct (getCurrentViewSequences this); reflexivity.
Qed.
End AggregatorFacts.

(** ** Aggregation: the chunked path against the plain one *)

(** A sequence without its creation date: key, features in order, status and
    statistics. *)
Definition SequenceCore : Type :=
  string * list Feature * option string * nat * nat * nat.

Definition sequenceCore (s : Sequence) : SequenceCore :=
  (seq_id s, seq_features s, status s, featureCount s, nodeCount s,
   wayCount s).

Definition coreId (c : SequenceCore) : string :=
  let '(i, _, _, _, _, _) := c in i.

Definition coreStatus (c : SequenceCore) : option string :=
  let '(_, _, st, _, _, _) := c in st.

Definition compareCores (a b : SequenceCore) {host : Host} : JS.number :=
  compareIds (coreId a) (coreId b).

(** A comparator-based sort sees the elements only through the comparator:
    it commutes with any map the comparator factors through. *)
Definition sortNatural (host : Host) : Prop :=
  forall (A B : Type) (f : A -> B) (cmp : B -> B -> JS.number) (l : list A),
    map f (Array_sort A (fun x y => cmp (f x) (f y)) l)
    = Array_sort B cmp (map f l).

(** A sort rearranges. *)
Definition sortPermutes (host : Host) : Prop :=
  forall (A : Type) (cmp : A -> A -> JS.number) (l : list A),
    Permutation (Array_sort A cmp l) l.

Section ChunkedAggregation.
Context {host : Host}.

Definition GroupCore : Type := string * list Feature * string.

Definition groupCore (g : Group) : GroupCore :=
  (group_id g, group_features g, group_status g).

(** The grouping step on groups without dates. *)
Definition groupFeatureCore (esm : JS.Map.t string) (feature : Feature)
  (acc : JS.Map.t GroupCore * nat) : JS.Map.t GroupCore * nat :=
  let '(cm, drawn0) := acc in
  let '(k, drawn) := sequenceIdOf feature drawn0 in
  let cm1 := if negb (JS.Map.has cm k)
             then JS.Map.set cm k (k, [], statusFor esm k) else cm in
  match JS.Map.get cm1 k with
  | Some (i, fs, st) => (JS.Map.set cm1 k (i, fs ++ [feature], st), drawn)
  | None => (cm1, drawn)
  end.

Definition stateCore (acc : JS.Map.t Group * World)
  : JS.Map.t GroupCore * nat :=
  (mapValues groupCore (fst acc), draws (snd acc)).

Lemma groupFeature_core (esm : JS.Map.t string) (feature : Feature)
  (acc : JS.Map.t Group * World) :
  stateCore (groupFeature esm feature acc)
  = groupFeatureCore esm feature (stateCore acc).
Proof.
  destruct acc as [m w]. unfold groupFeature, groupFeatureCore, stateCore.
  cbn [fst snd].
  destruct (sequenceIdOf feature (draws w)) as [k drawn].
  rewrite has_mapValues.
  set (fresh := {| group_id := k; group_features := [];
                   group_status := _; group_date := _ |}).
  set (w' := {| draws := drawn; now := now w |}).
  assert (common : forall m1 : JS.Map.t Group,
    (mapValues groupCore
       (fst match JS.Map.get m1 k with
            | Some g => (JS.Map.set m1 k (pushFeature g feature), w')
            | None => (m1, w')
            end),
     draws (snd match JS.Map.get m1 k with
                | Some g => (JS.Map.set m1 k (pushFeature g feature), w')
                | None => (m1, w')
                end))
    = match JS.Map.get (mapValues groupCore m1) k with
      | Some (i, fs, st) =>
          (JS.Map.set (mapValues groupCore m1) k (i, fs ++ [feature], st),
           drawn)
      | None => (mapValues groupCore m1, drawn)
      end).
  { intros m1. unfold JS.Map.get. rewrite getProp_mapValues.
    destruct (JS.getProp m1 k) as [g|]; cbn [option_map fst snd].
    - unfold JS.Map.set, groupCore at 2. cbn [draws w'].
      rewrite <- putProp_mapValues. reflexivity.
    - reflexivity. }
  destruct (JS.Map.has m k); cbn [negb].
  - apply common.
  - rewrite common. unfold JS.Map.set at 3 4 5.
    rewrite <- !putProp_mapValues. reflexivity.
Qed.

Lemma forEach_groupFeature_core (esm : JS.Map.t string)
  (feats : list Feature) (acc : JS.Map.t Group * World) :
  stateCore (JS.forEach feats (groupFeature esm) acc)
  = JS.forEach feats (groupFeatureCore esm) (stateCore acc).
Proof.
  unfold JS.forEach. revert acc.
  induction feats as [|f feats IH]; intros acc; cbn [fold_left];
    [reflexivity|].
  rewrite IH, groupFeature_core. reflexivity.
Qed.

(** The first loop of [processGeoJSONAsync], without dates, is the loop of
    [processGeoJSON]. *)
Lemma groupingLoop_core (esm : JS.Map.t string) (feats : list Feature)
  (after : nat -> Running (JS.Map.t Group) -> Running (JS.Map.t Group))
  (r0 : Running (JS.Map.t Group)) :
  (forall stop r, data (after stop r) = data r /\
                  draws (world (after stop r)) = draws (world r)) ->
  let done := JS.chunkedLoop 99 (List.length feats)
                (groupingStep esm feats) after 0 r0 in
  stateCore (data done, world done)
  = JS.forEach feats (groupFeatureCore esm) (stateCore (data r0, world r0)).
Proof.
  intros Hafter done. rewrite <- forRange_nth_error.
  apply (chunkedLoop_sim
           (fun (r : Running (JS.Map.t Group))
                (c : JS.Map.t GroupCore * nat) =>
              stateCore (data r, world r) = c)).
  - intros i s1 s2 _ <-. unfold groupingStep.
    destruct (nth_error feats i) as [f|]; [|reflexivity].
    rewrite <- groupFeature_core.
    destruct (groupFeature esm f (data s1, world s1)) as [m w]. reflexivity.
  - intros stop s1 s2 <-. destruct (Hafter stop s1) as [Hd Hw].
    unfold stateCore. cbn [fst snd]. rewrite Hd, Hw. reflexivity.
  - reflexivity.
Qed.

Lemma afterChunk_keeps {D : Type} (cb : bool) (percent : nat -> JS.number)
  (stop : nat) (r : Running D) :
  data (afterChunk cb percent stop r) = data r /\
  draws (world (afterChunk cb percent stop r)) = draws (world r).
Proof. split; reflexivity. Qed.

(** Statistics on groups without dates. *)
Definition withStatsCore (g : GroupCore) : SequenceCore :=
  let '(i, fs, st) := g in
  let stats := calculateStats fs in
  (i, fs, Some st, stats_features stats, stats_nodes stats, stats_ways stats).

Lemma withStats_core (g : Group) :
  sequenceCore (withStats g) = withStatsCore (groupCore g).
Proof. reflexivity. Qed.

Lemma sequences_core (m : JS.Map.t Group) :
  map sequenceCore (map withStats (JS.Map.values m))
  = map withStatsCore (JS.Map.values (mapValues groupCore m)).
Proof.
  rewrite values_mapValues, !map_map. apply map_ext. intros g.
  apply withStats_core.
Qed.

Lemma sortSequences_core (l1 l2 : list Sequence) :
  sortNatural host ->
  map sequenceCore l1 = map sequenceCore l2 ->
  map sequenceCore (Array_sort Sequence compareSequences l1)
  = map sequenceCore (Array_sort Sequence compareSequences l2).
Proof.
  intros Hnat Heq.
  change compareSequences
    with (fun x y => compareCores (sequenceCore x) (sequenceCore y)).
  rewrite !(Hnat Sequence SequenceCore sequenceCore
              (fun a b => compareCores a b)), Heq.
  reflexivity.
Qed.
End ChunkedAggregation.

(** ** The view and the current index depend on keys and statuses only *)

Lemma filter_through {A B : Type} (f : A -> B) (p : A -> bool) (q : B -> bool)
  (l1 l2 : list A) :
  (forall x, p x = q (f x)) ->
  map f l1 = map f l2 -> map f (filter p l1) = map f (filter p l2).
Proof.
  intros Hpq. revert l2.
  induction l1 as [|x l1 IH]; intros [|y l2] Heq; try discriminate;
    [reflexivity|].
  simpl in Heq. injection Heq as Hxy Hrest. simpl.
  rewrite (Hpq x), (Hpq y), Hxy.
  destruct (q (f y)); simpl; [rewrite Hxy; f_equal|]; apply IH; exact Hrest.
Qed.

Lemma findIndexFrom_through {A B : Type} (f : A -> B) (p : A -> bool)
  (q : B -> bool) (l1 l2 : list A) (i : Z) :
  (forall x, p x = q (f x)) ->
  map f l1 = map f l2 -> findIndexFrom p l1 i = findIndexFrom p l2 i.
Proof.
  intros Hpq. revert l2 i.
  induction l1 as [|x l1 IH]; intros [|y l2] i Heq; try discriminate;
    [reflexivity|].
  simpl in Heq. injection Heq as Hxy Hrest. simpl.
  rewrite (Hpq x), (Hpq y), Hxy.
  destruct (q (f y)); [reflexivity|]. apply IH. exact Hrest.
Qed.

Definition viewPred (view : string) (s : Sequence) : bool :=
  if String.eqb view "all" then true
  else if String.eqb view "done" then hasStatus "done" s
  else if String.eqb view "skipped" then hasStatus "skipped" s
  else isActive s.

Lemma filter_true {A : Type} (l : list A) : filter (fun _ => true) l = l.
Proof. induction l as [|x l IH]; simpl; [|rewrite IH]; reflexivity. Qed.

Lemma getCurrentViewSequences_filter (this : TaskManager) :
  getCurrentViewSequences this
  = filter (viewPred (currentView this)) (sequences this).
Proof.
  unfold getCurrentViewSequences, viewPred.
  destruct (String.eqb (currentView this) "all").
  { unfold getAllSequences. symmetry. apply filter_true. }
  destruct (String.eqb (currentView this) "done"); [reflexivity|].
  destruct (String.eqb (currentView this) "skipped"); reflexivity.
Qed.

Definition viewPredCore (view : string) (c : SequenceCore) : bool :=
  if String.eqb view "all" then true
  else if String.eqb view "done" then
         match coreStatus c with Some st => String.eqb st "done" | None => false end
  else if String.eqb view "skipped" then
         match coreStatus c with
         | Some st => String.eqb st "skipped"
         | None => false
         end
  else match coreStatus c with
       | Some st => negb (JS.nonEmpty st) || String.eqb st ""
       | None => true
       end.

Lemma viewPred_core (view : string) (s : Sequence) :
  viewPred view s = viewPredCore view (sequenceCore s).
Proof. reflexivity. Qed.

Lemma resetToFirstInView_core (this1 this2 : TaskManager) :
  currentView this1 = currentView this2 ->
  map sequenceCore (sequences this1) = map sequenceCore (sequences this2) ->
  currentIndex (resetToFirstInView this1)
  = currentIndex (resetToFirstInView this2).
Proof.
  intros Hview Hseqs. unfold resetToFirstInView.
  rewrite !getCurrentViewSequences_filter, <- Hview.
  pose proof (filter_through sequenceCore (viewPred (currentView this1))
                (viewPredCore (currentView this1)) _ _
                (viewPred_core _) Hseqs) as Hf.
  destruct (filter _ (sequences this1)) as [|a r1];
    destruct (filter _ (sequences this2)) as [|b r2];
    try discriminate; [reflexivity|].
  apply (f_equal (fun l => match l with c :: _ => coreId c | [] => "" end))
    in Hf.
  cbn [map sequenceCore coreId] in Hf. cbn [currentIndex].
  rewrite Hf. unfold findIndex.
  apply (findIndexFrom_through sequenceCore _
           (fun c => String.eqb (coreId c) (seq_id b)));
    [reflexivity|exact Hseqs].
Qed.

(** ** The sample host's sort *)

Lemma insertSorted_natural {A B : Type} (f : A -> B)
  (cmp : B -> B -> JS.number) (x : A) (l : list A) :
  map f (SampleHost.insertSorted (fun a b => cmp (f a) (f b)) x l)
  = SampleHost.insertSorted cmp (f x) (map f l).
Proof.
  induction l as [|y l IH]; simpl; [reflexivity|].
  destruct (JS.ltb _ _); simpl; [reflexivity|].
  rewrite IH. reflexivity.
Qed.

Lemma sampleHost_sortNatural : sortNatural SampleHost.host.
Proof.
  intros A B f cmp l. simpl. unfold SampleHost.insertionSort.
  induction l as [|x l IH]; simpl; [reflexivity|].
  rewrite insertSorted_natural, IH. reflexivity.
Qed.

Lemma insertSorted_perm {A : Type} (cmp : A -> A -> JS.number) (x : A)
  (l : list A) :
  Permutation (SampleHost.insertSorted cmp x l) (x :: l).
Proof.
  induction l as [|y l IH]; simpl; [reflexivity|].
  destruct (JS.ltb _ _); [reflexivity|].
  rewrite IH. apply perm_swap.
Qed.

Lemma sampleHost_sortPermutes : sortPermutes SampleHost.host.
Proof.
  intros A cmp l. simpl. unfold SampleHost.insertionSort.
  induction l as [|x l IH]; simpl; [reflexivity|].
  rewrite insertSorted_perm, IH. reflexivity.
Qed.

(** ** The two CSV parsers *)

Lemma parseCSVAsync_settles_as_sync {host : Host} (w : World)
  (csvText : string) (progressCallback : bool) :
  snd (parseCSVAsync w csvText progressCallback) = parseCSVSync csvText.
Proof.
  unfold parseCSVAsync, parseCSVSync.
  destruct (List.length (csvLines csvText) <? 2); [reflexivity|].
  destruct (noCoordinateColumns _); [reflexivity|].
  cbn [snd]. do 2 f_equal.
  apply (chunkedLoop_sim
           (fun (r : Running (JS.Map.t CsvSequence))
                (m : JS.Map.t CsvSequence) => data r = m)).
  - intros i s1 s2 _ <-. reflexivity.
  - intros stop s1 s2 <-. reflexivity.
  - reflexivity.
Qed.

(** ** The two aggregation paths, unfolded *)

Section AggregationPaths.
Context {host : Host}.

(** The groups [processGeoJSON] builds. *)
Definition groupedSync (this : TaskManager) (w : World)
  (feats : list Feature) : JS.Map.t Group * World :=
  JS.forEach feats (groupFeature (existingStatuses (sequences this))) ([], w).

(** The groups [processGeoJSONAsync] builds. *)
Definition groupedAsync (this : TaskManager) (w : World)
  (feats : list Feature) (cb : bool) : Running (JS.Map.t Group) :=
  JS.chunkedLoop 99 (List.length feats)
    (groupingStep (existingStatuses (sequences this)) feats)
    (afterChunk cb (percentOf 50 (List.length feats)))
    0 {| data := []; world := w; events := [] |}.

Lemma processGeoJSON_returns (this : TaskManager) (w : World)
  (feats : list Feature) :
  exists thisS,
    processGeoJSON this w {| features := Some feats |}
    = Returned (thisS, snd (groupedSync this w feats)) /\
    sequences thisS
    = sortSequences (map withStats
                         (JS.Map.values (fst (groupedSync this w feats)))) /\
    currentView thisS = currentView this /\
    geojsonData thisS = Some {| features := Some feats |} /\
    currentIndex thisS
    = currentIndex
        (resetToFirstInView
           (withSequences this
              (sortSequences
                 (map withStats
                      (JS.Map.values (fst (groupedSync this w feats))))))).
Proof.
  unfold processGeoJSON, groupedSync. cbn [features].
  destruct (JS.forEach feats
              (groupFeature (existingStatuses (sequences this))) ([], w))
    as [m w1].
  cbn [fst snd]. eexists. split; [reflexivity|].
  cbn [sequences withSequences withGeojsonData geojsonData currentView
       currentIndex].
  rewrite sequences_resetToFirstInView.
  unfold resetToFirstInView.
  destruct (getCurrentViewSequences _); cbn; repeat split; reflexivity.
Qed.

Lemma resetToFirstInView_withGeojsonData (this : TaskManager)
  (geojson : GeoJSON) :
  resetToFirstInView (withGeojsonData this geojson)
  = withGeojsonData (resetToFirstInView this) geojson.
Proof.
  unfold resetToFirstInView.
  change (getCurrentViewSequences (withGeojsonData this geojson))
    with (getCurrentViewSequences this).
  destruct (getCurrentViewSequences this); reflexivity.
Qed.

Lemma processGeoJSONAsync_result (this : TaskManager) (w : World)
  (feats : list Feature) (cb : bool) :
  let seqs :=
    Array_sort Sequence compareSequences
      (map withStats (JS.Map.values (data (groupedAsync this w feats cb)))) in
  let thisA :=
    fst (snd (processGeoJSONAsync this w {| features := Some feats |} cb)) in
  let wA :=
    snd (snd (processGeoJSONAsync this w {| features := Some feats |} cb)) in
  sequences thisA = seqs /\
  currentView thisA = currentView this /\
  geojsonData thisA = Some {| features := Some feats |} /\
  currentIndex thisA
  = currentIndex (resetToFirstInView (withSequences this seqs)) /\
  draws wA = draws (world (groupedAsync this w feats cb)).
Proof.
  intros seqs thisA wA. unfold thisA, wA, processGeoJSONAsync.
  cbn [features fst snd]. fold (groupedAsync this w feats cb).
  set (grouped := groupedAsync this w feats cb).
  set (processed := JS.chunkedLoop 49 _ _ _ 0 _).
  assert (Hdata : data processed
                  = map withStats (JS.Map.values (data grouped))).
  { unfold processed. rewrite statsLoop_data; [reflexivity|].
    intros stop r. reflexivity. }
  assert (Hdraws : draws (world processed) = draws (world grouped)).
  { unfold processed.
    apply (chunkedLoop_inv
             (fun r : Running (list Sequence) =>
                draws (world r) = draws (world grouped))).
    - intros i s _ Hs. unfold statsStep.
      destruct (nth_error _ i); exact Hs.
    - intros stop s Hs. exact Hs.
    - reflexivity. }
  rewrite Hdata. fold seqs.
  rewrite resetToFirstInView_withGeojsonData.
  cbn [sequences geojsonData currentView currentIndex withGeojsonData].
  rewrite sequences_resetToFirstInView.
  repeat split; try exact Hdraws.
  unfold resetToFirstInView.
  destruct (getCurrentViewSequences _); reflexivity.
Qed.

Lemma groupedAsync_core (this : TaskManager) (w : World)
  (feats : list Feature) (cb : bool) :
  stateCore (data (groupedAsync this w feats cb),
             world (groupedAsync this w feats cb))
  = stateCore (groupedSync this w feats).
Proof.
  unfold groupedAsync, groupedSync.
  rewrite forEach_groupFeature_core.
  apply (groupingLoop_core _ feats _ {| data := []; world := w; events := [] |}).
  intros stop r. apply afterChunk_keeps.
Qed.

Lemma groupedAsync_ok (this : TaskManager) (w : World)
  (feats : list Feature) (cb : bool) :
  groupsOk (existingStatuses (sequences this))
           (data (groupedAsync this w feats cb)).
Proof.
  unfold groupedAsync.
  apply (chunkedLoop_inv
           (fun r : Running (JS.Map.t Group) =>
              groupsOk (existingStatuses (sequences this)) (data r))).
  - intros i s _ Hs. apply groupingStep_ok. exact Hs.
  - intros stop s Hs. exact Hs.
  - apply groupsOk_empty.
Qed.

Lemma groupedSync_ok (this : TaskManager) (w : World) (feats : list Feature) :
  groupsOk (existingStatuses (sequences this))
           (fst (groupedSync this w feats)).
Proof. apply forEach_groupFeature_ok, groupsOk_empty. Qed.
End AggregationPaths.

Lemma processGeoJSON_paths_agree {host : Host} (this : TaskManager)
  (w : World) (feats : list Feature) (cb : bool) :
  sortNatural host ->
  exists thisS wS,
    processGeoJSON this w {| features := Some feats |} = Returned (thisS, wS) /\
    let thisA :=
      fst (snd (processGeoJSONAsync this w {| features := Some feats |} cb)) in
    let wA :=
      snd (snd (processGeoJSONAsync this w {| features := Some feats |} cb)) in
    map sequenceCore (sequences thisA) = map sequenceCore (sequences thisS) /\
    currentIndex thisA = currentIndex thisS /\
    currentView thisA = currentView thisS /\
    geojsonData thisA = geojsonData thisS /\
    draws wA = draws wS.
Proof.
  intros Hnat.
  destruct (processGeoJSON_returns this w feats)
    as [thisS [Hret [Hseq [Hview [Hgeo Hidx]]]]].
  exists thisS, (snd (groupedSync this w feats)). split; [exact Hret|].
  destruct (processGeoJSONAsync_result this w feats cb)
    as [Aseq [Aview [Ageo [Aidx Adraws]]]].
  pose proof (groupedAsync_core this w feats cb) as Hcore.
  unfold stateCore in Hcore. cbn [fst snd] in Hcore.
  injection Hcore as Hmaps Hdraws.
  assert (Hcores :
    map sequenceCore
      (Array_sort Sequence compareSequences
         (map withStats
              (JS.Map.values (data (groupedAsync this w feats cb)))))
    = map sequenceCore
        (sortSequences
           (map withStats (JS.Map.values (fst (groupedSync this w feats)))))).
  { apply sortSequences_core; [exact Hnat|].
    rewrite !sequences_core, Hmaps. reflexivity. }
  cbv zeta. rewrite Aseq, Hseq, Aview, Hview, Ageo, Hgeo, Aidx, Hidx, Adraws.
  repeat split; try assumption.
  apply resetToFirstInView_core; [reflexivity|exact Hcores].
Qed.

(** C1.  The chunked passes compute what the plain passes compute.  For
    every CSV text, [parseCSVAsync] settles to exactly the outcome of
    [parseCSVSync]: the same features in the same order with the same
    geometries and properties, or the same error.  For every state and every
    feature list, [processGeoJSONAsync] leaves the same sequences as
    [processGeoJSON]: the same keys in the same order, the same features in
    the same order within each, the same statuses and statistics; also the
    same current index, and the same number of random identifiers drawn.
    (The creation date of a sequence is read from the clock, which moves on
    while the chunked pass yields.)  The sort is the host's; it is taken to
    see the elements only through the comparator. *)
Theorem chunked_passes_agree_with_plain_passes :
  forall (host : Host),
    sortNatural host ->
    (forall (w : World) (csvText : string) (progressCallback : bool),
        snd (parseCSVAsync w csvText progressCallback)
        = parseCSVSync csvText) /\
    (forall (this : TaskManager) (w : World) (feats : list Feature)
            (progressCallback : bool),
        exists thisS wS,
          processGeoJSON this w {| features := Some feats |}
          = Returned (thisS, wS) /\
          let thisA :=
            fst (snd (processGeoJSONAsync this w
                        {| features := Some feats |} progressCallback)) in
          let wA :=
            snd (snd (processGeoJSONAsync this w
                        {| features := Some feats |} progressCallback)) in
          map sequenceCore (sequences thisA)
          = map sequenceCore (sequences thisS) /\
          currentIndex thisA = currentIndex thisS /\
          currentView thisA = currentView thisS /\
          geojsonData thisA = geojsonData thisS /\
          draws wA = draws wS).
Proof.
  intros host Hnat. split.
  - intros w csvText cb. apply parseCSVAsync_settles_as_sync.
  - intros this w feats cb. apply processGeoJSON_paths_agree. exact Hnat.
Qed.

(** ** Concrete inputs

    Concrete runs use the sample host. *)

#[local] Existing Instance SampleHost.host.

Definition emptyManager : TaskManager :=
  {| geojsonData := None; sequences := []; currentIndex := 0%Z;
     currentView := "all" |}.

Definition startWorld : World := {| draws := 0; now := 0 |}.

(** The CSV text of the example of the specification. *)
Definition exampleCsv : string :=
  "sequence_id,lat,lon" +++ JS.nl +++
  "A,1.0,103.0" +++ JS.nl +++
  "A,1.1,103.1" +++ JS.nl +++
  "B,1.2,103.2".

(** The Number nearest to [n / 10]: what the literal with one decimal
    denotes. *)
Definition tenths (n : Z) : JS.number := JS.ofDecimal false n (-1).

Definition exampleFeatureA : Feature :=
  {| geometry :=
       Some (LineString [(tenths 1030, tenths 10); (tenths 1031, tenths 11)]);
     properties :=
       Some [("sequence_id", JS.Str "A"); ("lat", JS.Str "1.0");
             ("lon", JS.Str "103.0")] |}.

Definition exampleFeatureB : Feature :=
  {| geometry := Some (Point (tenths 1032, tenths 12));
     properties :=
       Some [("sequence_id", JS.Str "B"); ("lat", JS.Str "1.2");
             ("lon", JS.Str "103.2")] |}.

Lemma chunked_passes_agree_witness :
  sortNatural SampleHost.host /\
  snd (parseCSVAsync startWorld exampleCsv true) = parseCSVSync exampleCsv /\
  exists thisS wS,
    processGeoJSON emptyManager startWorld
      {| features := Some [exampleFeatureA; exampleFeatureB] |}
    = Returned (thisS, wS) /\
    map sequenceCore
      (sequences
         (fst (snd (processGeoJSONAsync emptyManager startWorld
                      {| features := Some [exampleFeatureA; exampleFeatureB] |}
                      true))))
    = map sequenceCore (sequences thisS).
Proof.
  split; [exact sampleHost_sortNatural|].
  destruct (chunked_passes_agree_with_plain_passes SampleHost.host
              sampleHost_sortNatural) as [Hcsv Hgeo].
  split; [apply Hcsv|].
  destruct (Hgeo emptyManager startWorld [exampleFeatureA; exampleFeatureB]
              true) as [thisS [wS [Hret [Hseq _]]]].
  exists thisS, wS. split; [exact Hret|exact Hseq].
Defined.

(** C8.  The CSV text with header [sequence_id,lat,lon] and the rows
    [A,1.0,103.0], [A,1.1,103.1], [B,1.2,103.2] parses to exactly two
    features, in this order: a LineString [[103.0,1.0],[103.1,1.1]] whose
    key is A and a Point [103.2,1.2] whose key is B; coordinates are
    [lon, lat], rows in file order.  The chunked parser gives the same, and
    the aggregator files the two features under the keys A and B without
    drawing a random identifier. *)
Theorem parseCSV_example_two_sequences :
  forall (host : Host),
    parseCSVSync exampleCsv
    = Returned {| features := Some [exampleFeatureA; exampleFeatureB] |} /\
    (forall w cb,
        snd (parseCSVAsync w exampleCsv cb)
        = Returned {| features := Some [exampleFeatureA; exampleFeatureB] |}) /\
    (forall drawn,
        sequenceIdOf exampleFeatureA drawn = ("A", drawn) /\
        sequenceIdOf exampleFeatureB drawn = ("B", drawn)) /\
    tenths 1030 = JS.ofZ 103 /\ tenths 10 = JS.ofZ 1.
Proof.
  intros host.
  assert (Hsync : parseCSVSync exampleCsv
                  = Returned {| features := Some [exampleFeatureA;
                                                  exampleFeatureB] |})
    by (vm_compute; reflexivity).
  split; [exact Hsync|]. split.
  - intros w cb. rewrite parseCSVAsync_settles_as_sync. exact Hsync.
  - split; [|split; vm_compute; reflexivity].
    intros drawn. split; reflexivity.
Qed.

(** ** Statuses across re-aggregation *)

Lemma NoDup_map_eq {A B : Type} (f : A -> B) (l : list A) (a b : A) :
  NoDup (map f l) -> In a l -> In b l -> f a = f b -> a = b.
Proof.
  induction l as [|x l IH]; simpl; [tauto|].
  intros Hnd Ha Hb Hf. inversion Hnd as [|? ? Hnotin Hnd']; subst.
  destruct Ha as [->|Ha], Hb as [->|Hb]; [reflexivity| | |].
  - exfalso. apply Hnotin. rewrite Hf. apply in_map. exact Hb.
  - exfalso. apply Hnotin. rewrite <- Hf. apply in_map. exact Ha.
  - exact (IH Hnd' Ha Hb Hf).
Qed.

(** What "the merge keeps the statuses" says of the state [after] a merge
    into the state [this]. *)
Definition statusesKept (this after : TaskManager) : Prop :=
  forall s', In s' (sequences after) ->
    (forall old st, In old (sequences this) -> seq_id old = seq_id s' ->
                    status old = Some st -> status s' = Some st) /\
    ((forall old, In old (sequences this) -> seq_id old <> seq_id s') ->
     status s' = Some "").

Lemma statusesKept_from_statusFor (this after : TaskManager) :
  NoDup (map seq_id (sequences this)) ->
  (forall s', In s' (sequences after) ->
     status s'
     = Some (statusFor (existingStatuses (sequences this)) (seq_id s'))) ->
  statusesKept this after.
Proof.
  intros Hnd Hst s' Hin. rewrite (Hst s' Hin). split.
  - intros old st Hold Hid Hs. rewrite <- Hid.
    rewrite (statusFor_known _ old st Hnd Hold Hs). reflexivity.
  - intros Hnew. rewrite statusFor_new by exact Hnew. reflexivity.
Qed.

Lemma setStatusOfFirst_ids (l : list Sequence) (K newStatus : string) :
  map seq_id (setStatusOfFirst l K newStatus) = map seq_id l.
Proof.
  induction l as [|s l IH]; simpl; [reflexivity|].
  destruct (String.eqb (seq_id s) K); simpl; [|rewrite IH]; reflexivity.
Qed.

Lemma setStatusOfFirst_In (l : list Sequence) (K newStatus : string)
  (s' : Sequence) :
  NoDup (map seq_id l) -> In s' (setStatusOfFirst l K newStatus) ->
  if String.eqb (seq_id s') K then status s' = Some newStatus else In s' l.
Proof.
  induction l as [|s l IH]; simpl; [tauto|].
  intros Hnd Hin. inversion Hnd as [|? ? Hnotin Hnd']; subst.
  destruct (String.eqb (seq_id s) K) eqn:E.
  - destruct Hin as [<-|Hin]; simpl.
    + rewrite E. reflexivity.
    + destruct (String.eqb (seq_id s') K) eqn:E'; [|right; exact Hin].
      exfalso. apply Hnotin. apply String.eqb_eq in E, E'.
      rewrite E, <- E'. apply in_map. exact Hin.
  - destruct Hin as [<-|Hin].
    + rewrite E. left. reflexivity.
    + specialize (IH Hnd' Hin).
      destruct (String.eqb (seq_id s') K); [exact IH|right; exact IH].
Qed.

Lemma sequences_updateStatus (this : TaskManager) (K newStatus : string) :
  sequences (updateStatus this K newStatus)
  = if existsb (fun s => String.eqb (seq_id s) K) (sequences this)
    then setStatusOfFirst (sequences this) K newStatus
    else sequences this.
Proof.
  unfold updateStatus.
  destruct (existsb _ (sequences this)); [|reflexivity].
  cbn [currentView sequences].
  destruct (String.eqb (currentView this) "all"); [reflexivity|].
  destruct (negb _ && negb _); [|reflexivity].
  rewrite sequences_resetToFirstInView. reflexivity.
Qed.

Lemma setStatusOfFirst_absent (l : list Sequence) (K newStatus : string) :
  existsb (fun s => String.eqb (seq_id s) K) l = false ->
  setStatusOfFirst l K newStatus = l.
Proof.
  induction l as [|s l IH]; simpl; [reflexivity|].
  destruct (String.eqb (seq_id s) K); simpl; [discriminate|].
  intros H. rewrite (IH H). reflexivity.
Qed.

(** [updateStatus] keeps the order, sets the status of the sequence with the
    given key, and leaves the others as they were. *)
Lemma updateStatus_sets_one (this : TaskManager) (K newStatus : string) :
  NoDup (map seq_id (sequences this)) ->
  map seq_id (sequences (updateStatus this K newStatus))
  = map seq_id (sequences this) /\
  forall s', In s' (sequences (updateStatus this K newStatus)) ->
             if String.eqb (seq_id s') K
             then status s' = Some newStatus
             else In s' (sequences this).
Proof.
  intros Hnd. rewrite sequences_updateStatus.
  destruct (existsb _ (sequences this)) eqn:E.
  - split; [apply setStatusOfFirst_ids|].
    intros s'. apply setStatusOfFirst_In. exact Hnd.
  - split; [reflexivity|]. intros s' Hin.
    rewrite <- (setStatusOfFirst_absent _ K newStatus E) in Hin.
    exact (setStatusOfFirst_In _ _ _ _ Hnd Hin).
Qed.

(** The sequences a merge leaves: a sequence that [processGeoJSON] or
    [processGeoJSONAsync] leaves under a key that had status [st] before has
    status [st]; under a key not seen before it has status [""].
    [updateStatus] sets the status of the sequence with the given key,
    leaves every other sequence as it was and keeps the order.  (Keys of the
    state are distinct, as the aggregator leaves them; the host's sort
    rearranges.) *)
Lemma statuses_of_the_sequences_left :
  forall (host : Host) (this : TaskManager) (w : World) (geojson : GeoJSON)
         (progressCallback : bool),
    sortPermutes host ->
    NoDup (map seq_id (sequences this)) ->
    (forall after w',
        processGeoJSON this w geojson = Returned (after, w') ->
        statusesKept this after /\ NoDup (map seq_id (sequences after))) /\
    (let after :=
       fst (snd (processGeoJSONAsync this w geojson progressCallback)) in
     statusesKept this after /\ NoDup (map seq_id (sequences after))) /\
    (forall K newStatus,
        let after := updateStatus this K newStatus in
        map seq_id (sequences after) = map seq_id (sequences this) /\
        forall s', In s' (sequences after) ->
                   if String.eqb (seq_id s') K
                   then status s' = Some newStatus
                   else In s' (sequences this)).
Proof.
  intros host this w [[feats|]] cb Hperm Hnd.
  - (* a feature list *)
    split; [|split].
    + intros after w' Hret.
      destruct (processGeoJSON_returns this w feats)
        as [thisS [Hret' [Hseq _]]].
      rewrite Hret' in Hret. injection Hret as <- _.
      assert (Hp : Permutation (sequences thisS)
                     (map withStats
                        (JS.Map.values (fst (groupedSync this w feats)))))
        by (rewrite Hseq; apply Hperm).
      split.
      * apply statusesKept_from_statusFor; [exact Hnd|].
        intros s' Hin.
        apply (withStats_status _ (fst (groupedSync this w feats)));
          [apply groupedSync_ok|].
        apply (Permutation_in _ Hp). exact Hin.
      * apply (Permutation_NoDup
                 (Permutation_map seq_id (Permutation_sym Hp))).
        apply (withStats_ids_NoDup (existingStatuses (sequences this))).
        apply groupedSync_ok.
    + destruct (processGeoJSONAsync_result this w feats cb) as [Aseq _].
      cbv zeta.
      assert (Hp : Permutation
                     (sequences
                        (fst (snd (processGeoJSONAsync this w
                                     {| features := Some feats |} cb))))
                     (map withStats
                        (JS.Map.values
                           (data (groupedAsync this w feats cb)))))
        by (rewrite Aseq; apply Hperm).
      split.
      * apply statusesKept_from_statusFor; [exact Hnd|].
        intros s' Hin.
        apply (withStats_status _ (data (groupedAsync this w feats cb)));
          [apply groupedAsync_ok|].
        apply (Permutation_in _ Hp). exact Hin.
      * apply (Permutation_NoDup
                 (Permutation_map seq_id (Permutation_sym Hp))).
        apply (withStats_ids_NoDup (existingStatuses (sequences this))).
        apply groupedAsync_ok.
    + intros K newStatus. apply updateStatus_sets_one. exact Hnd.
  - (* no feature array: the plain pass throws, the chunked one returns *)
    split; [|split].
    + intros after w' Hret. discriminate Hret.
    + cbn. split; [|exact Hnd].
      intros s' Hin. split.
      * intros old st Hold Hid Hs.
        rewrite <- (NoDup_map_eq seq_id _ old s' Hnd Hold Hin Hid). exact Hs.
      * intros Hnew. exfalso. exact (Hnew s' Hin eq_refl).
    + intros K newStatus. apply updateStatus_sets_one. exact Hnd.
Qed.

Definition doneA : Sequence :=
  {| seq_id := "A"; seq_features := []; status := Some "done";
     date := "1/1/2026"; featureCount := 0; nodeCount := 0; wayCount := 0 |}.

Definition managerWithDoneA : TaskManager :=
  {| geojsonData := None; sequences := [doneA]; currentIndex := 0%Z;
     currentView := "all" |}.

(** A merge, evaluated: A keeps "done", B starts active. *)
Lemma reaggregation_example :
  match processGeoJSON managerWithDoneA startWorld
          {| features := Some [exampleFeatureA; exampleFeatureB] |} with
  | Returned (after, _) =>
      map (fun s => (seq_id s, status s, featureCount s, nodeCount s,
                     wayCount s)) (sequences after)
  | Thrown _ => []
  end
  = [("A", Some "done", 1, 2, 1); ("B", Some "", 1, 1, 0)].
Proof. vm_compute. reflexivity. Qed.

(** ** OSM export: the node table *)

Lemma append_assoc (a b c : string) : (a +++ b) +++ c = a +++ (b +++ c).
Proof. induction a as [|x a IH]; simpl; [|rewrite IH]; reflexivity. Qed.

Lemma append_empty_r (a : string) : a +++ "" = a.
Proof. induction a as [|x a IH]; simpl; [|rewrite IH]; reflexivity. Qed.

Lemma concatAll_app (l1 l2 : list string) :
  concatAll (l1 ++ l2) = concatAll l1 +++ concatAll l2.
Proof.
  induction l1 as [|x l1 IH]; simpl; [reflexivity|].
  rewrite IH, append_assoc. reflexivity.
Qed.

(** The coordinates [generateJOSM] reads off a feature. *)
Definition coordsOf (feature : Feature) : list Position :=
  match geometry feature with
  | Some g => extractCoordinates g
  | None => []
  end.

Section ExportFacts.
Context {host : Host}.

Definition allCoords (feats : list Feature) : list Position :=
  flat_map coordsOf feats.

Lemma collectNodes_coordsOf (feature : Feature) (st : JS.Map.t OsmNode * Z) :
  collectNodes feature st = JS.forEach (coordsOf feature) addNode st.
Proof.
  unfold collectNodes, coordsOf. destruct (geometry feature); reflexivity.
Qed.

Lemma forEach_collectNodes (feats : list Feature) (st : JS.Map.t OsmNode * Z) :
  JS.forEach feats collectNodes st = JS.forEach (allCoords feats) addNode st.
Proof.
  unfold JS.forEach, allCoords. revert st.
  induction feats as [|f feats IH]; intros st; cbn [fold_left flat_map];
    [reflexivity|].
  rewrite fold_left_app, IH, collectNodes_coordsOf. reflexivity.
Qed.

(** The key under which a node is printed. *)
Definition nodeKey (n : OsmNode) : string :=
  coordKey (node_lon n, node_lat n).

(** What the first pass keeps true of [nodeMap] and [nodeId]. *)
Record nodesInv (st : JS.Map.t OsmNode * Z) : Prop := {
  inv_keys : NoDup (map fst (fst st));
  inv_next : snd st = (-1000 - Z.of_nat (List.length (fst st)))%Z;
  inv_ids : map node_id (JS.Map.values (fst st))
            = map (fun i => (-1000 - Z.of_nat i)%Z)
                  (seq 0 (List.length (fst st)));
  inv_own : forall k n, In (k, n) (fst st) -> nodeKey n = k
}.

Lemma nodesInv_start : nodesInv ([], (-1000)%Z).
Proof. split; simpl; [constructor|reflexivity|reflexivity|tauto]. Qed.

Lemma putProp_fresh {V : Type} (m : list (string * V)) (k : string) (v : V) :
  JS.Map.has m k = false -> JS.putProp m k v = m ++ [(k, v)].
Proof.
  unfold JS.Map.has. induction m as [|[k0 v0] m IH]; simpl; [reflexivity|].
  destruct (String.eqb k0 k); [discriminate|].
  intros H. rewrite (IH H). reflexivity.
Qed.

Lemma addNode_inv (coord : Position) (st : JS.Map.t OsmNode * Z) :
  nodesInv st -> nodesInv (addNode coord st).
Proof.
  intros [Hkeys Hnext Hids Hown]. destruct st as [m nodeId].
  destruct coord as [lon lat]. unfold addNode. cbn [fst snd] in *.
  destruct (JS.Map.has m (coordKey (lon, lat))) eqn:Ehas; cbn [negb].
  { split; assumption. }
  unfold JS.Map.set. rewrite (putProp_fresh _ _ _ Ehas).
  split; cbn [fst snd].
  - rewrite map_app. apply NoDup_app; [exact Hkeys|repeat constructor; simpl; tauto|].
    intros x Hx [Hk|[]]. simpl in Hk. subst x.
    unfold JS.Map.has in Ehas.
    destruct (JS.getProp m (coordKey (lon, lat))) eqn:E; [discriminate|].
    exact (getProp_None_notin _ _ E Hx).
  - rewrite length_app, Nat2Z.inj_add. cbn [List.length]. lia.
  - unfold JS.Map.values in *. rewrite map_app, map_app, Hids, length_app.
    cbn [List.length map snd node_id]. rewrite seq_app, map_app.
    cbn [seq map Nat.add]. rewrite Hnext. reflexivity.
  - intros k n Hin. apply in_app_or in Hin as [Hin|[Heq|[]]].
    + exact (Hown _ _ Hin).
    + injection Heq as <- <-. reflexivity.
Qed.

Lemma addNode_keeps (coord : Position) (st : JS.Map.t OsmNode * Z)
  (k : string) (n : OsmNode) :
  JS.Map.get (fst st) k = Some n ->
  JS.Map.get (fst (addNode coord st)) k = Some n.
Proof.
  destruct st as [m nodeId], coord as [lon lat]. unfold addNode.
  cbn [fst]. intros Hget.
  destruct (JS.Map.has m (coordKey (lon, lat))) eqn:Ehas; cbn [negb fst];
    [exact Hget|].
  unfold JS.Map.set, JS.Map.get. rewrite getProp_putProp_other; [exact Hget|].
  intros ->. unfold JS.Map.has, JS.Map.get in *. rewrite Hget in Ehas.
  discriminate.
Qed.

Lemma addNode_has (coord : Position) (st : JS.Map.t OsmNode * Z) :
  exists n, JS.Map.get (fst (addNode coord st)) (coordKey coord) = Some n.
Proof.
  destruct st as [m nodeId], coord as [lon lat]. unfold addNode.
  cbn [fst].
  destruct (JS.Map.has m (coordKey (lon, lat))) eqn:Ehas; cbn [negb fst].
  - unfold JS.Map.has in Ehas. unfold JS.Map.get.
    destruct (JS.getProp m (coordKey (lon, lat))) as [n|]; [|discriminate].
    exists n. reflexivity.
  - eexists. unfold JS.Map.set, JS.Map.get. apply getProp_putProp_same.
Qed.

Lemma forEach_addNode_inv (coords : list Position)
  (st : JS.Map.t OsmNode * Z) :
  nodesInv st -> nodesInv (JS.forEach coords addNode st).
Proof.
  unfold JS.forEach. revert st.
  induction coords as [|c coords IH]; intros st Hinv; cbn [fold_left];
    [exact Hinv|].
  apply IH, addNode_inv, Hinv.
Qed.

Lemma forEach_addNode_keeps (coords : list Position)
  (st : JS.Map.t OsmNode * Z) (k : string) (n : OsmNode) :
  JS.Map.get (fst st) k = Some n ->
  JS.Map.get (fst (JS.forEach coords addNode st)) k = Some n.
Proof.
  unfold JS.forEach. revert st.
  induction coords as [|c coords IH]; intros st Hget; cbn [fold_left];
    [exact Hget|].
  apply IH, addNode_keeps, Hget.
Qed.

Lemma forEach_addNode_covers (coords : list Position)
  (st : JS.Map.t OsmNode * Z) (c : Position) :
  In c coords ->
  exists n, JS.Map.get (fst (JS.forEach coords addNode st)) (coordKey c)
            = Some n.
Proof.
  unfold JS.forEach. revert st.
  induction coords as [|c0 coords IH]; intros st Hin; [destruct Hin|].
  cbn [fold_left]. destruct Hin as [->|Hin].
  - destruct (addNode_has c st) as [n Hn]. exists n.
    apply (forEach_addNode_keeps coords _ _ _ Hn).
  - apply IH. exact Hin.
Qed.

Lemma buildNodeMap_inv (feats : list Feature) :
  nodesInv (JS.forEach feats collectNodes ([], (-1000)%Z)).
Proof.
  rewrite forEach_collectNodes. apply forEach_addNode_inv, nodesInv_start.
Qed.

(** Every coordinate of every feature has its node, printed under the
    coordinate's own key. *)
Lemma buildNodeMap_covers (feats : list Feature) (c : Position) :
  In c (allCoords feats) ->
  exists n, JS.Map.get (buildNodeMap feats) (coordKey c) = Some n /\
            In n (JS.Map.values (buildNodeMap feats)) /\
            nodeKey n = coordKey c.
Proof.
  intros Hin. unfold buildNodeMap. rewrite forEach_collectNodes.
  destruct (forEach_addNode_covers (allCoords feats) ([], (-1000)%Z) c Hin)
    as [n Hn].
  exists n. split; [exact Hn|].
  apply getProp_In in Hn. split.
  - unfold JS.Map.values. apply (in_map snd) in Hn. exact Hn.
  - pose proof (forEach_addNode_inv (allCoords feats) _ nodesInv_start) as Hinv.
    exact (inv_own _ Hinv _ _ Hn).
Qed.
End ExportFacts.

(** ** OSM export: the ways and the text *)

Section ExportText.
Context {host : Host}.

(** The id of the node a coordinate resolves to. *)
Definition nodeIdAt (nodeMap : JS.Map.t OsmNode) (coord : Position) : option Z :=
  option_map node_id (JS.Map.get nodeMap (coordKey coord)).

Lemma ndRefs_resolved (nodeMap : JS.Map.t OsmNode) (coords : list Position) :
  (forall c, In c coords ->
             exists n, JS.Map.get nodeMap (coordKey c) = Some n) ->
  map Some (ndRefs nodeMap coords) = map (nodeIdAt nodeMap) coords.
Proof.
  unfold ndRefs, nodeIdAt.
  induction coords as [|c coords IH]; intros Hall; [reflexivity|].
  cbn [flat_map map]. destruct (Hall c (or_introl eq_refl)) as [n Hn].
  rewrite Hn. cbn [app option_map map]. f_equal.
  apply IH. intros c' Hc'. apply Hall. right. exact Hc'.
Qed.

Lemma wayCoordinates_coordsOf (feature : Feature) (coords : list Position) :
  wayCoordinates feature = Some coords ->
  coords = coordsOf feature /\ 2 <= List.length coords.
Proof.
  unfold wayCoordinates, coordsOf.
  destruct (geometry feature) as [g|]; [|discriminate].
  destruct (List.length (extractCoordinates g) <? 2) eqn:E; [discriminate|].
  intros [= <-]. apply Nat.ltb_ge in E. split; [reflexivity|exact E].
Qed.




Lemma waysFrom_refs (nodeMap : JS.Map.t OsmNode) (feats : list Feature)
  (wayId : Z) :
  map way_refs (waysFrom nodeMap feats wayId)
  = map (ndRefs nodeMap) (keepSome (map wayCoordinates feats)).
Proof.
  revert wayId. induction feats as [|f feats IH]; intros wayId;
    [reflexivity|].
  cbn [waysFrom map keepSome]. destruct (wayCoordinates f) as [cs|].
  - cbn [map way_refs]. rewrite IH. reflexivity.
  - apply IH.
Qed.

Lemma waysFrom_ids (nodeMap : JS.Map.t OsmNode) (feats : list Feature)
  (wayId : Z) :
  map way_id (waysFrom nodeMap feats wayId)
  = map (fun i => (wayId - Z.of_nat i)%Z)
        (seq 0 (List.length (waysFrom nodeMap feats wayId))).
Proof.
  revert wayId. induction feats as [|f feats IH]; intros wayId;
    [reflexivity|].
  cbn [waysFrom]. destruct (wayCoordinates f) as [cs|]; [|apply IH].
  cbn [map way_id List.length seq]. rewrite IH, <- seq_shift, map_map.
  f_equal; [lia|]. apply map_ext. intros i. lia.
Qed.

(** *** The text is the rendering of the elements *)

Lemma forEach_writeNode (nodes : list OsmNode) (xml : string) :
  JS.forEach nodes writeNode xml = xml +++ concatAll (map renderNode nodes).
Proof.
  unfold JS.forEach. revert xml.
  induction nodes as [|n nodes IH]; intros xml; cbn [fold_left map concatAll fold_right].
  - rewrite append_empty_r. reflexivity.
  - rewrite IH. change (writeNode n xml) with (xml +++ renderNode n).
    apply append_assoc.
Qed.

Lemma forEach_writeNd (nodeMap : JS.Map.t OsmNode) (coords : list Position)
  (xml : string) :
  JS.forEach coords (writeNd nodeMap) xml
  = xml +++ concatAll (map renderNd (ndRefs nodeMap coords)).
Proof.
  unfold JS.forEach, ndRefs. revert xml.
  induction coords as [|c coords IH]; intros xml;
    cbn [fold_left flat_map map concatAll fold_right].
  - rewrite append_empty_r. reflexivity.
  - rewrite IH. unfold writeNd.
    destruct (JS.Map.get nodeMap (coordKey c)) as [n|];
      cbn [app map concatAll fold_right]; [|reflexivity].
    fold (concatAll (map renderNd (flat_map
       (fun coord => match JS.Map.get nodeMap (coordKey coord) with
                     | Some node => [node_id node]
                     | None => []
                     end) coords))).
    unfold renderNd. rewrite !append_assoc. reflexivity.
Qed.

Lemma forEach_writeWay (nodeMap : JS.Map.t OsmNode) (feats : list Feature)
  (xml : string) (wayId : Z) :
  fst (JS.forEach feats (writeWay nodeMap) (xml, wayId))
  = xml +++ concatAll (map renderWay (waysFrom nodeMap feats wayId)).
Proof.
  unfold JS.forEach. revert xml wayId.
  induction feats as [|f feats IH]; intros xml wayId;
    cbn [fold_left waysFrom].
  - cbn. rewrite append_empty_r. reflexivity.
  - unfold writeWay at 2, wayCoordinates.
    destruct (geometry f) as [g|]; [|apply IH].
    destruct (List.length (extractCoordinates g) <? 2); [apply IH|].
    rewrite IH, forEach_writeNd.
    cbn [map concatAll fold_right]. unfold renderWay at 2.
    cbn [way_id way_refs way_highway].
    fold (concatAll (map renderWay (waysFrom nodeMap feats (wayId - 1)))).
    rewrite !append_assoc. reflexivity.
Qed.

Lemma generateJOSM_elements (sequence : Sequence) (time : nat) :
  generateJOSM sequence time
  = xmlProlog sequence time
    +++ concatAll (map renderNode (osmNodes sequence))
    +++ JS.nl
    +++ concatAll (map renderWay (osmWays sequence))
    +++ "</osm>".
Proof.
  unfold generateJOSM, osmNodes, osmWays.
  rewrite forEach_writeNode.
  pose proof (forEach_writeWay (buildNodeMap (seq_features sequence))
                (seq_features sequence)
                ((xmlProlog sequence time
                  +++ concatAll (map renderNode
                       (JS.Map.values (buildNodeMap (seq_features sequence)))))
                 +++ JS.nl) (-1000)%Z) as H.
  destruct (JS.forEach (seq_features sequence) _ _) as [xml3 wayId].
  cbn [fst] in H. rewrite H, !append_assoc. reflexivity.
Qed.
End ExportText.

(** ** OSM export: the two claims *)

Section ExportClaims.
Context {host : Host}.






Lemma no_node_under_absent_key (m : JS.Map.t OsmNode) (k : string) :
  (forall k' n', In (k', n') m -> nodeKey n' = k') ->
  ~ In k (map fst m) ->
  filter (fun n' => String.eqb (nodeKey n') k) (JS.Map.values m) = [].
Proof.
  unfold JS.Map.values.
  induction m as [|[k1 n1] m IH]; intros Hown Hnotin; [reflexivity|].
  cbn [map snd filter]. rewrite (Hown k1 n1 (or_introl eq_refl)).
  destruct (String.eqb k1 k) eqn:E1.
  - apply String.eqb_eq in E1. subst k1. exfalso. apply Hnotin.
    left. reflexivity.
  - apply IH.
    + intros k' n' H. apply Hown. right. exact H.
    + intros H. apply Hnotin. right. exact H.
Qed.

(** With distinct keys, the nodes printed under a key are the one [get]
    finds. *)
Lemma one_node_per_key (m : JS.Map.t OsmNode) (k : string) (n : OsmNode) :
  NoDup (map fst m) ->
  (forall k' n', In (k', n') m -> nodeKey n' = k') ->
  JS.Map.get m k = Some n ->
  filter (fun n' => String.eqb (nodeKey n') k) (JS.Map.values m) = [n].
Proof.
  unfold JS.Map.get.
  induction m as [|[k0 n0] m IH]; intros Hnd Hown Hget; [discriminate|].
  inversion Hnd as [|? ? Hnotin Hnd']; subst.
  unfold JS.Map.values. cbn [map snd filter].
  fold (JS.Map.values m).
  rewrite (Hown k0 n0 (or_introl eq_refl)).
  cbn [JS.getProp] in Hget. destruct (String.eqb k0 k) eqn:E.
  - injection Hget as ->. apply String.eqb_eq in E. subst k0. f_equal.
    apply no_node_under_absent_key; [|exact Hnotin].
    intros k' n' H. apply Hown. right. exact H.
  - apply IH; [exact Hnd'| |exact Hget].
    intros k' n' H. apply Hown. right. exact H.
Qed.

Lemma osmNodes_one_per_key (sequence : Sequence) (c : Position) :
  In c (allCoords (seq_features sequence)) ->
  exists n,
    filter (fun n' => String.eqb (nodeKey n') (coordKey c))
           (osmNodes sequence) = [n] /\
    JS.Map.get (buildNodeMap (seq_features sequence)) (coordKey c) = Some n.
Proof.
  intros Hin.
  destruct (buildNodeMap_covers _ c Hin) as [n [Hget _]].
  exists n. split; [|exact Hget].
  pose proof (buildNodeMap_inv (seq_features sequence)) as Hinv.
  apply one_node_per_key; [exact (inv_keys _ Hinv)| |exact Hget].
  exact (inv_own _ Hinv).
Qed.




End ExportClaims.



(** Two lines that meet at (103.1, 1.1). *)
Definition lineAB : Feature :=
  {| geometry :=
       Some (LineString [(tenths 1030, tenths 10); (tenths 1031, tenths 11)]);
     properties := None |}.

Definition lineBC : Feature :=
  {| geometry :=
       Some (LineString [(tenths 1031, tenths 11); (tenths 1032, tenths 12)]);
     properties := Some [("highway", JS.Str "track")] |}.

Definition twoLines : Sequence :=
  {| seq_id := "A"; seq_features := [lineAB; lineBC]; status := Some "";
     date := "1/1/2026"; featureCount := 2; nodeCount := 4; wayCount := 2 |}.





(** The same export, evaluated: three nodes for four coordinates, and both
    ways refer to -1001. *)
Lemma shared_endpoint_example :
  map (fun n => (node_id n, toFixed7 (node_lat n), toFixed7 (node_lon n)))
      (osmNodes twoLines)
  = [((-1000)%Z, "1.0000000", "103.0000000");
     ((-1001)%Z, "1.1000000", "103.1000000");
     ((-1002)%Z, "1.2000000", "103.2000000")] /\
  map (fun w => (way_id w, way_refs w, way_highway w)) (osmWays twoLines)
  = [((-1000)%Z, [(-1000)%Z; (-1001)%Z], "unclassified");
     ((-1001)%Z, [(-1001)%Z; (-1002)%Z], "track")].
Proof. split; vm_compute; reflexivity. Qed.

(** ** The order of Numbers

    [<] on Numbers is a strict order in which NaN compares with nothing.
    Each Number that is not NaN gets a rank, a triple of integers, and [<] is
    the lexicographic order of the ranks. *)

Definition rank (x : JS.number) : option (Z * Z * Z) :=
  match x with
  | S754_nan => None
  | S754_infinity true => Some ((-2)%Z, 0%Z, 0%Z)
  | S754_infinity false => Some (2%Z, 0%Z, 0%Z)
  | S754_zero _ => Some (0%Z, 0%Z, 0%Z)
  | S754_finite false m e => Some (1%Z, e, Zpos m)
  | S754_finite true m e => Some ((-1)%Z, (- e)%Z, Zneg m)
  end.

Definition rankLt (a b : Z * Z * Z) : Prop :=
  let '(a1, a2, a3) := a in
  let '(b1, b2, b3) := b in
  (a1 < b1 \/ (a1 = b1 /\ (a2 < b2 \/ (a2 = b2 /\ a3 < b3))))%Z.

Lemma ltb_rank (x y : JS.number) :
  JS.ltb x y = true <->
  exists a b, rank x = Some a /\ rank y = Some b /\ rankLt a b.
Proof.
  unfold JS.ltb, SFltb.
  destruct x as [sx|sx| |sx mx ex], y as [sy|sy| |sy my ey];
    try destruct sx; try destruct sy; cbn [SFcompare rank];
    try (split; [discriminate|
                 intros [a [b [Ha [Hb Hlt]]]];
                 try discriminate;
                 injection Ha as <-; injection Hb as <-;
                 cbn in Hlt; lia]);
    try (split; [intros _; eexists; eexists;
                 split; [reflexivity|split; [reflexivity|cbn; lia]]
                |reflexivity]).
  - (* both negative *)
    destruct (Z.compare_spec ex ey) as [He|He|He].
    + subst ey. change (Pos.compare_cont Eq mx my) with (Pos.compare mx my).
      destruct (Pos.compare_spec mx my) as [Hm|Hm|Hm]; cbn [CompOpp].
      * split; [discriminate|]. intros [a [b [[= <-] [[= <-] Hlt]]]].
        cbn in Hlt. lia.
      * split; [discriminate|]. intros [a [b [[= <-] [[= <-] Hlt]]]].
        cbn in Hlt. lia.
      * split; [|reflexivity]. intros _. eexists. eexists.
        split; [reflexivity|split; [reflexivity|cbn; lia]].
    + split; [discriminate|]. intros [a [b [[= <-] [[= <-] Hlt]]]].
      cbn in Hlt. lia.
    + split; [|reflexivity]. intros _. eexists. eexists.
      split; [reflexivity|split; [reflexivity|cbn; lia]].
  - (* both positive *)
    destruct (Z.compare_spec ex ey) as [He|He|He].
    + subst ey. change (Pos.compare_cont Eq mx my) with (Pos.compare mx my).
      destruct (Pos.compare_spec mx my) as [Hm|Hm|Hm].
      * split; [discriminate|]. intros [a [b [[= <-] [[= <-] Hlt]]]].
        cbn in Hlt. lia.
      * split; [|reflexivity]. intros _. eexists. eexists.
        split; [reflexivity|split; [reflexivity|cbn; lia]].
      * split; [discriminate|]. intros [a [b [[= <-] [[= <-] Hlt]]]].
        cbn in Hlt. lia.
    + split; [|reflexivity]. intros _. eexists. eexists.
      split; [reflexivity|split; [reflexivity|cbn; lia]].
    + split; [discriminate|]. intros [a [b [[= <-] [[= <-] Hlt]]]].
      cbn in Hlt. lia.
Qed.

Lemma rank_not_NaN (x : JS.number) :
  JS.isNaN x = false -> exists a, rank x = Some a.
Proof.
  destruct x as [s|[|]| |[|] m e]; try discriminate; intros _; eexists;
    reflexivity.
Qed.

Lemma ltb_not_NaN (x y : JS.number) :
  JS.ltb x y = true -> JS.isNaN x = false /\ JS.isNaN y = false.
Proof.
  intros H. apply ltb_rank in H as [a [b [Ha [Hb _]]]].
  destruct x, y; try discriminate; split; reflexivity.
Qed.

Lemma ltb_trans (x y z : JS.number) :
  JS.ltb x y = true -> JS.ltb y z = true -> JS.ltb x z = true.
Proof.
  intros Hxy Hyz.
  apply ltb_rank in Hxy as [a [b [Ha [Hb Hab]]]].
  apply ltb_rank in Hyz as [b' [c [Hb' [Hc Hbc]]]].
  rewrite Hb in Hb'. injection Hb' as <-.
  apply ltb_rank. exists a, c. repeat split; try assumption.
  destruct a as [[a1 a2] a3], b as [[b1 b2] b3], c as [[c1 c2] c3].
  cbn in *. lia.
Qed.

Lemma ltb_asym (x y : JS.number) :
  JS.ltb x y = true -> JS.ltb y x = false.
Proof.
  intros Hxy. destruct (JS.ltb y x) eqn:Hyx; [|reflexivity].
  apply ltb_rank in Hxy as [a [b [Ha [Hb Hab]]]].
  apply ltb_rank in Hyx as [b' [a' [Hb' [Ha' Hba]]]].
  rewrite Hb in Hb'. injection Hb' as <-.
  rewrite Ha in Ha'. injection Ha' as <-.
  destruct a as [[a1 a2] a3], b as [[b1 b2] b3]. cbn in *. lia.
Qed.

(** [x <= c < d] gives [x < d], for [x] not NaN. *)
Lemma ltb_le_lt (x c d : JS.number) :
  JS.isNaN x = false -> JS.ltb c x = false -> JS.ltb c d = true ->
  JS.ltb x d = true.
Proof.
  intros Hx Hcx Hcd.
  destruct (rank_not_NaN x Hx) as [a Ha].
  apply ltb_rank in Hcd as [rc [rd [Hc [Hd Hlt]]]].
  apply ltb_rank. exists a, rd. repeat split; try assumption.
  assert (Hnot : ~ rankLt rc a).
  { intros H. assert (JS.ltb c x = true) as H'.
    { apply ltb_rank. exists rc, a. repeat split; assumption. }
    rewrite H' in Hcx. discriminate. }
  destruct a as [[a1 a2] a3], rc as [[c1 c2] c3], rd as [[d1 d2] d3].
  cbn in *. lia.
Qed.

(** ** Douglas-Peucker: the scan for the farthest point *)

Section Scan.
Variable f : Position -> JS.number.

(** The scan over the interior points themselves, [i] the index of the
    first. *)
Fixpoint scanFrom (l : list Position) (i : nat) (acc : JS.number * nat)
  : JS.number * nat :=
  match l with
  | [] => acc
  | x :: r =>
      scanFrom r (S i)
        (let '(maxDistance, maxIndex) := acc in
         if JS.gtb (f x) maxDistance then (f x, i)
         else (maxDistance, maxIndex))
  end.

Lemma scanFrom_no_update (l : list Position) (i : nat) (c : JS.number)
  (j : nat) :
  (forall y, In y l -> JS.gtb (f y) c = false) ->
  scanFrom l i (c, j) = (c, j).
Proof.
  revert i. induction l as [|y l IH]; intros i Hall; [reflexivity|].
  cbn [scanFrom]. rewrite (Hall y (or_introl eq_refl)).
  apply IH. intros y' Hy'. apply Hall. right. exact Hy'.
Qed.

(** A point that is above everything before it and not below anything
    after it is the one the scan returns. *)
Lemma scanFrom_at (xs : list Position) (p : Position) (ys : list Position)
  (i : nat) (c : JS.number) (j : nat) :
  JS.ltb c (f p) = true ->
  (forall x, In x xs -> JS.isNaN (f x) = true \/ JS.ltb (f x) (f p) = true) ->
  (forall y, In y ys -> JS.gtb (f y) (f p) = false) ->
  scanFrom (xs ++ p :: ys) i (c, j) = (f p, i + List.length xs).
Proof.
  revert i c j. induction xs as [|x xs IH]; intros i c j Hc Hxs Hys.
  - cbn [app scanFrom List.length].
    change (JS.gtb (f p) c) with (JS.ltb c (f p)). rewrite Hc.
    rewrite Nat.add_0_r. apply scanFrom_no_update. exact Hys.
  - cbn [app scanFrom List.length].
    assert (Hrest : forall x', In x' xs ->
              JS.isNaN (f x') = true \/ JS.ltb (f x') (f p) = true)
      by (intros x' Hx'; apply Hxs; right; exact Hx').
    replace (i + S (List.length xs)) with (S i + List.length xs) by lia.
    destruct (JS.gtb (f x) c) eqn:E.
    + apply IH; [|exact Hrest|exact Hys].
      destruct (Hxs x (or_introl eq_refl)) as [Hnan|Hlt]; [|exact Hlt].
      unfold JS.gtb in E. apply ltb_not_NaN in E as [_ E].
      rewrite E in Hnan. discriminate.
    + apply IH; assumption.
Qed.

(** What the result of a scan says of the list. *)
Lemma scanFrom_result (l : list Position) (i : nat) (c : JS.number) (j : nat)
  (D : JS.number) (m : nat) :
  JS.isNaN c = false ->
  scanFrom l i (c, j) = (D, m) ->
  ((D, m) = (c, j) /\ forall y, In y l -> JS.gtb (f y) c = false) \/
  (exists xs p ys,
      l = xs ++ p :: ys /\ m = i + List.length xs /\ D = f p /\
      JS.ltb c (f p) = true /\
      (forall x, In x xs ->
                 JS.isNaN (f x) = true \/ JS.ltb (f x) (f p) = true) /\
      (forall y, In y ys -> JS.gtb (f y) (f p) = false)).
Proof.
  revert i c j. induction l as [|x l IH]; intros i c j Hc Hscan.
  - left. cbn in Hscan. split; [symmetry; exact Hscan|intros y []].
  - cbn [scanFrom] in Hscan. destruct (JS.gtb (f x) c) eqn:E.
    + (* [x] becomes the maximum *)
      unfold JS.gtb in E. pose proof (ltb_not_NaN _ _ E) as [_ Hfx].
      destruct (IH (S i) (f x) i Hfx Hscan)
        as [[Heq Hnone]|[xs [p [ys [Hl [Hm [HD [Hlt [Hxs Hys]]]]]]]]].
      * right. exists [], x, l. injection Heq as -> ->.
        repeat split; try assumption; try reflexivity;
          [cbn; lia|intros x' []].
      * right. exists (x :: xs), p, ys. subst l.
        repeat split; try assumption; [cbn; lia|exact (ltb_trans _ _ _ E Hlt)|].
        intros x' [<-|Hx']; [right; exact Hlt|exact (Hxs x' Hx')].
    + destruct (IH (S i) c j Hc Hscan)
        as [[Heq Hnone]|[xs [p [ys [Hl [Hm [HD [Hlt [Hxs Hys]]]]]]]]].
      * left. split; [exact Heq|].
        intros y [<-|Hy]; [exact E|exact (Hnone y Hy)].
      * right. exists (x :: xs), p, ys. subst l.
        repeat split; try assumption; [cbn; lia|].
        intros x' [<-|Hx']; [|exact (Hxs x' Hx')].
        destruct (JS.isNaN (f x)) eqn:En; [left; reflexivity|right].
        exact (ltb_le_lt _ _ _ En E Hlt).
Qed.
End Scan.

Section SimplifierFacts.
Context {host : Host}.

(** The loop of [douglasPeucker] over the indices is the scan over the
    interior points. *)
Lemma farthest_fold (pre mid suf : list Position) (first last : Position)
  (acc : JS.number * nat) :
  fold_left (fun a i => farthest_step (pre ++ mid ++ suf) first last i a)
            (seq (List.length pre) (List.length mid)) acc
  = scanFrom (fun x => perpendicularDistance x first last) mid
             (List.length pre) acc.
Proof.
  revert pre acc. induction mid as [|x mid IH]; intros pre acc;
    [reflexivity|].
  cbn [List.length seq fold_left scanFrom].
  replace (pre ++ (x :: mid) ++ suf) with ((pre ++ [x]) ++ mid ++ suf)
    by (rewrite <- app_assoc; reflexivity).
  replace (S (List.length pre)) with (List.length (pre ++ [x]))
    by (rewrite length_app; cbn; lia).
  rewrite IH. f_equal.
  unfold farthest_step, pointAt. destruct acc as [maxD maxI].
  rewrite <- app_assoc. cbn [app].
  rewrite nth_middle. reflexivity.
Qed.

Lemma pointAt_last (a : Position) (mid : list Position) (z : Position) :
  pointAt (a :: mid ++ [z]) (List.length (a :: mid ++ [z]) - 1) = z.
Proof.
  unfold pointAt.
  replace (List.length (a :: mid ++ [z]) - 1) with (S (List.length mid))
    by (cbn [List.length]; rewrite length_app; cbn [List.length]; lia).
  cbn [nth]. rewrite app_nth2 by lia. rewrite Nat.sub_diag. reflexivity.
Qed.

Lemma farthest_scan (a : Position) (mid : list Position) (z : Position) :
  farthest (a :: mid ++ [z])
  = scanFrom (fun x => perpendicularDistance x a z) mid 1 (JS.ofZ 0, 0).
Proof.
  unfold farthest, JS.forRange.
  assert (Hlen : List.length (a :: mid ++ [z]) = S (S (List.length mid)))
    by (cbn; rewrite length_app; cbn; lia).
  rewrite Hlen.
  replace (S (S (List.length mid)) - 1 - 1) with (List.length mid) by lia.
  replace (S (S (List.length mid)) - 1) with (S (List.length mid)) by lia.
  assert (Hfirst : pointAt (a :: mid ++ [z]) 0 = a) by reflexivity.
  assert (Hlast : pointAt (a :: mid ++ [z]) (S (List.length mid)) = z).
  { unfold pointAt. cbn [nth]. rewrite app_nth2 by lia.
    rewrite Nat.sub_diag. reflexivity. }
  rewrite Hfirst, Hlast.
  exact (farthest_fold [a] mid [z] a z (JS.ofZ 0, 0)).
Qed.

(** A list of two or more elements has two ends. *)
Lemma two_ends {A : Type} (l : list A) :
  2 <= List.length l -> exists a mid z, l = a :: mid ++ [z].
Proof.
  intros Hlen. destruct l as [|a l]; [cbn in Hlen; lia|].
  destruct (exists_last (l := l)) as [mid [z ->]].
  { intros ->. cbn in Hlen. lia. }
  exists a, mid, z. reflexivity.
Qed.

Lemma firstn_split_point {A : Type} (a : A) (xs : list A) (p : A)
  (rest : list A) :
  firstn (1 + List.length xs + 1) (a :: xs ++ p :: rest) = a :: xs ++ [p].
Proof.
  replace (1 + List.length xs + 1) with (S (List.length xs + 1)) by lia.
  cbn [firstn]. f_equal.
  replace (xs ++ p :: rest) with ((xs ++ [p]) ++ rest)
    by (rewrite <- app_assoc; reflexivity).
  replace (List.length xs + 1) with (List.length (xs ++ [p]) + 0)
    by (rewrite length_app; cbn; lia).
  rewrite firstn_app_2. cbn [firstn]. apply app_nil_r.
Qed.

Lemma skipn_split_point {A : Type} (a : A) (xs : list A) (p : A)
  (rest : list A) :
  skipn (1 + List.length xs) (a :: xs ++ p :: rest) = p :: rest.
Proof.
  cbn [Nat.add skipn].
  replace (List.length xs) with (List.length xs + 0) by lia.
  rewrite skipn_app. rewrite Nat.add_0_r, skipn_all.
  rewrite Nat.sub_diag. reflexivity.
Qed.
End SimplifierFacts.

(** ** Douglas-Peucker: one call *)

Section SimplifierCalls.
Context {host : Host}.
Variable tolerance : JS.number.
Hypothesis tolerance_positive : JS.gtb tolerance (JS.ofZ 0) = true.

(** The distance to the line through the two ends. *)
Definition distanceTo (a z : Position) (x : Position) : JS.number :=
  perpendicularDistance x a z.

Lemma zero_not_above_tolerance : JS.gtb (JS.ofZ 0) tolerance = false.
Proof. exact (ltb_asym _ _ tolerance_positive). Qed.

(** What a call on a list with interior points does: either no interior
    point is farther than the tolerance and the two ends are returned, or the
    scan stops at an interior point [p], strictly farther than every point
    before it, and the two parts on either side of [p] are simplified. *)
Lemma douglasPeucker_call (fuel : nat) (a : Position) (mid : list Position)
  (z : Position) (r : list Position) :
  mid <> [] ->
  douglasPeucker_fuel (S fuel) (a :: mid ++ [z]) tolerance = Some r ->
  (JS.gtb (fst (scanFrom (distanceTo a z) mid 1 (JS.ofZ 0, 0))) tolerance
   = false /\ r = [a; z]) \/
  (exists xs p ys leftPart rightPart,
      mid = xs ++ p :: ys /\
      scanFrom (distanceTo a z) mid 1 (JS.ofZ 0, 0)
      = (distanceTo a z p, 1 + List.length xs) /\
      JS.gtb (distanceTo a z p) tolerance = true /\
      JS.ltb (JS.ofZ 0) (distanceTo a z p) = true /\
      (forall x, In x xs -> JS.isNaN (distanceTo a z x) = true \/
                            JS.ltb (distanceTo a z x) (distanceTo a z p) = true) /\
      (forall y, In y ys ->
                 JS.gtb (distanceTo a z y) (distanceTo a z p) = false) /\
      douglasPeucker_fuel fuel (a :: xs ++ [p]) tolerance = Some leftPart /\
      douglasPeucker_fuel fuel (p :: ys ++ [z]) tolerance = Some rightPart /\
      r = removelast leftPart ++ rightPart).
Proof.
  intros Hmid Hcall. cbn [douglasPeucker_fuel] in Hcall.
  assert (Hlen : (List.length (a :: mid ++ [z]) <=? 2) = false).
  { apply Nat.leb_gt. cbn. rewrite length_app. cbn.
    destruct mid; [congruence|cbn; lia]. }
  rewrite Hlen, farthest_scan in Hcall.
  fold (distanceTo a z) in Hcall.
  destruct (scanFrom (distanceTo a z) mid 1 (JS.ofZ 0, 0)) as [D m] eqn:Escan.
  cbn [fst].
  destruct (JS.gtb D tolerance) eqn:Egt.
  - right.
    destruct (scanFrom_result (distanceTo a z) mid 1 (JS.ofZ 0) 0 D m
                eq_refl Escan)
      as [[Heq _]|[xs [p [ys [Hl [Hm [HD [Hlt [Hxs Hys]]]]]]]]].
    + (* no update: the maximum would be 0, which is not above a positive
         tolerance *)
      apply (f_equal fst) in Heq. cbn [fst] in Heq. subst D. exfalso.
      rewrite zero_not_above_tolerance in Egt. discriminate.
    + subst mid m D.
      rewrite <- app_assoc in Hcall. cbn [app] in Hcall.
      rewrite firstn_split_point, skipn_split_point in Hcall.
      destruct (douglasPeucker_fuel fuel (a :: xs ++ [p]) tolerance)
        as [leftPart|] eqn:EL; [|discriminate].
      destruct (douglasPeucker_fuel fuel (p :: ys ++ [z]) tolerance)
        as [rightPart|] eqn:ER; [|discriminate].
      injection Hcall as <-.
      exists xs, p, ys, leftPart, rightPart.
      repeat split; try assumption; reflexivity.
  - left. split; [reflexivity|].
    injection Hcall as <-. rewrite pointAt_last. reflexivity.
Qed.

Lemma douglasPeucker_short (fuel : nat) (points : list Position) :
  List.length points <= 2 ->
  douglasPeucker_fuel (S fuel) points tolerance = Some points.
Proof.
  intros Hlen. cbn [douglasPeucker_fuel].
  apply Nat.leb_le in Hlen. rewrite Hlen. reflexivity.
Qed.

(** The result keeps the two ends, and its interior points are interior
    points of the input. *)
Lemma douglasPeucker_shape (fuel : nat) :
  forall (a : Position) (mid : list Position) (z : Position)
         (r : list Position),
    douglasPeucker_fuel fuel (a :: mid ++ [z]) tolerance = Some r ->
    exists mid', r = a :: mid' ++ [z] /\ incl mid' mid.
Proof.
  induction fuel as [|fuel IH]; intros a mid z r Hcall; [discriminate|].
  destruct mid as [|x mid0].
  - rewrite douglasPeucker_short in Hcall by (cbn; lia).
    injection Hcall as <-. exists []. split; [reflexivity|apply incl_refl].
  - destruct (douglasPeucker_call fuel a (x :: mid0) z r) as
      [[_ ->]|[xs [p [ys [L [R [Hmid [_ [_ [_ [_ [_ [HL [HR ->]]]]]]]]]]]]]];
      [discriminate|exact Hcall| |].
    + exists []. split; [reflexivity|]. intros y [].
    + destruct (IH a xs p L HL) as [midL [-> HinL]].
      destruct (IH p ys z R HR) as [midR [-> HinR]].
      exists (midL ++ p :: midR). split.
      * change (a :: midL ++ [p]) with ((a :: midL) ++ [p]).
        rewrite removelast_last. cbn [app]. rewrite <- app_assoc.
        reflexivity.
      * rewrite Hmid. intros y Hy. apply in_app_or in Hy as [Hy|[<-|Hy]];
          apply in_or_app;
          [left; exact (HinL y Hy)|right; left; reflexivity
          |right; right; exact (HinR y Hy)].
Qed.

(** More fuel does not change a result. *)
Lemma douglasPeucker_more_fuel (fuel : nat) :
  forall (fuel' : nat) (points r : list Position),
    fuel <= fuel' ->
    douglasPeucker_fuel fuel points tolerance = Some r ->
    douglasPeucker_fuel fuel' points tolerance = Some r.
Proof.
  induction fuel as [|fuel IH]; intros fuel' points r Hle Hcall;
    [discriminate|].
  destruct fuel' as [|fuel']; [lia|].
  cbn [douglasPeucker_fuel] in *.
  destruct (List.length points <=? 2); [exact Hcall|].
  destruct (farthest points) as [D m].
  destruct (JS.gtb D tolerance); [|exact Hcall].
  destruct (douglasPeucker_fuel fuel (firstn (m + 1) points) tolerance)
    as [L|] eqn:EL; [|discriminate].
  destruct (douglasPeucker_fuel fuel (skipn m points) tolerance)
    as [R|] eqn:ER; [|discriminate].
  rewrite (IH fuel' _ L), (IH fuel' _ R) by (assumption || lia).
  exact Hcall.
Qed.

(** The recursion ends: a list shorter than the fuel is simplified. *)
Lemma douglasPeucker_enough_fuel (fuel : nat) :
  forall points : list Position,
    List.length points < fuel ->
    exists r, douglasPeucker_fuel fuel points tolerance = Some r.
Proof.
  induction fuel as [|fuel IH]; intros points Hlen; [lia|].
  destruct (Nat.le_gt_cases (List.length points) 2) as [Hshort|Hlong].
  { exists points. apply douglasPeucker_short. exact Hshort. }
  destruct (two_ends points) as [a [mid [z ->]]]; [lia|].
  rewrite length_cons, length_app in Hlen, Hlong. cbn [List.length] in *.
  cbn [douglasPeucker_fuel].
  assert (Hlen2 : (List.length (a :: mid ++ [z]) <=? 2) = false).
  { apply Nat.leb_gt. cbn. rewrite length_app. cbn. lia. }
  rewrite Hlen2, farthest_scan.
  destruct (scanFrom (fun x => perpendicularDistance x a z) mid 1
              (JS.ofZ 0, 0)) as [D m] eqn:Escan.
  destruct (JS.gtb D tolerance) eqn:Egt; [|eexists; reflexivity].
  destruct (scanFrom_result _ mid 1 (JS.ofZ 0) 0 D m eq_refl Escan)
    as [[Heq _]|[xs [p [ys [Hl [Hm _]]]]]].
  - apply (f_equal fst) in Heq. cbn [fst] in Heq. subst D. exfalso.
    rewrite zero_not_above_tolerance in Egt. discriminate.
  - subst mid m. rewrite length_app in Hlen. cbn [List.length] in Hlen.
    rewrite <- app_assoc. cbn [app].
    rewrite firstn_split_point, skipn_split_point.
    destruct (IH (a :: xs ++ [p])) as [L ->].
    { cbn. rewrite length_app. cbn. lia. }
    destruct (IH (p :: ys ++ [z])) as [R ->].
    { cbn. rewrite length_app. cbn. lia. }
    eexists. reflexivity.
Qed.
End SimplifierCalls.

(** ** Douglas-Peucker: termination and idempotence *)

Section SimplifierTheorems.
Context {host : Host}.
Variable tolerance : JS.number.
Hypothesis tolerance_positive : JS.gtb tolerance (JS.ofZ 0) = true.

(** A result is simplified to itself, with the same fuel. *)
Lemma douglasPeucker_fixed (fuel : nat) :
  forall points r : list Position,
    douglasPeucker_fuel fuel points tolerance = Some r ->
    douglasPeucker_fuel fuel r tolerance = Some r.
Proof.
  induction fuel as [|fuel IH]; intros points r Hcall; [discriminate|].
  destruct (Nat.le_gt_cases (List.length points) 2) as [Hshort|Hlong].
  { rewrite douglasPeucker_short in Hcall by exact Hshort.
    injection Hcall as <-. apply douglasPeucker_short. exact Hshort. }
  destruct (two_ends points) as [a [mid [z ->]]]; [lia|].
  assert (Hmid : mid <> []).
  { intros ->. cbn in Hlong. lia. }
  destruct (douglasPeucker_call tolerance tolerance_positive fuel a mid z r
              Hmid Hcall)
    as [[_ ->]|[xs [p [ys [L [R [Hsplit [_ [Hgt [Hpos [Hxs [Hys
                                                  [HL [HR ->]]]]]]]]]]]]]].
  { apply douglasPeucker_short. cbn. lia. }
  destruct (douglasPeucker_shape tolerance tolerance_positive fuel a xs p L HL)
    as [midL [EL HinL]].
  destruct (douglasPeucker_shape tolerance tolerance_positive fuel p ys z R HR)
    as [midR [ER HinR]].
  pose proof (IH _ _ HL) as HLL. pose proof (IH _ _ HR) as HRR.
  assert (Hr : removelast L ++ R = a :: (midL ++ p :: midR) ++ [z]).
  { rewrite EL, ER. change (a :: midL ++ [p]) with ((a :: midL) ++ [p]).
    rewrite removelast_last. cbn [app]. rewrite <- app_assoc. reflexivity. }
  rewrite Hr. cbn [douglasPeucker_fuel].
  assert (Hlen : (List.length (a :: (midL ++ p :: midR) ++ [z]) <=? 2) = false).
  { apply Nat.leb_gt. cbn. rewrite !length_app. cbn. lia. }
  rewrite Hlen, farthest_scan. fold (distanceTo a z).
  rewrite (scanFrom_at (distanceTo a z) midL p midR 1 (JS.ofZ 0) 0 Hpos).
  - rewrite Hgt. rewrite <- app_assoc. cbn [app].
    rewrite firstn_split_point, skipn_split_point.
    rewrite <- EL, <- ER, HLL, HRR, EL, ER.
    change (a :: midL ++ [p]) with ((a :: midL) ++ [p]).
    rewrite removelast_last. reflexivity.
  - intros x Hx. apply Hxs, HinL, Hx.
  - intros y Hy. apply Hys, HinR, Hy.
Qed.

Lemma douglasPeucker_total (points : list Position) :
  exists r, douglasPeucker points tolerance = Some r.
Proof.
  unfold douglasPeucker.
  apply (douglasPeucker_enough_fuel tolerance tolerance_positive). lia.
Qed.

Lemma simplified_is_fixed (points r : list Position) :
  douglasPeucker points tolerance = Some r ->
  douglasPeucker r tolerance = Some r.
Proof.
  unfold douglasPeucker. intros Hcall.
  apply douglasPeucker_fixed in Hcall.
  destruct (douglasPeucker_enough_fuel tolerance tolerance_positive
              (S (List.length r)) r) as [r' Hr']; [lia|].
  rewrite Hr'. f_equal.
  pose proof (douglasPeucker_more_fuel tolerance (S (List.length r))
                (S (List.length r) + S (List.length points)) r r'
                ltac:(lia) Hr') as H1.
  pose proof (douglasPeucker_more_fuel tolerance (S (List.length points))
                (S (List.length r) + S (List.length points)) r r
                ltac:(lia) Hcall) as H2.
  congruence.
Qed.

(** The split index is an interior index, and both parts are shorter. *)
Lemma douglasPeucker_split_inside (points : list Position) :
  2 < List.length points ->
  JS.gtb (fst (farthest points)) tolerance = true ->
  1 <= snd (farthest points) <= List.length points - 2 /\
  List.length (firstn (snd (farthest points) + 1) points)
  < List.length points /\
  List.length (skipn (snd (farthest points)) points) < List.length points.
Proof.
  intros Hlong Hgt.
  destruct (two_ends points) as [a [mid [z ->]]]; [lia|].
  rewrite farthest_scan in *.
  destruct (scanFrom (fun x => perpendicularDistance x a z) mid 1
              (JS.ofZ 0, 0)) as [D m] eqn:Escan.
  cbn [fst snd] in *.
  destruct (scanFrom_result _ mid 1 (JS.ofZ 0) 0 D m eq_refl Escan)
    as [[Heq _]|[xs [p [ys [Hl [Hm _]]]]]].
  - apply (f_equal fst) in Heq. cbn [fst] in Heq. subst D. exfalso.
    rewrite (zero_not_above_tolerance tolerance tolerance_positive) in Hgt.
    discriminate.
  - subst mid m. rewrite length_firstn, length_skipn.
    repeat (cbn [List.length]; rewrite ?length_app). lia.
Qed.
End SimplifierTheorems.

(** C5.  For every list of points and every tolerance above zero,
    [douglasPeucker] returns a list, and simplifying that list again with the
    same tolerance returns it unchanged. *)
Theorem douglasPeucker_idempotent :
  forall (host : Host) (points : list Position) (tolerance : JS.number),
    JS.gtb tolerance (JS.ofZ 0) = true ->
    exists simplified,
      douglasPeucker points tolerance = Some simplified /\
      douglasPeucker simplified tolerance = Some simplified.
Proof.
  intros host points tolerance Hpos.
  destruct (douglasPeucker_total tolerance Hpos points) as [r Hr].
  exists r. split; [exact Hr|].
  exact (simplified_is_fixed tolerance Hpos points r Hr).
Qed.

(** C9.  For every list of points and every tolerance above zero,
    [douglasPeucker] returns: a recursion as deep as the list is long is
    enough.  Whenever the recursive branch is taken on a list with more than
    two points, the split index is an interior index and both parts are
    strictly shorter than the list.  A list of at most two points is
    returned at once. *)
Theorem douglasPeucker_terminates :
  forall (host : Host) (points : list Position) (tolerance : JS.number),
    JS.gtb tolerance (JS.ofZ 0) = true ->
    (exists simplified,
        douglasPeucker_fuel (S (List.length points)) points tolerance
        = Some simplified) /\
    (2 < List.length points ->
     JS.gtb (fst (farthest points)) tolerance = true ->
     1 <= snd (farthest points) <= List.length points - 2 /\
     List.length (firstn (snd (farthest points) + 1) points)
     < List.length points /\
     List.length (skipn (snd (farthest points)) points)
     < List.length points) /\
    (List.length points <= 2 ->
     forall fuel,
       douglasPeucker_fuel (S fuel) points tolerance = Some points).
Proof.
  intros host points tolerance Hpos. split; [|split].
  - exact (douglasPeucker_total tolerance Hpos points).
  - exact (douglasPeucker_split_inside tolerance Hpos points).
  - intros Hshort fuel. apply douglasPeucker_short. exact Hshort.
Qed.

(** A track with a detour at its second point. *)
Definition sampleTrack : list Position :=
  [ (JS.parseFloat "103.000", JS.parseFloat "1.0000");
    (JS.parseFloat "103.001", JS.parseFloat "1.0005");
    (JS.parseFloat "103.002", JS.parseFloat "1.0000");
    (JS.parseFloat "103.003", JS.parseFloat "1.00001");
    (JS.parseFloat "103.004", JS.parseFloat "1.0000") ].

Lemma douglasPeucker_idempotent_witness :
  JS.gtb (JS.ofZ 5) (JS.ofZ 0) = true /\
  exists simplified,
    douglasPeucker sampleTrack (JS.ofZ 5) = Some simplified /\
    douglasPeucker simplified (JS.ofZ 5) = Some simplified.
Proof.
  split; [reflexivity|].
  apply (douglasPeucker_idempotent SampleHost.host sampleTrack (JS.ofZ 5)).
  reflexivity.
Defined.

Lemma douglasPeucker_terminates_witness :
  JS.gtb (JS.ofZ 5) (JS.ofZ 0) = true /\
  exists simplified,
    douglasPeucker_fuel (S (List.length sampleTrack)) sampleTrack (JS.ofZ 5)
    = Some simplified.
Proof.
  split; [reflexivity|].
  apply (douglasPeucker_terminates SampleHost.host sampleTrack (JS.ofZ 5)).
  reflexivity.
Defined.

(** The same run, evaluated: the detour stays, the fourth point goes, and
    the split was at index 1. *)
Lemma douglasPeucker_example :
  douglasPeucker sampleTrack (JS.ofZ 5)
  = Some [ (JS.parseFloat "103.000", JS.parseFloat "1.0000");
           (JS.parseFloat "103.001", JS.parseFloat "1.0005");
           (JS.parseFloat "103.002", JS.parseFloat "1.0000");
           (JS.parseFloat "103.004", JS.parseFloat "1.0000") ] /\
  snd (farthest sampleTrack) = 1.
Proof. split; vm_compute; reflexivity. Qed.

(** Why the tolerance has to be above zero: with a negative tolerance and no
    interior point off the line, the scan ends with [maxDistance = 0] and
    [maxIndex = 0], the recursive branch is taken, and the right part is the
    whole list again.  No fuel is enough. *)
Definition stillTrack : list Position :=
  [ (JS.ofZ 0, JS.ofZ 0); (JS.ofZ 0, JS.ofZ 0); (JS.ofZ 0, JS.ofZ 0) ].

Lemma douglasPeucker_negative_tolerance_diverges :
  forall fuel,
    douglasPeucker_fuel fuel stillTrack (JS.ofZ (-1)) = None.
Proof.
  assert (Hfar : farthest stillTrack = (JS.ofZ 0, 0))
    by (vm_compute; reflexivity).
  induction fuel as [|fuel IH]; [reflexivity|].
  cbn [douglasPeucker_fuel].
  change (List.length stillTrack <=? 2) with false. cbv iota.
  rewrite Hfar.
  change (JS.gtb (JS.ofZ 0) (JS.ofZ (-1))) with true. cbv iota.
  change (skipn 0 stillTrack) with stillTrack. rewrite IH.
  destruct (douglasPeucker_fuel fuel (firstn (0 + 1) stillTrack)
              (JS.ofZ (-1))); reflexivity.
Qed.

(** ** Arithmetic of Numbers: the sign of a difference

    [aNum - bNum] is negative, zero or positive as [aNum] is below, equal to
    or above [bNum], for the Numbers [parseInt] returns.  The proof follows
    the rounding of [SpecFloat]: a mantissa that is shifted right by fewer
    places than it has digits stays positive, so a difference that is not
    zero does not round to zero. *)

Section NumberArithmetic.
Local Open Scope Z_scope.

Lemma Zdigits2_log2 (p : positive) :
  Zpos (digits2_pos p) = Z.log2 (Zpos p) + 1.
Proof.
  assert (H : forall q, digits2_pos q = Pos.size q).
  { induction q; simpl; congruence. }
  rewrite H. destruct p; simpl; lia.
Qed.

Lemma shr_1_m (mrs : shr_record) :
  0 <= shr_m mrs -> shr_m (shr_1 mrs) = Z.div2 (shr_m mrs).
Proof.
  destruct mrs as [m r s]. simpl. destruct m as [|[p|p|]|p]; simpl; try reflexivity; lia.
Qed.

Lemma iter_pos_shr_1_m (n : positive) :
  forall mrs, 0 <= shr_m mrs ->
    shr_m (iter_pos shr_1 n mrs) = Z.shiftr (shr_m mrs) (Zpos n).
Proof.
  induction n as [n IH|n IH|]; intros mrs Hm; cbn [iter_pos].
  - assert (H1 : 0 <= shr_m (shr_1 mrs)).
    { rewrite shr_1_m by exact Hm. apply Z.div2_nonneg. exact Hm. }
    assert (H2 : 0 <= shr_m (iter_pos shr_1 n (shr_1 mrs))).
    { rewrite IH by exact H1. apply Z.shiftr_nonneg. exact H1. }
    rewrite IH by exact H2. rewrite IH by exact H1. rewrite shr_1_m by exact Hm.
    rewrite Z.div2_spec, !Z.shiftr_shiftr by lia. f_equal. lia.
  - assert (H2 : 0 <= shr_m (iter_pos shr_1 n mrs)).
    { rewrite IH by exact Hm. apply Z.shiftr_nonneg. exact Hm. }
    rewrite IH by exact H2. rewrite IH by exact Hm.
    rewrite Z.shiftr_shiftr by lia. f_equal. lia.
  - rewrite shr_1_m by exact Hm. apply Z.div2_spec.
Qed.

Lemma fexp64 (e : Z) : fexp 53 1024 e = Z.max (e - 53) (-1074).
Proof. reflexivity. Qed.

Lemma shr_record_of_loc_m (m : Z) (l : location) :
  shr_m (shr_record_of_loc m l) = m.
Proof. destruct l as [|[| |]]; reflexivity. Qed.

(** Rounding to the format moves the exponent up and leaves a positive
    mantissa positive. *)
Lemma shr_fexp_positive (m e : Z) (l : location) :
  0 < m -> -1074 <= e ->
  0 < shr_m (fst (shr_fexp 53 1024 m e l)) /\
  -1074 <= snd (shr_fexp 53 1024 m e l) /\
  (53 <= Zdigits2 m -> Zdigits2 (shr_m (fst (shr_fexp 53 1024 m e l))) = 53).
Proof.
  intros Hm He. unfold shr_fexp, shr. rewrite fexp64.
  destruct m as [|p|p]; try lia. cbn [Zdigits2].
  pose proof (Zdigits2_log2 p) as Hd.
  pose proof (Z.log2_nonneg (Zpos p)) as Hlog.
  destruct (Z.max (Z.pos (digits2_pos p) + e - 53) (-1074) - e) as [|n|n] eqn:En;
    cbn [fst snd]; rewrite ?shr_record_of_loc_m.
  - repeat split; try lia; intros H; cbn [Zdigits2]; lia.
  - rewrite iter_pos_shr_1_m by (rewrite shr_record_of_loc_m; lia).
    rewrite shr_record_of_loc_m.
    assert (Hn : Zpos n = Z.log2 (Zpos p) - 52) by lia.
    assert (Hlog2 : Z.log2 (Z.shiftr (Zpos p) (Zpos n)) = 52).
    { rewrite Z.log2_shiftr by lia. lia. }
    assert (Hpos : 0 < Z.shiftr (Zpos p) (Zpos n)).
    { destruct (Z.shiftr (Zpos p) (Zpos n)) as [|q|q] eqn:Eq; try lia.
      - cbn in Hlog2. lia.
      - cbn in Hlog2. lia. }
    repeat split; try lia.
    intros _. destruct (Z.shiftr (Zpos p) (Zpos n)) as [|q|q]; try lia.
    cbn [Zdigits2]. rewrite Zdigits2_log2. lia.
  - repeat split; try lia; intros H; cbn [Zdigits2]; lia.
Qed.

Lemma round_nearest_even_bounds (m : Z) (l : location) :
  m <= round_nearest_even m l <= m + 1.
Proof.
  destruct l as [|[| |]]; cbn [round_nearest_even]; try lia.
  destruct (Z.even m); lia.
Qed.

Lemma Zdigits2_mono (a b : Z) : 0 < a -> a <= b -> Zdigits2 a <= Zdigits2 b.
Proof.
  intros Ha Hab. destruct a as [|p|p], b as [|q|q]; try lia.
  cbn [Zdigits2]. rewrite !Zdigits2_log2.
  pose proof (Z.log2_le_mono _ _ Hab). lia.
Qed.

(** The sign of a number that does not underflow: rounding a positive
    mantissa at an exponent not below the least one gives a finite number or
    an infinity of the given sign; with at least 53 digits the mantissa of
    the result has exactly 53. *)
Definition roundedOk (s : bool) (normal : bool) (x : spec_float) : Prop :=
  match x with
  | S754_finite s' m e =>
      s' = s /\ -1074 <= e /\
      (normal = true -> Zpos (digits2_pos m) = 53)
  | S754_infinity s' => s' = s
  | _ => False
  end.

Lemma binary_round_aux_ok (s : bool) (m e : Z) (l : location) (normal : bool) :
  0 < m -> -1074 <= e -> (normal = true -> 53 <= Zdigits2 m) ->
  roundedOk s normal (binary_round_aux 53 1024 s m e l).
Proof.
  intros Hm He Hnormal. unfold binary_round_aux.
  destruct (shr_fexp_positive m e l Hm He) as [H1 [H2 H3]].
  destruct (shr_fexp 53 1024 m e l) as [mrs' e']. cbn [fst snd] in *.
  pose proof (round_nearest_even_bounds (shr_m mrs') (loc_of_shr_record mrs'))
    as Hr.
  set (m2 := round_nearest_even (shr_m mrs') (loc_of_shr_record mrs')) in *.
  assert (Hm2 : 0 < m2) by lia.
  destruct (shr_fexp_positive m2 e' loc_Exact Hm2 H2) as [H4 [H5 H6]].
  destruct (shr_fexp 53 1024 m2 e' loc_Exact) as [mrs'' e'']. cbn [fst snd] in *.
  destruct (shr_m mrs'') as [|q|q] eqn:Eq; try lia.
  destruct (e'' <=? 1024 - 53); cbn [roundedOk]; [|reflexivity].
  repeat split; try assumption. intros Hn.
  assert (Hd : 53 <= Zdigits2 m2).
  { rewrite <- (H3 (Hnormal Hn)). apply Zdigits2_mono; lia. }
  exact (H6 Hd).
Qed.

Lemma iter_xO_pow (m d : positive) :
  Zpos (Pos.iter xO m d) = Zpos m * 2 ^ Zpos d.
Proof.
  induction d as [|d IH] using Pos.peano_ind.
  - cbn. lia.
  - rewrite Pos.iter_succ, Pos2Z.inj_succ, Z.pow_succ_r by lia.
    rewrite Pos2Z.inj_xO, IH. lia.
Qed.

Lemma shl_align_value (m : positive) (e e' : Z) :
  e' <= e ->
  Zpos (fst (shl_align m e e')) = Zpos m * 2 ^ (e - e') /\
  snd (shl_align m e e') = e'.
Proof.
  intros Hle. unfold shl_align.
  destruct (e' - e) as [|d|d] eqn:Ed; cbn [fst snd].
  - replace (e - e') with 0 by lia. split; lia.
  - lia.
  - rewrite iter_xO_pow. replace (e - e') with (Zpos d) by lia. split; lia.
Qed.

Lemma binary_round_ok (s : bool) (m : positive) (e : Z) (normal : bool) :
  -1074 <= e ->
  (normal = true -> -1074 <= Zpos (digits2_pos m) + e - 53) ->
  roundedOk s normal (binary_round 53 1024 s m e).
Proof.
  intros He Hnormal. unfold binary_round. rewrite fexp64.
  set (f := Z.max (Zpos (digits2_pos m) + e - 53) (-1074)).
  destruct (Z.le_gt_cases f e) as [Hfe|Hfe].
  - destruct (shl_align_value m e f Hfe) as [Hv Hs].
    destruct (shl_align m e f) as [mz ez]. cbn [fst snd] in *. subst ez.
    apply binary_round_aux_ok; try lia.
    intros Hn. specialize (Hnormal Hn). cbn [Zdigits2].
    rewrite Zdigits2_log2, Hv, Z.log2_mul_pow2 by lia.
    pose proof (Zdigits2_log2 m). lia.
  - unfold shl_align. destruct (f - e) as [|d|d] eqn:Ed; try lia.
    apply binary_round_aux_ok; try lia.
    intros Hn. specialize (Hnormal Hn). cbn [Zdigits2]. lia.
Qed.

(** A Number whose mantissa, if it is finite and not zero, has 53 digits at
    an exponent of the format: every Number but the subnormal ones. *)
Definition normalNumber (x : JS.number) : Prop :=
  match x with
  | S754_finite _ m e => Zpos (digits2_pos m) = 53 /\ -1074 <= e
  | _ => True
  end.

Lemma roundedOk_normal (s : bool) (x : spec_float) :
  roundedOk s true x -> normalNumber x.
Proof.
  destruct x as [| | |s' m e]; cbn; tauto.
Qed.

(** An integer becomes a normal Number, or an infinity. *)
Lemma ofInteger_normal (z : Z) :
  normalNumber (binary_normalize 53 1024 z 0 false).
Proof.
  destruct z as [|p|p]; cbn [binary_normalize]; [exact I| |];
    apply (roundedOk_normal _ _ (binary_round_ok _ p 0 true ltac:(lia)
             ltac:(intros _; pose proof (Zdigits2_log2 p);
                   pose proof (Z.log2_nonneg (Zpos p)); lia))).
Qed.

Lemma parseInt_normal (s : string) : normalNumber (JS.parseInt s).
Proof.
  unfold JS.parseInt.
  destruct (JS.takeSign (JS.trimStart s)) as [neg s1].
  destruct (if (prefix "0x" s1 || prefix "0X" s1)%bool
            then (16%nat, JS.dropChars 2 s1) else (10%nat, s1)) as [radix s2].
  destruct (JS.takeDigits radix s2 0 0) as [[v n] rest].
  destruct n as [|n]; [exact I|].
  destruct (v =? 0); [exact I|]. apply ofInteger_normal.
Qed.

Lemma mantissa_bounds (m : positive) :
  Zpos (digits2_pos m) = 53 -> 2 ^ 52 <= Zpos m < 2 ^ 53.
Proof.
  intros Hd. rewrite Zdigits2_log2 in Hd.
  pose proof (Z.log2_spec (Zpos m) ltac:(lia)) as H.
  replace (Z.log2 (Zpos m)) with 52 in H by lia. exact H.
Qed.

(** The difference of the two aligned mantissas, as [SFsub] forms it. *)
Definition alignedDifference (sx : bool) (mx : positive) (ex : Z)
  (sy : bool) (my : positive) (ey : Z) : Z :=
  cond_Zopp sx (Zpos (fst (shl_align mx ex (Z.min ex ey))))
  - cond_Zopp sy (Zpos (fst (shl_align my ey (Z.min ex ey)))).

Lemma compare_by_difference (sx : bool) (mx : positive) (ex : Z)
  (sy : bool) (my : positive) (ey : Z) :
  Zpos (digits2_pos mx) = 53 -> Zpos (digits2_pos my) = 53 ->
  JS.ltb (S754_finite sx mx ex) (S754_finite sy my ey)
  = (alignedDifference sx mx ex sy my ey <? 0) /\
  JS.ltb (S754_finite sy my ey) (S754_finite sx mx ex)
  = (0 <? alignedDifference sx mx ex sy my ey).
Proof.
  intros Hx Hy. apply mantissa_bounds in Hx, Hy.
  unfold alignedDifference.
  destruct (shl_align_value mx ex (Z.min ex ey) ltac:(lia)) as [HA _].
  destruct (shl_align_value my ey (Z.min ex ey) ltac:(lia)) as [HB _].
  rewrite HA, HB. clear HA HB.
  unfold JS.ltb, SFltb. cbn [SFcompare].
  change (Pos.compare_cont Eq mx my) with (Pos.compare mx my).
  change (Pos.compare_cont Eq my mx) with (Pos.compare my mx).
  rewrite (Z.compare_antisym ex ey), (Pos.compare_antisym mx my).
  assert (Hpow : forall k, 1 <= k -> 2 <= 2 ^ k).
  { intros k Hk. change 2 with (2 ^ 1) at 1.
    apply Z.pow_le_mono_r; lia. }
  destruct (Z.compare_spec ex ey) as [He|He|He].
  - subst ey. rewrite Z.min_id, Z.sub_diag, Z.pow_0_r, !Z.mul_1_r.
    destruct (Pos.compare_spec mx my) as [Hm|Hm|Hm];
      destruct sx, sy; cbn [cond_Zopp CompOpp]; split;
      symmetry; try (apply Z.ltb_lt; lia); try (apply Z.ltb_ge; lia).
  - rewrite Z.min_l by lia. rewrite Z.sub_diag, Z.pow_0_r, Z.mul_1_r.
    pose proof (Hpow (ey - ex) ltac:(lia)) as Hp.
    destruct sx, sy; cbn [cond_Zopp CompOpp]; split;
      symmetry; try (apply Z.ltb_lt; nia); try (apply Z.ltb_ge; nia).
  - rewrite Z.min_r by lia. rewrite Z.sub_diag, Z.pow_0_r, Z.mul_1_r.
    pose proof (Hpow (ex - ey) ltac:(lia)) as Hp.
    destruct sx, sy; cbn [cond_Zopp CompOpp]; split;
      symmetry; try (apply Z.ltb_lt; nia); try (apply Z.ltb_ge; nia).
Qed.

Lemma normalize_sign (d e : Z) :
  -1074 <= e ->
  JS.ltb (binary_normalize 53 1024 d e false) (S754_zero false) = (d <? 0) /\
  JS.ltb (S754_zero false) (binary_normalize 53 1024 d e false) = (0 <? d).
Proof.
  intros He. destruct d as [|p|p]; cbn [binary_normalize].
  - split; reflexivity.
  - pose proof (binary_round_ok false p e false He ltac:(discriminate)) as H.
    destruct (binary_round 53 1024 false p e) as [| s | |s m e'];
      cbn in H; try tauto.
    + subst s. split; reflexivity.
    + destruct H as [-> _]. split; reflexivity.
  - pose proof (binary_round_ok true p e false He ltac:(discriminate)) as H.
    destruct (binary_round 53 1024 true p e) as [| s | |s m e'];
      cbn in H; try tauto.
    + subst s. split; reflexivity.
    + destruct H as [-> _]. split; reflexivity.
Qed.

(** The sign of a difference of two normal Numbers is their order. *)
Lemma sub_sign (x y : JS.number) :
  normalNumber x -> normalNumber y ->
  JS.ltb (JS.sub x y) (JS.ofZ 0) = JS.ltb x y /\
  JS.ltb (JS.ofZ 0) (JS.sub x y) = JS.ltb y x.
Proof.
  intros Hx Hy. change (JS.ofZ 0) with (S754_zero false).
  destruct x as [sx|sx| |sx mx ex], y as [sy|sy| |sy my ey];
    try (destruct sx; destruct sy; split; reflexivity);
    try (destruct sx; split; reflexivity);
    try (destruct sy; split; reflexivity);
    try (split; reflexivity).
  destruct Hx as [Hmx Hex], Hy as [Hmy Hey].
  destruct (compare_by_difference sx mx ex sy my ey Hmx Hmy) as [-> ->].
  unfold JS.sub. cbn [SFsub]. fold (alignedDifference sx mx ex sy my ey).
  apply normalize_sign. lia.
Qed.
End NumberArithmetic.

(** ** The comparator of the sort *)

(** How [sort] reads the Number a comparator returns: negative, [a] comes
    before [b]; positive, after; zero or NaN, neither. *)
Inductive Placement : Type := Before | Neither | After.

Definition placement (v : JS.number) : Placement :=
  if JS.ltb v (JS.ofZ 0) then Before
  else if JS.gtb v (JS.ofZ 0) then After
  else Neither.

(** An id parses as an integer when [parseInt] does not return NaN: after
    white space and a sign it starts with a digit. *)
Definition parsesAsInteger (id : string) : bool :=
  negb (JS.isNaN (JS.parseInt id)).

(** The rule as the specification words it. *)
Definition numericAscending (x y : JS.number) : Placement :=
  if JS.ltb x y then Before else if JS.gtb x y then After else Neither.

Definition lexicalAscending {host : Host} (a b : string) : Placement :=
  placement (localeCompare a b).

Definition specPlacement {host : Host} (a b : string) : Placement :=
  if parsesAsInteger a && parsesAsInteger b
  then numericAscending (JS.parseInt a) (JS.parseInt b)
  else lexicalAscending a b.

Lemma placement_of_difference (x y : JS.number) :
  normalNumber x -> normalNumber y ->
  placement (JS.sub x y) = numericAscending x y.
Proof.
  intros Hx Hy. unfold placement, numericAscending.
  change (JS.gtb (JS.sub x y) (JS.ofZ 0)) with (JS.ltb (JS.ofZ 0) (JS.sub x y)).
  change (JS.gtb x y) with (JS.ltb y x).
  destruct (sub_sign x y Hx Hy) as [-> ->]. reflexivity.
Qed.

(** C7.  Both aggregation paths sort the sequences with the comparator
    [compareIds] on their ids.  For every pair of ids the comparator places
    them as the rule says: when both ids parse as integers, by the order of
    the two Numbers, ascending; otherwise by [localeCompare], ascending.  A
    pair with a side that does not parse is never compared numerically: the
    comparator returns what [localeCompare] returns. *)
Theorem comparator_agrees_with_rule :
  forall (host : Host) (a b : string),
    placement (compareIds a b) = specPlacement a b /\
    (parsesAsInteger a && parsesAsInteger b = false ->
     compareIds a b = localeCompare a b) /\
    (forall (this : TaskManager) (w : World) (feats : list Feature)
            (progressCallback : bool),
        (exists thisS wS,
            processGeoJSON this w {| features := Some feats |}
            = Returned (thisS, wS) /\
            sequences thisS
            = Array_sort Sequence
                (fun s1 s2 => compareIds (seq_id s1) (seq_id s2))
                (map withStats
                     (JS.Map.values (fst (groupedSync this w feats))))) /\
        sequences (fst (snd (processGeoJSONAsync this w
                               {| features := Some feats |}
                               progressCallback)))
        = Array_sort Sequence
            (fun s1 s2 => compareIds (seq_id s1) (seq_id s2))
            (map withStats
                 (JS.Map.values
                    (data (groupedAsync this w feats progressCallback))))).
Proof.
  intros host a b. split; [|split].
  - unfold specPlacement, compareIds, parsesAsInteger.
    destruct (negb (JS.isNaN (JS.parseInt a))
              && negb (JS.isNaN (JS.parseInt b))); [|reflexivity].
    apply placement_of_difference; apply parseInt_normal.
  - unfold compareIds, parsesAsInteger. intros ->. reflexivity.
  - intros this w feats cb. split.
    + destruct (processGeoJSON_returns this w feats)
        as [thisS [Hret [Hseq _]]].
      exists thisS, (snd (groupedSync this w feats)).
      split; [exact Hret|exact Hseq].
    + exact (proj1 (processGeoJSONAsync_result this w feats cb)).
Qed.

(** The rule at work: "9" before "10", a track name after a number by the
    sample host's code-unit order, and an id that only starts with digits
    compared as the number it starts with. *)
Lemma comparator_examples :
  placement (compareIds "9" "10") = Before /\
  placement (compareIds "10" "9") = After /\
  placement (compareIds "gpx_track_1" "10") = After /\
  placement (compareIds "12abc" "3") = After /\
  placement (compareIds "007" "7") = Neither.
Proof. repeat split; vm_compute; reflexivity. Qed.

(* ===================================================================== *)
(** * Part IV.  The rest of the task manager                              *)
(* ===================================================================== *)

(** The functions of [src/app.js] around the pipeline of Part II: the
    preview editor's geometry helpers ([simplifyGeometry], [flattenLatLngs],
    [distanceToSegment]), navigation between the tabs ([switchView],
    [navigateToSequence], [showNext], [showPrevious], [renderCurrentTask]),
    the summary, the CSV export of the task list, storage, the upload
    ([handleFileUpload]), the GPX reader and the checks of [exportToJOSM].
    Each section gives the functions, then what holds of them.  The
    page itself (the DOM, alerts placed aside) is not modelled: of a function
    that draws, the effect on the fields of the task manager is kept. *)

(** ** Douglas-Peucker: what the result keeps *)

Section SimplifierResult.
Context {host : Host}.
Variable tolerance : JS.number.

(** [output] is [input] with some points left out: never an end, and between
    two neighbours [u], [v] of the output only points [x] for which
    [perpendicularDistance(x, u, v) > tolerance] is false. *)
Inductive keptWithin : list Position -> list Position -> Prop :=
| kept_none : keptWithin [] []
| kept_one (p : Position) : keptWithin [p] [p]
| kept_chord (u : Position) (dropped : list Position) (v : Position)
    (rest rest' : list Position) :
    (forall x, In x dropped ->
               JS.gtb (perpendicularDistance x u v) tolerance = false) ->
    keptWithin (v :: rest) (v :: rest') ->
    keptWithin (u :: dropped ++ v :: rest) (u :: v :: rest').

Lemma last_of_suffix {A : Type} (a b l : list A) (p : A) :
  a ++ b = l ++ [p] -> b <> [] -> exists l', b = l' ++ [p].
Proof.
  intros Heq Hb. destruct (exists_last Hb) as [l' [q ->]].
  rewrite app_assoc in Heq. apply app_inj_tail in Heq as [_ ->].
  exists l'. reflexivity.
Qed.

(** Two results that meet in a point [p] join into one. *)
Lemma keptWithin_join (X Y : list Position) :
  keptWithin X Y ->
  forall (p : Position) (l2 r2 : list Position),
    (exists l1, X = l1 ++ [p]) -> (exists r1, Y = r1 ++ [p]) ->
    keptWithin (p :: l2) (p :: r2) ->
    keptWithin (X ++ l2) (Y ++ r2).
Proof.
  induction 1 as [|q|u dropped v rest rest' Hnear Hrest IH];
    intros p l2 r2 [l1 HX] [r1 HY] Hnext.
  - destruct l1; discriminate.
  - destruct l1 as [|a [|b l1]]; try discriminate. injection HX as ->.
    exact Hnext.
  - cbn [app]. rewrite <- app_assoc. cbn [app].
    apply kept_chord; [exact Hnear|].
    apply (IH p l2 r2); [| |exact Hnext].
    + apply (last_of_suffix (u :: dropped) (v :: rest) l1 p);
        [exact HX|discriminate].
    + apply (last_of_suffix [u] (v :: rest') r1 p); [exact HY|discriminate].
Qed.

Lemma hd_rev_app {A : Type} (l1 l2 : list A) :
  l2 <> [] -> hd_error (rev (l1 ++ l2)) = hd_error (rev l2).
Proof.
  intros Hne. rewrite rev_app_distr.
  destruct (rev l2) as [|x t] eqn:E; [|reflexivity].
  apply (f_equal (@rev A)) in E. rewrite rev_involutive in E.
  contradiction.
Qed.

Lemma keptWithin_ends (X Y : list Position) :
  keptWithin X Y ->
  hd_error Y = hd_error X /\ hd_error (rev Y) = hd_error (rev X) /\
  List.length Y <= List.length X /\
  (2 <= List.length X -> 2 <= List.length Y).
Proof.
  induction 1 as [|q|u dropped v rest rest' Hnear Hrest IH].
  - repeat split; cbn; lia.
  - repeat split; cbn; lia.
  - destruct IH as [_ [Hlast [Hlen _]]]. repeat split.
    + change (u :: v :: rest') with ([u] ++ v :: rest').
      change (u :: dropped ++ v :: rest) with ((u :: dropped) ++ v :: rest).
      rewrite !hd_rev_app by discriminate.
      exact Hlast.
    + cbn [List.length] in *. rewrite length_app. cbn [List.length]. lia.
    + intros _. cbn. lia.
Qed.

Hypothesis tolerance_positive : JS.gtb tolerance (JS.ofZ 0) = true.

(** [a < b] and not [c < b] give [a < c], when [c] is not NaN. *)
Lemma ltb_lt_le (a b c : JS.number) :
  JS.ltb a b = true -> JS.isNaN c = false -> JS.ltb c b = false ->
  JS.ltb a c = true.
Proof.
  intros Hab Hc Hcb.
  destruct (rank_not_NaN c Hc) as [rc Hrc].
  apply ltb_rank in Hab as [ra [rb [Ha [Hb Hlt]]]].
  apply ltb_rank. exists ra, rc. repeat split; try assumption.
  assert (Hnot : ~ rankLt rc rb).
  { intros H. assert (JS.ltb c b = true) as H'.
    { apply ltb_rank. exists rc, rb. repeat split; assumption. }
    rewrite H' in Hcb. discriminate. }
  destruct ra as [[a1 a2] a3], rb as [[b1 b2] b3], rc as [[c1 c2] c3].
  cbn in *. lia.
Qed.

(** When the scan ends at or below the tolerance, no interior point is
    above it. *)
Lemma scan_not_above (f : Position -> JS.number) (mid : list Position) :
  JS.gtb (fst (scanFrom f mid 1 (JS.ofZ 0, 0))) tolerance = false ->
  forall x, In x mid -> JS.gtb (f x) tolerance = false.
Proof.
  intros Hmax x Hx.
  destruct (scanFrom f mid 1 (JS.ofZ 0, 0)) as [D m] eqn:Escan.
  cbn [fst] in Hmax.
  destruct (JS.gtb (f x) tolerance) eqn:Efar; [exfalso|reflexivity].
  change (JS.gtb (f x) tolerance) with (JS.ltb tolerance (f x)) in Efar.
  change (JS.gtb D tolerance) with (JS.ltb tolerance D) in Hmax.
  destruct (scanFrom_result f mid 1 (JS.ofZ 0) 0 D m eq_refl Escan)
    as [[Heq Hnone]|[xs [p [ys [Hl [_ [HD [Hlt [Hxs Hys]]]]]]]]].
  - (* nothing above 0, yet [x] above the tolerance, which is above 0 *)
    specialize (Hnone x Hx).
    change (JS.gtb (f x) (JS.ofZ 0)) with (JS.ltb (JS.ofZ 0) (f x)) in Hnone.
    change (JS.gtb tolerance (JS.ofZ 0)) with (JS.ltb (JS.ofZ 0) tolerance)
      in tolerance_positive.
    rewrite (ltb_trans _ _ _ tolerance_positive Efar) in Hnone.
    discriminate.
  - subst D mid.
    assert (Hp : JS.isNaN (f p) = false)
      by (apply ltb_not_NaN in Hlt; tauto).
    (* [tolerance < f x] and not [tolerance < f p]: then [f p < f x] *)
    assert (Hpx : JS.ltb (f p) (f x) = true).
    { apply (ltb_le_lt (f p) tolerance (f x)); assumption. }
    apply in_app_or in Hx as [Hx|[<-|Hx]].
    + destruct (Hxs x Hx) as [Hnan|Hxp].
      * apply ltb_not_NaN in Efar as [_ Efar]. congruence.
      * rewrite (ltb_asym _ _ Hxp) in Hpx. discriminate.
    + rewrite (ltb_asym _ _ Hpx) in Hpx. discriminate.
    + specialize (Hys x Hx).
      change (JS.gtb (f x) (f p)) with (JS.ltb (f p) (f x)) in Hys.
      congruence.
Qed.

Lemma douglasPeucker_keptWithin (fuel : nat) :
  forall points r : list Position,
    douglasPeucker_fuel fuel points tolerance = Some r ->
    keptWithin points r.
Proof.
  induction fuel as [|fuel IH]; intros points r Hcall; [discriminate|].
  destruct (Nat.le_gt_cases (List.length points) 2) as [Hshort|Hlong].
  { rewrite (douglasPeucker_short tolerance) in Hcall by exact Hshort.
    injection Hcall as <-.
    destruct points as [|a [|z [|c l]]]; try (cbn in Hshort; lia).
    - constructor.
    - constructor.
    - apply (kept_chord a [] z [] []); [intros x []|constructor]. }
  destruct (two_ends points) as [a [mid [z ->]]]; [lia|].
  assert (Hmid : mid <> []).
  { intros ->. cbn in Hlong. lia. }
  destruct (douglasPeucker_call tolerance tolerance_positive fuel a mid z r
              Hmid Hcall)
    as [[Hmax ->]|[xs [p [ys [L [R [Hsplit [_ [_ [_ [_ [_
                                                  [HL [HR ->]]]]]]]]]]]]]].
  - apply (kept_chord a mid z [] []); [|constructor].
    exact (scan_not_above (distanceTo a z) mid Hmax).
  - destruct (douglasPeucker_shape tolerance tolerance_positive fuel a xs p L
                HL) as [midL [EL _]].
    destruct (douglasPeucker_shape tolerance tolerance_positive fuel p ys z R
                HR) as [midR [ER _]].
    pose proof (IH _ _ HL) as KL. pose proof (IH _ _ HR) as KR.
    subst mid.
    assert (Hin : a :: (xs ++ p :: ys) ++ [z]
                  = (a :: xs ++ [p]) ++ (ys ++ [z])).
    { cbn [app]. rewrite <- !app_assoc. reflexivity. }
    assert (Hout : removelast L ++ R = L ++ (midR ++ [z])).
    { rewrite EL, ER. change (a :: midL ++ [p]) with ((a :: midL) ++ [p]).
      rewrite removelast_last. rewrite <- app_assoc. reflexivity. }
    rewrite Hin, Hout.
    apply (keptWithin_join _ _ KL p).
    + exists (a :: xs). reflexivity.
    + exists (a :: midL). exact EL.
    + rewrite <- ER. exact KR.
Qed.
End SimplifierResult.

(** X1.  With a tolerance above zero, [douglasPeucker] only leaves points
    out, and never an end: between two neighbours [u], [v] of the result, the
    points of the input that were left out are those for which
    [perpendicularDistance(x, u, v) > tolerance] is false. *)
Theorem douglasPeucker_drops_only_near_points :
  forall (host : Host) (points : list Position) (tolerance : JS.number),
    JS.gtb tolerance (JS.ofZ 0) = true ->
    exists simplified,
      douglasPeucker points tolerance = Some simplified /\
      keptWithin tolerance points simplified.
Proof.
  intros host points tolerance Hpos.
  destruct (douglasPeucker_total tolerance Hpos points) as [r Hr].
  exists r. split; [exact Hr|].
  exact (douglasPeucker_keptWithin tolerance Hpos _ points r Hr).
Qed.

Lemma douglasPeucker_drops_only_near_points_witness :
  JS.gtb (JS.ofZ 5) (JS.ofZ 0) = true /\
  exists simplified,
    douglasPeucker sampleTrack (JS.ofZ 5) = Some simplified /\
    keptWithin (JS.ofZ 5) sampleTrack simplified.
Proof.
  split; [reflexivity|].
  apply (douglasPeucker_drops_only_near_points SampleHost.host sampleTrack
           (JS.ofZ 5)).
  reflexivity.
Defined.

(** X2.  With a tolerance above zero, the simplified line starts and ends
    where the input does, has no more points than the input, and has at least
    two points when the input has. *)
Theorem douglasPeucker_keeps_ends :
  forall (host : Host) (points : list Position) (tolerance : JS.number),
    JS.gtb tolerance (JS.ofZ 0) = true ->
    exists simplified,
      douglasPeucker points tolerance = Some simplified /\
      hd_error simplified = hd_error points /\
      hd_error (rev simplified) = hd_error (rev points) /\
      List.length simplified <= List.length points /\
      (2 <= List.length points -> 2 <= List.length simplified).
Proof.
  intros host points tolerance Hpos.
  destruct (douglasPeucker_total tolerance Hpos points) as [r Hr].
  exists r. split; [exact Hr|].
  apply (keptWithin_ends tolerance).
  exact (douglasPeucker_keptWithin tolerance Hpos _ points r Hr).
Qed.

Lemma douglasPeucker_keeps_ends_witness :
  JS.gtb (JS.ofZ 5) (JS.ofZ 0) = true /\
  exists simplified,
    douglasPeucker sampleTrack (JS.ofZ 5) = Some simplified /\
    hd_error simplified = hd_error sampleTrack /\
    hd_error (rev simplified) = hd_error (rev sampleTrack) /\
    List.length simplified <= List.length sampleTrack /\
    (2 <= List.length sampleTrack -> 2 <= List.length simplified).
Proof.
  split; [reflexivity|].
  apply (douglasPeucker_keeps_ends SampleHost.host sampleTrack (JS.ofZ 5)).
  reflexivity.
Defined.

(** ** The preview editor: tolerance, nested vertex lists, distances *)

(** [x <= y] on Numbers *)
Definition lessOrEqual (x y : JS.number) : bool := SFleb x y.

(** [parseFloat(toleranceInput.value) || 5] of [simplifyGeometry] *)
Definition simplifyGeometry_tolerance (value : string) : JS.number :=
  let parsed := JS.parseFloat value in
  if JS.truthy (JS.Num parsed) then parsed else JS.ofZ 5.

(** A check that lets the function go on with a value, or ends it with
    [alert(message); return]. *)
Inductive Checked (A : Type) : Type :=
| GoesOn (a : A)
| Alerts (message : string).
Arguments GoesOn {A} a.
Arguments Alerts {A} message.

(** [simplifyGeometry] up to its loop over the layers: the tolerance the
    layers are simplified with, or the alert it returns after.
[[
if (!this.currentPreviewSequence || !this.editableLayers ||
    this.editableLayers.length === 0) { alert(...); return; }
if (!this.previewEditMode) { alert(...); return; }
const tolerance = parseFloat(toleranceInput.value) || 5;
if (tolerance <= 0) { alert(...); return; }
]] *)
Definition simplifyGeometry_guard (hasPreview : bool) (layers : nat)
  (previewEditMode : bool) (value : string) : Checked JS.number :=
  if negb hasPreview || Nat.eqb layers 0
  then Alerts "No geometry to simplify. Please open a preview first."
  else if negb previewEditMode then Alerts "Please enable edit mode first."
  else
    let tolerance := simplifyGeometry_tolerance value in
    if lessOrEqual tolerance (JS.ofZ 0)
    then Alerts "Tolerance must be greater than 0."
    else GoesOn tolerance.

(** What Leaflet hands to [flattenLatLngs]: an [L.LatLng], an array, or
    anything else ([null], [undefined], a number, a plain object). *)
Inductive LatLngs : Type :=
| LatLng (lat lng : JS.number)
| LatLngArray (items : list LatLngs)
| NoLatLng.

(** [flattenLatLngs] *)
Fixpoint flattenLatLngs (arr : LatLngs) : list LatLngs :=
  match arr with
  | NoLatLng => []
  | LatLng _ _ => [arr]
  | LatLngArray items =>
      JS.forEach items
        (fun item result =>
           match item with
           | LatLng _ _ => result ++ [item]
           | LatLngArray inner =>
               match inner with
               | LatLng _ _ :: _ => result ++ inner
               | LatLngArray _ :: _ => result ++ flattenLatLngs item
               | _ => result
               end
           | NoLatLng => result
           end)
        []
  end.

(** An [L.LatLng], as [distanceToSegment] reads it. *)
Record LatLngPoint : Type := {
  lat : JS.number;
  lng : JS.number
}.

(** [distanceToSegment] *)
Definition distanceToSegment (point segStart segEnd : LatLngPoint)
  : JS.number :=
  let A := JS.sub (lat point) (lat segStart) in
  let B := JS.sub (lng point) (lng segStart) in
  let C := JS.sub (lat segEnd) (lat segStart) in
  let D := JS.sub (lng segEnd) (lng segStart) in
  let dot := JS.add (JS.mul A C) (JS.mul B D) in
  let lenSq := JS.add (JS.mul C C) (JS.mul D D) in
  let param :=
    if negb (JS.strictEq lenSq (JS.ofZ 0)) then JS.div dot lenSq
    else JS.ofZ (-1) in
  let '(xx, yy) :=
    if JS.ltb param (JS.ofZ 0) then (lat segStart, lng segStart)
    else if JS.gtb param (JS.ofZ 1) then (lat segEnd, lng segEnd)
    else (JS.add (lat segStart) (JS.mul param C),
          JS.add (lng segStart) (JS.mul param D)) in
  let dx := JS.sub (lat point) xx in
  let dy := JS.sub (lng point) yy in
  JS.mul (JS.Math_sqrt (JS.add (JS.mul dx dx) (JS.mul dy dy)))
         (JS.ofZ 111000).

(** *** The tolerance *)

(** A Number that is neither NaN nor at most zero is above zero. *)
Lemma above_zero (x : JS.number) :
  JS.isNaN x = false -> lessOrEqual x (JS.ofZ 0) = false ->
  JS.gtb x (JS.ofZ 0) = true.
Proof.
  destruct x as [s|[|]| |[|] m e]; intros Hnan Hle;
    try discriminate; reflexivity.
Qed.

Lemma simplifyGeometry_tolerance_not_NaN (value : string) :
  JS.isNaN (simplifyGeometry_tolerance value) = false.
Proof.
  unfold simplifyGeometry_tolerance.
  destruct (JS.parseFloat value) as [s|s| |s m e]; reflexivity.
Qed.

(** X3.  The tolerance [simplifyGeometry] goes on with is above zero: the
    text of the input parsed by [parseFloat], or 5 when that is NaN or zero;
    a tolerance at or below zero ends in the alert.  So [douglasPeucker]
    returns for every layer it is called on. *)
Theorem simplifyGeometry_tolerance_is_positive :
  forall (host : Host) (hasPreview : bool) (layers : nat)
         (previewEditMode : bool) (value : string) (tolerance : JS.number),
    simplifyGeometry_guard hasPreview layers previewEditMode value
    = GoesOn tolerance ->
    JS.gtb tolerance (JS.ofZ 0) = true /\
    (JS.truthy (JS.Num (JS.parseFloat value)) = false ->
     tolerance = JS.ofZ 5) /\
    forall points : list Position,
    exists simplified, douglasPeucker points tolerance = Some simplified.
Proof.
  intros host hasPreview layers previewEditMode value tolerance.
  unfold simplifyGeometry_guard.
  destruct (negb hasPreview || Nat.eqb layers 0); [discriminate|].
  destruct (negb previewEditMode); [discriminate|].
  destruct (lessOrEqual (simplifyGeometry_tolerance value) (JS.ofZ 0))
    eqn:Hle; [discriminate|].
  intros [= <-].
  assert (Hpos : JS.gtb (simplifyGeometry_tolerance value) (JS.ofZ 0) = true)
    by (apply above_zero;
        [apply simplifyGeometry_tolerance_not_NaN|exact Hle]).
  split; [exact Hpos|]. split.
  - intros Hfalsy. unfold simplifyGeometry_tolerance. rewrite Hfalsy.
    reflexivity.
  - intros points. exact (douglasPeucker_total _ Hpos points).
Qed.

Lemma simplifyGeometry_tolerance_is_positive_witness :
  simplifyGeometry_guard true 1 true "0" = GoesOn (JS.ofZ 5) /\
  JS.gtb (JS.ofZ 5) (JS.ofZ 0) = true /\
  exists simplified, douglasPeucker sampleTrack (JS.ofZ 5) = Some simplified.
Proof.
  split; [reflexivity|].
  destruct (simplifyGeometry_tolerance_is_positive SampleHost.host true 1 true
              "0" (JS.ofZ 5) eq_refl) as [Hpos [_ Hall]].
  split; [exact Hpos|exact (Hall sampleTrack)].
Defined.

(** *** Nested vertex lists *)

(** The [L.LatLng]s of a value, in order. *)
Fixpoint latLngsOf (v : LatLngs) : list LatLngs :=
  match v with
  | LatLng _ _ => [v]
  | LatLngArray items => flat_map latLngsOf items
  | NoLatLng => []
  end.

(** Arrays nested to one depth throughout, as the rings of a polygon or the
    parts of a multi-polyline are: depth 0 is an [L.LatLng]. *)
Fixpoint nested (depth : nat) (v : LatLngs) : Prop :=
  match depth with
  | O => exists lat lng, v = LatLng lat lng
  | S d => exists items, v = LatLngArray items /\ Forall (nested d) items
  end.

Lemma forEach_append {A B : Type} (g : A -> list B) (items : list A)
  (result : list B) :
  JS.forEach items (fun item result => result ++ g item) result
  = result ++ flat_map g items.
Proof.
  unfold JS.forEach. revert result.
  induction items as [|x items IH]; intros result; cbn [fold_left flat_map].
  - symmetry. apply app_nil_r.
  - rewrite IH, app_assoc. reflexivity.
Qed.

Lemma forEach_ext {A St : Type} (f g : A -> St -> St) (items : list A)
  (s : St) :
  (forall x s', In x items -> f x s' = g x s') ->
  JS.forEach items f s = JS.forEach items g s.
Proof.
  unfold JS.forEach. revert s.
  induction items as [|x items IH]; intros s Hext; [reflexivity|].
  cbn [fold_left]. rewrite (Hext x s (or_introl eq_refl)).
  apply IH. intros y s' Hy. apply Hext. right. exact Hy.
Qed.

Lemma latLngsOf_flat (items : list LatLngs) :
  Forall (nested 0) items -> flat_map latLngsOf items = items.
Proof.
  induction 1 as [|x items [la [lo ->]] _ IH]; [reflexivity|].
  cbn [flat_map latLngsOf app]. rewrite IH. reflexivity.
Qed.

Lemma flattenLatLngs_nested (depth : nat) :
  forall v, nested depth v -> flattenLatLngs v = latLngsOf v.
Proof.
  induction depth as [|d IH]; intros v Hv.
  - destruct Hv as [la [lo ->]]. reflexivity.
  - destruct Hv as [items [-> Hitems]]. cbn [flattenLatLngs latLngsOf].
    rewrite (forEach_ext _ (fun item result => result ++ latLngsOf item)).
    + apply (forEach_append latLngsOf items []).
    + intros item result Hin.
      rewrite Forall_forall in Hitems. specialize (Hitems item Hin).
      destruct d as [|d'].
      * destruct Hitems as [la [lo ->]]. reflexivity.
      * pose proof (IH item Hitems) as Hflat.
        destruct Hitems as [inner [-> Hinner]].
        destruct inner as [|first inner']; [symmetry; apply app_nil_r|].
        destruct d' as [|d''].
        -- clear Hflat. pose proof (latLngsOf_flat _ Hinner) as Hsame.
           inversion Hinner as [|? ? [la [lo Hfirst]] _]; subst.
           change (latLngsOf (LatLngArray (LatLng la lo :: inner')))
             with (flat_map latLngsOf (LatLng la lo :: inner')).
           rewrite Hsame. reflexivity.
        -- inversion Hinner as [|? ? [items' [-> _]] _]; subst.
           rewrite Hflat. reflexivity.
Qed.

Lemma latLngsOf_are_LatLng :
  forall v x : LatLngs,
    In x (latLngsOf v) -> exists lat lng, x = LatLng lat lng.
Proof.
  fix ind 1. intros [la lo|items|] x H.
  - destruct H as [<-|[]]. exists la, lo. reflexivity.
  - cbn [latLngsOf] in H. induction items as [|y items IHl]; [destruct H|].
    cbn [flat_map] in H. apply in_app_or in H as [H|H];
      [exact (ind y x H)|exact (IHl H)].
  - destruct H.
Qed.

(** X4.  On arrays of [L.LatLng] nested to one depth throughout (a line, the
    rings of a polygon, the polygons of a multi-polygon), [flattenLatLngs]
    returns the [L.LatLng]s in order and nothing else; an empty array at any
    level contributes nothing. *)
Theorem flattenLatLngs_of_nested_arrays :
  forall (depth : nat) (arr : LatLngs),
    nested depth arr ->
    flattenLatLngs arr = latLngsOf arr /\
    forall x, In x (flattenLatLngs arr) -> exists lat lng, x = LatLng lat lng.
Proof.
  intros depth arr Hnested.
  pose proof (flattenLatLngs_nested depth arr Hnested) as Hflat.
  split; [exact Hflat|].
  intros x Hx. rewrite Hflat in Hx. exact (latLngsOf_are_LatLng arr x Hx).
Qed.

Lemma flattenLatLngs_of_nested_arrays_witness :
  flattenLatLngs
    (LatLngArray
       [LatLngArray [LatLng (JS.ofZ 1) (JS.ofZ 2); LatLng (JS.ofZ 3) (JS.ofZ 4)];
        LatLngArray [];
        LatLngArray [LatLng (JS.ofZ 5) (JS.ofZ 6)]])
  = [LatLng (JS.ofZ 1) (JS.ofZ 2); LatLng (JS.ofZ 3) (JS.ofZ 4);
     LatLng (JS.ofZ 5) (JS.ofZ 6)].
Proof.
  refine (proj1 (flattenLatLngs_of_nested_arrays 2 _ _)).
  eexists. split; [reflexivity|].
  repeat constructor;
    (eexists; split; [reflexivity|repeat constructor; eexists; eexists;
                                  reflexivity]).
Defined.

(** A ragged array is not flattened through: what follows a leading
    [L.LatLng] in an inner array is passed on as it is. *)
Lemma flattenLatLngs_ragged :
  flattenLatLngs
    (LatLngArray
       [LatLngArray [LatLng (JS.ofZ 1) (JS.ofZ 2);
                     LatLngArray [LatLng (JS.ofZ 3) (JS.ofZ 4)]]])
  = [LatLng (JS.ofZ 1) (JS.ofZ 2);
     LatLngArray [LatLng (JS.ofZ 3) (JS.ofZ 4)]].
Proof. reflexivity. Qed.

(** *** Distances *)

(** Not below zero: NaN, a zero, or a Number with the sign [+]. *)
Definition unsigned (x : JS.number) : Prop :=
  match x with
  | S754_infinity true | S754_finite true _ _ => False
  | _ => True
  end.

Lemma binary_round_aux_unsigned (m e : Z) (l : location) :
  unsigned (binary_round_aux 53 1024 false m e l).
Proof.
  unfold binary_round_aux.
  destruct (shr_fexp 53 1024 m e l) as [mrs' e'].
  destruct (shr_fexp 53 1024 _ e' loc_Exact) as [mrs2 e2].
  destruct (shr_m mrs2); [exact I| |exact I].
  destruct (e2 <=? 1024 - 53)%Z; exact I.
Qed.

Lemma sqrt_unsigned (x : JS.number) : unsigned (JS.Math_sqrt x).
Proof.
  destruct x as [s|[|]| |[|] m e]; try exact I.
  unfold JS.Math_sqrt, SFsqrt.
  destruct (SFsqrt_core_binary JS.prec JS.emax (Z.pos m) e) as [[mz ez] lz].
  apply binary_round_aux_unsigned.
Qed.

Lemma mul_unsigned (x : JS.number) (m : positive) (e : Z) :
  unsigned x -> unsigned (JS.mul x (S754_finite false m e)).
Proof.
  destruct x as [s|[|]| |[|] mx ex]; intros Hx; try exact I;
    try contradiction.
  apply binary_round_aux_unsigned.
Qed.

Lemma unsigned_not_below_zero (x : JS.number) :
  unsigned x -> JS.ltb x (JS.ofZ 0) = false.
Proof.
  destruct x as [s|[|]| |[|] m e]; intros Hx; try reflexivity; contradiction.
Qed.

(** [x - x] is [+0] for a Number that is neither NaN nor infinite. *)
Definition isFinite (x : JS.number) : bool :=
  match x with
  | S754_zero _ | S754_finite _ _ _ => true
  | _ => false
  end.

Lemma sub_self (x : JS.number) :
  isFinite x = true -> JS.sub x x = S754_zero false.
Proof.
  destruct x as [[|]|s| |s m e]; intros Hx; try discriminate;
    try reflexivity.
  unfold JS.sub, SFsub. cbv zeta. rewrite Z.sub_diag. reflexivity.
Qed.

(** X5.  [distanceToSegment] is never below zero, whatever Numbers the
    three points hold.  When the two ends of the segment are the same point
    with finite coordinates, it is the distance to that point:
    [Math.sqrt(A * A + B * B) * 111000]. *)
Theorem distanceToSegment_not_negative :
  forall point segStart segEnd : LatLngPoint,
    JS.ltb (distanceToSegment point segStart segEnd) (JS.ofZ 0) = false /\
    (segEnd = segStart ->
     isFinite (lat segStart) = true -> isFinite (lng segStart) = true ->
     let A := JS.sub (lat point) (lat segStart) in
     let B := JS.sub (lng point) (lng segStart) in
     distanceToSegment point segStart segEnd
     = JS.mul (JS.Math_sqrt (JS.add (JS.mul A A) (JS.mul B B)))
              (JS.ofZ 111000)).
Proof.
  intros point segStart segEnd. split.
  - apply unsigned_not_below_zero. unfold distanceToSegment.
    destruct (if JS.ltb _ _ then _ else _) as [xx yy].
    apply mul_unsigned, sqrt_unsigned.
  - intros -> Hlat Hlng A B. unfold distanceToSegment.
    rewrite (sub_self _ Hlat), (sub_self _ Hlng).
    change (JS.add (JS.mul (S754_zero false) (S754_zero false))
                   (JS.mul (S754_zero false) (S754_zero false)))
      with (S754_zero false).
    change (JS.strictEq (S754_zero false) (JS.ofZ 0)) with true.
    cbv iota. cbn [negb].
    change (JS.ltb (JS.ofZ (-1)) (JS.ofZ 0)) with true. cbv iota.
    reflexivity.
Qed.

Lemma distanceToSegment_not_negative_witness :
  distanceToSegment {| lat := JS.ofZ 3; lng := JS.ofZ 4 |}
                    {| lat := JS.ofZ 0; lng := JS.ofZ 0 |}
                    {| lat := JS.ofZ 0; lng := JS.ofZ 0 |}
  = JS.ofZ 555000.
Proof.
  rewrite (proj2 (distanceToSegment_not_negative
                    {| lat := JS.ofZ 3; lng := JS.ofZ 4 |}
                    {| lat := JS.ofZ 0; lng := JS.ofZ 0 |}
                    {| lat := JS.ofZ 0; lng := JS.ofZ 0 |})
            eq_refl eq_refl eq_refl).
  vm_compute. reflexivity.
Defined.

(** ** [escapeXml]: what an XML reader gets back *)

(** What [escapeXml] writes for one character. *)
Definition escapeChar (c : ascii) : string :=
  if Ascii.eqb c "&" then "&amp;"
  else if Ascii.eqb c "<" then "&lt;"
  else if Ascii.eqb c ">" then "&gt;"
  else if Ascii.eqb c JS.quote then "&quot;"
  else if Ascii.eqb c "'" then "&apos;"
  else String c EmptyString.

(** The value an XML reader takes from the text of an attribute: the five
    predefined entities are replaced by their characters, anything else
    stands for itself.  [skip] characters are passed over first. *)
Fixpoint decodeFrom (skip : nat) (s : string) : string :=
  match s with
  | EmptyString => EmptyString
  | String c r =>
      match skip with
      | S k => decodeFrom k r
      | O =>
          if Ascii.eqb c "&" then
            if prefix "amp;" r then String "&" (decodeFrom 4 r)
            else if prefix "lt;" r then String "<" (decodeFrom 3 r)
            else if prefix "gt;" r then String ">" (decodeFrom 3 r)
            else if prefix "quot;" r then String JS.quote (decodeFrom 5 r)
            else if prefix "apos;" r then String "'" (decodeFrom 5 r)
            else String c (decodeFrom 0 r)
          else String c (decodeFrom 0 r)
      end
  end.

Definition decodeEntities (s : string) : string := decodeFrom 0 s.

Lemma replaceAll_app (c : ascii) (by_ a b : string) :
  replaceAll c by_ (a +++ b) = replaceAll c by_ a +++ replaceAll c by_ b.
Proof.
  induction a as [|x a IH]; [reflexivity|].
  cbn [String.append replaceAll]. rewrite IH.
  destruct (Ascii.eqb x c); [|reflexivity].
  symmetry. apply append_assoc.
Qed.

Lemma escapeXml_app (a b : string) :
  escapeXml (a +++ b) = escapeXml a +++ escapeXml b.
Proof. unfold escapeXml. rewrite !replaceAll_app. reflexivity. Qed.

Lemma escapeXml_char (c : ascii) :
  escapeXml (String c EmptyString) = escapeChar c.
Proof.
  destruct c as [[|] [|] [|] [|] [|] [|] [|] [|]]; reflexivity.
Qed.

Lemma escapeXml_cons (c : ascii) (r : string) :
  escapeXml (String c r) = escapeChar c +++ escapeXml r.
Proof.
  change (String c r) with (String c EmptyString +++ r).
  rewrite escapeXml_app, escapeXml_char. reflexivity.
Qed.

Lemma decode_escapeChar (c : ascii) (t : string) :
  decodeFrom 0 (escapeChar c +++ t) = String c (decodeFrom 0 t).
Proof.
  destruct c as [[|] [|] [|] [|] [|] [|] [|] [|]]; try reflexivity;
    destruct t; reflexivity.
Qed.

(** The characters that end or open markup inside an attribute value. *)
Definition isMarkup (c : ascii) : bool :=
  Ascii.eqb c "<" || Ascii.eqb c ">" || Ascii.eqb c JS.quote
  || Ascii.eqb c "'".

Fixpoint anyChar (p : ascii -> bool) (s : string) : bool :=
  match s with
  | String c r => p c || anyChar p r
  | EmptyString => false
  end.

Lemma anyChar_app (p : ascii -> bool) (a b : string) :
  anyChar p (a +++ b) = anyChar p a || anyChar p b.
Proof.
  induction a as [|x a IH]; [reflexivity|].
  cbn [String.append anyChar]. rewrite IH. apply orb_assoc.
Qed.

Lemma escapeChar_no_markup (c : ascii) :
  anyChar isMarkup (escapeChar c) = false.
Proof.
  destruct c as [[|] [|] [|] [|] [|] [|] [|] [|]]; reflexivity.
Qed.

Lemma escapeChar_plain (c : ascii) :
  isMarkup c = false -> Ascii.eqb c "&" = false ->
  escapeChar c = String c EmptyString.
Proof.
  destruct c as [[|] [|] [|] [|] [|] [|] [|] [|]];
    intros H1 H2; try discriminate; reflexivity.
Qed.

(** X6.  [escapeXml] loses nothing and leaves no markup: decoding the five
    predefined entities gives the text back, the result holds none of the
    characters [<], [>], the double and the single quote, the escape of a
    concatenation is the concatenation of the escapes, and a text with none
    of the five characters is returned as it is. *)
Theorem escapeXml_round_trip :
  forall text : string,
    decodeEntities (escapeXml text) = text /\
    anyChar isMarkup (escapeXml text) = false /\
    (forall more, escapeXml (text +++ more)
                  = escapeXml text +++ escapeXml more) /\
    (anyChar (fun c => isMarkup c || Ascii.eqb c "&") text = false ->
     escapeXml text = text).
Proof.
  intros text. split; [|split; [|split]].
  - unfold decodeEntities. induction text as [|c r IH]; [reflexivity|].
    rewrite escapeXml_cons, decode_escapeChar, IH. reflexivity.
  - induction text as [|c r IH]; [reflexivity|].
    rewrite escapeXml_cons, anyChar_app, escapeChar_no_markup, IH.
    reflexivity.
  - intros more. apply escapeXml_app.
  - induction text as [|c r IH]; [reflexivity|].
    cbn [anyChar]. intros H. apply orb_false_iff in H as [Hc Hr].
    apply orb_false_iff in Hc as [Hm Ha].
    rewrite escapeXml_cons, (escapeChar_plain c Hm Ha), (IH Hr).
    reflexivity.
Qed.

Lemma escapeXml_round_trip_witness :
  escapeXml "track" = "track".
Proof.
  apply (proj2 (proj2 (proj2 (escapeXml_round_trip "track")))).
  reflexivity.
Defined.

(** ** [parseCSVLine] and the CSV export of the task list *)

(** [text.replace] of every double quote by two of them *)
Definition doubleQuotes (text : string) : string :=
  replaceAll JS.quote (JS.dq +++ JS.dq) text.

(** [seq.status || 'Active (Blank)'] *)
Definition statusLabel (s : Sequence) : string :=
  match status s with
  | Some st => if JS.nonEmpty st then st else "Active (Blank)"
  | None => "Active (Blank)"
  end.

(** A row of the export: the id with its quotes doubled and the status,
    each between double quotes, with a comma between the two. *)
Definition exportRow (s : Sequence) : string :=
  JS.dq +++ doubleQuotes (seq_id s) +++ JS.dq +++ "," +++ JS.dq
    +++ statusLabel s +++ JS.dq.

(** [lines.join(sep)] *)
Fixpoint join (sep : string) (lines : list string) : string :=
  match lines with
  | [] => ""
  | [line] => line
  | line :: rest => line +++ sep +++ join sep rest
  end.

(** [text.replace(/[:.]/g, '-')] *)
Fixpoint dashes (text : string) : string :=
  match text with
  | String c r =>
      String (if Ascii.eqb c ":" || Ascii.eqb c "." then "-"%char else c)
             (dashes r)
  | EmptyString => EmptyString
  end.

(** [text.slice(0, -n)] *)
Definition dropLast (n : nat) (text : string) : string :=
  string_of_list_ascii
    (firstn (String.length text - n) (list_ascii_of_string text)).

Section TaskListExport.
Context {host : Host}.

(** [exportAllToCSV]: the alert when there is nothing to export, else the
    content and the name of the file offered for download (the alert that
    follows the download is left out). *)
Definition exportAllToCSV (this : TaskManager) (time : nat)
  : Checked (string * string) :=
  let allSequences := getAllSequences this in
  if Nat.eqb (List.length allSequences) 0
  then Alerts "No sequences to export."
  else
    let rows := map exportRow allSequences in
    let csvContent := join JS.nl ("Sequence ID,Status" :: rows) in
    let timestamp := dropLast 5 (dashes (Date_toISOString time)) in
    let filename := "OSMAGIC_Tasks_Export_" +++ timestamp +++ ".csv" in
    GoesOn (csvContent, filename).
End TaskListExport.

(** *** Strings as lists of characters *)

Definition chars (s : string) : list ascii := list_ascii_of_string s.

Lemma chars_app (a b : string) : chars (a +++ b) = chars a ++ chars b.
Proof.
  induction a as [|c a IH]; [reflexivity|].
  cbn [String.append chars list_ascii_of_string app]. f_equal. exact IH.
Qed.

Lemma string_of_app (a b : list ascii) :
  string_of_list_ascii (a ++ b)
  = string_of_list_ascii a +++ string_of_list_ascii b.
Proof.
  induction a as [|c a IH]; [reflexivity|].
  cbn [app string_of_list_ascii String.append]. f_equal. exact IH.
Qed.

Lemma chars_of_string (l : list ascii) : chars (string_of_list_ascii l) = l.
Proof. apply list_ascii_of_string_of_list_ascii. Qed.

Lemma string_of_chars (s : string) : string_of_list_ascii (chars s) = s.
Proof. apply string_of_list_ascii_of_string. Qed.

Fixpoint dropWhile {A : Type} (p : A -> bool) (l : list A) : list A :=
  match l with
  | x :: r => if p x then dropWhile p r else l
  | [] => []
  end.

Lemma chars_trimStart (s : string) :
  chars (JS.trimStart s) = dropWhile JS.isWhiteSpace (chars s).
Proof.
  induction s as [|c r IH]; [reflexivity|].
  cbn [JS.trimStart chars list_ascii_of_string dropWhile].
  destruct (JS.isWhiteSpace c); [exact IH|reflexivity].
Qed.

Lemma chars_reverse (s : string) : chars (JS.reverse s) = rev (chars s).
Proof. unfold JS.reverse. apply chars_of_string. Qed.

(** [trim] on the characters: the white space at both ends goes. *)
Definition trimmed (l : list ascii) : list ascii :=
  rev (dropWhile JS.isWhiteSpace
         (rev (dropWhile JS.isWhiteSpace l))).

Lemma chars_trim (s : string) : chars (JS.trim s) = trimmed (chars s).
Proof.
  unfold JS.trim, JS.trimEnd, trimmed.
  rewrite chars_reverse, chars_trimStart, chars_reverse, chars_trimStart.
  reflexivity.
Qed.

Lemma dropWhile_incl {A : Type} (p : A -> bool) (l : list A) :
  incl (dropWhile p l) l.
Proof.
  induction l as [|x l IH]; [apply incl_refl|].
  cbn [dropWhile]. destruct (p x); [|apply incl_refl].
  intros y Hy. right. exact (IH y Hy).
Qed.

Lemma dropWhile_head {A : Type} (p : A -> bool) (l : list A) (x : A)
  (r : list A) :
  dropWhile p l = x :: r -> p x = false.
Proof.
  induction l as [|y l IH]; [discriminate|].
  cbn [dropWhile]. destruct (p y) eqn:E; [exact IH|].
  intros [= <- <-]. exact E.
Qed.

Lemma dropWhile_fixed {A : Type} (p : A -> bool) (l : list A) :
  match l with x :: _ => p x = false | [] => True end ->
  dropWhile p l = l.
Proof.
  destruct l as [|x l]; [reflexivity|]. cbn [dropWhile].
  intros ->. reflexivity.
Qed.

Lemma dropWhile_keeps_last {A : Type} (p : A -> bool) (l : list A) (c : A) :
  p c = false -> exists u, dropWhile p (l ++ [c]) = u ++ [c].
Proof.
  intros Hc. induction l as [|x l [u IH]].
  - exists []. cbn. rewrite Hc. reflexivity.
  - cbn [app dropWhile]. destruct (p x).
    + exists u. exact IH.
    + exists (x :: l). reflexivity.
Qed.

Lemma trimmed_incl (l : list ascii) : incl (trimmed l) l.
Proof.
  unfold trimmed. intros c Hc. apply in_rev in Hc.
  apply dropWhile_incl in Hc. apply in_rev in Hc.
  exact (dropWhile_incl _ _ c Hc).
Qed.

Lemma trimmed_head (l : list ascii) :
  match trimmed l with
  | x :: _ => JS.isWhiteSpace x = false
  | [] => True
  end.
Proof.
  unfold trimmed.
  destruct (dropWhile JS.isWhiteSpace l) as [|c t] eqn:E; [exact I|].
  pose proof (dropWhile_head _ _ _ _ E) as Hc.
  cbn [rev].
  destruct (dropWhile_keeps_last JS.isWhiteSpace (rev t) c Hc) as [u ->].
  rewrite rev_app_distr. cbn [rev app]. exact Hc.
Qed.

Lemma trimmed_trimmed (l : list ascii) : trimmed (trimmed l) = trimmed l.
Proof.
  pose proof (trimmed_head l) as Hhead.
  unfold trimmed at 1.
  rewrite (dropWhile_fixed _ (trimmed l) Hhead).
  unfold trimmed. rewrite rev_involutive.
  rewrite (dropWhile_fixed _ (dropWhile JS.isWhiteSpace _)); [reflexivity|].
  destruct (dropWhile JS.isWhiteSpace
              (rev (dropWhile JS.isWhiteSpace l))) as [|x r] eqn:E;
    [exact I|].
  exact (dropWhile_head _ _ _ _ E).
Qed.

Lemma chars_inj (a b : string) : chars a = chars b -> a = b.
Proof.
  intros H. rewrite <- (string_of_chars a), <- (string_of_chars b), H.
  reflexivity.
Qed.

Lemma trim_trim (s : string) : JS.trim (JS.trim s) = JS.trim s.
Proof.
  apply chars_inj. rewrite !chars_trim. apply trimmed_trimmed.
Qed.

Lemma trim_chars_incl (s : string) : incl (chars (JS.trim s)) (chars s).
Proof. rewrite chars_trim. apply trimmed_incl. Qed.

(** A string that starts with a character that is no white space keeps it
    when trimmed. *)
Lemma trim_keeps_head (c : ascii) (r : string) :
  JS.isWhiteSpace c = false -> exists t, JS.trim (String c r) = String c t.
Proof.
  intros Hc.
  assert (H : exists u, chars (JS.trim (String c r)) = c :: u).
  { rewrite chars_trim. unfold trimmed.
    cbn [chars list_ascii_of_string dropWhile]. rewrite Hc. cbn [rev].
    destruct (dropWhile_keeps_last JS.isWhiteSpace
                (rev (list_ascii_of_string r)) c Hc) as [u ->].
    rewrite rev_app_distr. cbn [rev app]. eexists. reflexivity. }
  destruct H as [u Hu]. exists (string_of_list_ascii u).
  apply chars_inj. rewrite Hu. cbn [chars list_ascii_of_string].
  rewrite list_ascii_of_string_of_list_ascii. reflexivity.
Qed.

(** *** The scan of [parseCSVLine] *)

Definition scanLine (l : list ascii) (st : LineScan) : LineScan :=
  JS.forEach l parseCSVLine_char st.

Lemma scanLine_app (a b : list ascii) (st : LineScan) :
  scanLine (a ++ b) st = scanLine b (scanLine a st).
Proof. unfold scanLine, JS.forEach. apply fold_left_app. Qed.

Definition noQuote (s : string) : Prop := ~ In JS.quote (chars s).

Lemma noQuote_trim (s : string) : noQuote s -> noQuote (JS.trim s).
Proof. intros H Hin. apply H. exact (trim_chars_incl s _ Hin). Qed.

Lemma noQuote_snoc (s : string) (c : ascii) :
  noQuote s -> Ascii.eqb c JS.quote = false ->
  noQuote (s +++ String c EmptyString).
Proof.
  intros Hs Hc Hin. unfold noQuote in *. rewrite chars_app in Hin.
  apply in_app_or in Hin as [Hin|[Hin|[]]]; [exact (Hs Hin)|].
  subst c. rewrite Ascii.eqb_refl in Hc. discriminate.
Qed.

(** What the scan keeps: a field is put down trimmed, and no quote is ever
    appended to [current]. *)
Definition fieldsOk (st : LineScan) : Prop :=
  noQuote (current st) /\
  forall field, In field (result st) ->
                noQuote field /\ JS.trim field = field.

Lemma parseCSVLine_char_ok (c : ascii) (st : LineScan) :
  fieldsOk st -> fieldsOk (parseCSVLine_char c st).
Proof.
  intros [Hcur Hres]. unfold parseCSVLine_char.
  destruct (Ascii.eqb c JS.quote) eqn:Eq; [split; assumption|].
  destruct (Ascii.eqb c "," && negb (inQuotes st)).
  - split; [intros []|]. cbn [result]. intros field Hin.
    apply in_app_or in Hin as [Hin|[<-|[]]]; [exact (Hres field Hin)|].
    split; [apply noQuote_trim, Hcur|apply trim_trim].
  - split; [|exact Hres]. cbn [current]. apply noQuote_snoc; assumption.
Qed.

Lemma scanLine_ok (l : list ascii) (st : LineScan) :
  fieldsOk st -> fieldsOk (scanLine l st).
Proof.
  unfold scanLine, JS.forEach. revert st.
  induction l as [|c l IH]; intros st Hst; [exact Hst|].
  cbn [fold_left]. apply IH, parseCSVLine_char_ok, Hst.
Qed.

(** Outside quotes and with no quote to come, the scan is [split(',')]
    followed by [trim]. *)
Lemma scanLine_split (l : list ascii) (st : LineScan) :
  ~ In JS.quote l -> inQuotes st = false ->
  let st' := scanLine l st in
  result st' ++ [JS.trim (current st')]
  = result st
    ++ map JS.trim
         (JS.splitAux "," (string_of_list_ascii l) (rev (chars (current st)))).
Proof.
  revert st. induction l as [|c l IH]; intros st Hq Hout; cbv zeta.
  - cbn [scanLine JS.forEach fold_left string_of_list_ascii JS.splitAux map].
    unfold scanLine, JS.forEach. cbn [fold_left].
    rewrite rev_involutive, string_of_chars. reflexivity.
  - assert (Hc : Ascii.eqb c JS.quote = false).
    { destruct (Ascii.eqb c JS.quote) eqn:E; [|reflexivity].
      apply Ascii.eqb_eq in E. exfalso. apply Hq. left. exact E. }
    assert (Hl : ~ In JS.quote l) by (intros H; apply Hq; right; exact H).
    change (scanLine (c :: l) st) with (scanLine l (parseCSVLine_char c st)).
    cbn [string_of_list_ascii JS.splitAux].
    unfold parseCSVLine_char. rewrite Hc, Hout. cbn [negb]. rewrite andb_true_r.
    destruct (Ascii.eqb c ",") eqn:Ecomma.
    + specialize (IH {| result := result st ++ [JS.trim (current st)];
                        current := ""; inQuotes := false |} Hl eq_refl).
      cbv zeta in IH. rewrite IH. cbn [result current chars
                                        list_ascii_of_string rev map].
      rewrite rev_involutive, string_of_chars, <- app_assoc. reflexivity.
    + specialize (IH {| result := result st;
                        current := current st +++ String c EmptyString;
                        inQuotes := false |} Hl eq_refl).
      cbv zeta in IH. rewrite IH. cbn [result current].
      rewrite chars_app, rev_app_distr. reflexivity.
Qed.

(** X7.  [parseCSVLine] returns at least one field, and every field is
    trimmed and holds no double quote: a quote only switches [inQuotes], a
    doubled one included.  A line without quotes is split at its commas and
    the parts are trimmed. *)
Theorem parseCSVLine_fields :
  forall line : string,
    1 <= List.length (parseCSVLine line) /\
    (forall field, In field (parseCSVLine line) ->
                   ~ In JS.quote (chars field) /\ JS.trim field = field) /\
    (~ In JS.quote (chars line) ->
     parseCSVLine line = map JS.trim (JS.split "," line)).
Proof.
  intros line. unfold parseCSVLine. fold (scanLine (list_ascii_of_string line)
    {| result := []; current := ""; inQuotes := false |}).
  set (start := {| result := []; current := ""; inQuotes := false |}).
  split; [|split].
  - rewrite length_app. cbn [List.length]. lia.
  - assert (Hstart : fieldsOk start) by (split; [intros []|intros f []]).
    destruct (scanLine_ok (list_ascii_of_string line) start Hstart)
      as [Hcur Hres].
    intros field Hin. apply in_app_or in Hin as [Hin|[<-|[]]].
    + exact (Hres field Hin).
    + split; [apply noQuote_trim, Hcur|apply trim_trim].
  - intros Hq.
    pose proof (scanLine_split (list_ascii_of_string line) start Hq eq_refl)
      as H.
    cbv zeta in H. rewrite H. unfold JS.split.
    rewrite string_of_list_ascii_of_string. reflexivity.
Qed.

Lemma parseCSVLine_fields_witness :
  parseCSVLine " a , b,c " = ["a"; "b"; "c"].
Proof.
  rewrite (proj2 (proj2 (parseCSVLine_fields " a , b,c "))).
  - reflexivity.
  - vm_compute. intuition discriminate.
Defined.

(** *** A row of the export, read back *)

(** [text.replace] of every double quote by nothing. *)
Definition withoutQuotes (text : string) : string :=
  replaceAll JS.quote "" text.

Lemma scanLine_quoted_id (id : string) :
  forall (res : list string) (cur : string),
    scanLine (chars (doubleQuotes id))
             {| result := res; current := cur; inQuotes := true |}
    = {| result := res; current := cur +++ withoutQuotes id;
         inQuotes := true |}.
Proof.
  induction id as [|c r IH]; intros res cur.
  - cbn. rewrite append_empty_r. reflexivity.
  - unfold doubleQuotes, withoutQuotes in *. cbn [replaceAll].
    destruct (Ascii.eqb c JS.quote) eqn:Ec.
    + rewrite chars_app, scanLine_app.
      change (scanLine (chars (JS.dq +++ JS.dq))
                {| result := res; current := cur; inQuotes := true |})
        with {| result := res; current := cur; inQuotes := true |}.
      rewrite IH. reflexivity.
    + change (chars (String c (replaceAll JS.quote (JS.dq +++ JS.dq) r)))
        with ([c] ++ chars (replaceAll JS.quote (JS.dq +++ JS.dq) r)).
      rewrite scanLine_app.
      assert (Hstep : scanLine [c]
                {| result := res; current := cur; inQuotes := true |}
              = {| result := res; current := cur +++ String c EmptyString;
                   inQuotes := true |}).
      { unfold scanLine, JS.forEach. cbn [fold_left].
        unfold parseCSVLine_char. rewrite Ec. cbn [inQuotes negb].
        rewrite andb_false_r. reflexivity. }
      rewrite Hstep, IH, append_assoc. reflexivity.
Qed.

Lemma withoutQuotes_plain (s : string) : noQuote s -> withoutQuotes s = s.
Proof.
  unfold noQuote, withoutQuotes. induction s as [|c r IH]; [reflexivity|].
  cbn [chars list_ascii_of_string replaceAll]. intros Hq.
  destruct (Ascii.eqb c JS.quote) eqn:Ec.
  - apply Ascii.eqb_eq in Ec. exfalso. apply Hq. left. exact Ec.
  - f_equal. apply IH. intros H. apply Hq. right. exact H.
Qed.

Lemma doubleQuotes_plain (s : string) : noQuote s -> doubleQuotes s = s.
Proof.
  unfold noQuote, doubleQuotes. induction s as [|c r IH]; [reflexivity|].
  cbn [chars list_ascii_of_string replaceAll]. intros Hq.
  destruct (Ascii.eqb c JS.quote) eqn:Ec.
  - apply Ascii.eqb_eq in Ec. exfalso. apply Hq. left. exact Ec.
  - f_equal. apply IH. intros H. apply Hq. right. exact H.
Qed.

Lemma scanLine_quoted_plain (s : string) (res : list string) (cur : string) :
  noQuote s ->
  scanLine (chars s) {| result := res; current := cur; inQuotes := true |}
  = {| result := res; current := cur +++ s; inQuotes := true |}.
Proof.
  intros Hs. rewrite <- (doubleQuotes_plain s Hs) at 1.
  rewrite scanLine_quoted_id, (withoutQuotes_plain s Hs). reflexivity.
Qed.

Lemma parseCSVLine_exportRow (s : Sequence) :
  noQuote (statusLabel s) ->
  parseCSVLine (exportRow s)
  = [JS.trim (withoutQuotes (seq_id s)); JS.trim (statusLabel s)].
Proof.
  intros Hlabel. unfold parseCSVLine, exportRow.
  fold (chars (JS.dq +++ doubleQuotes (seq_id s) +++ JS.dq +++ "," +++ JS.dq
                +++ statusLabel s +++ JS.dq)).
  fold (scanLine
          (chars (JS.dq +++ doubleQuotes (seq_id s) +++ JS.dq +++ "," +++ JS.dq
                   +++ statusLabel s +++ JS.dq))
          {| result := []; current := ""; inQuotes := false |}).
  rewrite !chars_app, !scanLine_app.
  change (scanLine (chars JS.dq)
            {| result := []; current := ""; inQuotes := false |})
    with {| result := []; current := ""; inQuotes := true |}.
  rewrite scanLine_quoted_id.
  change ("" +++ withoutQuotes (seq_id s)) with (withoutQuotes (seq_id s)).
  change (scanLine (chars JS.dq)
            (scanLine (chars ",")
               (scanLine (chars JS.dq)
                  {| result := []; current := withoutQuotes (seq_id s);
                     inQuotes := true |})))
    with {| result := [] ++ [JS.trim (withoutQuotes (seq_id s))];
            current := ""; inQuotes := true |}.
  rewrite (scanLine_quoted_plain _ _ _ Hlabel).
  reflexivity.
Qed.

(** X8.  A row written by [exportAllToCSV] is read back by [parseCSVLine]
    as two fields, whatever commas and quotes the id holds: the id without
    its double quotes, trimmed, and the status label, trimmed (the label
    holds no double quote: it is not escaped).  An id without quotes and
    without white space at its ends comes back as it is. *)
Theorem exported_row_reads_back :
  forall s : Sequence,
    ~ In JS.quote (chars (statusLabel s)) ->
    parseCSVLine (exportRow s)
    = [JS.trim (withoutQuotes (seq_id s)); JS.trim (statusLabel s)] /\
    (~ In JS.quote (chars (seq_id s)) -> JS.trim (seq_id s) = seq_id s ->
     JS.trim (statusLabel s) = statusLabel s ->
     parseCSVLine (exportRow s) = [seq_id s; statusLabel s]).
Proof.
  intros s Hlabel. split; [exact (parseCSVLine_exportRow s Hlabel)|].
  intros Hid Htrim Hst.
  rewrite (parseCSVLine_exportRow s Hlabel).
  rewrite (withoutQuotes_plain _ Hid), Htrim, Hst. reflexivity.
Qed.

(** A sequence whose id holds a comma. *)
Definition doneWithComma : Sequence :=
  {| seq_id := "7,a"; seq_features := []; status := Some "done";
     date := "1/1/2026"; featureCount := 0; nodeCount := 0; wayCount := 0 |}.

Lemma exported_row_reads_back_witness :
  parseCSVLine (exportRow doneWithComma) = ["7,a"; "done"].
Proof.
  apply (proj2 (exported_row_reads_back doneWithComma
                  ltac:(vm_compute; intuition discriminate))).
  - vm_compute. intuition discriminate.
  - reflexivity.
  - reflexivity.
Defined.

(** *** The exported file is no input file *)

Lemma splitAux_first (sep : ascii) (s : string) :
  forall cur,
  exists more tl,
    JS.splitAux sep s cur
    = (string_of_list_ascii (rev cur) +++ more) :: tl.
Proof.
  induction s as [|c r IH]; intros cur; cbn [JS.splitAux].
  - exists "", []. rewrite append_empty_r. reflexivity.
  - destruct (Ascii.eqb c sep).
    + exists "", (JS.splitAux sep r []). rewrite append_empty_r.
      reflexivity.
    + destruct (IH (c :: cur)) as [more [tl ->]].
      exists (String c more), tl. cbn [rev].
      rewrite string_of_app, append_assoc. reflexivity.
Qed.

Lemma splitAux_line (sep : ascii) (head rest : string) :
  ~ In sep (chars head) ->
  forall cur,
    JS.splitAux sep (head +++ String sep rest) cur
    = (string_of_list_ascii (rev cur) +++ head) :: JS.splitAux sep rest [].
Proof.
  induction head as [|c r IH]; intros Hsep cur.
  - cbn [String.append JS.splitAux]. rewrite Ascii.eqb_refl, append_empty_r.
    reflexivity.
  - cbn [String.append JS.splitAux].
    destruct (Ascii.eqb c sep) eqn:Ec.
    + apply Ascii.eqb_eq in Ec. exfalso. apply Hsep. left. exact Ec.
    + rewrite IH by (intros H; apply Hsep; right; exact H).
      cbn [rev]. rewrite string_of_app, append_assoc. reflexivity.
Qed.

Lemma join_rows_head (s : Sequence) (rest : list Sequence) :
  exists t, join JS.nl (map exportRow (s :: rest)) = String JS.quote t.
Proof.
  cbn [map join]. destruct (map exportRow rest); eexists; reflexivity.
Qed.

Lemma quote_no_space : JS.isWhiteSpace JS.quote = false.
Proof. reflexivity. Qed.

Section ExportedFile.
Context {host : Host}.

Lemma csvLines_of_export (s : Sequence) (rest : list Sequence) :
  exists line2 tl,
    csvLines (join JS.nl ("Sequence ID,Status" :: map exportRow (s :: rest)))
    = "Sequence ID,Status" :: line2 :: tl.
Proof.
  destruct (join_rows_head s rest) as [t Ht].
  change (join JS.nl ("Sequence ID,Status" :: map exportRow (s :: rest)))
    with ("Sequence ID,Status" +++ JS.nl
            +++ join JS.nl (map exportRow (s :: rest))).
  rewrite Ht. unfold csvLines, JS.split.
  change ("Sequence ID,Status" +++ JS.nl +++ String JS.quote t)
    with ("Sequence ID,Status" +++ String JS.newline (String JS.quote t)).
  rewrite splitAux_line by (vm_compute; intuition discriminate).
  cbn [rev string_of_list_ascii String.append JS.splitAux].
  change (Ascii.eqb JS.quote JS.newline) with false. cbv iota.
  destruct (splitAux_first JS.newline t [JS.quote]) as [more [tl ->]].
  cbn [rev app string_of_list_ascii String.append filter].
  change (JS.nonEmpty (JS.trim "Sequence ID,Status")) with true. cbv iota.
  destruct (trim_keeps_head JS.quote more quote_no_space) as [t' ->].
  cbn [JS.nonEmpty]. eexists. eexists. reflexivity.
Qed.
End ExportedFile.

(** X9.  The file [exportAllToCSV] offers for download is not one that
    [parseCSVSync] reads: its header names no coordinate column, and the
    parser throws the error about the missing columns, whatever the
    sequences are. *)
Theorem exported_file_is_no_input :
  forall (host : Host) (this : TaskManager) (time : nat)
         (content filename : string),
    exportAllToCSV this time = GoesOn (content, filename) ->
    parseCSVSync content = Thrown noColumnsMessage.
Proof.
  intros host this time content filename. unfold exportAllToCSV.
  unfold getAllSequences.
  destruct (sequences this) as [|s rest]; [discriminate|].
  cbn [List.length Nat.eqb]. intros Hfile.
  assert (Hcontent : content
                     = join JS.nl
                         ("Sequence ID,Status" :: map exportRow (s :: rest)))
    by (injection Hfile as <- _; reflexivity).
  destruct (csvLines_of_export s rest) as [line2 [tl Hlines]].
  unfold parseCSVSync. rewrite Hcontent, Hlines.
  cbn [List.length Nat.ltb Nat.leb nth].
  replace (noCoordinateColumns (findColumns (parseCSVLine "Sequence ID,Status")))
    with true by (vm_compute; reflexivity).
  reflexivity.
Qed.

Lemma exported_file_is_no_input_witness :
  exists content filename,
    exportAllToCSV managerWithDoneA 0 = GoesOn (content, filename) /\
    parseCSVSync content = Thrown noColumnsMessage.
Proof.
  eexists. eexists. split; [reflexivity|].
  exact (exported_file_is_no_input SampleHost.host managerWithDoneA 0 _ _
           eq_refl).
Defined.

(** ** Navigation: tabs, previous and next, the summary

    The functions below end by drawing the page.  Drawing reads the state
    and, in the detailed view, may move [currentIndex]; that is what
    [renderCurrentTask] keeps here.  The flag that highlights the sequence
    navigated to ([navigatingToSequenceId]) is part of the page. *)

(** [this.sequences[index]]: [undefined] outside the array. *)
Definition sequenceAt (seqs : list Sequence) (index : Z) : option Sequence :=
  if (index <? 0)%Z then None else nth_error seqs (Z.to_nat index).

(** [seq => seq.id === id] *)
Definition hasId (id : string) (seq : Sequence) : bool :=
  String.eqb (seq_id seq) id.

(** [seq => seq.id === other?.id]; an id is never [undefined]. *)
Definition sameIdAs (other : option Sequence) (seq : Sequence) : bool :=
  match other with
  | Some o => hasId (seq_id o) seq
  | None => false
  end.

(** [seq => String(seq.id) === String(other?.id)] *)
Definition sameIdText (other : option Sequence) (seq : Sequence) : bool :=
  match other with
  | Some o => hasId (seq_id o) seq
  | None => hasId "undefined" seq
  end.

Definition withCurrentIndex (this : TaskManager) (index : Z) : TaskManager :=
  {| geojsonData := geojsonData this;
     sequences := sequences this;
     currentIndex := index;
     currentView := currentView this |}.

Definition withCurrentView (this : TaskManager) (view : string)
  : TaskManager :=
  {| geojsonData := geojsonData this;
     sequences := sequences this;
     currentIndex := currentIndex this;
     currentView := view |}.

(** [renderDetailedView], "Ensure current index is valid": when the current
    sequence is not an active one, the first active one becomes current. *)
Definition renderDetailedView (this : TaskManager) : TaskManager :=
  match getActiveSequences this with
  | [] => this
  | (firstSequence :: _) as viewSequences =>
      let currentSequence :=
        sequenceAt (sequences this) (currentIndex this) in
      let currentViewIndex :=
        findIndex (sameIdAs currentSequence) viewSequences in
      if (currentViewIndex <? 0)%Z
      then withCurrentIndex this
             (findIndex (hasId (seq_id firstSequence)) (sequences this))
      else this
  end.

(** [renderCurrentTask]: [renderAllTasksView] and [renderSimpleListView]
    only read the state. *)
Definition renderCurrentTask (this : TaskManager) : TaskManager :=
  if String.eqb (currentView this) "all" then this
  else if String.eqb (currentView this) "skipped"
          || String.eqb (currentView this) "done" then this
  else renderDetailedView this.

(** [switchView(view, targetSequenceId = null)] *)
Definition switchView (this : TaskManager) (view : string)
  (targetSequenceId : option string) : TaskManager :=
  let this1 := withCurrentView this view in
  let targetIndex :=
    match targetSequenceId with
    | Some id => findIndex (hasId id) (sequences this1)
    | None => (-1)%Z
    end in
  if (0 <=? targetIndex)%Z
  then renderCurrentTask (withCurrentIndex this1 targetIndex)
  else renderCurrentTask (resetToFirstInView this1).

(** [navigateToSequence] *)
Definition navigateToSequence (this : TaskManager) (sequenceId : string)
  : TaskManager :=
  match find (hasId sequenceId) (sequences this) with
  | None => this                   (* console.error(...); return; *)
  | Some sequence =>
      let targetView :=
        if hasStatus "done" sequence then "done"
        else if hasStatus "skipped" sequence then "skipped"
        else "active" in
      switchView this targetView (Some sequenceId)
  end.

(** [findNextActiveIndex] *)
Definition findNextActiveIndex (this : TaskManager) : TaskManager :=
  match getActiveSequences this with
  | [] => withCurrentIndex this 0
  | (firstActive :: _) as activeSequences =>
      let currentSequence :=
        sequenceAt (sequences this) (currentIndex this) in
      let currentActiveIndex :=
        findIndex (sameIdAs currentSequence) activeSequences in
      if (0 <=? currentActiveIndex)%Z
      then
        match sequenceAt activeSequences currentActiveIndex with
        | Some found =>
            withCurrentIndex this
              (findIndex (hasId (seq_id found)) (sequences this))
        | None => this             (* the index found is in the array *)
        end
      else withCurrentIndex this
             (findIndex (hasId (seq_id firstActive)) (sequences this))
  end.

(** [showPrevious] *)
Definition showPrevious (this : TaskManager) : TaskManager :=
  let viewSequences := getCurrentViewSequences this in
  if Nat.eqb (List.length viewSequences) 0 then this
  else
    let currentSequence := sequenceAt (sequences this) (currentIndex this) in
    let currentViewIndex :=
      findIndex (sameIdText currentSequence) viewSequences in
    if (0 <? currentViewIndex)%Z
    then
      match sequenceAt viewSequences (currentViewIndex - 1) with
      | Some prevSequence =>
          renderCurrentTask
            (withCurrentIndex this
               (findIndex (hasId (seq_id prevSequence)) (sequences this)))
      | None => this               (* the index is in the array *)
      end
    else this.

(** [showNext] *)
Definition showNext (this : TaskManager) : TaskManager :=
  let viewSequences := getCurrentViewSequences this in
  if Nat.eqb (List.length viewSequences) 0 then this
  else
    let currentSequence := sequenceAt (sequences this) (currentIndex this) in
    let currentViewIndex :=
      findIndex (sameIdText currentSequence) viewSequences in
    if (currentViewIndex <? Z.of_nat (List.length viewSequences) - 1)%Z
    then
      match sequenceAt viewSequences (currentViewIndex + 1) with
      | Some nextSequence =>
          renderCurrentTask
            (withCurrentIndex this
               (findIndex (hasId (seq_id nextSequence)) (sequences this)))
      | None => this               (* the index is in the array *)
      end
    else this.

(** What [updateSummary] writes: the four counts. *)
Record Summary : Type := {
  total : nat;
  active : nat;
  skipped : nat;
  done : nat
}.

Definition updateSummary (this : TaskManager) : Summary :=
  {| total := List.length (sequences this);
     active := List.length (filter isActive (sequences this));
     skipped := List.length (filter (hasStatus "skipped") (sequences this));
     done := List.length (filter (hasStatus "done") (sequences this)) |}.

(** [updateStatus] with the drawing at its end. *)
Definition updateStatus_drawn (this : TaskManager)
  (sequenceId newStatus : string) : TaskManager :=
  if existsb (hasId sequenceId) (sequences this)
  then renderCurrentTask (updateStatus this sequenceId newStatus)
  else this.

(** *** [findIndex] *)

Lemma findIndexFrom_found {A : Type} (p : A -> bool) (pre : list A) (x : A)
  (post : list A) (i : Z) :
  (forall y, In y pre -> p y = false) -> p x = true ->
  findIndexFrom p (pre ++ x :: post) i = (i + Z.of_nat (List.length pre))%Z.
Proof.
  revert i. induction pre as [|y pre IH]; intros i Hpre Hx.
  - cbn [app findIndexFrom List.length]. rewrite Hx. cbn. lia.
  - cbn [app findIndexFrom]. rewrite (Hpre y (or_introl eq_refl)).
    rewrite IH; [|intros z Hz; apply Hpre; right; exact Hz|exact Hx].
    cbn [List.length]. lia.
Qed.

Lemma findIndexFrom_none {A : Type} (p : A -> bool) (l : list A) (i : Z) :
  (forall y, In y l -> p y = false) -> findIndexFrom p l i = (-1)%Z.
Proof.
  revert i. induction l as [|y l IH]; intros i Hall; [reflexivity|].
  cbn [findIndexFrom]. rewrite (Hall y (or_introl eq_refl)).
  apply IH. intros z Hz. apply Hall. right. exact Hz.
Qed.

(** Either nothing matches, or the list splits at the first match. *)
Lemma findIndex_cases {A : Type} (p : A -> bool) (l : list A) :
  (findIndex p l = (-1)%Z /\ forall y, In y l -> p y = false) \/
  (exists pre x post,
      l = pre ++ x :: post /\ (forall y, In y pre -> p y = false) /\
      p x = true /\ findIndex p l = Z.of_nat (List.length pre)).
Proof.
  unfold findIndex. induction l as [|y l IH].
  - left. split; [reflexivity|intros y []].
  - destruct (p y) eqn:Ey.
    + right. exists [], y, l. repeat split; try assumption.
      * intros z [].
      * cbn [findIndexFrom]. rewrite Ey. reflexivity.
    + destruct IH as [[Hnone Hall]|[pre [x [post [-> [Hpre [Hx Hi]]]]]]].
      * left. split.
        -- apply findIndexFrom_none. intros z [<-|Hz]; [exact Ey|auto].
        -- intros z [<-|Hz]; [exact Ey|auto].
      * right. exists (y :: pre), x, post. repeat split; try assumption.
        -- intros z [<-|Hz]; [exact Ey|auto].
        -- apply (findIndexFrom_found p (y :: pre) x post 0); [|exact Hx].
           intros z [<-|Hz]; [exact Ey|auto].
Qed.

Lemma sequenceAt_middle (pre : list Sequence) (s : Sequence)
  (post : list Sequence) :
  sequenceAt (pre ++ s :: post) (Z.of_nat (List.length pre)) = Some s.
Proof.
  unfold sequenceAt.
  destruct (Z.ltb_spec (Z.of_nat (List.length pre)) 0) as [H|_]; [lia|].
  rewrite Nat2Z.id, nth_error_app2, Nat.sub_diag by lia. reflexivity.
Qed.

Lemma sequenceAt_In (l : list Sequence) (i : Z) (s : Sequence) :
  sequenceAt l i = Some s -> In s l.
Proof.
  unfold sequenceAt. destruct (i <? 0)%Z; [discriminate|].
  apply nth_error_In.
Qed.

Lemma sequenceAt_split (l : list Sequence) (i : Z) (s : Sequence) :
  sequenceAt l i = Some s ->
  exists pre post, l = pre ++ s :: post /\ i = Z.of_nat (List.length pre).
Proof.
  unfold sequenceAt. destruct (Z.ltb_spec i 0) as [_|Hi]; [discriminate|].
  intros H. destruct (nth_error_split _ _ H) as [pre [post [-> Hlen]]].
  exists pre, post. split; [reflexivity|]. lia.
Qed.

(** With distinct ids, looking a sequence of the list up by its id finds
    its place. *)
Lemma findIndex_of_member (pre : list Sequence) (s : Sequence)
  (post : list Sequence) :
  NoDup (map seq_id (pre ++ s :: post)) ->
  findIndex (hasId (seq_id s)) (pre ++ s :: post)
  = Z.of_nat (List.length pre).
Proof.
  intros Hnd. unfold findIndex.
  rewrite findIndexFrom_found; [reflexivity| |apply String.eqb_refl].
  intros y Hy. unfold hasId.
  destruct (String.eqb (seq_id y) (seq_id s)) eqn:E; [|reflexivity].
  apply String.eqb_eq in E. exfalso.
  rewrite map_app in Hnd. cbn [map] in Hnd.
  apply NoDup_remove_2 in Hnd. apply Hnd, in_or_app. left.
  rewrite <- E. apply in_map. exact Hy.
Qed.

Lemma NoDup_ids_filter (p : Sequence -> bool) (l : list Sequence) :
  NoDup (map seq_id l) -> NoDup (map seq_id (filter p l)).
Proof.
  induction l as [|x l IH]; intros Hnd; [constructor|].
  cbn [map] in Hnd. inversion Hnd as [|? ? Hnotin Hnd']; subst.
  cbn [filter]. destruct (p x); [|exact (IH Hnd')].
  cbn [map]. constructor; [|exact (IH Hnd')].
  intros Hin. apply Hnotin. apply in_map_iff in Hin as [y [Hy Hin]].
  apply filter_In in Hin as [Hin _]. rewrite <- Hy. apply in_map. exact Hin.
Qed.

(** *** Drawing after a reset changes nothing *)

Lemma findIndex_hasId_at (l : list Sequence) (id : string) :
  (exists s, In s l /\ seq_id s = id) ->
  exists found,
    sequenceAt l (findIndex (hasId id) l) = Some found /\ seq_id found = id.
Proof.
  intros [s [Hin Hid]].
  destruct (findIndex_cases (hasId id) l)
    as [[_ Hnone]|[pre [x [post [-> [_ [Hx ->]]]]]]].
  - specialize (Hnone s Hin). unfold hasId in Hnone.
    rewrite Hid, String.eqb_refl in Hnone. discriminate.
  - exists x. split; [apply sequenceAt_middle|].
    apply String.eqb_eq. exact Hx.
Qed.

Lemma findIndex_nonneg_of_member {A : Type} (p : A -> bool) (l : list A)
  (x : A) :
  In x l -> p x = true -> (0 <= findIndex p l)%Z.
Proof.
  intros Hin Hx.
  destruct (findIndex_cases p l) as [[_ Hnone]|[pre [y [post [_ [_ [_ ->]]]]]]].
  - rewrite (Hnone x Hin) in Hx. discriminate.
  - lia.
Qed.

(** A state whose current sequence has the id of a sequence of the active
    list is drawn without change. *)
Lemma renderDetailedView_same (this : TaskManager) (cur a : Sequence) :
  sequenceAt (sequences this) (currentIndex this) = Some cur ->
  In a (getActiveSequences this) -> seq_id a = seq_id cur ->
  renderDetailedView this = this.
Proof.
  intros Hcur Hin Hid. unfold renderDetailedView.
  destruct (getActiveSequences this) as [|f r] eqn:Eact; [reflexivity|].
  cbv zeta. rewrite Hcur.
  assert (Hpos : (0 <= findIndex (sameIdAs (Some cur)) (f :: r))%Z).
  { apply (findIndex_nonneg_of_member _ _ a Hin).
    unfold sameIdAs, hasId. rewrite Hid. apply String.eqb_refl. }
  destruct (Z.ltb_spec (findIndex (sameIdAs (Some cur)) (f :: r)) 0);
    [lia|reflexivity].
Qed.

Lemma renderCurrentTask_same (this : TaskManager) (cur a : Sequence) :
  sequenceAt (sequences this) (currentIndex this) = Some cur ->
  In a (getCurrentViewSequences this) -> seq_id a = seq_id cur ->
  renderCurrentTask this = this.
Proof.
  intros Hcur Hin Hid. unfold renderCurrentTask.
  unfold getCurrentViewSequences in Hin.
  destruct (String.eqb (currentView this) "all"); [reflexivity|].
  destruct (String.eqb (currentView this) "done");
    [rewrite orb_true_r; reflexivity|].
  destruct (String.eqb (currentView this) "skipped"); [reflexivity|].
  cbn [orb]. exact (renderDetailedView_same this cur a Hcur Hin Hid).
Qed.

Lemma renderCurrentTask_empty_view (this : TaskManager) :
  getCurrentViewSequences this = [] -> renderCurrentTask this = this.
Proof.
  intros Hview. unfold renderCurrentTask.
  unfold getCurrentViewSequences in Hview.
  destruct (String.eqb (currentView this) "all"); [reflexivity|].
  destruct (String.eqb (currentView this) "done");
    [rewrite orb_true_r; reflexivity|].
  destruct (String.eqb (currentView this) "skipped"); [reflexivity|].
  cbn [orb]. unfold renderDetailedView. rewrite Hview. reflexivity.
Qed.

Lemma view_incl (this : TaskManager) :
  incl (getCurrentViewSequences this) (sequences this).
Proof.
  rewrite getCurrentViewSequences_filter. intros s Hs.
  apply filter_In in Hs. tauto.
Qed.

Lemma resetToFirstInView_drawn (this : TaskManager) :
  renderCurrentTask (resetToFirstInView this) = resetToFirstInView this.
Proof.
  unfold resetToFirstInView.
  destruct (getCurrentViewSequences this) as [|f r] eqn:Eview.
  - apply renderCurrentTask_empty_view. exact Eview.
  - destruct (findIndex_hasId_at (sequences this) (seq_id f)) as [cur [Hat Hid]].
    { exists f. split; [|reflexivity]. apply view_incl. rewrite Eview.
      left. reflexivity. }
    apply (renderCurrentTask_same _ cur f).
    + exact Hat.
    + change (In f (getCurrentViewSequences this)). rewrite Eview.
      left. reflexivity.
    + symmetry. exact Hid.
Qed.

(** *** Drawing *)

Lemma renderDetailedView_fields (this : TaskManager) :
  sequences (renderDetailedView this) = sequences this /\
  currentView (renderDetailedView this) = currentView this /\
  geojsonData (renderDetailedView this) = geojsonData this.
Proof.
  unfold renderDetailedView.
  destruct (getActiveSequences this) as [|f r]; [repeat split|].
  cbv zeta. destruct (_ <? 0)%Z; repeat split.
Qed.

Lemma renderCurrentTask_fields (this : TaskManager) :
  sequences (renderCurrentTask this) = sequences this /\
  currentView (renderCurrentTask this) = currentView this /\
  geojsonData (renderCurrentTask this) = geojsonData this.
Proof.
  unfold renderCurrentTask.
  destruct (String.eqb (currentView this) "all"); [repeat split|].
  destruct (_ || _); [repeat split|]. apply renderDetailedView_fields.
Qed.

Lemma renderDetailedView_cases (this : TaskManager) :
  renderDetailedView this = this \/
  exists f r,
    getActiveSequences this = f :: r /\
    renderDetailedView this
    = withCurrentIndex this (findIndex (hasId (seq_id f)) (sequences this)).
Proof.
  unfold renderDetailedView.
  destruct (getActiveSequences this) as [|f r]; [left; reflexivity|].
  cbv zeta. destruct (_ <? 0)%Z; [right|left; reflexivity].
  exists f, r. split; reflexivity.
Qed.

(** Drawing the detailed view leaves a state that is drawn without
    change. *)
Lemma renderDetailedView_settles (this : TaskManager) :
  renderDetailedView (renderDetailedView this) = renderDetailedView this.
Proof.
  destruct (renderDetailedView_cases this) as [Hsame|[f [r [Eact Hmoved]]]].
  - rewrite Hsame. exact Hsame.
  - rewrite Hmoved.
    destruct (findIndex_hasId_at (sequences this) (seq_id f))
      as [cur [Hat Hid]].
    { exists f. split; [|reflexivity].
      assert (Hin : In f (getActiveSequences this))
        by (rewrite Eact; left; reflexivity).
      apply filter_In in Hin. tauto. }
    apply (renderDetailedView_same _ cur f).
    + exact Hat.
    + change (In f (getActiveSequences this)). rewrite Eact.
      left. reflexivity.
    + symmetry. exact Hid.
Qed.

Lemma renderCurrentTask_settles (this : TaskManager) :
  renderCurrentTask (renderCurrentTask this) = renderCurrentTask this.
Proof.
  unfold renderCurrentTask at 2.
  destruct (String.eqb (currentView this) "all") eqn:Eall.
  { unfold renderCurrentTask. rewrite Eall. reflexivity. }
  destruct (String.eqb (currentView this) "skipped"
            || String.eqb (currentView this) "done") eqn:Elist.
  { unfold renderCurrentTask. rewrite Eall, Elist. reflexivity. }
  pose proof (renderDetailedView_fields this) as [_ [Hview _]].
  unfold renderCurrentTask. rewrite Hview, Eall, Elist.
  apply renderDetailedView_settles.
Qed.

(** With distinct ids, the detailed view is drawn on an active sequence
    whenever there is one. *)
Lemma renderDetailedView_active (this : TaskManager) :
  NoDup (map seq_id (sequences this)) ->
  getActiveSequences this <> [] ->
  exists s,
    sequenceAt (sequences this) (currentIndex (renderDetailedView this))
    = Some s /\ isActive s = true.
Proof.
  intros Hnd Hactive. unfold renderDetailedView.
  destruct (getActiveSequences this) as [|f r] eqn:Eact; [congruence|].
  assert (Hsub : forall a, In a (f :: r) ->
                           In a (sequences this) /\ isActive a = true).
  { intros a Ha. rewrite <- Eact in Ha. apply filter_In in Ha. exact Ha. }
  cbv zeta.
  destruct (sequenceAt (sequences this) (currentIndex this)) as [cur|] eqn:Ecur.
  - destruct (findIndex_cases (sameIdAs (Some cur)) (f :: r))
      as [[Hnone _]|[pre [a [post [Hsplit [_ [Ha Hidx]]]]]]].
    + rewrite Hnone. cbn [Z.ltb Z.compare withCurrentIndex currentIndex].
      destruct (findIndex_hasId_at (sequences this) (seq_id f))
        as [x [Hat Hid]].
      { exists f. split; [|reflexivity]. apply Hsub. left. reflexivity. }
      exists x. split; [exact Hat|].
      assert (x = f) as ->.
      { apply (NoDup_map_eq seq_id (sequences this)); try assumption.
        - exact (sequenceAt_In _ _ _ Hat).
        - apply Hsub. left. reflexivity. }
      apply Hsub. left. reflexivity.
    + rewrite Hidx.
      destruct (Z.ltb_spec (Z.of_nat (List.length pre)) 0) as [H|_]; [lia|].
      exists cur. split; [exact Ecur|].
      assert (Hain : In a (f :: r))
        by (rewrite Hsplit; apply in_or_app; right; left; reflexivity).
      assert (cur = a) as ->.
      { apply (NoDup_map_eq seq_id (sequences this)); try assumption.
        - exact (sequenceAt_In _ _ _ Ecur).
        - apply Hsub. exact Hain.
        - symmetry. apply String.eqb_eq. exact Ha. }
      apply Hsub. exact Hain.
  - assert (Hnone : findIndex (sameIdAs None) (f :: r) = (-1)%Z)
      by (apply findIndexFrom_none; intros y _; reflexivity).
    rewrite Hnone. cbn [Z.ltb Z.compare withCurrentIndex currentIndex].
    destruct (findIndex_hasId_at (sequences this) (seq_id f))
      as [x [Hat Hid]].
    { exists f. split; [|reflexivity]. apply Hsub. left. reflexivity. }
    exists x. split; [exact Hat|].
    assert (x = f) as ->.
    { apply (NoDup_map_eq seq_id (sequences this)); try assumption.
      - exact (sequenceAt_In _ _ _ Hat).
      - apply Hsub. left. reflexivity. }
    apply Hsub. left. reflexivity.
Qed.

Lemma renderCurrentTask_withGeojsonData (this : TaskManager)
  (geojson : GeoJSON) :
  renderCurrentTask this = this ->
  renderCurrentTask (withGeojsonData this geojson)
  = withGeojsonData this geojson.
Proof.
  unfold renderCurrentTask. cbn [currentView withGeojsonData].
  destruct (String.eqb (currentView this) "all"); [reflexivity|].
  destruct (_ || _); [reflexivity|].
  unfold renderDetailedView.
  change (getActiveSequences (withGeojsonData this geojson))
    with (getActiveSequences this).
  cbn [sequences currentIndex withGeojsonData].
  destruct (getActiveSequences this) as [|f r]; [reflexivity|].
  cbv zeta. destruct (_ <? 0)%Z; [|reflexivity].
  intros H. apply (f_equal currentIndex) in H.
  cbn [currentIndex withCurrentIndex] in H.
  unfold withCurrentIndex, withGeojsonData. cbn. rewrite H. reflexivity.
Qed.

(** X10.  The drawing that ends [processGeoJSON] and
    [processGeoJSONAsync] finds the state as they left it: after the reset to
    the first sequence of the view, [renderCurrentTask] changes nothing.  In
    general it leaves the sequences, the view and the stored data alone and
    at most moves [currentIndex]; drawn twice is drawn once. *)
Theorem drawing_after_aggregation_changes_nothing :
  forall (host : Host) (this : TaskManager) (w : World)
         (feats : list Feature),
    (forall after w',
        processGeoJSON this w {| features := Some feats |}
        = Returned (after, w') ->
        renderCurrentTask after = after) /\
    (forall cb,
        let after :=
          fst (snd (processGeoJSONAsync this w {| features := Some feats |}
                      cb)) in
        renderCurrentTask after = after) /\
    sequences (renderCurrentTask this) = sequences this /\
    currentView (renderCurrentTask this) = currentView this /\
    geojsonData (renderCurrentTask this) = geojsonData this /\
    renderCurrentTask (renderCurrentTask this) = renderCurrentTask this.
Proof.
  intros host this w feats. split; [|split].
  - intros after w'. unfold processGeoJSON. cbn [features].
    destruct (JS.forEach feats _ _) as [m w1]. intros [= <- _].
    apply renderCurrentTask_withGeojsonData, resetToFirstInView_drawn.
  - intros cb. unfold processGeoJSONAsync. cbn [features fst snd].
    apply resetToFirstInView_drawn.
  - pose proof (renderCurrentTask_fields this) as [H1 [H2 H3]].
    repeat split; try assumption. apply renderCurrentTask_settles.
Qed.

(** X11.  With distinct ids and at least one active sequence, drawing the
    detailed view leaves the current sequence an active one, and
    [findNextActiveIndex] does what that drawing does: the index stays when
    its sequence is active, else it goes to the first active sequence.
    Without an active sequence [findNextActiveIndex] sets the index to 0. *)
Theorem index_is_repaired_to_an_active_sequence :
  forall this : TaskManager,
    NoDup (map seq_id (sequences this)) ->
    (getActiveSequences this <> [] ->
     findNextActiveIndex this = renderDetailedView this /\
     exists s,
       sequenceAt (sequences this) (currentIndex (renderDetailedView this))
       = Some s /\ isActive s = true) /\
    (getActiveSequences this = [] ->
     findNextActiveIndex this = withCurrentIndex this 0).
Proof.
  intros this Hnd. split.
  - intros Hactive. split; [|exact (renderDetailedView_active this Hnd Hactive)].
    unfold findNextActiveIndex, renderDetailedView.
    destruct (getActiveSequences this) as [|f r] eqn:Eact; [congruence|].
    assert (Hsub : forall a, In a (f :: r) -> In a (sequences this)).
    { intros a Ha. rewrite <- Eact in Ha. apply filter_In in Ha. tauto. }
    cbv zeta.
    destruct (findIndex_cases
                (sameIdAs (sequenceAt (sequences this) (currentIndex this)))
                (f :: r))
      as [[Hnone _]|[pre [a [post [Hsplit [_ [Ha Hidx]]]]]]].
    + rewrite Hnone. reflexivity.
    + rewrite Hidx, Hsplit, sequenceAt_middle.
      destruct (Z.leb_spec 0 (Z.of_nat (List.length pre))) as [_|H]; [|lia].
      destruct (Z.ltb_spec (Z.of_nat (List.length pre)) 0) as [H|_]; [lia|].
      destruct (sequenceAt (sequences this) (currentIndex this))
        as [cur|] eqn:Ecur; [|discriminate].
      assert (cur = a) as ->.
      { apply (NoDup_map_eq seq_id (sequences this)); try assumption.
        - exact (sequenceAt_In _ _ _ Ecur).
        - apply Hsub. rewrite Hsplit. apply in_or_app. right. left.
          reflexivity.
        - symmetry. apply String.eqb_eq. exact Ha. }
      destruct (sequenceAt_split _ _ _ Ecur) as [pre' [post' [Hl Hi]]].
      rewrite Hl in Hnd |- *. rewrite (findIndex_of_member _ _ _ Hnd).
      rewrite <- Hi. destruct this; reflexivity.
  - intros Hnone. unfold findNextActiveIndex. rewrite Hnone. reflexivity.
Qed.

(** Three sequences: done, active, active. *)
Definition activeB : Sequence :=
  {| seq_id := "B"; seq_features := []; status := Some "";
     date := "1/1/2026"; featureCount := 0; nodeCount := 0; wayCount := 0 |}.

Definition activeC : Sequence :=
  {| seq_id := "C"; seq_features := []; status := None;
     date := "1/1/2026"; featureCount := 0; nodeCount := 0; wayCount := 0 |}.

Definition threeTasks (view : string) (index : Z) : TaskManager :=
  {| geojsonData := None; sequences := [doneA; activeB; activeC];
     currentIndex := index; currentView := view |}.

Lemma threeTasks_ids (view : string) (index : Z) :
  NoDup (map seq_id (sequences (threeTasks view index))).
Proof.
  cbn. repeat constructor; cbn; intuition discriminate.
Qed.

Lemma index_is_repaired_witness :
  findNextActiveIndex (threeTasks "active" 0)
  = renderDetailedView (threeTasks "active" 0) /\
  currentIndex (renderDetailedView (threeTasks "active" 0)) = 1%Z.
Proof.
  split; [|reflexivity].
  apply (index_is_repaired_to_an_active_sequence (threeTasks "active" 0)
           (threeTasks_ids "active" 0)).
  discriminate.
Defined.

(** *** Previous and next *)

Lemma view_ids_NoDup (this : TaskManager) :
  NoDup (map seq_id (sequences this)) ->
  NoDup (map seq_id (getCurrentViewSequences this)).
Proof.
  rewrite getCurrentViewSequences_filter. apply NoDup_ids_filter.
Qed.

(** Going to a sequence of the view by its id: the index is its place, and
    the drawing leaves it there. *)
Lemma go_to_member_of_view (this : TaskManager) (u : Sequence) :
  NoDup (map seq_id (sequences this)) ->
  In u (getCurrentViewSequences this) ->
  let there :=
    withCurrentIndex this (findIndex (hasId (seq_id u)) (sequences this)) in
  renderCurrentTask there = there /\
  sequenceAt (sequences this) (currentIndex there) = Some u.
Proof.
  intros Hnd Hu there.
  destruct (findIndex_hasId_at (sequences this) (seq_id u)) as [x [Hat Hid]].
  { exists u. split; [exact (view_incl this u Hu)|reflexivity]. }
  assert (x = u) as ->.
  { apply (NoDup_map_eq seq_id (sequences this)); try assumption.
    - exact (sequenceAt_In _ _ _ Hat).
    - exact (view_incl this u Hu). }
  split; [|exact Hat].
  apply (renderCurrentTask_same there u u); [exact Hat|exact Hu|reflexivity].
Qed.

Lemma place_in_view (this : TaskManager) (pre : list Sequence)
  (s : Sequence) (post : list Sequence) :
  NoDup (map seq_id (sequences this)) ->
  getCurrentViewSequences this = pre ++ s :: post ->
  findIndex (sameIdText (Some s)) (getCurrentViewSequences this)
  = Z.of_nat (List.length pre).
Proof.
  intros Hnd Hview. pose proof (view_ids_NoDup this Hnd) as Hv.
  rewrite Hview in Hv |- *. exact (findIndex_of_member pre s post Hv).
Qed.

Lemma place_of_current (this : TaskManager) (s : Sequence) :
  NoDup (map seq_id (sequences this)) ->
  sequenceAt (sequences this) (currentIndex this) = Some s ->
  findIndex (hasId (seq_id s)) (sequences this) = currentIndex this.
Proof.
  intros Hnd Hcur.
  destruct (sequenceAt_split _ _ _ Hcur) as [pre [post [Hl Hi]]].
  rewrite Hl in Hnd |- *. rewrite (findIndex_of_member _ _ _ Hnd).
  symmetry. exact Hi.
Qed.

Lemma showNext_moves (this : TaskManager) (pre : list Sequence)
  (s t : Sequence) (post : list Sequence) :
  NoDup (map seq_id (sequences this)) ->
  sequenceAt (sequences this) (currentIndex this) = Some s ->
  getCurrentViewSequences this = pre ++ s :: t :: post ->
  showNext this
  = withCurrentIndex this (findIndex (hasId (seq_id t)) (sequences this)).
Proof.
  intros Hnd Hcur Hview. unfold showNext. cbv zeta.
  rewrite Hcur, (place_in_view this pre s (t :: post) Hnd Hview).
  rewrite Hview.
  assert (Hlen : List.length (pre ++ s :: t :: post)
                 = List.length pre + 2 + List.length post)
    by (rewrite length_app; cbn [List.length]; lia).
  rewrite Hlen.
  destruct (Nat.eqb_spec (List.length pre + 2 + List.length post) 0) as [H|_];
    [lia|].
  destruct (Z.ltb_spec (Z.of_nat (List.length pre))
              (Z.of_nat (List.length pre + 2 + List.length post) - 1))
    as [_|H]; [|lia].
  replace (pre ++ s :: t :: post) with ((pre ++ [s]) ++ t :: post)
    by (rewrite <- app_assoc; reflexivity).
  replace (Z.of_nat (List.length pre) + 1)%Z
    with (Z.of_nat (List.length (pre ++ [s])))
    by (rewrite length_app; cbn [List.length]; lia).
  rewrite sequenceAt_middle.
  apply (go_to_member_of_view this t Hnd).
  rewrite Hview. apply in_or_app. right. right. left. reflexivity.
Qed.

Lemma showPrevious_moves (this : TaskManager) (pre : list Sequence)
  (s t : Sequence) (post : list Sequence) :
  NoDup (map seq_id (sequences this)) ->
  sequenceAt (sequences this) (currentIndex this) = Some t ->
  getCurrentViewSequences this = pre ++ s :: t :: post ->
  showPrevious this
  = withCurrentIndex this (findIndex (hasId (seq_id s)) (sequences this)).
Proof.
  intros Hnd Hcur Hview. unfold showPrevious. cbv zeta.
  assert (Hview' : getCurrentViewSequences this = (pre ++ [s]) ++ t :: post)
    by (rewrite Hview, <- app_assoc; reflexivity).
  rewrite Hcur, (place_in_view this (pre ++ [s]) t post Hnd Hview').
  rewrite Hview.
  assert (Hlen : List.length (pre ++ s :: t :: post)
                 = List.length pre + 2 + List.length post)
    by (rewrite length_app; cbn [List.length]; lia).
  rewrite Hlen.
  destruct (Nat.eqb_spec (List.length pre + 2 + List.length post) 0) as [H|_];
    [lia|].
  rewrite length_app. cbn [List.length].
  destruct (Z.ltb_spec 0 (Z.of_nat (List.length pre + 1))) as [_|H]; [|lia].
  replace (Z.of_nat (List.length pre + 1) - 1)%Z
    with (Z.of_nat (List.length pre)) by lia.
  rewrite sequenceAt_middle.
  apply (go_to_member_of_view this s Hnd).
  rewrite Hview. apply in_or_app. right. left. reflexivity.
Qed.

(** X12.  With distinct ids, when the current sequence [s] is in the view
    and [t] follows it there, [showNext] makes [t] current and [showPrevious]
    then leads back to the state before. *)
Theorem showNext_then_showPrevious :
  forall (this : TaskManager) (pre : list Sequence) (s t : Sequence)
         (post : list Sequence),
    NoDup (map seq_id (sequences this)) ->
    sequenceAt (sequences this) (currentIndex this) = Some s ->
    getCurrentViewSequences this = pre ++ s :: t :: post ->
    sequenceAt (sequences (showNext this)) (currentIndex (showNext this))
    = Some t /\
    showPrevious (showNext this) = this.
Proof.
  intros this pre s t post Hnd Hcur Hview.
  assert (Ht : In t (getCurrentViewSequences this))
    by (rewrite Hview; apply in_or_app; right; right; left; reflexivity).
  destruct (go_to_member_of_view this t Hnd Ht) as [_ Hat].
  rewrite (showNext_moves this pre s t post Hnd Hcur Hview).
  split; [exact Hat|].
  rewrite (showPrevious_moves _ pre s t post); try assumption.
  cbn [sequences withCurrentIndex].
  rewrite (place_of_current this s Hnd Hcur). destruct this; reflexivity.
Qed.

Lemma showNext_then_showPrevious_witness :
  currentIndex (showNext (threeTasks "active" 1)) = 2%Z /\
  showPrevious (showNext (threeTasks "active" 1)) = threeTasks "active" 1.
Proof.
  destruct (showNext_then_showPrevious (threeTasks "active" 1) [] activeB
              activeC [] (threeTasks_ids "active" 1) eq_refl eq_refl)
    as [_ Hback].
  split; [reflexivity|exact Hback].
Defined.

(** X13.  At the ends: [showNext] on the last sequence of the view and
    [showPrevious] on the first change nothing, and neither does anything in
    an empty view.  When the current sequence is not in the view,
    [showPrevious] changes nothing and [showNext] goes to the first sequence
    of the view. *)
Theorem showNext_showPrevious_at_the_ends :
  forall this : TaskManager,
    NoDup (map seq_id (sequences this)) ->
    (getCurrentViewSequences this = [] ->
     showNext this = this /\ showPrevious this = this) /\
    (forall pre s,
        sequenceAt (sequences this) (currentIndex this) = Some s ->
        getCurrentViewSequences this = pre ++ [s] -> showNext this = this) /\
    (forall s post,
        sequenceAt (sequences this) (currentIndex this) = Some s ->
        getCurrentViewSequences this = s :: post ->
        showPrevious this = this) /\
    (forall first rest,
        getCurrentViewSequences this = first :: rest ->
        (forall v, In v (getCurrentViewSequences this) ->
                   sameIdText
                     (sequenceAt (sequences this) (currentIndex this)) v
                   = false) ->
        showPrevious this = this /\
        sequenceAt (sequences (showNext this)) (currentIndex (showNext this))
        = Some first).
Proof.
  intros this Hnd. split; [|split; [|split]].
  - intros Hview. unfold showNext, showPrevious. rewrite Hview.
    split; reflexivity.
  - intros pre s Hcur Hview. unfold showNext. cbv zeta.
    rewrite Hcur, (place_in_view this pre s [] Hnd Hview), Hview.
    rewrite length_app. cbn [List.length].
    destruct (Nat.eqb (List.length pre + 1) 0); [reflexivity|].
    destruct (Z.ltb_spec (Z.of_nat (List.length pre))
                (Z.of_nat (List.length pre + 1) - 1)) as [H|_]; [lia|].
    reflexivity.
  - intros s post Hcur Hview. unfold showPrevious. cbv zeta.
    rewrite Hcur, (place_in_view this [] s post Hnd Hview), Hview.
    cbn [List.length Nat.eqb Z.of_nat Z.ltb Z.compare]. reflexivity.
  - intros first rest Hview Hout.
    assert (Hidx : findIndex
                     (sameIdText
                        (sequenceAt (sequences this) (currentIndex this)))
                     (getCurrentViewSequences this) = (-1)%Z)
      by (apply findIndexFrom_none; exact Hout).
    split.
    + unfold showPrevious. cbv zeta. rewrite Hidx, Hview. reflexivity.
    + assert (Hfirst : In first (getCurrentViewSequences this))
        by (rewrite Hview; left; reflexivity).
      destruct (go_to_member_of_view this first Hnd Hfirst) as [Hdrawn Hat].
      unfold showNext. cbv zeta. rewrite Hidx, Hview.
      cbn [List.length Nat.eqb].
      destruct (Z.ltb_spec (-1) (Z.of_nat (S (List.length rest)) - 1))
        as [_|H]; [|lia].
      change (sequenceAt (first :: rest) (-1 + 1)) with (Some first).
      cbv beta iota. rewrite Hdrawn. exact Hat.
Qed.

Lemma showNext_showPrevious_at_the_ends_witness :
  showNext (threeTasks "active" 2) = threeTasks "active" 2 /\
  showPrevious (threeTasks "active" 1) = threeTasks "active" 1.
Proof.
  destruct (showNext_showPrevious_at_the_ends (threeTasks "active" 2)
              (threeTasks_ids "active" 2)) as [_ [Hlast _]].
  destruct (showNext_showPrevious_at_the_ends (threeTasks "active" 1)
              (threeTasks_ids "active" 1)) as [_ [_ [Hfirst _]]].
  split.
  - exact (Hlast [activeB] activeC eq_refl eq_refl).
  - exact (Hfirst activeB [activeC] eq_refl eq_refl).
Defined.

(** *** Navigating to a sequence *)

(** The statuses the page offers: blank, skipped and done. *)
Definition knownStatus (s : Sequence) : bool :=
  isActive s || hasStatus "skipped" s || hasStatus "done" s.

(** The tab [navigateToSequence] picks for a sequence. *)
Definition tabOf (s : Sequence) : string :=
  if hasStatus "done" s then "done"
  else if hasStatus "skipped" s then "skipped"
  else "active".

Lemma find_first {A : Type} (p : A -> bool) (l : list A) (x : A) :
  find p l = Some x ->
  exists pre post,
    l = pre ++ x :: post /\ (forall y, In y pre -> p y = false) /\
    p x = true.
Proof.
  induction l as [|y l IH]; [discriminate|]. cbn [find].
  destruct (p y) eqn:Ey.
  - intros [= ->]. exists [], l. repeat split; [intros z []|exact Ey].
  - intros H. destruct (IH H) as [pre [post [-> [Hpre Hx]]]].
    exists (y :: pre), post. repeat split; [|exact Hx].
    intros z [<-|Hz]; [exact Ey|auto].
Qed.

Lemma find_none {A : Type} (p : A -> bool) (l : list A) :
  (forall y, In y l -> p y = false) -> find p l = None.
Proof.
  induction l as [|y l IH]; intros Hall; [reflexivity|].
  cbn [find]. rewrite (Hall y (or_introl eq_refl)).
  apply IH. intros z Hz. apply Hall. right. exact Hz.
Qed.

Lemma tabOf_shows (s : Sequence) :
  knownStatus s = true -> viewPred (tabOf s) s = true.
Proof.
  unfold knownStatus, tabOf.
  destruct (hasStatus "done" s) eqn:Ed; [intros _; exact Ed|].
  destruct (hasStatus "skipped" s) eqn:Es; [intros _; exact Es|].
  rewrite !orb_false_r. intros Ha. exact Ha.
Qed.

(** X14.  [navigateToSequence] with an id no sequence has changes nothing.
    With the id of a sequence whose status is one the page offers (blank,
    skipped, done), it switches to the tab of that status and makes the first
    sequence with that id current; the sequence is in the view shown, and the
    sequences themselves are as before. *)
Theorem navigateToSequence_lands_on_the_sequence :
  forall (this : TaskManager) (sequenceId : string),
    ((forall s, In s (sequences this) -> seq_id s <> sequenceId) ->
     navigateToSequence this sequenceId = this) /\
    (forall s,
        find (hasId sequenceId) (sequences this) = Some s ->
        knownStatus s = true ->
        let after := navigateToSequence this sequenceId in
        sequences after = sequences this /\
        currentView after = tabOf s /\
        sequenceAt (sequences after) (currentIndex after) = Some s /\
        In s (getCurrentViewSequences after)).
Proof.
  intros this sequenceId. split.
  - intros Hnone. unfold navigateToSequence. rewrite find_none; [reflexivity|].
    intros y Hy. unfold hasId. apply String.eqb_neq. exact (Hnone y Hy).
  - intros s Hfind Hknown. cbv zeta. unfold navigateToSequence.
    rewrite Hfind. fold (tabOf s). unfold switchView. cbv zeta.
    cbn [sequences withCurrentView].
    destruct (find_first _ _ _ Hfind) as [pre [post [Hl [Hpre Hs]]]].
    assert (Hidx : findIndex (hasId sequenceId) (sequences this)
                   = Z.of_nat (List.length pre)).
    { unfold findIndex. rewrite Hl.
      rewrite (findIndexFrom_found _ pre s post 0 Hpre Hs). reflexivity. }
    rewrite Hidx.
    destruct (Z.leb_spec 0 (Z.of_nat (List.length pre))) as [_|H]; [|lia].
    set (there := withCurrentIndex (withCurrentView this (tabOf s))
                    (Z.of_nat (List.length pre))).
    assert (Hat : sequenceAt (sequences there) (currentIndex there) = Some s).
    { unfold there. cbn [sequences currentIndex withCurrentIndex
                         withCurrentView].
      rewrite Hl. apply sequenceAt_middle. }
    assert (Hin : In s (getCurrentViewSequences there)).
    { rewrite getCurrentViewSequences_filter. apply filter_In. split.
      - unfold there. cbn [sequences withCurrentIndex withCurrentView].
        rewrite Hl. apply in_or_app. right. left. reflexivity.
      - exact (tabOf_shows s Hknown). }
    rewrite (renderCurrentTask_same there s s Hat Hin eq_refl).
    repeat split; assumption.
Qed.

Lemma navigateToSequence_lands_witness :
  currentView (navigateToSequence (threeTasks "active" 1) "A") = "done" /\
  currentIndex (navigateToSequence (threeTasks "active" 1) "A") = 0%Z /\
  navigateToSequence (threeTasks "active" 1) "Z" = threeTasks "active" 1.
Proof.
  destruct (navigateToSequence_lands_on_the_sequence (threeTasks "active" 1)
              "A") as [_ Hfound].
  destruct (Hfound doneA eq_refl eq_refl) as [_ [Hview _]].
  split; [exact Hview|]. split; [reflexivity|].
  apply (navigateToSequence_lands_on_the_sequence (threeTasks "active" 1)
           "Z").
  cbn. intros s [<-|[<-|[<-|[]]]]; discriminate.
Defined.

(** *** The summary *)

Lemma length_filter_cons {A : Type} (p : A -> bool) (x : A) (l : list A) :
  List.length (filter p (x :: l))
  = Nat.b2n (p x) + List.length (filter p l).
Proof. cbn [filter]. destruct (p x); reflexivity. Qed.

(** A sequence is at most one of active, skipped and done. *)
Lemma status_kinds (s : Sequence) :
  Nat.b2n (isActive s) + Nat.b2n (hasStatus "skipped" s)
  + Nat.b2n (hasStatus "done" s)
  = Nat.b2n (knownStatus s).
Proof.
  unfold knownStatus, isActive, hasStatus.
  destruct (status s) as [st|]; [|reflexivity].
  destruct (String.eqb st "skipped") eqn:Es.
  { apply String.eqb_eq in Es. subst st. reflexivity. }
  destruct (String.eqb st "done") eqn:Ed.
  { apply String.eqb_eq in Ed. subst st. reflexivity. }
  rewrite !orb_false_r.
  destruct (negb (JS.nonEmpty st) || String.eqb st ""); reflexivity.
Qed.

Lemma status_counts (l : list Sequence) :
  List.length (filter isActive l)
  + List.length (filter (hasStatus "skipped") l)
  + List.length (filter (hasStatus "done") l)
  = List.length (filter knownStatus l).
Proof.
  induction l as [|s l IH]; [reflexivity|].
  rewrite !length_filter_cons, <- IH, <- status_kinds. lia.
Qed.

(** X15.  The counts of the summary never exceed the total: a sequence is
    counted as active, skipped or done, or, with any other status, in none of
    the three.  When every status is one the page offers, active, skipped and
    done add up to the total. *)
Theorem summary_counts_add_up :
  forall this : TaskManager,
    let summary := updateSummary this in
    active summary + skipped summary + done summary <= total summary /\
    ((forall s, In s (sequences this) -> knownStatus s = true) ->
     active summary + skipped summary + done summary = total summary).
Proof.
  intros this. cbv zeta. unfold updateSummary.
  cbn [active skipped done total]. rewrite status_counts. split.
  - apply filter_length_le.
  - intros Hall. f_equal. apply forallb_filter_id.
    apply forallb_forall. exact Hall.
Qed.

Lemma summary_counts_add_up_witness :
  updateSummary (threeTasks "all" 0)
  = {| total := 3; active := 2; skipped := 0; done := 1 |} /\
  2 + 0 + 1 = 3.
Proof.
  split; [reflexivity|].
  apply (proj2 (summary_counts_add_up (threeTasks "all" 0))).
  cbn. intros s [<-|[<-|[<-|[]]]]; reflexivity.
Defined.

(** *** [updateStatus], drawn *)

Lemma view_of_same (a b : TaskManager) :
  sequences a = sequences b -> currentView a = currentView b ->
  getCurrentViewSequences a = getCurrentViewSequences b.
Proof.
  intros Hs Hv. rewrite !getCurrentViewSequences_filter, Hs, Hv.
  reflexivity.
Qed.

Lemma view_drawn (this : TaskManager) :
  getCurrentViewSequences (renderCurrentTask this)
  = getCurrentViewSequences this.
Proof.
  pose proof (renderCurrentTask_fields this) as [Hs [Hv _]].
  apply view_of_same; assumption.
Qed.

(** X16.  [updateStatus] on the id of a sequence, with the drawing at its
    end: the sequences are those of the update and the view stays.  In the
    view of all tasks the index stays.  In another view, when the new status
    takes the sequence out of the view, the first sequence of the view
    becomes current; when that leaves the view empty, the index stays where
    it was.  (Ids are distinct.) *)
Theorem updateStatus_moves_on_when_the_task_leaves_the_view :
  forall (this : TaskManager) (sequenceId newStatus : string),
    NoDup (map seq_id (sequences this)) ->
    existsb (hasId sequenceId) (sequences this) = true ->
    let after := updateStatus_drawn this sequenceId newStatus in
    sequences after = setStatusOfFirst (sequences this) sequenceId newStatus /\
    currentView after = currentView this /\
    (currentView this = "all" -> currentIndex after = currentIndex this) /\
    (currentView this <> "all" ->
     (forall v, In v (getCurrentViewSequences after) ->
                seq_id v <> sequenceId) ->
     match getCurrentViewSequences after with
     | first :: _ =>
         sequenceAt (sequences after) (currentIndex after) = Some first
     | [] => currentIndex after = currentIndex this
     end).
Proof.
  intros this K st Hnd Hex after. subst after. unfold updateStatus_drawn.
  rewrite Hex.
  set (this1 := {| geojsonData := geojsonData this;
                   sequences := setStatusOfFirst (sequences this) K st;
                   currentIndex := currentIndex this;
                   currentView := currentView this |}).
  assert (Hnd1 : NoDup (map seq_id (sequences this1)))
    by (unfold this1; cbn [sequences]; rewrite setStatusOfFirst_ids;
        exact Hnd).
  assert (Hupdate :
            updateStatus this K st
            = if String.eqb (currentView this) "all" then this1
              else if negb (existsb (hasId K) (getCurrentViewSequences this1))
                      && negb (Nat.eqb (List.length
                                          (getCurrentViewSequences this1)) 0)
                   then resetToFirstInView this1
                   else this1).
  { unfold updateStatus. change (existsb _ (sequences this))
      with (existsb (hasId K) (sequences this)). rewrite Hex. reflexivity. }
  rewrite Hupdate. clear Hupdate.
  destruct (String.eqb (currentView this) "all") eqn:Eall.
  - assert (Hdrawn : renderCurrentTask this1 = this1).
    { unfold renderCurrentTask. unfold this1 at 1. cbn [currentView].
      rewrite Eall. reflexivity. }
    rewrite Hdrawn. repeat split.
    intros Hnot. apply String.eqb_eq in Eall. contradiction.
  - destruct (negb (existsb (hasId K) (getCurrentViewSequences this1))
              && negb (Nat.eqb (List.length (getCurrentViewSequences this1))
                               0)) eqn:Eleft.
    + rewrite resetToFirstInView_drawn, sequences_resetToFirstInView.
      split; [reflexivity|]. split.
      { unfold resetToFirstInView.
        destruct (getCurrentViewSequences this1); reflexivity. }
      split; [intros Hall; rewrite Hall in Eall; discriminate|].
      intros _ _.
      assert (Hview : getCurrentViewSequences (resetToFirstInView this1)
                      = getCurrentViewSequences this1).
      { apply view_of_same; [apply sequences_resetToFirstInView|].
        unfold resetToFirstInView.
        destruct (getCurrentViewSequences this1); reflexivity. }
      rewrite Hview. unfold resetToFirstInView.
      destruct (getCurrentViewSequences this1) as [|first rest] eqn:Ev.
      { apply andb_prop in Eleft as [_ Hlen]. discriminate. }
      cbn [sequences currentIndex].
      assert (Hfirst : In first (getCurrentViewSequences this1))
        by (rewrite Ev; left; reflexivity).
      exact (proj2 (go_to_member_of_view this1 first Hnd1 Hfirst)).
    + pose proof (renderCurrentTask_fields this1) as [Hs [Hv _]].
      split; [exact Hs|]. split; [exact Hv|].
      split; [intros Hall; rewrite Hall in Eall; discriminate|].
      intros _ Hgone. rewrite view_drawn in Hgone |- *.
      destruct (getCurrentViewSequences this1) as [|first rest] eqn:Ev.
      * rewrite (renderCurrentTask_empty_view this1 Ev). reflexivity.
      * exfalso. apply andb_false_iff in Eleft as [Hstill|Hlen];
          [|discriminate].
        apply negb_false_iff, existsb_exists in Hstill as [v [Hv1 Hv2]].
        apply (Hgone v Hv1). apply String.eqb_eq. exact Hv2.
Qed.

Lemma updateStatus_moves_on_witness :
  let after := updateStatus_drawn (threeTasks "active" 1) "B" "done" in
  sequenceAt (sequences after) (currentIndex after) = Some activeC.
Proof.
  destruct (updateStatus_moves_on_when_the_task_leaves_the_view
              (threeTasks "active" 1) "B" "done"
              (threeTasks_ids "active" 1) eq_refl) as [_ [_ [_ Hmoves]]].
  exact (Hmoves ltac:(discriminate)
                ltac:(cbn; intros v [<-|[]]; discriminate)).
Defined.

(** ** Aggregation: every feature under its key *)

Section Grouping.
Context {host : Host}.

(** The features with the keys the grouping loop derives for them, in the
    order of the input; [drawn] random identifiers were drawn before. *)
Fixpoint keyed (feats : list Feature) (drawn : nat)
  : list (string * Feature) :=
  match feats with
  | [] => []
  | feature :: rest =>
      let '(k, drawn') := sequenceIdOf feature drawn in
      (k, feature) :: keyed rest drawn'
  end.

(** The number of random identifiers drawn after the features. *)
Fixpoint drawnAfter (feats : list Feature) (drawn : nat) : nat :=
  match feats with
  | [] => drawn
  | feature :: rest => drawnAfter rest (snd (sequenceIdOf feature drawn))
  end.

(** The features filed under the key [k], in order. *)
Definition featuresOf (k : string) (kfs : list (string * Feature))
  : list Feature :=
  map snd (filter (fun kf => String.eqb (fst kf) k) kfs).

(** What holds of the state [after] an aggregation of [feats] that began
    in the world [w] and ended in [w']. *)
Definition filedUnderKeys (feats : list Feature) (w : World)
  (after : TaskManager) (w' : World) : Prop :=
  let kfs := keyed feats (draws w) in
  (forall s, In s (sequences after) ->
             seq_features s = featuresOf (seq_id s) kfs /\
             seq_features s <> [] /\
             featureCount s = List.length (seq_features s)) /\
  (forall k f, In (k, f) kfs ->
               exists s, In s (sequences after) /\ seq_id s = k) /\
  NoDup (map seq_id (sequences after)) /\
  draws w' = drawnAfter feats (draws w).

Lemma featuresOf_app (k : string) (a b : list (string * Feature)) :
  featuresOf k (a ++ b) = featuresOf k a ++ featuresOf k b.
Proof. unfold featuresOf. rewrite filter_app, map_app. reflexivity. Qed.

Lemma featuresOf_one_same (k : string) (f : Feature) :
  featuresOf k [(k, f)] = [f].
Proof. unfold featuresOf. cbn. rewrite String.eqb_refl. reflexivity. Qed.

Lemma featuresOf_one_other (k k' : string) (f : Feature) :
  k' <> k -> featuresOf k' [(k, f)] = [].
Proof.
  intros Hne. unfold featuresOf. cbn.
  destruct (String.eqb k k') eqn:E; [|reflexivity].
  apply String.eqb_eq in E. congruence.
Qed.

(** What the grouping loop keeps true of the groups, [kfs] being the keyed
    features seen so far: distinct keys, and under each key the group with
    that id and exactly the features of that key, which are some; no group
    under a key without features. *)
Definition filed (cm : JS.Map.t GroupCore) (kfs : list (string * Feature))
  : Prop :=
  NoDup (map fst cm) /\
  forall k,
    match JS.getProp cm k with
    | Some (i, fs, _) => i = k /\ fs = featuresOf k kfs /\ fs <> []
    | None => featuresOf k kfs = []
    end.

Lemma filed_empty : filed [] [].
Proof. split; [constructor|intros k; reflexivity]. Qed.

Lemma groupFeatureCore_filed (esm : JS.Map.t string) (feature : Feature)
  (cm : JS.Map.t GroupCore) (drawn : nat) (kfs : list (string * Feature)) :
  filed cm kfs ->
  filed (fst (groupFeatureCore esm feature (cm, drawn)))
        (kfs ++ [(fst (sequenceIdOf feature drawn), feature)]) /\
  snd (groupFeatureCore esm feature (cm, drawn))
  = snd (sequenceIdOf feature drawn).
Proof.
  intros [Hnd Hall]. unfold groupFeatureCore.
  destruct (sequenceIdOf feature drawn) as [k drawn'] eqn:Ekey.
  cbn [fst snd].
  set (cm1 := if negb (JS.Map.has cm k)
              then JS.Map.set cm k (k, [], statusFor esm k) else cm).
  assert (Hnd1 : NoDup (map fst cm1)).
  { unfold cm1. destruct (JS.Map.has cm k); cbn [negb]; [exact Hnd|].
    apply NoDup_keys_putProp. exact Hnd. }
  assert (Hget1 : exists st, JS.getProp cm1 k = Some (k, featuresOf k kfs, st)).
  { unfold cm1, JS.Map.has. specialize (Hall k).
    destruct (JS.getProp cm k) as [[[i fs] st]|] eqn:Eg; cbn [negb].
    - destruct Hall as [-> [-> _]]. exists st. exact Eg.
    - exists (statusFor esm k). unfold JS.Map.set.
      rewrite getProp_putProp_same, Hall. reflexivity. }
  assert (Hother : forall k', k' <> k -> JS.getProp cm1 k' = JS.getProp cm k').
  { intros k' Hne. unfold cm1. destruct (JS.Map.has cm k); cbn [negb];
      [reflexivity|]. apply getProp_putProp_other. exact Hne. }
  destruct Hget1 as [st Hget1]. unfold JS.Map.get. rewrite Hget1.
  cbn [fst snd]. split; [|reflexivity]. split.
  - apply NoDup_keys_putProp. exact Hnd1.
  - intros k'. unfold JS.Map.set. rewrite featuresOf_app.
    destruct (String.eqb k' k) eqn:E.
    + apply String.eqb_eq in E. subst k'.
      rewrite getProp_putProp_same, featuresOf_one_same.
      repeat split. intros H. destruct (featuresOf k kfs); discriminate.
    + apply String.eqb_neq in E.
      rewrite getProp_putProp_other, (Hother k' E) by exact E.
      rewrite (featuresOf_one_other k k' feature E), app_nil_r.
      exact (Hall k').
Qed.

Lemma forEach_groupFeatureCore_filed (esm : JS.Map.t string)
  (feats : list Feature) :
  forall (cm : JS.Map.t GroupCore) (drawn : nat)
         (kfs : list (string * Feature)),
    filed cm kfs ->
    filed (fst (JS.forEach feats (groupFeatureCore esm) (cm, drawn)))
          (kfs ++ keyed feats drawn) /\
    snd (JS.forEach feats (groupFeatureCore esm) (cm, drawn))
    = drawnAfter feats drawn.
Proof.
  unfold JS.forEach.
  induction feats as [|f feats IH]; intros cm drawn kfs Hfiled.
  - cbn [fold_left keyed drawnAfter fst snd]. rewrite app_nil_r.
    split; [exact Hfiled|reflexivity].
  - cbn [fold_left keyed drawnAfter].
    destruct (groupFeatureCore_filed esm f cm drawn kfs Hfiled)
      as [Hstep Hdrawn].
    destruct (groupFeatureCore esm f (cm, drawn)) as [cm' d'].
    cbn [fst snd] in Hstep, Hdrawn. subst d'.
    destruct (sequenceIdOf f drawn) as [k d1]. cbn [fst snd] in *.
    specialize (IH cm' d1 _ Hstep). rewrite <- app_assoc in IH. exact IH.
Qed.

Lemma calculateStats_features (feats : list Feature) :
  stats_features (calculateStats feats) = List.length feats.
Proof.
  unfold calculateStats.
  destruct (JS.forEach feats calculateStats_feature (0, 0)). reflexivity.
Qed.

(** The sequences made of groups that are filed. *)
Lemma sequences_of_filed (m : JS.Map.t Group) (kfs : list (string * Feature))
  (seqs : list Sequence) :
  filed (mapValues groupCore m) kfs ->
  Permutation seqs (map withStats (JS.Map.values m)) ->
  (forall s, In s seqs ->
             seq_features s = featuresOf (seq_id s) kfs /\
             seq_features s <> [] /\
             featureCount s = List.length (seq_features s)) /\
  (forall k f, In (k, f) kfs -> exists s, In s seqs /\ seq_id s = k) /\
  NoDup (map seq_id seqs).
Proof.
  intros [Hnd Hall] Hperm.
  assert (Hkeys : map fst (mapValues groupCore m) = map fst m)
    by (unfold mapValues; rewrite map_map; reflexivity).
  rewrite Hkeys in Hnd.
  assert (Hentry : forall k g, In (k, g) m ->
            group_id g = k /\ group_features g = featuresOf k kfs /\
            group_features g <> []).
  { intros k g Hin. specialize (Hall k).
    rewrite getProp_mapValues, (In_getProp m k g Hnd Hin) in Hall.
    exact Hall. }
  split; [|split].
  - intros s Hs. apply (Permutation_in _ Hperm) in Hs.
    apply in_map_iff in Hs as [g [<- Hg]].
    unfold JS.Map.values in Hg. apply in_map_iff in Hg as [[k g'] [Hk Hin]].
    cbn [snd] in Hk. subst g'.
    destruct (Hentry k g Hin) as [Hid [Hfs Hne]].
    cbn [withStats seq_features seq_id featureCount].
    rewrite Hid. repeat split; try assumption.
    apply calculateStats_features.
  - intros k f Hin. specialize (Hall k).
    assert (Hsome : featuresOf k kfs <> []).
    { unfold featuresOf. intros Hnil.
      assert (Hf : In f (map snd (filter (fun kf => String.eqb (fst kf) k)
                                         kfs))).
      { apply in_map_iff. exists (k, f). split; [reflexivity|].
        apply filter_In. split; [exact Hin|apply String.eqb_refl]. }
      rewrite Hnil in Hf. destruct Hf. }
    rewrite getProp_mapValues in Hall.
    destruct (JS.getProp m k) as [g|] eqn:Eg; [|contradiction].
    exists (withStats g). split.
    + apply (Permutation_in _ (Permutation_sym Hperm)).
      apply in_map. unfold JS.Map.values. apply in_map_iff.
      exists (k, g). split; [reflexivity|exact (getProp_In _ _ _ Eg)].
    + cbn [withStats seq_id].
      exact (proj1 (Hentry k g (getProp_In _ _ _ Eg))).
  - apply (Permutation_NoDup
             (l := map seq_id (map withStats (JS.Map.values m)))).
    + apply Permutation_map, Permutation_sym, Hperm.
    + unfold JS.Map.values. rewrite !map_map.
      erewrite map_ext_in; [exact Hnd|].
      intros [k g] Hin. cbn. exact (proj1 (Hentry k g Hin)).
Qed.

Lemma groupedSync_filed (this : TaskManager) (w : World)
  (feats : list Feature) :
  filed (mapValues groupCore (fst (groupedSync this w feats)))
        (keyed feats (draws w)) /\
  draws (snd (groupedSync this w feats)) = drawnAfter feats (draws w).
Proof.
  pose proof (forEach_groupFeature_core (existingStatuses (sequences this))
                feats ([], w)) as Hcore.
  destruct (forEach_groupFeatureCore_filed
              (existingStatuses (sequences this)) feats [] (draws w) []
              filed_empty) as [Hfiled Hdrawn].
  assert (Hm : mapValues groupCore (fst (groupedSync this w feats))
               = fst (JS.forEach feats
                        (groupFeatureCore (existingStatuses (sequences this)))
                        ([], draws w)))
    by exact (f_equal fst Hcore).
  assert (Hd : draws (snd (groupedSync this w feats))
               = snd (JS.forEach feats
                        (groupFeatureCore (existingStatuses (sequences this)))
                        ([], draws w)))
    by exact (f_equal snd Hcore).
  rewrite Hm, Hd. split; [exact Hfiled|exact Hdrawn].
Qed.

Lemma groupedAsync_filed (this : TaskManager) (w : World)
  (feats : list Feature) (cb : bool) :
  filed (mapValues groupCore (data (groupedAsync this w feats cb)))
        (keyed feats (draws w)) /\
  draws (world (groupedAsync this w feats cb)) = drawnAfter feats (draws w).
Proof.
  pose proof (groupedAsync_core this w feats cb) as Hcore.
  unfold stateCore in Hcore. cbn [fst snd] in Hcore.
  injection Hcore as Hm Hd. rewrite Hm, Hd. apply groupedSync_filed.
Qed.
End Grouping.

(** X17.  Both aggregation paths file every feature under its key: each
    sequence holds exactly the features whose derived key is its id, in the
    order of the input, and at least one; every feature's key is the id of a
    sequence; the ids are distinct; [featureCount] is the number of features
    of the sequence; and the random identifiers drawn are those of the key
    derivations, one after the other.  (The host's sort rearranges.) *)
Theorem aggregation_files_each_feature_under_its_key :
  forall (host : Host) (this : TaskManager) (w : World)
         (feats : list Feature) (progressCallback : bool),
    sortPermutes host ->
    (exists after w',
        processGeoJSON this w {| features := Some feats |}
        = Returned (after, w') /\ filedUnderKeys feats w after w') /\
    filedUnderKeys feats w
      (fst (snd (processGeoJSONAsync this w {| features := Some feats |}
                   progressCallback)))
      (snd (snd (processGeoJSONAsync this w {| features := Some feats |}
                   progressCallback))).
Proof.
  intros host this w feats cb Hperm. unfold filedUnderKeys. cbv zeta.
  split.
  - destruct (processGeoJSON_returns this w feats)
      as [after [Hret [Hseq _]]].
    exists after, (snd (groupedSync this w feats)). split; [exact Hret|].
    destruct (groupedSync_filed this w feats) as [Hfiled Hdrawn].
    destruct (sequences_of_filed _ (keyed feats (draws w)) (sequences after)
                Hfiled)
      as [H1 [H2 H3]].
    { rewrite Hseq. apply Hperm. }
    split; [exact H1|]. split; [exact H2|]. split; [exact H3|exact Hdrawn].
  - destruct (processGeoJSONAsync_result this w feats cb)
      as [Hseq [_ [_ [_ Hdraws]]]].
    destruct (groupedAsync_filed this w feats cb) as [Hfiled Hdrawn].
    destruct (sequences_of_filed _ (keyed feats (draws w))
                (sequences
                   (fst (snd (processGeoJSONAsync this w
                                {| features := Some feats |} cb))))
                Hfiled)
      as [H1 [H2 H3]].
    { rewrite Hseq. apply Hperm. }
    split; [exact H1|]. split; [exact H2|]. split; [exact H3|].
    rewrite Hdraws. exact Hdrawn.
Qed.

Lemma aggregation_files_each_feature_witness :
  exists after w',
    processGeoJSON managerWithDoneA startWorld
      {| features := Some [exampleFeatureA; exampleFeatureB] |}
    = Returned (after, w') /\
    NoDup (map seq_id (sequences after)) /\
    draws w' = 0.
Proof.
  destruct (aggregation_files_each_feature_under_its_key SampleHost.host
              managerWithDoneA startWorld [exampleFeatureA; exampleFeatureB]
              true sampleHost_sortPermutes)
    as [[after [w' [Hret [_ [_ [Hnd Hdraws]]]]]] _].
  exists after, w'. split; [exact Hret|]. split; [exact Hnd|exact Hdraws].
Defined.

(** ** Storage: what is saved, and what loading makes of it

    [storageManager] keeps two values in IndexedDB, the task data and the
    GeoJSON.  [saveToStorage] is the values it hands over; [loadFromStorage]
    is a function of the values it is handed back. *)

Record SavedSequence : Type := {
  saved_id : string;
  saved_status : option string
}.

(** The task data; a member is [None] when it is missing.  [savedSequences]
    is [None] also when the member is no array. *)
Record TaskData : Type := {
  savedSequences : option (list SavedSequence);
  savedIndex : option Z;
  savedView : option string
}.

(** [saveToStorage]: the argument of [saveTaskData], and that of
    [saveGeoJSONData], which is called when [this.geojsonData] is not
    [null]. *)
Definition saveToStorage (this : TaskManager) : TaskData * option GeoJSON :=
  ({| savedSequences :=
        Some (map (fun seq => {| saved_id := seq_id seq;
                                 saved_status := status seq |})
                  (sequences this));
      savedIndex := Some (currentIndex this);
      savedView := Some (currentView this) |},
   geojsonData this).

(** [savedStatusMap] *)
Definition savedStatuses (saved : list SavedSequence)
  : JS.Map.t (option string) :=
  JS.forEach saved
    (fun seq m => JS.Map.set m (saved_id seq) (saved_status seq)) [].

(** [status || ''] *)
Definition statusOrBlank (st : option string) : string :=
  match st with
  | Some st => if JS.nonEmpty st then st else ""
  | None => ""
  end.

(** [savedStatusMap.get(String(seq.id)) || ''] *)
Definition restoredStatus (savedStatusMap : JS.Map.t (option string))
  (id : string) : string :=
  match JS.Map.get savedStatusMap id with
  | Some st => statusOrBlank st
  | None => ""
  end.

Section Storage.
Context {host : Host}.

(** The body of the loop over the stored features: the grouping of
    [processGeoJSON] again, on entries [{id, features}]. *)
Definition regroupFeature (feature : Feature)
  (acc : JS.Map.t (string * list Feature) * nat)
  : JS.Map.t (string * list Feature) * nat :=
  let '(sequenceMap, drawn0) := acc in
  let '(sequenceId, drawn) := sequenceIdOf feature drawn0 in
  let sequenceMap1 :=
    if negb (JS.Map.has sequenceMap sequenceId)
    then JS.Map.set sequenceMap sequenceId (sequenceId, [])
    else sequenceMap in
  match JS.Map.get sequenceMap1 sequenceId with
  | Some (id, fs) =>
      (JS.Map.set sequenceMap1 sequenceId (id, fs ++ [feature]), drawn)
  | None => (sequenceMap1, drawn)
  end.

(** [{...seq, status, featureCount, nodeCount, wayCount, date}] *)
Definition restoredSequence (savedStatusMap : JS.Map.t (option string))
  (today : string) (seq : string * list Feature) : Sequence :=
  let '(id, fs) := seq in
  let stats := calculateStats fs in
  {| seq_id := id;
     seq_features := fs;
     status := Some (restoredStatus savedStatusMap id);
     date := today;
     featureCount := stats_features stats;
     nodeCount := stats_nodes stats;
     wayCount := stats_ways stats |}.

(** "No geojsonData available, just restore basic structure" *)
Definition basicSequence (today : string) (seq : SavedSequence) : Sequence :=
  {| seq_id := saved_id seq;
     seq_features := [];
     status := Some (statusOrBlank (saved_status seq));
     date := today;
     featureCount := 0;
     nodeCount := 0;
     wayCount := 0 |}.

(** [loadFromStorage], given what [loadTaskData] and [loadGeoJSONData]
    return.  The stored GeoJSON is one this program stored: its [features],
    when there, is an array. *)
Definition loadFromStorage (this : TaskManager) (w : World)
  (taskData : option TaskData) (stored : option GeoJSON)
  : TaskManager * World :=
  match taskData with
  | None => (this, w)
  | Some taskData =>
      match savedSequences taskData with
      | None =>
          ({| geojsonData := stored; sequences := sequences this;
              currentIndex := currentIndex this;
              currentView := currentView this |}, w)
      | Some saved =>
          let today := Date_toLocaleDateString (now w) in
          let '(seqs, w1) :=
            match stored with
            | Some {| features := Some feats |} =>
                let '(sequenceMap, drawn) :=
                  JS.forEach feats regroupFeature ([], draws w) in
                (Array_sort Sequence compareSequences
                   (map (restoredSequence (savedStatuses saved) today)
                        (JS.Map.values sequenceMap)),
                 {| draws := drawn; now := now w |})
            | _ => (map (basicSequence today) saved, w)
            end in
          let this1 :=
            {| geojsonData := stored;
               sequences := seqs;
               currentIndex :=
                 match savedIndex taskData with Some i => i | None => 0%Z end;
               currentView :=
                 match savedView taskData with
                 | Some v => if JS.nonEmpty v then v else "all"
                 | None => "all"
                 end |} in
          (if Nat.eqb (List.length seqs) 0 then this1
           else renderCurrentTask this1, w1)
      end
  end.

(** *** The regrouping is the grouping *)

Definition blankGroup (seq : string * list Feature) : GroupCore :=
  (fst seq, snd seq, "").

Lemma regroupFeature_core (feature : Feature)
  (acc : JS.Map.t (string * list Feature) * nat) :
  (mapValues blankGroup (fst (regroupFeature feature acc)),
   snd (regroupFeature feature acc))
  = groupFeatureCore [] feature (mapValues blankGroup (fst acc), snd acc).
Proof.
  destruct acc as [m d]. unfold regroupFeature, groupFeatureCore.
  cbn [fst snd].
  destruct (sequenceIdOf feature d) as [k drawn].
  rewrite has_mapValues.
  change (statusFor [] k) with "".
  assert (common : forall m1 : JS.Map.t (string * list Feature),
    (mapValues blankGroup
       (fst match JS.Map.get m1 k with
            | Some (id, fs) => (JS.Map.set m1 k (id, fs ++ [feature]), drawn)
            | None => (m1, drawn)
            end),
     snd match JS.Map.get m1 k with
         | Some (id, fs) => (JS.Map.set m1 k (id, fs ++ [feature]), drawn)
         | None => (m1, drawn)
         end)
    = match JS.Map.get (mapValues blankGroup m1) k with
      | Some (i, fs, st) =>
          (JS.Map.set (mapValues blankGroup m1) k (i, fs ++ [feature], st),
           drawn)
      | None => (mapValues blankGroup m1, drawn)
      end).
  { intros m1. unfold JS.Map.get. rewrite getProp_mapValues.
    destruct (JS.getProp m1 k) as [[id fs]|]; cbn [option_map fst snd].
    - unfold JS.Map.set, blankGroup at 2. cbn [fst snd].
      change (id, fs ++ [feature], "") with (blankGroup (id, fs ++ [feature])).
      rewrite putProp_mapValues. reflexivity.
    - reflexivity. }
  destruct (JS.Map.has m k); cbn [negb].
  - apply common.
  - rewrite common. unfold JS.Map.set at 3 4 5.
    change (k, @nil Feature, "") with (blankGroup (k, [])).
    rewrite !putProp_mapValues. reflexivity.
Qed.

Lemma forEach_regroupFeature_core (feats : list Feature) :
  forall acc : JS.Map.t (string * list Feature) * nat,
    (mapValues blankGroup (fst (JS.forEach feats regroupFeature acc)),
     snd (JS.forEach feats regroupFeature acc))
    = JS.forEach feats (groupFeatureCore [])
        (mapValues blankGroup (fst acc), snd acc).
Proof.
  unfold JS.forEach.
  induction feats as [|f feats IH]; intros acc; cbn [fold_left];
    [reflexivity|].
  rewrite IH, regroupFeature_core. reflexivity.
Qed.
End Storage.

Section StorageRoundTrip.
Context {host : Host}.

(** A feature whose key is read off its properties: deriving it draws no
    random identifier. *)
Definition hasOwnKey (feature : Feature) : Prop :=
  forall drawn, snd (sequenceIdOf feature drawn) = drawn.

(** What a sequence is after the state was saved and loaded at a time when
    the date reads [today]. *)
Definition reloaded (today : string) (s : Sequence) : Sequence :=
  {| seq_id := seq_id s;
     seq_features := seq_features s;
     status := Some (statusOrBlank (status s));
     date := today;
     featureCount := featureCount s;
     nodeCount := stats_nodes (calculateStats (seq_features s));
     wayCount := stats_ways (calculateStats (seq_features s)) |}.

Lemma sequenceIdOf_own_key (feature : Feature) (d d' : nat) :
  snd (sequenceIdOf feature d) = d ->
  sequenceIdOf feature d' = (fst (sequenceIdOf feature d), d').
Proof.
  unfold sequenceIdOf. cbv zeta.
  destruct (JS.truthy _); [reflexivity|].
  destruct (JS.truthy _); [reflexivity|].
  cbn [snd]. intros H. exfalso. exact (Nat.neq_succ_diag_l d H).
Qed.

Lemma keyed_own_keys (feats : list Feature) :
  (forall f, In f feats -> hasOwnKey f) ->
  forall d d', keyed feats d = keyed feats d' /\ drawnAfter feats d = d.
Proof.
  induction feats as [|f feats IH]; intros Hown d d'; [split; reflexivity|].
  cbn [keyed drawnAfter].
  assert (Hf : hasOwnKey f) by (apply Hown; left; reflexivity).
  rewrite (sequenceIdOf_own_key f 0 d (Hf 0)).
  rewrite (sequenceIdOf_own_key f 0 d' (Hf 0)). cbn [snd].
  destruct (IH (fun g Hg => Hown g (or_intror Hg)) d d') as [Hk Hd].
  rewrite Hk, Hd. split; reflexivity.
Qed.

Definition saved (s : Sequence) : SavedSequence :=
  {| saved_id := seq_id s; saved_status := status s |}.

Definition recordSaved (seq : SavedSequence) (m : JS.Map.t (option string))
  : JS.Map.t (option string) :=
  JS.Map.set m (saved_id seq) (saved_status seq).

Lemma savedStatuses_other (seqs : list Sequence)
  (m0 : JS.Map.t (option string)) (k : string) :
  (forall s, In s seqs -> seq_id s <> k) ->
  JS.Map.get (JS.forEach (map saved seqs) recordSaved m0) k = JS.Map.get m0 k.
Proof.
  unfold JS.forEach. revert m0.
  induction seqs as [|s seqs IH]; intros m0 Hne; cbn [map fold_left];
    [reflexivity|].
  rewrite IH by (intros s' Hs'; apply Hne; right; exact Hs').
  unfold recordSaved, saved. cbn [saved_id saved_status].
  apply getProp_putProp_other. intros ->. apply (Hne s); [left|]; reflexivity.
Qed.

Lemma savedStatuses_found (seqs : list Sequence)
  (m0 : JS.Map.t (option string)) (s : Sequence) :
  NoDup (map seq_id seqs) -> In s seqs ->
  JS.Map.get (JS.forEach (map saved seqs) recordSaved m0) (seq_id s)
  = Some (status s).
Proof.
  unfold JS.forEach. revert m0.
  induction seqs as [|s0 seqs IH]; intros m0 Hnd Hin; cbn [map fold_left];
    [destruct Hin|].
  inversion Hnd as [|? ? Hnotin Hnd']; subst.
  destruct Hin as [->|Hin].
  - fold (JS.forEach (map saved seqs) recordSaved (recordSaved (saved s) m0)).
    rewrite savedStatuses_other.
    + unfold recordSaved, saved. cbn [saved_id saved_status].
      apply getProp_putProp_same.
    + intros s' Hs' Heq. apply Hnotin. rewrite <- Heq.
      apply in_map. exact Hs'.
  - apply IH; assumption.
Qed.

Lemma restoredStatus_saved (seqs : list Sequence) (s : Sequence) :
  NoDup (map seq_id seqs) -> In s seqs ->
  restoredStatus (savedStatuses (map saved seqs)) (seq_id s)
  = statusOrBlank (status s).
Proof.
  intros Hnd Hin. unfold restoredStatus, savedStatuses.
  change (fun seq m => JS.Map.set m (saved_id seq) (saved_status seq))
    with recordSaved.
  rewrite (savedStatuses_found seqs [] s Hnd Hin). reflexivity.
Qed.

Lemma featuresOf_member (k : string) (f : Feature)
  (kfs : list (string * Feature)) :
  In (k, f) kfs -> In f (featuresOf k kfs).
Proof.
  intros Hin. unfold featuresOf. apply in_map_iff. exists (k, f).
  split; [reflexivity|].
  apply filter_In. split; [exact Hin|apply String.eqb_refl].
Qed.

Lemma featuresOf_some (k : string) (kfs : list (string * Feature)) :
  featuresOf k kfs <> [] -> exists f, In (k, f) kfs.
Proof.
  unfold featuresOf. intros Hne.
  destruct (filter (fun kf => String.eqb (fst kf) k) kfs) as [|[k' f] r] eqn:E;
    [contradiction|].
  assert (Hin : In (k', f) (filter (fun kf => String.eqb (fst kf) k) kfs))
    by (rewrite E; left; reflexivity).
  apply filter_In in Hin as [Hin Hk]. cbn [fst] in Hk.
  apply String.eqb_eq in Hk. subst k'. exists f. exact Hin.
Qed.

(** The regrouped entries, read through the invariant of the grouping. *)
Lemma regrouped_entries (feats : list Feature) (d : nat) :
  let m := fst (JS.forEach feats regroupFeature ([], d)) in
  NoDup (map fst m) /\
  (forall k id fs, In (k, (id, fs)) m ->
     id = k /\ fs = featuresOf k (keyed feats d) /\ fs <> []) /\
  (forall k, featuresOf k (keyed feats d) <> [] ->
     In (k, (k, featuresOf k (keyed feats d))) m) /\
  snd (JS.forEach feats regroupFeature ([], d)) = drawnAfter feats d.
Proof.
  cbv zeta.
  pose proof (forEach_regroupFeature_core feats ([], d)) as Hcore.
  cbn [fst snd mapValues map] in Hcore.
  destruct (forEach_groupFeatureCore_filed [] feats [] d [] filed_empty)
    as [Hfiled Hdrawn].
  set (m := fst (JS.forEach feats regroupFeature ([], d))) in *.
  assert (Hm : mapValues blankGroup m
               = fst (JS.forEach feats (groupFeatureCore []) ([], d)))
    by exact (f_equal fst Hcore).
  assert (Hd : snd (JS.forEach feats regroupFeature ([], d))
               = snd (JS.forEach feats (groupFeatureCore []) ([], d)))
    by exact (f_equal snd Hcore).
  assert (Hfiled' : filed (mapValues blankGroup m) (keyed feats d))
    by (rewrite Hm; exact Hfiled).
  destruct Hfiled' as [Hnd Hall].
  assert (Hkeys : map fst (mapValues blankGroup m) = map fst m)
    by (unfold mapValues; rewrite map_map; reflexivity).
  rewrite Hkeys in Hnd.
  split; [exact Hnd|]. split; [|split].
  - intros k id fs Hin. specialize (Hall k).
    rewrite getProp_mapValues, (In_getProp m k (id, fs) Hnd Hin) in Hall.
    exact Hall.
  - intros k Hne. specialize (Hall k). rewrite getProp_mapValues in Hall.
    destruct (JS.getProp m k) as [[id fs]|] eqn:Eg; [|contradiction].
    cbn [option_map blankGroup fst snd] in Hall.
    destruct Hall as [-> [-> _]]. exact (getProp_In _ _ _ Eg).
  - rewrite Hd. exact Hdrawn.
Qed.

Lemma loaded_sequences (this : TaskManager) (feats : list Feature)
  (w0 w0' w : World) (today : string) (seqs : list Sequence) :
  (forall f, In f feats -> hasOwnKey f) ->
  filedUnderKeys feats w0 this w0' ->
  Permutation seqs
    (map (restoredSequence (savedStatuses (map saved (sequences this))) today)
         (JS.Map.values (fst (JS.forEach feats regroupFeature ([], draws w)))))
  ->
  Permutation seqs (map (reloaded today) (sequences this)).
Proof.
  intros Hown [Hseqs [Hcover [Hnd _]]] Hperm.
  destruct (regrouped_entries feats (draws w)) as [Hkeys [Hentry [Hthere _]]].
  rewrite (proj1 (keyed_own_keys feats Hown (draws w) (draws w0)))
    in Hentry, Hthere.
  set (kfs := keyed feats (draws w0)) in *.
  set (m := fst (JS.forEach feats regroupFeature ([], draws w))) in *.
  set (restore := restoredSequence
                    (savedStatuses (map saved (sequences this))) today) in *.
  assert (Hrestore : forall s, In s (sequences this) ->
            restore (seq_id s, seq_features s) = reloaded today s).
  { intros s Hs. destruct (Hseqs s Hs) as [_ [_ Hcount]].
    unfold restore, restoredSequence, reloaded.
    rewrite (restoredStatus_saved (sequences this) s Hnd Hs).
    rewrite calculateStats_features, Hcount. reflexivity. }
  apply (Permutation_trans Hperm).
  apply NoDup_Permutation.
  - apply (NoDup_map_inv seq_id). unfold JS.Map.values. rewrite !map_map.
    erewrite map_ext_in; [exact Hkeys|].
    intros [k [id fs]] Hin. cbn [snd fst]. unfold restore.
    cbn [restoredSequence seq_id].
    exact (proj1 (Hentry k id fs Hin)).
  - apply (NoDup_map_inv seq_id). rewrite map_map. exact Hnd.
  - intros s'. split.
    + intros Hin. apply in_map_iff in Hin as [[id fs] [<- Hin]].
      unfold JS.Map.values in Hin.
      apply in_map_iff in Hin as [[k g] [Hg Hin]]. cbn [snd] in Hg. subst g.
      destruct (Hentry k id fs Hin) as [-> [Hfs Hne]].
      destruct (featuresOf_some k kfs) as [f Hf]; [rewrite <- Hfs; exact Hne|].
      destruct (Hcover k f Hf) as [s [Hs Hid]].
      apply in_map_iff. exists s. split; [|exact Hs].
      rewrite <- (Hrestore s Hs).
      rewrite (proj1 (Hseqs s Hs)), Hid, <- Hfs. reflexivity.
    + intros Hin. apply in_map_iff in Hin as [s [<- Hs]].
      rewrite <- (Hrestore s Hs).
      apply in_map. unfold JS.Map.values. apply in_map_iff.
      exists (seq_id s, (seq_id s, seq_features s)). split; [reflexivity|].
      destruct (Hseqs s Hs) as [Hfs [Hne _]].
      rewrite Hfs. apply Hthere. rewrite <- Hfs. exact Hne.
Qed.
End StorageRoundTrip.

Section LoadedState.
Context {host : Host}.

Lemma loadFromStorage_with_features (this : TaskManager) (w : World)
  (taskData : TaskData) (savedSeqs : list SavedSequence)
  (feats : list Feature) :
  savedSequences taskData = Some savedSeqs ->
  let result :=
    loadFromStorage this w (Some taskData)
      (Some {| features := Some feats |}) in
  let regrouped := JS.forEach feats regroupFeature ([], draws w) in
  sequences (fst result)
  = Array_sort Sequence compareSequences
      (map (restoredSequence (savedStatuses savedSeqs)
              (Date_toLocaleDateString (now w)))
           (JS.Map.values (fst regrouped))) /\
  geojsonData (fst result) = Some {| features := Some feats |} /\
  currentView (fst result)
  = match savedView taskData with
    | Some v => if JS.nonEmpty v then v else "all"
    | None => "all"
    end /\
  snd result = {| draws := snd regrouped; now := now w |}.
Proof.
  intros Hsaved. cbv zeta. unfold loadFromStorage. rewrite Hsaved.
  destruct (JS.forEach feats regroupFeature ([], draws w)) as [m drawn].
  cbn [fst snd].
  destruct (Nat.eqb _ 0).
  - cbn [sequences geojsonData currentView]. repeat split.
  - destruct (renderCurrentTask_fields
                {| geojsonData := Some {| features := Some feats |};
                   sequences :=
                     Array_sort Sequence compareSequences
                       (map (restoredSequence (savedStatuses savedSeqs)
                               (Date_toLocaleDateString (now w)))
                            (JS.Map.values m));
                   currentIndex :=
                     match savedIndex taskData with
                     | Some i => i
                     | None => 0%Z
                     end;
                   currentView :=
                     match savedView taskData with
                     | Some v => if JS.nonEmpty v then v else "all"
                     | None => "all"
                     end |}) as [Hs [Hv Hg]].
    rewrite Hs, Hv, Hg. cbn [sequences geojsonData currentView].
    repeat split.
Qed.
End LoadedState.

(** X18.  What [saveToStorage] hands to the store, [loadFromStorage] makes
    the same tasks of: when the GeoJSON of the state holds a feature list
    whose features all have a key of their own, and the sequences of the
    state are those features filed under their keys, then the sequences
    loaded are, up to their order, the sequences saved, each with its id,
    features and [featureCount], its status ([undefined] read as blank),
    the date of the loading and the node and way counts of its features;
    the GeoJSON and the view are those saved, and no random identifier is
    drawn.  (The host's sort rearranges.) *)
Theorem saved_state_is_loaded_back :
  forall (host : Host) (this fresh : TaskManager) (feats : list Feature)
         (w0 w0' w : World),
    sortPermutes host ->
    geojsonData this = Some {| features := Some feats |} ->
    (forall f, In f feats -> hasOwnKey f) ->
    filedUnderKeys feats w0 this w0' ->
    let result :=
      loadFromStorage fresh w (Some (fst (saveToStorage this)))
        (snd (saveToStorage this)) in
    Permutation (sequences (fst result))
      (map (reloaded (Date_toLocaleDateString (now w))) (sequences this)) /\
    geojsonData (fst result) = geojsonData this /\
    currentView (fst result)
    = (if JS.nonEmpty (currentView this) then currentView this else "all") /\
    snd result = w.
Proof.
  intros host this fresh feats w0 w0' w Hsort Hgeo Hown Hfiled. cbv zeta.
  unfold saveToStorage. cbn [fst snd]. rewrite Hgeo.
  destruct (loadFromStorage_with_features fresh w
              {| savedSequences :=
                   Some (map (fun seq => {| saved_id := seq_id seq;
                                            saved_status := status seq |})
                             (sequences this));
                 savedIndex := Some (currentIndex this);
                 savedView := Some (currentView this) |}
              _ feats eq_refl) as [Hseqs [Hg [Hview Hworld]]].
  split; [|split; [exact Hg|split; [exact Hview|]]].
  - apply (loaded_sequences this feats w0 w0' w _ _ Hown Hfiled).
    rewrite Hseqs. apply Hsort.
  - rewrite Hworld.
    rewrite (proj2 (proj2 (proj2 (regrouped_entries feats (draws w))))).
    rewrite (proj2 (keyed_own_keys feats Hown (draws w) 0)).
    destruct w; reflexivity.
Qed.

(** X19.  Whatever task data is stored, as long as its [sequences] is an
    array: with a stored GeoJSON that has a feature list, the sequences
    [loadFromStorage] builds are the stored features filed under their keys
    (ids, features and counts come from the GeoJSON, not from the task
    data), and every one has a status that is a string: the one saved under
    its id, or blank.  (The host's sort rearranges.) *)
Theorem loadFromStorage_files_the_stored_features :
  forall (host : Host) (this : TaskManager) (w : World) (taskData : TaskData)
         (savedSeqs : list SavedSequence) (feats : list Feature),
    sortPermutes host ->
    savedSequences taskData = Some savedSeqs ->
    let result :=
      loadFromStorage this w (Some taskData)
        (Some {| features := Some feats |}) in
    filedUnderKeys feats w (fst result) (snd result) /\
    forall s, In s (sequences (fst result)) ->
      status s = Some (restoredStatus (savedStatuses savedSeqs) (seq_id s)).
Proof.
  intros host this w taskData savedSeqs feats Hsort Hsaved. cbv zeta.
  destruct (loadFromStorage_with_features this w taskData savedSeqs feats
              Hsaved) as [Hseqs [_ [_ Hworld]]].
  destruct (regrouped_entries feats (draws w))
    as [Hkeys [Hentry [Hthere Hdrawn]]].
  set (result := loadFromStorage this w (Some taskData)
                   (Some {| features := Some feats |})) in *.
  set (m := fst (JS.forEach feats regroupFeature ([], draws w))) in *.
  set (restore := restoredSequence (savedStatuses savedSeqs)
                    (Date_toLocaleDateString (now w))) in *.
  assert (Hperm : Permutation (sequences (fst result))
                    (map restore (JS.Map.values m)))
    by (rewrite Hseqs; apply Hsort).
  assert (Hfrom : forall s, In s (sequences (fst result)) ->
            exists k fs, In (k, (k, fs)) m /\ s = restore (k, fs)).
  { intros s Hs. apply (Permutation_in _ Hperm) in Hs.
    apply in_map_iff in Hs as [[id fs] [<- Hin]].
    unfold JS.Map.values in Hin.
    apply in_map_iff in Hin as [[k g] [Hg Hin]]. cbn [snd] in Hg. subst g.
    destruct (Hentry k id fs Hin) as [-> _]. exists k, fs.
    split; [exact Hin|reflexivity]. }
  split; [unfold filedUnderKeys; cbv zeta; split; [|split; [|split]]|].
  - intros s Hs. destruct (Hfrom s Hs) as [k [fs [Hin ->]]].
    destruct (Hentry k k fs Hin) as [_ [Hfs Hne]].
    unfold restore. cbn [restoredSequence seq_features seq_id featureCount].
    split; [exact Hfs|]. split; [exact Hne|apply calculateStats_features].
  - intros k f Hin.
    assert (Hne : featuresOf k (keyed feats (draws w)) <> []).
    { intros Hnil. pose proof (featuresOf_member k f _ Hin) as Hf.
      rewrite Hnil in Hf. destruct Hf. }
    exists (restore (k, featuresOf k (keyed feats (draws w)))).
    split; [|reflexivity].
    apply (Permutation_in _ (Permutation_sym Hperm)).
    apply in_map. unfold JS.Map.values. apply in_map_iff.
    exists (k, (k, featuresOf k (keyed feats (draws w)))).
    split; [reflexivity|exact (Hthere k Hne)].
  - apply (Permutation_NoDup
             (l := map seq_id (map restore (JS.Map.values m)))).
    + apply Permutation_map, Permutation_sym, Hperm.
    + unfold JS.Map.values. rewrite !map_map.
      erewrite map_ext_in; [exact Hkeys|].
      intros [k [id fs]] Hin. cbn [snd fst]. unfold restore.
      cbn [restoredSequence seq_id].
      exact (proj1 (Hentry k id fs Hin)).
  - rewrite Hworld. cbn [draws]. exact Hdrawn.
  - intros s Hs. destruct (Hfrom s Hs) as [k [fs [_ ->]]]. reflexivity.
Qed.

(** A state as an aggregation of the two example features and a tick on
    the first task leave it. *)
Definition savedExample : TaskManager :=
  {| geojsonData := Some {| features := Some [exampleFeatureA;
                                              exampleFeatureB] |};
     sequences :=
       [ {| seq_id := "A"; seq_features := [exampleFeatureA];
            status := Some "done"; date := "1/1/2026"; featureCount := 1;
            nodeCount := 2; wayCount := 1 |};
         {| seq_id := "B"; seq_features := [exampleFeatureB];
            status := Some ""; date := "1/1/2026"; featureCount := 1;
            nodeCount := 1; wayCount := 0 |} ];
     currentIndex := 1%Z;
     currentView := "done" |}.

Lemma savedExample_filed :
  filedUnderKeys [exampleFeatureA; exampleFeatureB] startWorld savedExample
    startWorld.
Proof.
  unfold filedUnderKeys. cbv zeta. split; [|split; [|split]].
  - intros s [<-|[<-|[]]]; (split; [reflexivity|]);
      (split; [discriminate|reflexivity]).
  - intros k f [[= <- <-]|[[= <- <-]|[]]]; eexists.
    + split; [left; reflexivity|reflexivity].
    + split; [right; left; reflexivity|reflexivity].
  - cbn. repeat constructor; cbn; intuition discriminate.
  - reflexivity.
Qed.

Lemma exampleFeatures_own_keys :
  forall f, In f [exampleFeatureA; exampleFeatureB] -> hasOwnKey f.
Proof. intros f [<-|[<-|[]]] drawn; reflexivity. Qed.

Lemma saved_state_is_loaded_back_witness :
  geojsonData savedExample
  = Some {| features := Some [exampleFeatureA; exampleFeatureB] |} /\
  currentView
    (fst (loadFromStorage emptyManager startWorld
            (Some (fst (saveToStorage savedExample)))
            (snd (saveToStorage savedExample))))
  = "done".
Proof.
  split; [reflexivity|].
  exact (proj1 (proj2 (proj2
    (saved_state_is_loaded_back SampleHost.host savedExample emptyManager
       [exampleFeatureA; exampleFeatureB] startWorld startWorld startWorld
       sampleHost_sortPermutes eq_refl exampleFeatures_own_keys
       savedExample_filed)))).
Defined.

Lemma loadFromStorage_files_witness :
  NoDup (map seq_id
           (sequences
              (fst (loadFromStorage emptyManager startWorld
                      (Some (fst (saveToStorage managerWithDoneA)))
                      (Some {| features := Some [exampleFeatureA;
                                                 exampleFeatureB] |}))))).
Proof.
  exact (proj1 (proj2 (proj2 (proj1
    (loadFromStorage_files_the_stored_features SampleHost.host emptyManager
       startWorld (fst (saveToStorage managerWithDoneA)) _
       [exampleFeatureA; exampleFeatureB] sampleHost_sortPermutes
       eq_refl))))).
Defined.

(** ** What the CSV parser returns *)

Section CsvFeatures.
Context {host : Host}.

(** [!isNaN(coord[0]) && !isNaN(coord[1])] *)
Definition isNumbers (p : Position) : bool :=
  negb (JS.isNaN (fst p)) && negb (JS.isNaN (snd p)).

(** The shape of a feature the CSV parser makes: a [Point], or a
    [LineString] of two positions or more, no coordinate NaN, and the
    property [sequence_id] a string that is not empty. *)
Definition isCsvFeature (feature : Feature) : Prop :=
  (exists c, geometry feature = Some (Point c) /\ isNumbers c = true) \/
  (exists cs, geometry feature = Some (LineString cs) /\
              2 <= List.length cs /\ forallb isNumbers cs = true).

(** What the row loop keeps true of its map. *)
Definition csvEntriesOk (m : JS.Map.t CsvSequence) : Prop :=
  NoDup (map fst m) /\
  forall k s, In (k, s) m ->
    csv_id s = k /\ JS.nonEmpty k = true /\
    forallb isNumbers (csv_coordinates s) = true.

Lemma filledCell_nonEmpty (row : list string) (idx : nat) (cell : string) :
  filledCell row idx = Some cell -> JS.nonEmpty cell = true.
Proof.
  unfold filledCell. destruct (nth_error row idx) as [c|]; [|discriminate].
  destruct (JS.nonEmpty c); [|discriminate]. cbn [andb].
  destruct (JS.nonEmpty (JS.trim c)) eqn:E; [|discriminate].
  intros [= <-]. exact E.
Qed.

Lemma rowSequenceId_nonEmpty (header row : list string) (cols : Columns)
  (i : nat) :
  JS.nonEmpty (rowSequenceId header row cols i) = true.
Proof.
  unfold rowSequenceId.
  destruct (filledCellAt row (sequenceIdIndex cols)) as [c|] eqn:E.
  - unfold filledCellAt in E. destruct (sequenceIdIndex cols); [|discriminate].
    exact (filledCell_nonEmpty _ _ _ E).
  - cbv zeta.
    destruct (if (0 <=? _)%Z then _ else None) as [c|] eqn:E'; [|reflexivity].
    destruct (0 <=? _)%Z; [|discriminate].
    exact (filledCell_nonEmpty _ _ _ E').
Qed.

Lemma latLongPairs_numbers (coordArray : list JS.value) :
  forallb isNumbers (keepSome (map latLongPair coordArray)) = true.
Proof.
  induction coordArray as [|coord r IH]; [reflexivity|].
  cbn [map keepSome].
  destruct (latLongPair coord) as [p|] eqn:E; [|exact IH].
  cbn [forallb]. rewrite IH, andb_true_r.
  unfold latLongPair in E.
  destruct coord as [| | | | |[|c0 [|c1 rest]]|]; try discriminate.
  cbv zeta in E.
  destruct (negb _ && negb _) eqn:Hn; [|discriminate].
  injection E as <-. exact Hn.
Qed.

Lemma rowCoordinates_numbers (row : list string) (cols : Columns) :
  forallb isNumbers (rowCoordinates row cols) = true.
Proof.
  unfold rowCoordinates. cbv zeta.
  destruct (match latLongArrayIndex cols with
            | Some i => _
            | None => None
            end) as [cell|].
  - destruct (JSON_parse (JS.trim cell)) as [[| | | | |coordArray|]|];
      try reflexivity.
    apply latLongPairs_numbers.
  - destruct (latIndex cols) as [la|]; [|reflexivity].
    destruct (lonIndex cols) as [lo|]; [|reflexivity].
    destruct (negb _ && negb _) eqn:Hn; [|reflexivity].
    cbn [forallb]. unfold isNumbers. cbn [fst snd].
    rewrite andb_true_r. rewrite andb_comm. exact Hn.
Qed.

Lemma csvRow_ok (header : list string) (cols : Columns)
  (lines : list string) (i : nat) (m : JS.Map.t CsvSequence) :
  csvEntriesOk m -> csvEntriesOk (csvRow header cols lines i m).
Proof.
  intros Hok. unfold csvRow. cbv zeta.
  destruct (parseCSVLine (nth i lines "")) as [|cell row]; [exact Hok|].
  set (sequenceId := rowSequenceId header (cell :: row) cols i).
  assert (Hne : JS.nonEmpty sequenceId = true)
    by apply rowSequenceId_nonEmpty.
  set (m1 := if negb (JS.Map.has m sequenceId)
             then JS.Map.set m sequenceId
                    {| csv_id := sequenceId; csv_coordinates := [];
                       csv_properties := []; rowCount := 0 |}
             else m).
  assert (Hok1 : csvEntriesOk m1).
  { unfold m1. destruct (JS.Map.has m sequenceId); cbn [negb]; [exact Hok|].
    destruct Hok as [Hnd Hall]. split.
    - apply NoDup_keys_putProp. exact Hnd.
    - intros k s Hin. apply In_putProp in Hin as [[= -> ->]|Hin].
      + cbn [csv_id csv_coordinates forallb]. repeat split. exact Hne.
      + exact (Hall k s Hin). }
  destruct (JS.Map.get m1 sequenceId) as [sequence|] eqn:Eg; [|exact Hok1].
  destruct Hok1 as [Hnd Hall]. split.
  - apply NoDup_keys_putProp. exact Hnd.
  - intros k s Hin. apply In_putProp in Hin as [[= -> ->]|Hin].
    + destruct (Hall sequenceId sequence (getProp_In _ _ _ Eg))
        as [Hid [_ Hcs]].
      cbn [csv_id csv_coordinates]. split; [exact Hid|]. split; [exact Hne|].
      rewrite forallb_app, Hcs. apply rowCoordinates_numbers.
    + exact (Hall k s Hin).
Qed.

Lemma csvRows_ok (header : list string) (cols : Columns)
  (lines : list string) (start stop : nat) (m : JS.Map.t CsvSequence) :
  csvEntriesOk m ->
  csvEntriesOk (JS.forRange start stop (csvRow header cols lines) m).
Proof.
  unfold JS.forRange. generalize (seq start (stop - start)) as range.
  intros range. revert m.
  induction range as [|i range IH]; intros m Hok; [exact Hok|].
  cbn [fold_left]. apply IH, csvRow_ok, Hok.
Qed.

Lemma forEach_csvFeature (entries : list CsvSequence) :
  forall feats,
    JS.forEach entries csvFeature feats
    = feats ++ flat_map (fun sequence => csvFeature sequence []) entries.
Proof.
  unfold JS.forEach.
  induction entries as [|s entries IH]; intros feats; cbn [fold_left flat_map].
  - symmetry. apply app_nil_r.
  - rewrite IH, app_assoc. f_equal.
    unfold csvFeature. destruct (csv_coordinates s) as [|c [|c' rest]];
      cbn [app]; [symmetry; apply app_nil_r|reflexivity|reflexivity].
Qed.

(** The feature of an entry that is in order: its shape, and its key. *)
Lemma csvFeature_of_entry (s : CsvSequence) (feature : Feature) :
  JS.nonEmpty (csv_id s) = true ->
  forallb isNumbers (csv_coordinates s) = true ->
  In feature (csvFeature s []) ->
  isCsvFeature feature /\
  prop feature "sequence_id" = JS.Str (csv_id s) /\
  forall drawn, sequenceIdOf feature drawn = (csv_id s, drawn).
Proof.
  intros Hne Hcs Hin.
  assert (Hprop : forall g,
            prop {| geometry := g;
                    properties :=
                      Some (map (fun kv => (fst kv, JS.Str (snd kv)))
                                (JS.setProp (csv_properties s) "sequence_id"
                                            (csv_id s))) |} "sequence_id"
            = JS.Str (csv_id s)).
  { intros g. unfold prop. cbn [properties].
    change (JS.setProp (csv_properties s) "sequence_id" (csv_id s))
      with (JS.putProp (csv_properties s) "sequence_id" (csv_id s)).
    change (map (fun kv => (fst kv, JS.Str (snd kv)))
                (JS.putProp (csv_properties s) "sequence_id" (csv_id s)))
      with (mapValues JS.Str
              (JS.putProp (csv_properties s) "sequence_id" (csv_id s))).
    rewrite getProp_mapValues, getProp_putProp_same. reflexivity. }
  assert (Hkey : forall f, prop f "sequence_id" = JS.Str (csv_id s) ->
            forall drawn, sequenceIdOf f drawn = (csv_id s, drawn)).
  { intros f Hp drawn. unfold sequenceIdOf. cbv zeta.
    assert (Ht : JS.truthy (JS.Str (csv_id s)) = true) by exact Hne.
    rewrite Hp. unfold JS.or. repeat (rewrite Ht; cbv iota). reflexivity. }
  unfold csvFeature in Hin.
  destruct (csv_coordinates s) as [|c [|c' rest]] eqn:Ecs; [destruct Hin| |];
    cbn [app] in Hin; destruct Hin as [<-|[]].
  - split; [|split; [apply Hprop|apply Hkey, Hprop]].
    left. exists c. split; [reflexivity|].
    cbn [forallb] in Hcs. apply andb_true_iff in Hcs. exact (proj1 Hcs).
  - split; [|split; [apply Hprop|apply Hkey, Hprop]].
    right. exists (c :: c' :: rest). split; [reflexivity|].
    split; [cbn [List.length]; lia|exact Hcs].
Qed.

Lemma csvFeatures_keys (m : JS.Map.t CsvSequence) :
  csvEntriesOk m ->
  let feats :=
    flat_map (fun sequence => csvFeature sequence []) (JS.Map.values m) in
  (forall f, In f feats ->
     isCsvFeature f /\
     exists k, In k (map fst m) /\ JS.nonEmpty k = true /\
               prop f "sequence_id" = JS.Str k /\
               forall drawn, sequenceIdOf f drawn = (k, drawn)) /\
  NoDup (map (fun f => fst (sequenceIdOf f 0)) feats).
Proof.
  cbv zeta. unfold JS.Map.values.
  induction m as [|[k s] m IH]; intros [Hnd Hall].
  - split; [intros f []|constructor].
  - cbn [map fst snd flat_map] in *.
    inversion Hnd as [|? ? Hnotin Hnd']; subst.
    destruct (IH (conj Hnd' (fun k' s' H => Hall k' s' (or_intror H))))
      as [Hrest Hkeys].
    destruct (Hall k s (or_introl eq_refl)) as [Hid [Hne Hcs]].
    assert (Hhere : forall f, In f (csvFeature s []) ->
              isCsvFeature f /\ prop f "sequence_id" = JS.Str k /\
              forall drawn, sequenceIdOf f drawn = (k, drawn)).
    { intros f Hf. rewrite <- Hid.
      apply csvFeature_of_entry; [rewrite Hid; exact Hne|exact Hcs|exact Hf]. }
    split.
    + intros f Hf. apply in_app_or in Hf as [Hf|Hf].
      * destruct (Hhere f Hf) as [Hshape [Hp Hkey]].
        split; [exact Hshape|]. exists k.
        split; [left; reflexivity|]. split; [exact Hne|].
        split; [exact Hp|exact Hkey].
      * destruct (Hrest f Hf) as [Hshape [k' [Hk' Hmore]]].
        split; [exact Hshape|]. exists k'. split; [right; exact Hk'|].
        exact Hmore.
    + rewrite map_app.
      assert (Hone : map (fun f => fst (sequenceIdOf f 0)) (csvFeature s [])
                     = [] \/
                     map (fun f => fst (sequenceIdOf f 0)) (csvFeature s [])
                     = [k]).
      { pose proof Hhere as Hh. unfold csvFeature in *.
        destruct (csv_coordinates s) as [|c [|c' rest]];
          [left; reflexivity| |]; right; cbn [app map];
          rewrite (proj2 (proj2 (Hh _ (or_introl eq_refl))) 0);
          reflexivity. }
      destruct Hone as [-> | ->]; [exact Hkeys|].
      cbn [app]. constructor; [|exact Hkeys].
      intros Hin. apply in_map_iff in Hin as [f [Hkf Hf]].
      destruct (Hrest f Hf) as [_ [k' [Hk' [_ [_ Hkey]]]]].
      rewrite Hkey in Hkf. cbn [fst] in Hkf. subst k'. exact (Hnotin Hk').
Qed.
End CsvFeatures.

(** X20.  Whatever the text, a feature collection that [parseCSVSync]
    returns is in order: every feature is a [Point] or a [LineString] of at
    least two positions, no coordinate is NaN, every feature carries a
    [sequence_id] that is a string and not empty, which is the key the
    aggregation derives for it without a random identifier, and no two
    features have the same key. *)
Theorem parseCSVSync_features_are_in_order :
  forall (host : Host) (csvText : string) (geojson : GeoJSON),
    parseCSVSync csvText = Returned geojson ->
    exists feats,
      features geojson = Some feats /\
      (forall f, In f feats ->
         isCsvFeature f /\
         exists k, JS.nonEmpty k = true /\
                   prop f "sequence_id" = JS.Str k /\
                   forall drawn, sequenceIdOf f drawn = (k, drawn)) /\
      NoDup (map (fun f => fst (sequenceIdOf f 0)) feats).
Proof.
  intros host csvText geojson. unfold parseCSVSync. cbv zeta.
  destruct (List.length (csvLines csvText) <? 2); [discriminate|].
  destruct (noCoordinateColumns _); [discriminate|].
  intros [= <-]. unfold csvFeatureCollection. cbn [features].
  eexists. split; [reflexivity|].
  rewrite forEach_csvFeature. cbn [app].
  assert (Hok : csvEntriesOk
            (JS.forRange 1 (List.length (csvLines csvText))
               (csvRow (parseCSVLine (nth 0 (csvLines csvText) ""))
                  (findColumns (parseCSVLine (nth 0 (csvLines csvText) "")))
                  (csvLines csvText)) [])).
  { apply csvRows_ok. split; [constructor|intros k s []]. }
  destruct (csvFeatures_keys _ Hok) as [Hall Hkeys].
  split; [|exact Hkeys].
  intros f Hf. destruct (Hall f Hf) as [Hshape [k [_ Hmore]]].
  split; [exact Hshape|]. exists k. exact Hmore.
Qed.

Lemma parseCSVSync_features_witness :
  exists geojson feats,
    parseCSVSync exampleCsv = Returned geojson /\
    features geojson = Some feats /\
    NoDup (map (fun f => fst (sequenceIdOf f 0)) feats).
Proof.
  destruct (parseCSVSync exampleCsv) as [geojson|] eqn:E;
    [|vm_compute in E; discriminate].
  destruct (parseCSVSync_features_are_in_order SampleHost.host exampleCsv
              geojson E) as [feats [Hf [_ Hnd]]].
  exists geojson, feats. split; [reflexivity|]. split; [exact Hf|exact Hnd].
Defined.

(** ** From a CSV file to tasks *)

Section OneFeaturePerKey.
Context {host : Host}.

(** The key of a feature that has one of its own. *)
Definition ownKey (feature : Feature) : string :=
  fst (sequenceIdOf feature 0).

Lemma keyed_ownKey (feats : list Feature) (d : nat) :
  (forall f, In f feats -> hasOwnKey f) ->
  keyed feats d = map (fun f => (ownKey f, f)) feats.
Proof.
  induction feats as [|f feats IH]; intros Hown; [reflexivity|].
  cbn [keyed map].
  rewrite (sequenceIdOf_own_key f 0 d (Hown f (or_introl eq_refl) 0)).
  rewrite IH by (intros g Hg; apply Hown; right; exact Hg). reflexivity.
Qed.

Lemma featuresOf_absent (k : string) (feats : list Feature) :
  ~ In k (map ownKey feats) ->
  featuresOf k (map (fun f => (ownKey f, f)) feats) = [].
Proof.
  induction feats as [|f feats IH]; intros Hnotin; [reflexivity|].
  unfold featuresOf in *. cbn [map filter fst].
  destruct (String.eqb (ownKey f) k) eqn:E.
  - apply String.eqb_eq in E. exfalso. apply Hnotin. left. exact E.
  - apply IH. intros Hin. apply Hnotin. right. exact Hin.
Qed.

Lemma featuresOf_single (feats : list Feature) (f : Feature) :
  NoDup (map ownKey feats) -> In f feats ->
  featuresOf (ownKey f) (map (fun g => (ownKey g, g)) feats) = [f].
Proof.
  induction feats as [|g feats IH]; intros Hnd Hin; [destruct Hin|].
  inversion Hnd as [|? ? Hnotin Hnd']; subst.
  unfold featuresOf in *. cbn [map filter fst].
  destruct Hin as [->|Hin].
  - rewrite String.eqb_refl. cbn [map snd]. f_equal.
    exact (featuresOf_absent (ownKey f) feats Hnotin).
  - destruct (String.eqb (ownKey g) (ownKey f)) eqn:E.
    + apply String.eqb_eq in E. exfalso. apply Hnotin. rewrite E.
      apply in_map. exact Hin.
    + apply IH; assumption.
Qed.

(** Sequences filed from features with keys of their own, no two alike:
    one sequence for each feature. *)
Lemma one_sequence_per_feature (feats : list Feature) (w w' : World)
  (after : TaskManager) :
  (forall f, In f feats -> hasOwnKey f) ->
  NoDup (map ownKey feats) ->
  filedUnderKeys feats w after w' ->
  List.length (sequences after) = List.length feats /\
  (forall s, In s (sequences after) ->
     exists f, In f feats /\ seq_features s = [f] /\
               seq_id s = ownKey f /\ featureCount s = 1) /\
  (forall f, In f feats ->
     exists s, In s (sequences after) /\ seq_features s = [f]) /\
  draws w' = draws w.
Proof.
  intros Hown Hkeys [Hseqs [Hcover [Hnd Hdraws]]].
  rewrite (keyed_ownKey feats (draws w) Hown) in Hseqs, Hcover.
  assert (Hone : forall s, In s (sequences after) ->
            exists f, In f feats /\ seq_features s = [f] /\
                      seq_id s = ownKey f /\ featureCount s = 1).
  { intros s Hs. destruct (Hseqs s Hs) as [Hfs [Hne Hcount]].
    destruct (featuresOf_some (seq_id s)
                (map (fun f => (ownKey f, f)) feats)) as [f Hf];
      [rewrite <- Hfs; exact Hne|].
    apply in_map_iff in Hf as [g [[= Hk ->] Hg]].
    exists f. rewrite <- Hk in Hfs.
    rewrite (featuresOf_single feats f Hkeys Hg) in Hfs.
    split; [exact Hg|]. split; [exact Hfs|]. split; [symmetry; exact Hk|].
    rewrite Hcount, Hfs. reflexivity. }
  split; [|split; [exact Hone|split]].
  - rewrite <- (length_map seq_id (sequences after)).
    rewrite <- (length_map ownKey feats).
    apply Permutation_length, NoDup_Permutation; [exact Hnd|exact Hkeys|].
    intros k. split.
    + intros Hin. apply in_map_iff in Hin as [s [<- Hs]].
      destruct (Hone s Hs) as [f [Hf [_ [-> _]]]]. apply in_map. exact Hf.
    + intros Hin. apply in_map_iff in Hin as [f [<- Hf]].
      destruct (Hcover (ownKey f) f) as [s [Hs Hid]].
      { apply in_map_iff. exists f. split; [reflexivity|exact Hf]. }
      rewrite <- Hid. apply in_map. exact Hs.
  - intros f Hf.
    destruct (Hcover (ownKey f) f) as [s [Hs Hid]].
    { apply in_map_iff. exists f. split; [reflexivity|exact Hf]. }
    exists s. split; [exact Hs|].
    rewrite (proj1 (Hseqs s Hs)), Hid.
    exact (featuresOf_single feats f Hkeys Hf).
  - rewrite Hdraws. exact (proj2 (keyed_own_keys feats Hown (draws w) 0)).
Qed.

Lemma processGeoJSON_filed (this : TaskManager) (w : World)
  (feats : list Feature) :
  sortPermutes host ->
  exists after w',
    processGeoJSON this w {| features := Some feats |} = Returned (after, w')
    /\ filedUnderKeys feats w after w'.
Proof.
  intros Hperm.
  destruct (processGeoJSON_returns this w feats) as [after [Hret [Hseq _]]].
  exists after, (snd (groupedSync this w feats)). split; [exact Hret|].
  destruct (groupedSync_filed this w feats) as [Hfiled Hdrawn].
  destruct (sequences_of_filed _ (keyed feats (draws w)) (sequences after)
              Hfiled) as [H1 [H2 H3]].
  { rewrite Hseq. apply Hperm. }
  split; [exact H1|]. split; [exact H2|]. split; [exact H3|exact Hdrawn].
Qed.
End OneFeaturePerKey.

(** X21.  A CSV file gives one task for each feature: when [parseCSVSync]
    returns, [processGeoJSON] on the result returns too, with as many
    sequences as there are features; every sequence holds exactly one of the
    features, has the [sequence_id] of that feature as its id and a
    [featureCount] of 1; every feature is the feature of a sequence; and no
    random identifier is drawn.  (The host's sort rearranges.) *)
Theorem csv_import_gives_one_task_per_feature :
  forall (host : Host) (this : TaskManager) (w : World) (csvText : string)
         (geojson : GeoJSON),
    sortPermutes host ->
    parseCSVSync csvText = Returned geojson ->
    exists feats after w',
      features geojson = Some feats /\
      processGeoJSON this w geojson = Returned (after, w') /\
      List.length (sequences after) = List.length feats /\
      (forall s, In s (sequences after) ->
         exists f, In f feats /\ seq_features s = [f] /\
                   prop f "sequence_id" = JS.Str (seq_id s) /\
                   featureCount s = 1) /\
      (forall f, In f feats ->
         exists s, In s (sequences after) /\ seq_features s = [f]) /\
      draws w' = draws w.
Proof.
  intros host this w csvText geojson Hsort Hcsv.
  assert (Hfeats : exists feats,
            features geojson = Some feats /\
            (forall f, In f feats ->
               exists k, prop f "sequence_id" = JS.Str k /\
                         forall drawn, sequenceIdOf f drawn = (k, drawn)) /\
            NoDup (map ownKey feats)).
  { revert Hcsv. unfold parseCSVSync. cbv zeta.
    destruct (List.length (csvLines csvText) <? 2); [discriminate|].
    destruct (noCoordinateColumns _); [discriminate|].
    intros [= <-]. unfold csvFeatureCollection. cbn [features].
    eexists. split; [reflexivity|].
    rewrite forEach_csvFeature. cbn [app].
    destruct (csvFeatures_keys
                (JS.forRange 1 (List.length (csvLines csvText))
                   (csvRow (parseCSVLine (nth 0 (csvLines csvText) ""))
                      (findColumns
                         (parseCSVLine (nth 0 (csvLines csvText) "")))
                      (csvLines csvText)) []))
      as [Hall Hkeys].
    { apply csvRows_ok. split; [constructor|intros k s []]. }
    split; [|exact Hkeys].
    intros f Hf. destruct (Hall f Hf) as [_ [k [_ [_ Hmore]]]].
    exists k. exact Hmore. }
  destruct Hfeats as [feats [Hf [Hall Hkeys]]].
  assert (Hown : forall f, In f feats -> hasOwnKey f).
  { intros f Hin drawn. destruct (Hall f Hin) as [k [_ Hkey]].
    rewrite Hkey. reflexivity. }
  destruct geojson as [fs]. cbn [features] in Hf. subst fs.
  destruct (processGeoJSON_filed this w feats Hsort)
    as [after [w' [Hret Hfiled]]].
  destruct (one_sequence_per_feature feats w w' after Hown Hkeys Hfiled)
    as [Hlen [Hone [Hevery Hdraws]]].
  exists feats, after, w'. split; [reflexivity|]. split; [exact Hret|].
  split; [exact Hlen|]. split; [|split; [exact Hevery|exact Hdraws]].
  intros s Hs. destruct (Hone s Hs) as [f [Hin [Hfs [Hid Hcount]]]].
  exists f. split; [exact Hin|]. split; [exact Hfs|]. split; [|exact Hcount].
  destruct (Hall f Hin) as [k [Hp Hkey]].
  rewrite Hp, Hid. unfold ownKey. rewrite Hkey. reflexivity.
Qed.

Lemma csv_import_witness :
  exists after w',
    processGeoJSON emptyManager startWorld
      {| features := Some [exampleFeatureA; exampleFeatureB] |}
    = Returned (after, w') /\
    List.length (sequences after) = 2.
Proof.
  assert (Hcsv : parseCSVSync exampleCsv
                 = Returned {| features := Some [exampleFeatureA;
                                                 exampleFeatureB] |})
    by (vm_compute; reflexivity).
  destruct (csv_import_gives_one_task_per_feature SampleHost.host emptyManager
              startWorld exampleCsv _ sampleHost_sortPermutes Hcsv)
    as [feats [after [w' [Hf [Hret [Hlen _]]]]]].
  injection Hf as <-.
  exists after, w'. split; [exact Hret|exact Hlen].
Defined.

(** ** [handleFileUpload]: what the files gave is added

    Reading and parsing the files is the browser's and the parsers' work;
    [handleFileUpload] is modelled from [Promise.allSettled] on: [results]
    holds, for each file in order, the GeoJSON it was parsed to or the error
    it was rejected with. *)

Section Upload.
Context {host : Host}.

(** [newFeatures.push(...result.value.geojson.features)] for the fulfilled
    results; spreading [undefined] is a TypeError, which rejects the call:
    [None]. *)
Definition collectNewFeatures (result : Outcome GeoJSON)
  (newFeatures : option (list Feature)) : option (list Feature) :=
  match newFeatures, result with
  | Some newFeatures, Returned geojson =>
      match features geojson with
      | Some feats => Some (newFeatures ++ feats)
      | None => None
      end
  | Some newFeatures, Thrown _ => Some newFeatures
  | None, _ => None
  end.

(** [this.geojsonData?.features || []] *)
Definition existingFeatures (this : TaskManager) : list Feature :=
  match geojsonData this with
  | Some geojson =>
      match features geojson with
      | Some feats => feats
      | None => []
      end
  | None => []
  end.

(** [handleFileUpload]: the state and the world it leaves and what it
    hands to the store, if anything; [None] when it is rejected. *)
Definition handleFileUpload (this : TaskManager) (w : World)
  (results : list (Outcome GeoJSON))
  : option (TaskManager * World * option (TaskData * option GeoJSON)) :=
  match JS.forEach results collectNewFeatures (Some []) with
  | None => None
  | Some [] => Some (this, w, None)
  | Some ((_ :: _) as newFeatures) =>
      let allFeatures := existingFeatures this ++ newFeatures in
      let combinedGeoJSON := {| features := Some allFeatures |} in
      let this1 := withGeojsonData this combinedGeoJSON in
      if 50 <? List.length allFeatures
      then
        let '(this2, w2) :=
          snd (processGeoJSONAsync this1 w combinedGeoJSON true) in
        Some (this2, w2, Some (saveToStorage this2))
      else
        match processGeoJSON this1 w combinedGeoJSON with
        | Returned (this2, w2) => Some (this2, w2, Some (saveToStorage this2))
        | Thrown _ => None
        end
  end.

Lemma processGeoJSONAsync_filed (this : TaskManager) (w : World)
  (feats : list Feature) (cb : bool) :
  sortPermutes host ->
  filedUnderKeys feats w
    (fst (snd (processGeoJSONAsync this w {| features := Some feats |} cb)))
    (snd (snd (processGeoJSONAsync this w {| features := Some feats |} cb))).
Proof.
  intros Hperm.
  destruct (processGeoJSONAsync_result this w feats cb)
    as [Hseq [_ [_ [_ Hdraws]]]].
  destruct (groupedAsync_filed this w feats cb) as [Hfiled Hdrawn].
  destruct (sequences_of_filed _ (keyed feats (draws w))
              (sequences
                 (fst (snd (processGeoJSONAsync this w
                              {| features := Some feats |} cb))))
              Hfiled)
    as [H1 [H2 H3]].
  { rewrite Hseq. apply Hperm. }
  split; [exact H1|]. split; [exact H2|]. split; [exact H3|].
  rewrite Hdraws. exact Hdrawn.
Qed.
End Upload.

(** X22.  An upload adds to what is loaded.  When the files give no feature
    at all, [handleFileUpload] changes nothing and saves nothing.  When they
    give some, the GeoJSON afterwards holds the features that were loaded
    before, followed by the new ones in the order of the files; the
    sequences are all these features filed under their keys, whichever of
    the two aggregation paths the number of features selects; the view
    stays; and the state handed to the store is the one left.  (The host's
    sort rearranges.) *)
Theorem upload_adds_to_what_is_loaded :
  forall (host : Host) (this : TaskManager) (w : World)
         (results : list (Outcome GeoJSON)) (newFeatures : list Feature),
    sortPermutes host ->
    JS.forEach results collectNewFeatures (Some []) = Some newFeatures ->
    (newFeatures = [] ->
     handleFileUpload this w results = Some (this, w, None)) /\
    (newFeatures <> [] ->
     exists after w',
       handleFileUpload this w results
       = Some (after, w', Some (saveToStorage after)) /\
       geojsonData after
       = Some {| features := Some (existingFeatures this ++ newFeatures) |} /\
       filedUnderKeys (existingFeatures this ++ newFeatures) w after w' /\
       currentView after = currentView this).
Proof.
  intros host this w results newFeatures Hsort Hnew.
  unfold handleFileUpload. rewrite Hnew. split.
  - intros ->. reflexivity.
  - intros Hne. destruct newFeatures as [|f rest]; [contradiction|].
    cbv zeta.
    set (allFeatures := existingFeatures this ++ f :: rest).
    set (this1 := withGeojsonData this {| features := Some allFeatures |}).
    destruct (50 <? List.length allFeatures).
    + pose proof (processGeoJSONAsync_filed this1 w allFeatures true Hsort)
        as Hfiled.
      destruct (processGeoJSONAsync_result this1 w allFeatures true)
        as [_ [Hview [Hgeo _]]].
      destruct (snd (processGeoJSONAsync this1 w
                       {| features := Some allFeatures |} true))
        as [this2 w2].
      cbn [fst snd] in Hfiled, Hview, Hgeo.
      exists this2, w2. split; [reflexivity|]. split; [exact Hgeo|].
      split; [exact Hfiled|exact Hview].
    + destruct (processGeoJSON_filed this1 w allFeatures Hsort)
        as [after [w' [Hret Hfiled]]].
      destruct (processGeoJSON_returns this1 w allFeatures)
        as [after' [Hret' [_ [Hview [Hgeo _]]]]].
      rewrite Hret in Hret'. injection Hret' as <- _.
      rewrite Hret. exists after, w'. split; [reflexivity|].
      split; [exact Hgeo|]. split; [exact Hfiled|exact Hview].
Qed.

Lemma upload_adds_witness :
  exists after w',
    handleFileUpload savedExample startWorld
      [Thrown "no such file";
       Returned {| features := Some [exampleFeatureA] |}]
    = Some (after, w', Some (saveToStorage after)) /\
    geojsonData after
    = Some {| features := Some [exampleFeatureA; exampleFeatureB;
                                exampleFeatureA] |}.
Proof.
  destruct (proj2 (upload_adds_to_what_is_loaded SampleHost.host savedExample
                     startWorld
                     [Thrown "no such file";
                      Returned {| features := Some [exampleFeatureA] |}]
                     [exampleFeatureA] sampleHost_sortPermutes eq_refl))
    as [after [w' [Hret [Hgeo _]]]]; [discriminate|].
  exists after, w'. split; [exact Hret|exact Hgeo].
Defined.

(** ** GPX files

    [parseGPX] reads the document [DOMParser] makes of the text.  The
    document is taken as it is given: a tree of elements with their
    qualified names, attributes and child nodes, of text and of comments. *)

Inductive XmlNode : Type :=
| Element (tagName : string) (attributes : list (string * string))
          (childNodes : list XmlNode)
| Text (data : string)
| Comment (data : string).

(** The element and the elements below it, in document order. *)
Fixpoint elementsIn (node : XmlNode) : list XmlNode :=
  match node with
  | Element _ _ childNodes => node :: flat_map elementsIn childNodes
  | Text _ | Comment _ => []
  end.

Definition hasTagName (name : string) (node : XmlNode) : bool :=
  match node with
  | Element tagName _ _ => String.eqb tagName name
  | Text _ | Comment _ => false
  end.

Definition childNodesOf (node : XmlNode) : list XmlNode :=
  match node with
  | Element _ _ childNodes => childNodes
  | Text _ | Comment _ => []
  end.

(** [getElementsByTagName(name)] of a document or an element with the
    child nodes [childNodes]: the elements below with that name, in
    document order. *)
Definition getElementsByTagName (childNodes : list XmlNode) (name : string)
  : list XmlNode :=
  filter (hasTagName name) (flat_map elementsIn childNodes).

(** [getAttribute(name)]: [None] is [null]. *)
Definition getAttribute (node : XmlNode) (name : string) : option string :=
  match node with
  | Element _ attributes _ => JS.getProp attributes name
  | Text _ | Comment _ => None
  end.

(** [textContent]: the text below an element, comments left out. *)
Fixpoint textContent (node : XmlNode) : string :=
  match node with
  | Element _ _ childNodes =>
      (fix texts (l : list XmlNode) : string :=
         match l with
         | [] => ""
         | child :: r =>
             match child with
             | Comment _ => ""
             | _ => textContent child
             end +++ texts r
         end) childNodes
  | Text data => data
  | Comment data => data
  end.

(** *** The pattern of a sequence id in a name

    [/(?:sequence[_\s]?id|seq[_\s]?id|id)[:\s=]+(\d+)/i], matched as a
    backtracking matcher does: each piece is given what is to follow it, and
    a piece that can match in more than one way tries the longer way
    first. *)

Definition Matcher : Type := string -> option string.

Definition isDigit (c : ascii) : bool :=
  let n := JS.codeOf c in (48 <=? n) && (n <=? 57).

(** [[_\s]] and [[:\s=]] *)
Definition isJoiner (c : ascii) : bool :=
  Ascii.eqb c "_" || JS.isWhiteSpace c.
Definition isSeparator (c : ascii) : bool :=
  Ascii.eqb c ":" || JS.isWhiteSpace c || Ascii.eqb c "=".

(** Lower-case letters of the pattern under the flag [i]: a code unit
    matches the letter when its lower case is the letter. *)
Fixpoint dropLetters (letters s : string) : option string :=
  match letters, s with
  | EmptyString, _ => Some s
  | String p t, String c r =>
      if Ascii.eqb (JS.lowerChar c) p then dropLetters t r else None
  | String _ _, EmptyString => None
  end.

Definition letters (text : string) (next : Matcher) : Matcher :=
  fun s =>
    match dropLetters text s with
    | Some r => next r
    | None => None
    end.

(** [[...]?] *)
Definition optionalChar (p : ascii -> bool) (next : Matcher) : Matcher :=
  fun s =>
    match s with
    | String c r =>
        if p c
        then match next r with
             | Some m => Some m
             | None => next s
             end
        else next s
    | EmptyString => next s
    end.

(** [[...]*] and [[...]+] *)
Fixpoint manyChars (p : ascii -> bool) (next : Matcher) (s : string)
  : option string :=
  match s with
  | String c r =>
      if p c
      then match manyChars p next r with
           | Some m => Some m
           | None => next s
           end
      else next s
  | EmptyString => next s
  end.

Definition someChars (p : ascii -> bool) (next : Matcher) : Matcher :=
  fun s =>
    match s with
    | String c r => if p c then manyChars p next r else None
    | EmptyString => None
    end.

Fixpoint digitsAhead (s : string) : string :=
  match s with
  | String c r => if isDigit c then String c (digitsAhead r) else ""
  | EmptyString => ""
  end.

(** [(\d+)] at the end of the pattern: the digits ahead, which are the
    match of the group. *)
Definition captureDigits : Matcher :=
  fun s =>
    let digits := digitsAhead s in
    if JS.nonEmpty digits then Some digits else None.

(** The pattern at the start of [s]; the result is [seqMatch[1]]. *)
Definition sequenceIdPattern : Matcher :=
  fun s =>
    let value := someChars isSeparator captureDigits in
    match letters "sequence" (optionalChar isJoiner (letters "id" value)) s
    with
    | Some m => Some m
    | None =>
        match letters "seq" (optionalChar isJoiner (letters "id" value)) s
        with
        | Some m => Some m
        | None => letters "id" value s
        end
    end.

(** [name.match(pattern)]: the match at the first place that has one. *)
Fixpoint firstMatchIn (pattern : Matcher) (s : string) : option string :=
  match pattern s with
  | Some m => Some m
  | None =>
      match s with
      | String _ r => firstMatchIn pattern r
      | EmptyString => None
      end
  end.

Fixpoint allChars (p : ascii -> bool) (s : string) : bool :=
  match s with
  | String c r => p c && allChars p r
  | EmptyString => true
  end.

(** [/^\d+$/.test(name)] *)
Definition isNumber (name : string) : bool :=
  JS.nonEmpty name && allChars isDigit name.

(** [extractSequenceIdFromGPX]: [None] is [null]. *)
Definition extractSequenceIdFromGPX (element : XmlNode) : option string :=
  match getElementsByTagName (childNodesOf element) "name" with
  | nameEl :: _ =>
      let name := JS.trim (textContent nameEl) in
      match firstMatchIn sequenceIdPattern name with
      | Some id => Some id
      | None => if isNumber name then Some name else None
      end
  | [] => None
  end.

(** [parseFloat(point.getAttribute(...))]; [null] is read as its text. *)
Definition parseFloatAttribute (value : option string) : JS.number :=
  match value with
  | Some s => JS.parseFloat s
  | None => JS.parseFloat "null"
  end.

(** The loop over the points of a segment or a route. *)
Definition gpxPoint (point : XmlNode) (coordinates : list Position)
  : list Position :=
  let lat := parseFloatAttribute (getAttribute point "lat") in
  let lon := parseFloatAttribute (getAttribute point "lon") in
  if negb (JS.isNaN lat) && negb (JS.isNaN lon)
  then coordinates ++ [(lon, lat)] else coordinates.

(** [id || fallback], [id] a string or [null] *)
Definition idOr (id : option string) (fallback : string) : string :=
  match id with
  | Some id => if JS.nonEmpty id then id else fallback
  | None => fallback
  end.

Definition gpxLine (element : XmlNode) (points : list XmlNode)
  (kind : string) (features : list Feature) : list Feature :=
  let coordinates := JS.forEach points gpxPoint [] in
  if 0 <? List.length coordinates
  then features ++
       [ {| geometry := Some (LineString coordinates);
            properties :=
              Some [("sequence_id",
                     JS.Str (idOr (extractSequenceIdFromGPX element)
                               (kind +++
                                JS.natToString (List.length features + 1))))]
         |} ]
  else features.

Definition gpxTrack (track : XmlNode) (features : list Feature)
  : list Feature :=
  JS.forEach (getElementsByTagName (childNodesOf track) "trkseg")
    (fun segment =>
       gpxLine track (getElementsByTagName (childNodesOf segment) "trkpt")
         "gpx_track_")
    features.

Definition gpxRoute (route : XmlNode) (features : list Feature)
  : list Feature :=
  gpxLine route (getElementsByTagName (childNodesOf route) "rtept")
    "gpx_route_" features.

Definition gpxWaypoint (waypoint : XmlNode) (features : list Feature)
  : list Feature :=
  let lat := parseFloatAttribute (getAttribute waypoint "lat") in
  let lon := parseFloatAttribute (getAttribute waypoint "lon") in
  if negb (JS.isNaN lat) && negb (JS.isNaN lon)
  then
    let name :=
      match getElementsByTagName (childNodesOf waypoint) "name" with
      | nameEl :: _ => textContent nameEl
      | [] => ""
      end in
    features ++
    [ {| geometry := Some (Point (lon, lat));
         properties :=
           Some [("name", JS.Str name);
                 ("sequence_id",
                  JS.Str (idOr (Some name)
                            ("gpx_waypoint_" +++
                             JS.natToString (List.length features + 1))))]
      |} ]
  else features.

(** [parseGPX], from the document on. *)
Definition parseGPX (xmlDoc : list XmlNode) : GeoJSON :=
  let features0 :=
    JS.forEach (getElementsByTagName xmlDoc "trk") gpxTrack [] in
  let features1 :=
    JS.forEach (getElementsByTagName xmlDoc "rte") gpxRoute features0 in
  let features2 :=
    JS.forEach (getElementsByTagName xmlDoc "wpt") gpxWaypoint features1 in
  {| features := Some features2 |}.

(** *** The id read from a name *)

Definition yieldsNumbers (m : Matcher) : Prop :=
  forall s id, m s = Some id -> isNumber id = true.

Lemma digitsAhead_digits (s : string) : allChars isDigit (digitsAhead s) = true.
Proof.
  induction s as [|c r IH]; [reflexivity|].
  cbn [digitsAhead]. destruct (isDigit c) eqn:E; [|reflexivity].
  cbn [allChars]. rewrite E, IH. reflexivity.
Qed.

Lemma captureDigits_numbers : yieldsNumbers captureDigits.
Proof.
  intros s id. unfold captureDigits. cbv zeta.
  destruct (JS.nonEmpty (digitsAhead s)) eqn:E; [|discriminate].
  intros [= <-]. unfold isNumber. rewrite E. apply digitsAhead_digits.
Qed.

Lemma letters_numbers (text : string) (next : Matcher) :
  yieldsNumbers next -> yieldsNumbers (letters text next).
Proof.
  intros Hnext s id. unfold letters.
  destruct (dropLetters text s) as [r|]; [apply Hnext|discriminate].
Qed.

Lemma optionalChar_numbers (p : ascii -> bool) (next : Matcher) :
  yieldsNumbers next -> yieldsNumbers (optionalChar p next).
Proof.
  intros Hnext s id. unfold optionalChar.
  destruct s as [|c r]; [apply Hnext|].
  destruct (p c); [|apply Hnext].
  destruct (next r) as [m|] eqn:E; [|apply Hnext].
  intros [= <-]. exact (Hnext r m E).
Qed.

Lemma manyChars_numbers (p : ascii -> bool) (next : Matcher) :
  yieldsNumbers next -> yieldsNumbers (manyChars p next).
Proof.
  intros Hnext s. induction s as [|c r IH]; intros id; cbn [manyChars];
    [apply Hnext|].
  destruct (p c); [|apply Hnext].
  destruct (manyChars p next r) as [m|] eqn:E; [|apply Hnext].
  intros [= <-]. exact (IH m eq_refl).
Qed.

Lemma someChars_numbers (p : ascii -> bool) (next : Matcher) :
  yieldsNumbers next -> yieldsNumbers (someChars p next).
Proof.
  intros Hnext s id. unfold someChars. destruct s as [|c r]; [discriminate|].
  destruct (p c); [|discriminate]. apply manyChars_numbers, Hnext.
Qed.

Lemma sequenceIdPattern_numbers : yieldsNumbers sequenceIdPattern.
Proof.
  assert (Hvalue : yieldsNumbers (someChars isSeparator captureDigits))
    by apply someChars_numbers, captureDigits_numbers.
  assert (Hid : yieldsNumbers
                  (letters "id" (someChars isSeparator captureDigits)))
    by apply letters_numbers, Hvalue.
  intros s id. unfold sequenceIdPattern. cbv zeta.
  destruct (letters "sequence" _ s) as [m|] eqn:E1.
  - intros [= <-].
    exact (letters_numbers _ _ (optionalChar_numbers _ _ Hid) s m E1).
  - destruct (letters "seq" _ s) as [m|] eqn:E2.
    + intros [= <-].
      exact (letters_numbers _ _ (optionalChar_numbers _ _ Hid) s m E2).
    + apply Hid.
Qed.

Lemma firstMatchIn_numbers (pattern : Matcher) :
  yieldsNumbers pattern -> yieldsNumbers (firstMatchIn pattern).
Proof.
  intros Hp s. induction s as [|c r IH]; intros id; cbn [firstMatchIn].
  - destruct (pattern "") as [m|] eqn:E; [|discriminate].
    intros [= <-]. exact (Hp _ _ E).
  - destruct (pattern (String c r)) as [m|] eqn:E; [|apply IH].
    intros [= <-]. exact (Hp _ _ E).
Qed.

(** No letter of the pattern is a digit. *)
Lemma pattern_at_digit (c : ascii) (r : string) :
  isDigit c = true -> sequenceIdPattern (String c r) = None.
Proof.
  intros Hc. unfold sequenceIdPattern, letters. cbv zeta.
  cbn [dropLetters].
  assert (Hs : Ascii.eqb (JS.lowerChar c) "s" = false /\
               Ascii.eqb (JS.lowerChar c) "i" = false).
  { revert Hc. destruct c as [[|] [|] [|] [|] [|] [|] [|] [|]];
      intros Hc; try discriminate Hc; split; reflexivity. }
  destruct Hs as [-> ->]. reflexivity.
Qed.

Lemma no_match_in_number (s : string) :
  allChars isDigit s = true -> firstMatchIn sequenceIdPattern s = None.
Proof.
  induction s as [|c r IH]; [reflexivity|].
  cbn [allChars]. intros H. apply andb_true_iff in H as [Hc Hr].
  cbn [firstMatchIn]. rewrite (pattern_at_digit c r Hc). exact (IH Hr).
Qed.

(** X23.  The id [extractSequenceIdFromGPX] finds is a number: when it
    returns a string, the string is not empty and holds decimal digits
    only.  It returns [null] when the element has no [name] below it; and
    when the trimmed text of the first [name] is itself a number, it returns
    that text. *)
Theorem extractSequenceIdFromGPX_is_a_number :
  forall element : XmlNode,
    (forall id, extractSequenceIdFromGPX element = Some id ->
                isNumber id = true) /\
    (getElementsByTagName (childNodesOf element) "name" = [] ->
     extractSequenceIdFromGPX element = None) /\
    (forall nameEl others,
        getElementsByTagName (childNodesOf element) "name" = nameEl :: others
        -> isNumber (JS.trim (textContent nameEl)) = true ->
        extractSequenceIdFromGPX element
        = Some (JS.trim (textContent nameEl))).
Proof.
  intros element. unfold extractSequenceIdFromGPX. split; [|split].
  - intros id.
    destruct (getElementsByTagName (childNodesOf element) "name")
      as [|nameEl others]; [discriminate|].
    cbv zeta.
    destruct (firstMatchIn sequenceIdPattern (JS.trim (textContent nameEl)))
      as [m|] eqn:E.
    + intros [= <-].
      exact (firstMatchIn_numbers _ sequenceIdPattern_numbers _ _ E).
    + destruct (isNumber (JS.trim (textContent nameEl))) eqn:En;
        [|discriminate].
      intros [= <-]. exact En.
  - intros ->. reflexivity.
  - intros nameEl others -> Hnum. cbv zeta.
    rewrite no_match_in_number, Hnum; [reflexivity|].
    unfold isNumber in Hnum. apply andb_true_iff in Hnum. exact (proj2 Hnum).
Qed.

(** A track as a GPX file names it. *)
Definition exampleTrack : XmlNode :=
  Element "trk" []
    [ Element "name" [] [Text "  Sequence ID: 42 (north)"];
      Element "trkseg" []
        [ Element "trkpt" [("lat", "1.0"); ("lon", "103.0")] [];
          Element "trkpt" [("lat", "north"); ("lon", "103.1")] [];
          Element "trkpt" [("lat", "1.1"); ("lon", "103.1")] [] ] ].

Lemma extractSequenceIdFromGPX_witness :
  extractSequenceIdFromGPX exampleTrack = Some "42" /\ isNumber "42" = true.
Proof.
  split; [reflexivity|].
  exact (proj1 (extractSequenceIdFromGPX_is_a_number exampleTrack) "42"
           eq_refl).
Defined.

(** *** What [parseGPX] returns *)

Section GpxFeatures.
Context {host : Host}.

(** The shape of a feature [parseGPX] makes: a [LineString] of one
    position or more, or a [Point]; no coordinate NaN. *)
Definition isGpxFeature (feature : Feature) : Prop :=
  (exists cs, geometry feature = Some (LineString cs) /\
              1 <= List.length cs /\ forallb isNumbers cs = true) \/
  (exists c, geometry feature = Some (Point c) /\ isNumbers c = true).

(** A feature with a [sequence_id] that is a string and not empty: its key
    is that string. *)
Definition keyedBySequenceId (feature : Feature) : Prop :=
  exists k, JS.nonEmpty k = true /\
            prop feature "sequence_id" = JS.Str k /\
            forall drawn, sequenceIdOf feature drawn = (k, drawn).

Lemma sequence_id_is_the_key (feature : Feature) (k : string) :
  JS.nonEmpty k = true -> prop feature "sequence_id" = JS.Str k ->
  keyedBySequenceId feature.
Proof.
  intros Hne Hp. exists k. split; [exact Hne|]. split; [exact Hp|].
  intros drawn. unfold sequenceIdOf. cbv zeta.
  assert (Ht : JS.truthy (JS.Str k) = true) by exact Hne.
  rewrite Hp. unfold JS.or. repeat (rewrite Ht; cbv iota). reflexivity.
Qed.

Lemma idOr_nonEmpty (id : option string) (fallback : string) :
  JS.nonEmpty fallback = true -> JS.nonEmpty (idOr id fallback) = true.
Proof.
  intros Hf. unfold idOr. destruct id as [id|]; [|exact Hf].
  destruct (JS.nonEmpty id) eqn:E; [exact E|exact Hf].
Qed.

Lemma gpxPoints_numbers (points : list XmlNode) :
  forall coordinates,
    forallb isNumbers coordinates = true ->
    forallb isNumbers (JS.forEach points gpxPoint coordinates) = true.
Proof.
  unfold JS.forEach.
  induction points as [|point points IH]; intros coordinates Hcs;
    [exact Hcs|].
  cbn [fold_left]. apply IH. unfold gpxPoint. cbv zeta.
  destruct (negb _ && negb _) eqn:Hn; [|exact Hcs].
  rewrite forallb_app, Hcs. cbn [forallb]. unfold isNumbers. cbn [fst snd].
  rewrite andb_true_r.
  rewrite (andb_comm (negb (JS.isNaN (parseFloatAttribute
                                        (getAttribute point "lon"))))).
  exact Hn.
Qed.

Definition gpxFeaturesOk (features : list Feature) : Prop :=
  forall f, In f features -> isGpxFeature f /\ keyedBySequenceId f.

Lemma gpxFeaturesOk_add (features : list Feature) (f : Feature) :
  gpxFeaturesOk features -> isGpxFeature f -> keyedBySequenceId f ->
  gpxFeaturesOk (features ++ [f]).
Proof.
  intros Hok Hshape Hkey g Hg. apply in_app_or in Hg as [Hg|[<-|[]]].
  - exact (Hok g Hg).
  - split; assumption.
Qed.

Lemma gpxLine_ok (element : XmlNode) (points : list XmlNode)
  (kind : string) (features : list Feature) :
  JS.nonEmpty kind = true ->
  gpxFeaturesOk features ->
  gpxFeaturesOk (gpxLine element points kind features).
Proof.
  intros Hkind Hok. unfold gpxLine. cbv zeta.
  destruct (0 <? List.length (JS.forEach points gpxPoint [])) eqn:Hlen;
    [|exact Hok].
  apply gpxFeaturesOk_add; [exact Hok| |].
  - left. eexists. split; [reflexivity|]. split.
    + apply Nat.ltb_lt in Hlen. exact Hlen.
    + apply gpxPoints_numbers. reflexivity.
  - eapply sequence_id_is_the_key; [|reflexivity].
    apply idOr_nonEmpty. destruct kind; [discriminate|reflexivity].
Qed.

Lemma forEach_ok {A : Type} (items : list A)
  (body : A -> list Feature -> list Feature) :
  (forall x features, gpxFeaturesOk features ->
                      gpxFeaturesOk (body x features)) ->
  forall features, gpxFeaturesOk features ->
                   gpxFeaturesOk (JS.forEach items body features).
Proof.
  intros Hbody. unfold JS.forEach.
  induction items as [|x items IH]; intros features Hok; [exact Hok|].
  cbn [fold_left]. apply IH, Hbody, Hok.
Qed.

Lemma gpxWaypoint_ok (waypoint : XmlNode) (features : list Feature) :
  gpxFeaturesOk features -> gpxFeaturesOk (gpxWaypoint waypoint features).
Proof.
  intros Hok. unfold gpxWaypoint. cbv zeta.
  destruct (negb _ && negb _) eqn:Hn; [|exact Hok].
  apply gpxFeaturesOk_add; [exact Hok| |].
  - right. eexists. split; [reflexivity|].
    unfold isNumbers. cbn [fst snd]. rewrite andb_comm. exact Hn.
  - eapply sequence_id_is_the_key; [|reflexivity].
    apply idOr_nonEmpty. reflexivity.
Qed.
End GpxFeatures.

(** X24.  Whatever the document, the features [parseGPX] returns are in
    order: each is a [LineString] of at least one position (a track segment
    or a route) or a [Point] (a waypoint), no coordinate is NaN, and each
    carries a [sequence_id] that is a string and not empty, which is the key
    the aggregation derives for it, so that no random identifier is drawn
    for a GPX file.  A document without [trk], [rte] and [wpt] elements
    gives no feature. *)
Theorem parseGPX_features_are_in_order :
  forall (host : Host) (xmlDoc : list XmlNode),
    (exists feats,
        features (parseGPX xmlDoc) = Some feats /\
        forall f, In f feats ->
          isGpxFeature f /\ keyedBySequenceId f /\ hasOwnKey f) /\
    (getElementsByTagName xmlDoc "trk" = [] ->
     getElementsByTagName xmlDoc "rte" = [] ->
     getElementsByTagName xmlDoc "wpt" = [] ->
     parseGPX xmlDoc = {| features := Some [] |}).
Proof.
  intros host xmlDoc. split.
  - unfold parseGPX. cbv zeta. cbn [features]. eexists.
    split; [reflexivity|].
    assert (Hok : gpxFeaturesOk
              (JS.forEach (getElementsByTagName xmlDoc "wpt") gpxWaypoint
                 (JS.forEach (getElementsByTagName xmlDoc "rte") gpxRoute
                    (JS.forEach (getElementsByTagName xmlDoc "trk") gpxTrack
                       [])))).
    { apply forEach_ok; [exact gpxWaypoint_ok|].
      apply forEach_ok.
      { intros route features Hok. unfold gpxRoute.
        apply gpxLine_ok; [reflexivity|exact Hok]. }
      apply forEach_ok; [|intros f []].
      intros track features Hok. unfold gpxTrack.
      apply forEach_ok; [|exact Hok].
      intros segment features' Hok'.
      apply gpxLine_ok; [reflexivity|exact Hok']. }
    intros f Hf. destruct (Hok f Hf) as [Hshape Hkey].
    split; [exact Hshape|]. split; [exact Hkey|].
    destruct Hkey as [k [_ [_ Hk]]]. intros drawn. rewrite Hk. reflexivity.
  - intros Htrk Hrte Hwpt. unfold parseGPX. rewrite Htrk, Hrte, Hwpt.
    reflexivity.
Qed.

Lemma parseGPX_features_witness :
  parseGPX [Element "gpx" [] [Comment "nothing recorded"]]
  = {| features := Some [] |}.
Proof.
  exact (proj2 (parseGPX_features_are_in_order SampleHost.host
                  [Element "gpx" [] [Comment "nothing recorded"]])
           eq_refl eq_refl eq_refl).
Defined.

(** ** [exportToJOSM]: the checks before the document is sent *)

Section ExportCheck.
Context {host : Host}.

Definition emptyXmlMessage : string :=
  "Error: Generated OSM XML is empty. Please check your data.".
Definition noElementsMessage : string :=
  "Error: Generated OSM XML contains no nodes or ways. Please check your data.".

(** [exportToJOSM] up to the call of [sendToJOSM]: the document handed to
    it, or the alert. *)
Definition exportToJOSM (this : TaskManager) (sequenceId : string)
  (time : nat) : Checked string :=
  match find (fun s => String.eqb (seq_id s) sequenceId) (sequences this) with
  | None => Alerts "Sequence not found"
  | Some sequence =>
      let josmXml := generateJOSM sequence time in
      if negb (JS.nonEmpty josmXml)
         || Nat.eqb (String.length (JS.trim josmXml)) 0
      then Alerts emptyXmlMessage
      else if negb (JS.includes josmXml "<node")
              && negb (JS.includes josmXml "<way")
      then Alerts noElementsMessage
      else GoesOn josmXml
  end.

Lemma prefix_app (t a b : string) :
  prefix t a = true -> prefix t (a +++ b) = true.
Proof.
  revert a. induction t as [|c t IH]; intros a;
    [intros _; destruct a; destruct b; reflexivity|].
  destruct a as [|x a]; [discriminate|].
  cbn [prefix String.append]. destruct (ascii_dec c x); [apply IH|discriminate].
Qed.

Lemma includes_app_l (a b t : string) :
  JS.includes a t = true -> JS.includes (a +++ b) t = true.
Proof.
  induction a as [|x a IH].
  - cbn [JS.includes]. rewrite orb_false_r. intros H.
    destruct t; [|discriminate].
    destruct b; reflexivity.
  - cbn [JS.includes String.append]. intros H.
    apply orb_true_iff in H as [H|H].
    + change (String x (a +++ b)) with (String x a +++ b).
      rewrite (prefix_app _ _ b H). reflexivity.
    + rewrite (IH H). apply orb_true_r.
Qed.

Lemma includes_app_r (a b t : string) :
  JS.includes b t = true -> JS.includes (a +++ b) t = true.
Proof.
  intros H. induction a as [|x a IH]; [exact H|].
  cbn [String.append JS.includes]. rewrite IH. apply orb_true_r.
Qed.

Lemma renderNode_includes (node : OsmNode) :
  JS.includes (renderNode node) "<node" = true.
Proof. reflexivity. Qed.

Lemma concatAll_includes (parts : list string) (part t : string) :
  In part parts -> JS.includes part t = true ->
  JS.includes (concatAll parts) t = true.
Proof.
  intros Hin Ht. induction parts as [|p parts IH]; [destruct Hin|].
  cbn [concatAll]. destruct Hin as [->|Hin].
  - apply includes_app_l, Ht.
  - apply includes_app_r, IH, Hin.
Qed.

Lemma generateJOSM_not_blank (sequence : Sequence) (time : nat) :
  JS.nonEmpty (generateJOSM sequence time) = true /\
  Nat.eqb (String.length (JS.trim (generateJOSM sequence time))) 0 = false.
Proof.
  rewrite generateJOSM_elements. unfold xmlProlog.
  cbn [String.append].
  split; [reflexivity|].
  match goal with
  | |- context [JS.trim (String ?c ?r)] =>
      destruct (trim_keeps_head c r eq_refl) as [t ->]
  end.
  reflexivity.
Qed.
End ExportCheck.

(** X25.  The checks of [exportToJOSM].  An id that no sequence has ends in
    the alert that the sequence was not found.  For the first sequence with
    the id, the alert about an empty document is never raised, and when the
    sequence has a coordinate in any of its features the document of
    [generateJOSM] is handed to [sendToJOSM] as it is. *)
Theorem exportToJOSM_sends_what_has_a_node :
  forall (host : Host) (this : TaskManager) (sequenceId : string)
         (time : nat),
    ((forall s, In s (sequences this) -> seq_id s <> sequenceId) ->
     exportToJOSM this sequenceId time = Alerts "Sequence not found") /\
    exportToJOSM this sequenceId time <> Alerts emptyXmlMessage /\
    (forall sequence c,
        find (fun s => String.eqb (seq_id s) sequenceId) (sequences this)
        = Some sequence ->
        In c (allCoords (seq_features sequence)) ->
        exportToJOSM this sequenceId time
        = GoesOn (generateJOSM sequence time)).
Proof.
  intros host this sequenceId time. unfold exportToJOSM. split; [|split].
  - intros Hnone.
    destruct (find _ (sequences this)) as [s|] eqn:E; [|reflexivity].
    apply find_some in E as [Hin Hid]. apply String.eqb_eq in Hid.
    destruct (Hnone s Hin Hid).
  - destruct (find _ (sequences this)) as [s|]; [|discriminate].
    cbv zeta. destruct (generateJOSM_not_blank s time) as [-> ->].
    cbn [negb orb]. destruct (_ && _); discriminate.
  - intros sequence c -> Hc. cbv zeta.
    destruct (generateJOSM_not_blank sequence time) as [-> ->].
    cbn [negb orb].
    assert (Hnode : JS.includes (generateJOSM sequence time) "<node" = true).
    { destruct (osmNodes_one_per_key sequence c Hc) as [n [Hone _]].
      assert (Hin : In n (osmNodes sequence)).
      { assert (H : In n (filter (fun n' => String.eqb (nodeKey n')
                                                       (coordKey c))
                                 (osmNodes sequence)))
          by (rewrite Hone; left; reflexivity).
        apply filter_In in H. exact (proj1 H). }
      rewrite generateJOSM_elements.
      apply includes_app_r, includes_app_l.
      apply (concatAll_includes _ (renderNode n));
        [apply in_map; exact Hin|apply renderNode_includes]. }
    rewrite Hnode. reflexivity.
Qed.

Lemma exportToJOSM_sends_witness :
  exists sequence,
    seq_id sequence = "A" /\
    exportToJOSM savedExample "A" 0 = GoesOn (generateJOSM sequence 0).
Proof.
  eexists. split; [|
    apply (proj2 (proj2 (exportToJOSM_sends_what_has_a_node SampleHost.host
                           savedExample "A" 0))
             _ (tenths 1030, tenths 10) eq_refl);
    left; reflexivity].
  reflexivity.
Defined.

(** ** Which columns the CSV parser reads, and when it gives up *)

(** [col.toLowerCase().trim()] against the four lists of names: by
    equality for the array and the id column, by inclusion for latitude and
    longitude. *)
Definition isArrayColumn (col : string) : bool :=
  existsb (fun name => String.eqb (JS.trim (JS.toLowerCase col)) name)
          latLongArrayNames.
Definition isLatColumn (col : string) : bool :=
  existsb (fun name => JS.includes (JS.trim (JS.toLowerCase col)) name)
          latNames.
Definition isLonColumn (col : string) : bool :=
  existsb (fun name => JS.includes (JS.trim (JS.toLowerCase col)) name)
          lonNames.
Definition isIdColumn (col : string) : bool :=
  existsb (fun name => String.eqb (JS.trim (JS.toLowerCase col)) name)
          seqIdNames.

(** [index] is the place of the first column of [header] that [p] holds
    of; [None] when there is none. *)
Definition firstColumn (p : string -> bool) (header : list string)
  (index : option nat) : Prop :=
  match index with
  | Some i =>
      (exists col, nth_error header i = Some col /\ p col = true) /\
      (forall j col, j < i -> nth_error header j = Some col -> p col = false)
  | None => forall col, In col header -> p col = false
  end.

Lemma firstColumn_snoc (p : string -> bool) (seen : list string)
  (col : string) (index : option nat) :
  firstColumn p seen index ->
  firstColumn p (seen ++ [col])
    (firstMatch index (p col) (List.length seen)).
Proof.
  unfold firstColumn, firstMatch. destruct index as [i|].
  - intros [[c [Hc Hp]] Hbefore]. split.
    + exists c. split; [|exact Hp].
      rewrite nth_error_app1; [exact Hc|].
      apply nth_error_Some. rewrite Hc. discriminate.
    + intros j c' Hj Hc'. apply (Hbefore j c' Hj).
      rewrite nth_error_app1 in Hc'; [exact Hc'|].
      assert (i < List.length seen)
        by (apply nth_error_Some; rewrite Hc; discriminate).
      lia.
  - intros Hnone. destruct (p col) eqn:Hp.
    + split.
      * exists col. split; [|exact Hp].
        rewrite nth_error_app2, Nat.sub_diag by lia. reflexivity.
      * intros j c' Hj Hc'. apply Hnone.
        rewrite nth_error_app1 in Hc' by exact Hj.
        exact (nth_error_In _ _ Hc').
    + intros c' Hin. apply in_app_or in Hin as [Hin|[<-|[]]];
        [exact (Hnone c' Hin)|exact Hp].
Qed.

(** What the loop over the header keeps true, [seen] being the columns
    passed. *)
Definition columnsOf (seen : list string) (c : Columns) : Prop :=
  firstColumn isArrayColumn seen (latLongArrayIndex c) /\
  firstColumn isLatColumn seen (latIndex c) /\
  firstColumn isLonColumn seen (lonIndex c) /\
  firstColumn isIdColumn seen (sequenceIdIndex c).

Lemma findColumns_col_keeps (seen : list string) (col : string)
  (c : Columns) :
  columnsOf seen c ->
  columnsOf (seen ++ [col]) (findColumns_col col (List.length seen) c).
Proof.
  intros [Ha [Hla [Hlo Hid]]]. unfold findColumns_col. cbv zeta.
  repeat split; cbn [latLongArrayIndex latIndex lonIndex sequenceIdIndex].
  - exact (firstColumn_snoc isArrayColumn seen col _ Ha).
  - exact (firstColumn_snoc isLatColumn seen col _ Hla).
  - exact (firstColumn_snoc isLonColumn seen col _ Hlo).
  - exact (firstColumn_snoc isIdColumn seen col _ Hid).
Qed.

Lemma findColumns_loop (rest : list string) :
  forall (seen : list string) (c : Columns),
    columnsOf seen c ->
    columnsOf (seen ++ rest)
      (fold_left (fun acc xi => findColumns_col (fst xi) (snd xi) acc)
         (combine rest (seq (List.length seen) (List.length rest))) c).
Proof.
  induction rest as [|col rest IH]; intros seen c Hc.
  - rewrite app_nil_r. exact Hc.
  - cbn [List.length seq combine fold_left fst snd].
    pose proof (IH (seen ++ [col]) _ (findColumns_col_keeps seen col c Hc))
      as Hrest.
    rewrite <- app_assoc, length_app in Hrest. cbn [List.length app] in Hrest.
    rewrite Nat.add_1_r in Hrest. exact Hrest.
Qed.

Lemma findColumns_first (header : list string) :
  columnsOf header (findColumns header).
Proof.
  unfold findColumns, JS.forEachIndexed.
  apply (findColumns_loop header []).
  repeat split; intros col [].
Qed.

(** X26.  [findColumns] takes the first column of each kind: the first
    whose trimmed lower-case name is one of the array names, the first
    whose name contains a latitude name, the first whose name contains a
    longitude name, and the first whose name is one of the id names; later
    columns of the kind are not looked at, and an index is -1 exactly when
    the header has no column of the kind. *)
Theorem findColumns_takes_the_first_of_each_kind :
  forall header : list string,
    firstColumn isArrayColumn header (latLongArrayIndex (findColumns header))
    /\ firstColumn isLatColumn header (latIndex (findColumns header))
    /\ firstColumn isLonColumn header (lonIndex (findColumns header))
    /\ firstColumn isIdColumn header (sequenceIdIndex (findColumns header)).
Proof.
  intros header. unfold findColumns, JS.forEachIndexed.
  apply (findColumns_loop header []).
  repeat split; intros col [].
Qed.

Section CsvErrors.
Context {host : Host}.

Lemma noCoordinateColumns_iff (header : list string) :
  noCoordinateColumns (findColumns header) = true <->
  (forall col, In col header -> isArrayColumn col = false) /\
  ((forall col, In col header -> isLatColumn col = false) \/
   (forall col, In col header -> isLonColumn col = false)).
Proof.
  destruct (findColumns_first header) as [Ha [Hla [Hlo _]]].
  unfold noCoordinateColumns, firstColumn in *.
  destruct (latLongArrayIndex (findColumns header)) as [a|].
  - split; [discriminate|]. intros [Hnone _].
    destruct Ha as [[col [Hcol Hp]] _].
    rewrite (Hnone col (nth_error_In _ _ Hcol)) in Hp. discriminate.
  - destruct (latIndex (findColumns header)) as [la|].
    + destruct (lonIndex (findColumns header)) as [lo|].
      * split; [discriminate|]. intros [_ [Hnone|Hnone]].
        -- destruct Hla as [[col [Hcol Hp]] _].
           rewrite (Hnone col (nth_error_In _ _ Hcol)) in Hp. discriminate.
        -- destruct Hlo as [[col [Hcol Hp]] _].
           rewrite (Hnone col (nth_error_In _ _ Hcol)) in Hp. discriminate.
      * split; [|reflexivity]. intros _. split; [exact Ha|right; exact Hlo].
    + split; [|reflexivity]. intros _. split; [exact Ha|left; exact Hla].
Qed.
End CsvErrors.

(** The header has no array column and lacks a latitude column or a
    longitude column. *)
Definition lacksCoordinateColumns (header : list string) : Prop :=
  (forall col, In col header -> isArrayColumn col = false) /\
  ((forall col, In col header -> isLatColumn col = false) \/
   (forall col, In col header -> isLonColumn col = false)).

(** X27.  When [parseCSVSync] gives up.  It throws the error about the
    rows exactly when fewer than two lines of the text hold more than white
    space; it throws the error about the columns exactly when there are two
    such lines or more and the header has no array column and lacks a
    latitude column or a longitude column; in every other case it returns a
    feature collection. *)
Theorem parseCSVSync_gives_up_exactly_when :
  forall (host : Host) (csvText : string),
    let header := parseCSVLine (nth 0 (csvLines csvText) "") in
    (parseCSVSync csvText = Thrown noRowsMessage <->
     List.length (csvLines csvText) < 2) /\
    (parseCSVSync csvText = Thrown noColumnsMessage <->
     2 <= List.length (csvLines csvText) /\ lacksCoordinateColumns header) /\
    ((exists geojson, parseCSVSync csvText = Returned geojson) <->
     2 <= List.length (csvLines csvText) /\
     ~ lacksCoordinateColumns header).
Proof.
  intros host csvText. cbv zeta. unfold parseCSVSync, lacksCoordinateColumns.
  cbv zeta.
  pose proof (noCoordinateColumns_iff
                (parseCSVLine (nth 0 (csvLines csvText) ""))) as Hcols.
  destruct (Nat.ltb_spec (List.length (csvLines csvText)) 2) as [Hlt|Hge].
  - split; [|split].
    + split; [intros _; exact Hlt|reflexivity].
    + split; [discriminate|]. intros [Hge _]. lia.
    + split; [intros [g Hg]; discriminate|]. intros [Hge _]. lia.
  - destruct (noCoordinateColumns _) eqn:Hno.
    + split; [|split].
      * split; [discriminate|]. intros Hlt. lia.
      * split; [|reflexivity]. intros _. split; [exact Hge|].
        apply Hcols. reflexivity.
      * split; [intros [g Hg]; discriminate|].
        intros [_ Hnot]. destruct Hnot. apply Hcols. reflexivity.
    + split; [|split].
      * split; [discriminate|]. intros Hlt. lia.
      * split; [discriminate|]. intros [_ Hnone].
        apply Hcols in Hnone. discriminate.
      * split; [|intros _; eexists; reflexivity].
        intros _. split; [exact Hge|]. intros Hnone.
        apply Hcols in Hnone. discriminate.
Qed.

Lemma parseCSVSync_gives_up_witness :
  List.length (csvLines "sequence_id,lat,lon") < 2 /\
  parseCSVSync "sequence_id,lat,lon" = Thrown noRowsMessage.
Proof.
  assert (Hlt : List.length (csvLines "sequence_id,lat,lon") < 2)
    by (vm_compute; lia).
  split; [exact Hlt|].
  exact (proj2 (proj1 (parseCSVSync_gives_up_exactly_when SampleHost.host
                         "sequence_id,lat,lon")) Hlt).
Defined.

(** ** [switchView]: a click on a tab *)

Lemma view_of_resetToFirstInView (this : TaskManager) :
  getCurrentViewSequences (resetToFirstInView this)
  = getCurrentViewSequences this.
Proof.
  rewrite !getCurrentViewSequences_filter. unfold resetToFirstInView.
  destruct (getCurrentViewSequences this); reflexivity.
Qed.

(** X28.  A click on a tab, [switchView] without a target, shows the first
    task of the tab: the view is the one asked for, the sequences and the
    GeoJSON stay, and with distinct ids the current sequence is the first
    sequence of the new view; when the view is empty the index is 0.  A
    target id that no sequence has is passed over, and a second click on the
    same tab changes nothing. *)
Theorem switchView_shows_the_first_of_the_view :
  forall (this : TaskManager) (view : string),
    NoDup (map seq_id (sequences this)) ->
    let after := switchView this view None in
    sequences after = sequences this /\
    geojsonData after = geojsonData this /\
    currentView after = view /\
    match getCurrentViewSequences after with
    | first :: _ =>
        sequenceAt (sequences after) (currentIndex after) = Some first
    | [] => currentIndex after = 0%Z
    end /\
    (forall id, (forall s, In s (sequences this) -> seq_id s <> id) ->
                switchView this view (Some id) = after) /\
    switchView after view None = after.
Proof.
  intros this view Hnd. cbv zeta.
  assert (Hafter : switchView this view None
                   = resetToFirstInView (withCurrentView this view)).
  { unfold switchView. cbv zeta. cbn [Z.leb Z.compare].
    apply resetToFirstInView_drawn. }
  rewrite Hafter.
  set (this1 := withCurrentView this view).
  assert (Hview : getCurrentViewSequences (resetToFirstInView this1)
                  = getCurrentViewSequences this1)
    by apply view_of_resetToFirstInView.
  assert (Hfields : sequences (resetToFirstInView this1) = sequences this /\
                    geojsonData (resetToFirstInView this1) = geojsonData this
                    /\ currentView (resetToFirstInView this1) = view).
  { unfold resetToFirstInView.
    destruct (getCurrentViewSequences this1); repeat split. }
  destruct Hfields as [Hseqs [Hgeo Hcur]].
  split; [exact Hseqs|]. split; [exact Hgeo|]. split; [exact Hcur|].
  split; [|split].
  - rewrite Hview, Hseqs.
    destruct (getCurrentViewSequences this1) as [|first rest] eqn:Eview.
    + unfold resetToFirstInView. rewrite Eview. reflexivity.
    + destruct (go_to_member_of_view this1 first Hnd) as [_ Hat].
      { rewrite Eview. left. reflexivity. }
      unfold resetToFirstInView. rewrite Eview. exact Hat.
  - intros id Hnone. unfold switchView. cbv zeta.
    assert (Hidx : findIndex (hasId id) (sequences (withCurrentView this view))
                   = (-1)%Z).
    { destruct (findIndex_cases (hasId id)
                  (sequences (withCurrentView this view)))
        as [[Hm _]|[pre [x [post [Hl [_ [Hx _]]]]]]]; [exact Hm|].
      exfalso. apply (Hnone x).
      - change (sequences (withCurrentView this view))
          with (sequences this) in Hl.
        rewrite Hl. apply in_or_app. right. left. reflexivity.
      - apply String.eqb_eq. exact Hx. }
    rewrite Hidx. cbn [Z.leb Z.compare]. apply resetToFirstInView_drawn.
  - unfold switchView. cbv zeta. cbn [Z.leb Z.compare].
    assert (Hsame : withCurrentView (resetToFirstInView this1) view
                    = resetToFirstInView this1).
    { unfold withCurrentView. revert Hcur.
      destruct (resetToFirstInView this1) as [g l i v].
      cbn [currentView geojsonData sequences currentIndex].
      intros ->. reflexivity. }
    rewrite Hsame, resetToFirstInView_drawn.
    unfold resetToFirstInView at 1. rewrite Hview.
    unfold resetToFirstInView.
    destruct (getCurrentViewSequences this1); reflexivity.
Qed.

Lemma switchView_shows_witness :
  sequenceAt (sequences (switchView (threeTasks "all" 0) "active" None))
             (currentIndex (switchView (threeTasks "all" 0) "active" None))
  = Some activeB.
Proof.
  exact (proj1 (proj2 (proj2 (proj2
    (switchView_shows_the_first_of_the_view (threeTasks "all" 0) "active"
       (threeTasks_ids "all" 0)))))).
Defined.

(** ** The counts shown and the elements exported *)

Section CountsAndExport.
Context {host : Host}.





End CountsAndExport.



(** ** A status that is set, saved and loaded *)

Section StatusSaved.
Context {host : Host}.

(** What [updateStatus] hands to the store: it saves right after
    [sequence.status = newStatus], before it looks at the view and the
    index; nothing is saved when no sequence has the id. *)
Definition updateStatus_saved (this : TaskManager)
  (sequenceId newStatus : string) : option (TaskData * option GeoJSON) :=
  if existsb (fun s => String.eqb (seq_id s) sequenceId) (sequences this)
  then Some (saveToStorage
               {| geojsonData := geojsonData this;
                  sequences :=
                    setStatusOfFirst (sequences this) sequenceId newStatus;
                  currentIndex := currentIndex this;
                  currentView := currentView this |})
  else None.

Lemma setStatusOfFirst_from (l : list Sequence) (K newStatus : string)
  (s' : Sequence) :
  In s' (setStatusOfFirst l K newStatus) ->
  exists s, In s l /\ seq_id s' = seq_id s /\
            seq_features s' = seq_features s /\
            featureCount s' = featureCount s.
Proof.
  induction l as [|s l IH]; cbn [setStatusOfFirst]; [intros []|].
  destruct (String.eqb (seq_id s) K).
  - intros [<-|Hin].
    + exists s. split; [left; reflexivity|]. repeat split.
    + exists s'. split; [right; exact Hin|]. repeat split.
  - intros [<-|Hin].
    + exists s. split; [left; reflexivity|]. repeat split.
    + destruct (IH Hin) as [x [Hx Hsame]]. exists x.
      split; [right; exact Hx|exact Hsame].
Qed.

Lemma setStatusOfFirst_sets (l : list Sequence) (K newStatus : string)
  (s : Sequence) :
  NoDup (map seq_id l) -> In s l ->
  In (if String.eqb (seq_id s) K then withStatus s newStatus else s)
     (setStatusOfFirst l K newStatus).
Proof.
  induction l as [|x l IH]; intros Hnd Hin; [destruct Hin|].
  inversion Hnd as [|? ? Hnotin Hnd']; subst.
  cbn [setStatusOfFirst]. destruct Hin as [->|Hin].
  - destruct (String.eqb (seq_id s) K); left; reflexivity.
  - destruct (String.eqb (seq_id x) K) eqn:Ex.
    + apply String.eqb_eq in Ex.
      destruct (String.eqb (seq_id s) K) eqn:Es.
      * apply String.eqb_eq in Es. exfalso. apply Hnotin.
        rewrite Ex, <- Es. apply in_map. exact Hin.
      * right. exact Hin.
    + right. apply IH; assumption.
Qed.

Lemma setStatusOfFirst_filed (this : TaskManager) (feats : list Feature)
  (w w' : World) (K newStatus : string) :
  filedUnderKeys feats w this w' ->
  filedUnderKeys feats w
    {| geojsonData := geojsonData this;
       sequences := setStatusOfFirst (sequences this) K newStatus;
       currentIndex := currentIndex this;
       currentView := currentView this |} w'.
Proof.
  intros [Hseqs [Hcover [Hnd Hdraws]]]. unfold filedUnderKeys. cbv zeta.
  cbn [sequences]. split; [|split; [|split]].
  - intros s' Hs'.
    destruct (setStatusOfFirst_from _ _ _ _ Hs') as [s [Hs [Hid [Hfs Hn]]]].
    rewrite Hid, Hfs, Hn. exact (Hseqs s Hs).
  - intros k f Hin. destruct (Hcover k f Hin) as [s [Hs Hid]].
    assert (Hk : In k (map seq_id
                         (setStatusOfFirst (sequences this) K newStatus))).
    { rewrite setStatusOfFirst_ids, <- Hid. apply in_map. exact Hs. }
    apply in_map_iff in Hk as [s' [Hid' Hs']]. exists s'.
    split; [exact Hs'|exact Hid'].
  - rewrite setStatusOfFirst_ids. exact Hnd.
  - exact Hdraws.
Qed.

(** The sequences loaded from what was saved of a state. *)
Lemma reload_sequences (this fresh : TaskManager) (feats : list Feature)
  (w0 w0' w : World) :
  sortPermutes host ->
  geojsonData this = Some {| features := Some feats |} ->
  (forall f, In f feats -> hasOwnKey f) ->
  filedUnderKeys feats w0 this w0' ->
  Permutation
    (sequences
       (fst (loadFromStorage fresh w (Some (fst (saveToStorage this)))
               (snd (saveToStorage this)))))
    (map (reloaded (Date_toLocaleDateString (now w))) (sequences this)).
Proof.
  intros Hsort Hgeo Hown Hfiled.
  unfold saveToStorage. cbn [fst snd]. rewrite Hgeo.
  destruct (loadFromStorage_with_features fresh w
              {| savedSequences :=
                   Some (map (fun seq => {| saved_id := seq_id seq;
                                            saved_status := status seq |})
                             (sequences this));
                 savedIndex := Some (currentIndex this);
                 savedView := Some (currentView this) |}
              _ feats eq_refl) as [Hseqs _].
  apply (loaded_sequences this feats w0 w0' w _ _ Hown Hfiled).
  rewrite Hseqs. apply Hsort.
Qed.
End StatusSaved.

(** X30.  A status that is set is the status loaded.  In a state whose
    GeoJSON holds the features its sequences are filed from, each with a key
    of its own, [updateStatus] on the id of a sequence hands the store the
    state with the new status and with the index as it was before the call;
    loading that gives the sequence back with its features and the new
    status, and every other sequence with the status it had ([undefined]
    read as blank).  (The host's sort rearranges.) *)
Theorem status_set_is_status_loaded :
  forall (host : Host) (this fresh : TaskManager) (feats : list Feature)
         (w0 w0' w : World) (s : Sequence) (newStatus : string),
    sortPermutes host ->
    geojsonData this = Some {| features := Some feats |} ->
    (forall f, In f feats -> hasOwnKey f) ->
    filedUnderKeys feats w0 this w0' ->
    In s (sequences this) ->
    exists taskData stored,
      updateStatus_saved this (seq_id s) newStatus = Some (taskData, stored)
      /\ savedIndex taskData = Some (currentIndex this) /\
      let loaded :=
        sequences (fst (loadFromStorage fresh w (Some taskData) stored)) in
      let today := Date_toLocaleDateString (now w) in
      List.length loaded = List.length (sequences this) /\
      (exists s', In s' loaded /\ seq_id s' = seq_id s /\
                  seq_features s' = seq_features s /\
                  status s' = Some newStatus) /\
      (forall t, In t (sequences this) -> seq_id t <> seq_id s ->
                 In (reloaded today t) loaded).
Proof.
  intros host this fresh feats w0 w0' w s newStatus Hsort Hgeo Hown Hfiled Hs.
  unfold updateStatus_saved.
  assert (Hex : existsb (fun x => String.eqb (seq_id x) (seq_id s))
                        (sequences this) = true).
  { apply existsb_exists. exists s. split; [exact Hs|apply String.eqb_refl]. }
  rewrite Hex.
  set (this1 := {| geojsonData := geojsonData this;
                   sequences := setStatusOfFirst (sequences this) (seq_id s)
                                  newStatus;
                   currentIndex := currentIndex this;
                   currentView := currentView this |}).
  exists (fst (saveToStorage this1)), (snd (saveToStorage this1)).
  split; [reflexivity|]. split; [reflexivity|]. cbv zeta.
  pose proof (reload_sequences this1 fresh feats w0 w0' w Hsort Hgeo Hown
                (setStatusOfFirst_filed this feats w0 w0' (seq_id s)
                   newStatus Hfiled)) as Hperm.
  cbn [sequences this1] in Hperm.
  assert (Hnd : NoDup (map seq_id (sequences this)))
    by exact (proj1 (proj2 (proj2 Hfiled))).
  split; [|split].
  - rewrite (Permutation_length Hperm), length_map.
    rewrite <- (length_map seq_id), setStatusOfFirst_ids, length_map.
    reflexivity.
  - exists (reloaded (Date_toLocaleDateString (now w))
                     (withStatus s newStatus)).
    split; [|split; [reflexivity|split; [reflexivity|]]].
    + apply (Permutation_in _ (Permutation_sym Hperm)). apply in_map.
      pose proof (setStatusOfFirst_sets _ (seq_id s) newStatus s Hnd Hs)
        as Hin.
      rewrite String.eqb_refl in Hin. exact Hin.
    + cbn [reloaded withStatus status statusOrBlank].
      destruct newStatus; reflexivity.
  - intros t Ht Hne.
    apply (Permutation_in _ (Permutation_sym Hperm)). apply in_map.
    pose proof (setStatusOfFirst_sets _ (seq_id s) newStatus t Hnd Ht) as Hin.
    destruct (String.eqb (seq_id t) (seq_id s)) eqn:E; [|exact Hin].
    apply String.eqb_eq in E. contradiction.
Qed.

Lemma status_set_is_status_loaded_witness :
  exists taskData stored s',
    updateStatus_saved savedExample "B" "skipped" = Some (taskData, stored) /\
    In s' (sequences (fst (loadFromStorage emptyManager startWorld
                             (Some taskData) stored))) /\
    seq_id s' = "B" /\ status s' = Some "skipped".
Proof.
  destruct (status_set_is_status_loaded SampleHost.host savedExample
              emptyManager [exampleFeatureA; exampleFeatureB]
              startWorld startWorld startWorld
              {| seq_id := "B"; seq_features := [exampleFeatureB];
                 status := Some ""; date := "1/1/2026"; featureCount := 1;
                 nodeCount := 1; wayCount := 0 |}
              "skipped" sampleHost_sortPermutes eq_refl
              exampleFeatures_own_keys savedExample_filed
              (or_intror (or_introl eq_refl)))
    as [taskData [stored [Hsaved [_ [_ [[s' [Hin [Hid [_ Hst]]]] _]]]]]].
  exists taskData, stored, s'.
  split; [exact Hsaved|]. split; [exact Hin|]. split; [exact Hid|exact Hst].
Defined.

(** ** Re-aggregation: the keys that remain, and their statuses *)

Section Merge.
Context {host : Host}.

(** What a merge of the features [feats] into the state [this], begun in
    the world [w], leaves in [after]: the keys are those of the features;
    they are distinct; a key that had a status and has a feature has that
    status; a key not seen before is active; and of the sequences left each
    has the status its key had. *)
Definition mergedFrom (this : TaskManager) (w : World)
  (feats : list Feature) (after : TaskManager) : Prop :=
  let keys := map fst (keyed feats (draws w)) in
  (forall K, In K (map seq_id (sequences after)) <-> In K keys) /\
  NoDup (map seq_id (sequences after)) /\
  (forall old st,
      In old (sequences this) -> status old = Some st ->
      In (seq_id old) keys ->
      exists s', In s' (sequences after) /\ seq_id s' = seq_id old /\
                 status s' = Some st) /\
  (forall s', In s' (sequences after) ->
              (forall old, In old (sequences this) ->
                           seq_id old <> seq_id s') ->
              status s' = Some "") /\
  statusesKept this after.

Lemma mergedFrom_filed (this : TaskManager) (w w' : World)
  (feats : list Feature) (after : TaskManager) :
  statusesKept this after ->
  NoDup (map seq_id (sequences after)) ->
  filedUnderKeys feats w after w' ->
  mergedFrom this w feats after.
Proof.
  intros Hkept Hnd [Hseqs [Hcover _]]. unfold mergedFrom. cbv zeta.
  assert (Hkeys : forall K, In K (map seq_id (sequences after)) <->
                            In K (map fst (keyed feats (draws w)))).
  { intros K. split.
    - intros Hin. apply in_map_iff in Hin as [s [<- Hs]].
      destruct (Hseqs s Hs) as [Hfs [Hne _]].
      destruct (featuresOf_some (seq_id s) (keyed feats (draws w)))
        as [f Hf]; [rewrite <- Hfs; exact Hne|].
      apply in_map_iff. exists (seq_id s, f). split; [reflexivity|exact Hf].
    - intros Hin. apply in_map_iff in Hin as [[k f] [<- Hkf]].
      destruct (Hcover k f Hkf) as [s [Hs Hid]].
      apply in_map_iff. exists s. split; [exact Hid|exact Hs]. }
  split; [exact Hkeys|]. split; [exact Hnd|]. split; [|split; [|exact Hkept]].
  - intros old st Hold Hst Hkey.
    apply Hkeys in Hkey. apply in_map_iff in Hkey as [s' [Hid Hs']].
    exists s'. split; [exact Hs'|]. split; [exact Hid|].
    exact (proj1 (Hkept s' Hs') old st Hold (eq_sym Hid) Hst).
  - intros s' Hs' Hnew. exact (proj2 (Hkept s' Hs') Hnew).
Qed.
End Merge.

(** C2 (as amended).  Re-aggregation rebuilds the sequences from the
    feature list: after [processGeoJSON] or [processGeoJSONAsync] the keys
    of the sequences are exactly the keys derived from the features of the
    list, each once, so a key that has no feature in the list is gone, and
    its status with it.  The status of a key that is there before and after
    is not changed: if key [K] had status [st] before the merge and the list
    has a feature with key [K], then [K] has status [st] after; a key not
    seen before has status [""].  Without a feature list [processGeoJSON]
    throws and [processGeoJSONAsync] leaves the state as it is.
    [updateStatus] sets the status of the sequence with the given key,
    leaves every other sequence as it was and keeps the order.  (Keys of the
    state are distinct, as the aggregator leaves them; the host's sort
    rearranges.) *)
Theorem reaggregation_keeps_statuses :
  forall (host : Host) (this : TaskManager) (w : World)
         (feats : list Feature) (progressCallback : bool),
    sortPermutes host ->
    NoDup (map seq_id (sequences this)) ->
    (exists after w',
        processGeoJSON this w {| features := Some feats |}
        = Returned (after, w') /\
        mergedFrom this w feats after) /\
    mergedFrom this w feats
      (fst (snd (processGeoJSONAsync this w {| features := Some feats |}
                   progressCallback))) /\
    (processGeoJSON this w {| features := None |}
     = Thrown "Invalid GeoJSON: missing features array" /\
     fst (snd (processGeoJSONAsync this w {| features := None |}
                 progressCallback)) = this) /\
    (forall K newStatus,
        let after := updateStatus this K newStatus in
        map seq_id (sequences after) = map seq_id (sequences this) /\
        forall s', In s' (sequences after) ->
                   if String.eqb (seq_id s') K
                   then status s' = Some newStatus
                   else In s' (sequences this)).
Proof.
  intros host this w feats cb Hsort Hnd.
  destruct (statuses_of_the_sequences_left host this w
              {| features := Some feats |} cb Hsort Hnd)
    as [Hsync [Hasync Hupdate]].
  split; [|split; [|split; [split; reflexivity|exact Hupdate]]].
  - destruct (processGeoJSON_filed this w feats Hsort)
      as [after [w' [Hret Hfiled]]].
    exists after, w'. split; [exact Hret|].
    destruct (Hsync after w' Hret) as [Hkept Hids].
    exact (mergedFrom_filed this w w' feats after Hkept Hids Hfiled).
  - cbv zeta in Hasync. destruct Hasync as [Hkept Hids].
    exact (mergedFrom_filed this w _ feats _ Hkept Hids
             (processGeoJSONAsync_filed this w feats cb Hsort)).
Qed.

Lemma reaggregation_keeps_statuses_witness :
  sortPermutes SampleHost.host /\
  NoDup (map seq_id (sequences managerWithDoneA)) /\
  exists after w' s',
    processGeoJSON managerWithDoneA startWorld
      {| features := Some [exampleFeatureA; exampleFeatureB] |}
    = Returned (after, w') /\
    In s' (sequences after) /\ seq_id s' = "A" /\ status s' = Some "done".
Proof.
  assert (Hnd : NoDup (map seq_id (sequences managerWithDoneA))).
  { simpl. constructor; [simpl; tauto|constructor]. }
  split; [exact sampleHost_sortPermutes|]. split; [exact Hnd|].
  destruct (reaggregation_keeps_statuses SampleHost.host managerWithDoneA
              startWorld [exampleFeatureA; exampleFeatureB] true
              sampleHost_sortPermutes Hnd)
    as [[after [w' [Hret [_ [_ [Hkept _]]]]]] _].
  destruct (Hkept doneA "done" (or_introl eq_refl) eq_refl
                  (or_introl eq_refl))
    as [s' [Hin [Hid Hst]]].
  exists after, w', s'. split; [exact Hret|]. split; [exact Hin|].
  split; [exact Hid|exact Hst].
Defined.

(** C2 (as stated) fails: a key without a feature in the list does not
    keep its status, it is dropped.  A had status "done"; after a merge of
    a list that has a feature for B only, no sequence has the key A. *)
Lemma reaggregation_drops_a_key_without_features :
  ~ (forall (host : Host) (this : TaskManager) (w : World)
            (feats : list Feature) (after : TaskManager) (w' : World),
        sortPermutes host ->
        NoDup (map seq_id (sequences this)) ->
        processGeoJSON this w {| features := Some feats |}
        = Returned (after, w') ->
        forall old st,
          In old (sequences this) -> status old = Some st ->
          exists s', In s' (sequences after) /\ seq_id s' = seq_id old /\
                     status s' = Some st).
Proof.
  intros H.
  assert (Hnd : NoDup (map seq_id (sequences managerWithDoneA))).
  { simpl. constructor; [simpl; tauto|constructor]. }
  assert (Hrun : exists after w',
            processGeoJSON managerWithDoneA startWorld
              {| features := Some [exampleFeatureB] |} = Returned (after, w')
            /\ map seq_id (sequences after) = ["B"]).
  { eexists. eexists. split; vm_compute; reflexivity. }
  destruct Hrun as [after [w' [Hret Hids]]].
  destruct (H SampleHost.host managerWithDoneA startWorld [exampleFeatureB]
              after w' sampleHost_sortPermutes Hnd Hret doneA "done"
              (or_introl eq_refl) eq_refl)
    as [s' [Hin [Hid _]]].
  assert (Hk : In (seq_id s') (map seq_id (sequences after)))
    by (apply in_map; exact Hin).
  rewrite Hids, Hid in Hk. destruct Hk as [Hk|[]]. discriminate Hk.
Qed.
